(** * The relationship-graph compiler of mutk (src/lib/relationship_graph.cpp)

    A shallow embedding of the pipeline behind
    [mutk::RelationshipGraph::Construct]: the graph builder, the edge-length
    scaler, the simplifier, the inheritance-model pruner, the finalizer and
    the elimination planner with its junction tree.

    Conventions of the embedding.
    - A [boost::adjacency_list] with [vecS] vertex storage is a list of vertex
      property bundles (the vertex descriptor is the position) together with
      the list of its edges in insertion order; [in_edges], [out_edges] and
      [edges] enumerate that list.
    - Exceptions are the [Throw] outcome, undefined behaviour of the C++
      program (reading a vector out of range, using an invalidated iterator,
      dereferencing a null heap handle) is the [Undefined] outcome.
    - Branch lengths are [float] and mutation rates [double], as in the
      source: IEEE 754 binary32 and binary64 numbers with the operations of
      [SpecFloat], rounding included. *)

From Stdlib Require Import List Bool Arith ZArith NArith QArith Lia String Ascii.
From Stdlib Require Import SpecFloat.
From Stdlib Require Import Permutation Sorted.
Import ListNotations.

Set Implicit Arguments.
Close Scope Q_scope.
Open Scope string_scope.
Open Scope list_scope.
Open Scope nat_scope.

(** ** Outcomes of a call *)

Inductive exn : Type :=
| PedigreeInvalid (what : string)
| SomaticParseError (what : string)
| InvalidSex (what : string)
| ModelUnsupported (what : string)
| NotADag.

Inductive undefined_behaviour : Type :=
| OutOfRangeRead (index : nat)
| InvalidatedIterator (container : nat)
| NullHandle (vertex : nat)
| UnmappedVertex (vertex : nat)
| OutOfFuel.  (* not a behaviour of the program: a bounded recursion of the
                 model ran out of its bound *)

Inductive result (A : Type) : Type :=
| Ok (a : A)
| Throw (e : exn)
| Undefined (u : undefined_behaviour).

Arguments Ok {A} a.
Arguments Throw {A} e.
Arguments Undefined {A} u.

Definition bind {A B : Type} (r : result A) (k : A -> result B) : result B :=
  match r with
  | Ok a => k a
  | Throw e => Throw e
  | Undefined u => Undefined u
  end.

Notation "'do' x <- c1 ; c2" := (bind c1 (fun x => c2))
  (at level 60, x name, c1 at next level, right associativity).

Fixpoint foldM {A S : Type} (f : S -> A -> result S) (l : list A) (s : S)
  : result S :=
  match l with
  | [] => Ok s
  | a :: l' => do s' <- f s a ; foldM f l' s'
  end.

(** ** Floating point

    [float] and [double] are the binary32 and binary64 formats: 24 and 53
    bits of precision, round to nearest with ties to even, an infinity on
    overflow.  The payload of a NaN is not modelled. *)

Definition float := spec_float.
Definition double := spec_float.

(** The conversions: to [double] it is exact, to [float] it rounds. *)
Definition to_double (x : spec_float) : double :=
  match x with
  | S754_finite s m e => binary_round 53 1024 s m e
  | _ => x
  end.

Definition to_float (x : spec_float) : float :=
  match x with
  | S754_finite s m e => binary_round 24 128 s m e
  | _ => x
  end.

(** The constants [m * 2^e] of each format. *)
Definition float_of (m e : Z) : float := binary_normalize 24 128 m e false.
Definition double_of (m e : Z) : double := binary_normalize 53 1024 m e false.

(** [x *= mu] for a [float] x and a [double] mu: the product is a [double],
    which the assignment converts to [float]. *)
Definition mul_assign (x : float) (mu : double) : float :=
  to_float (SFmul 53 1024 (to_double x) mu).

(** [x + y] for two [float]s. *)
Definition float_add (x y : float) : float := SFadd 24 128 x y.


(** ** The typed graph (mutk/detail/graph.hpp) *)

Definition vertex_t := nat.

Inductive Sex : Type := Autosomal | Male | Female | Unknown.

Inductive VertexType : Type := Founder | Germline | Somatic | Sample.

Definition Sex_eqb (a b : Sex) : bool :=
  match a, b with
  | Autosomal, Autosomal | Male, Male | Female, Female | Unknown, Unknown => true
  | _, _ => false
  end.

Definition VertexType_eqb (a b : VertexType) : bool :=
  match a, b with
  | Founder, Founder | Germline, Germline | Somatic, Somatic | Sample, Sample => true
  | _, _ => false
  end.

(** Modelled from the spec: the header that declares [EdgeType] is not part
    of the sources at hand; the spec describes it as a bitset over
    GERM_EDGE, SOMA_EDGE and LIB_EDGE, so the three flags are three distinct
    bits and [|], [&] are the bitwise operations. *)
Definition EdgeType := N.
Definition GERM_EDGE : EdgeType := 1%N.
Definition SOMA_EDGE : EdgeType := 2%N.
Definition LIB_EDGE : EdgeType := 4%N.

(** [edge_types[e] & GERM_EDGE] used as a condition. *)
Definition has_germ (t : EdgeType) : bool := negb (N.land t GERM_EDGE =? 0)%N.

Record VertexProp : Type := mkVertex {
  vertex_label : string;
  vertex_sex : Sex;
  vertex_ploidy : Z;
  vertex_type : VertexType
}.

Record Edge : Type := mkEdge {
  source : vertex_t;
  target : vertex_t;
  edge_length : float;
  edge_type : EdgeType
}.

Record Graph : Type := mkGraph {
  vertex_props : list VertexProp;
  edge_list : list Edge
}.

Definition empty_graph : Graph := mkGraph [] [].

Definition default_vertex : VertexProp := mkVertex EmptyString Unknown 0 Germline.

Definition num_vertices (g : Graph) : nat := List.length (vertex_props g).
Definition vertices (g : Graph) : list vertex_t := seq 0 (num_vertices g).
Definition edges (g : Graph) : list Edge := edge_list g.

Definition prop (g : Graph) (v : vertex_t) : VertexProp :=
  nth v (vertex_props g) default_vertex.
Definition labels (g : Graph) (v : vertex_t) : string := vertex_label (prop g v).
Definition sexes (g : Graph) (v : vertex_t) : Sex := vertex_sex (prop g v).
Definition ploidies (g : Graph) (v : vertex_t) : Z := vertex_ploidy (prop g v).
Definition types (g : Graph) (v : vertex_t) : VertexType := vertex_type (prop g v).

Definition in_edges (g : Graph) (v : vertex_t) : list Edge :=
  filter (fun e => target e =? v) (edge_list g).
Definition out_edges (g : Graph) (v : vertex_t) : list Edge :=
  filter (fun e => source e =? v) (edge_list g).
Definition in_degree (g : Graph) (v : vertex_t) : nat := List.length (in_edges g v).
Definition out_degree (g : Graph) (v : vertex_t) : nat := List.length (out_edges g v).
Definition degree (g : Graph) (v : vertex_t) : nat := in_degree g v + out_degree g v.

Definition add_vertex (p : VertexProp) (g : Graph) : Graph :=
  mkGraph (vertex_props g ++ [p]) (edge_list g).

Definition add_edge (u v : vertex_t) (len : float) (t : EdgeType) (g : Graph) : Graph :=
  mkGraph (vertex_props g) (edge_list g ++ [mkEdge u v len t]).

Definition remove_edge_if (p : Edge -> bool) (g : Graph) : Graph :=
  mkGraph (vertex_props g) (filter (fun e => negb (p e)) (edge_list g)).

Definition clear_vertex (v : vertex_t) (g : Graph) : Graph :=
  remove_edge_if (fun e => (source e =? v) || (target e =? v)) g.

Definition clear_in_edges (v : vertex_t) (g : Graph) : Graph :=
  remove_edge_if (fun e => target e =? v) g.

Fixpoint update_nth {A : Type} (n : nat) (f : A -> A) (l : list A) : list A :=
  match l, n with
  | [], _ => []
  | a :: l', O => f a :: l'
  | a :: l', S n' => a :: update_nth n' f l'
  end.

Definition put_vertex (v : vertex_t) (f : VertexProp -> VertexProp) (g : Graph) : Graph :=
  mkGraph (update_nth v f (vertex_props g)) (edge_list g).

Definition set_ploidy (p : Z) (x : VertexProp) : VertexProp :=
  mkVertex (vertex_label x) (vertex_sex x) p (vertex_type x).
Definition set_sex (s : Sex) (x : VertexProp) : VertexProp :=
  mkVertex (vertex_label x) s (vertex_ploidy x) (vertex_type x).
Definition set_type (t : VertexType) (x : VertexProp) : VertexProp :=
  mkVertex (vertex_label x) (vertex_sex x) (vertex_ploidy x) t.
Definition set_label (l : string) (x : VertexProp) : VertexProp :=
  mkVertex l (vertex_sex x) (vertex_ploidy x) (vertex_type x).

(** ** The inheritance-model pruner *)

Inductive InheritanceModel : Type :=
| ModelAutosomal | ModelXLinked | ModelYLinked | ModelWLinked | ModelZLinked
| ModelMaternal | ModelPaternal
| ModelOther.  (* any enumerator the switch of [prune] does not list *)

Definition prune_autosomal (g : Graph) : result Graph := Ok g.

Definition is_x (g : Graph) (e : Edge) : bool :=
  if negb (has_germ (edge_type e)) then false
  else Sex_eqb (sexes g (source e)) Female || Sex_eqb (sexes g (target e)) Female.

Definition prune_ylinked (g : Graph) : result Graph :=
  let g1 := remove_edge_if (is_x g) g in
  foldM (fun g v =>
           match sexes g v with
           | Female => Ok (put_vertex v (set_ploidy 0) (clear_vertex v g))
           | Male => Ok (put_vertex v (set_ploidy 1) g)
           | _ => if negb (out_degree g v =? 0)
                  then Throw (InvalidSex
                    "Y-linked inheritance requires every individual to have a known sex.")
                  else Ok g
           end) (vertices g1) g1.

Definition is_y (g : Graph) (e : Edge) : bool :=
  if negb (has_germ (edge_type e)) then false
  else Sex_eqb (sexes g (source e)) Male && Sex_eqb (sexes g (target e)) Male.

Definition prune_xlinked (g : Graph) : result Graph :=
  let g1 := remove_edge_if (is_y g) g in
  foldM (fun g v =>
           match sexes g v with
           | Female => Ok g
           | Male => Ok (put_vertex v (set_ploidy 1) g)
           | _ => if negb (out_degree g v =? 0)
                  then Throw (InvalidSex
                    "X-linked inheritance requires every individual to have a known sex.")
                  else Ok g
           end) (vertices g1) g1.

Definition is_z (g : Graph) (e : Edge) : bool :=
  if negb (has_germ (edge_type e)) then false
  else Sex_eqb (sexes g (source e)) Male || Sex_eqb (sexes g (target e)) Male.

Definition prune_wlinked (g : Graph) : result Graph :=
  let g1 := remove_edge_if (is_z g) g in
  foldM (fun g v =>
           match sexes g v with
           | Male => Ok (put_vertex v (set_ploidy 0) (clear_vertex v g))
           | Female => Ok (put_vertex v (set_ploidy 1) g)
           | _ => if negb (out_degree g v =? 0)
                  then Throw (InvalidSex
                    "W-linked inheritance requires every individual to have a known sex.")
                  else Ok g
           end) (vertices g1) g1.

Definition is_w (g : Graph) (e : Edge) : bool :=
  if negb (has_germ (edge_type e)) then false
  else Sex_eqb (sexes g (source e)) Female && Sex_eqb (sexes g (target e)) Female.

Definition prune_zlinked (g : Graph) : result Graph :=
  let g1 := remove_edge_if (is_w g) g in
  foldM (fun g v =>
           match sexes g v with
           | Male => Ok g
           | Female => Ok (put_vertex v (set_ploidy 1) g)
           | _ => if negb (out_degree g v =? 0)
                  then Throw (InvalidSex
                    "Z-linked inheritance requires every individual to have a known sex.")
                  else Ok g
           end) (vertices g1) g1.

Definition is_p (g : Graph) (e : Edge) : bool :=
  if negb (has_germ (edge_type e)) then false
  else Sex_eqb (sexes g (source e)) Male.

Definition prune_maternal (g : Graph) : result Graph :=
  let g1 := remove_edge_if (is_p g) g in
  Ok (fold_left (fun g v => put_vertex v (set_ploidy 1) g) (vertices g1) g1).

(** The predicate of [prune_paternal]; the source compares with
    [Sex::Male], as [is_p] does. *)
Definition is_m (g : Graph) (e : Edge) : bool :=
  if negb (has_germ (edge_type e)) then false
  else Sex_eqb (sexes g (source e)) Male.

Definition prune_paternal (g : Graph) : result Graph :=
  let g1 := remove_edge_if (is_m g) g in
  Ok (fold_left (fun g v => put_vertex v (set_ploidy 1) g) (vertices g1) g1).

Definition prune (g : Graph) (model : InheritanceModel) : result Graph :=
  match model with
  | ModelAutosomal => prune_autosomal g
  | ModelYLinked => prune_ylinked g
  | ModelXLinked => prune_xlinked g
  | ModelWLinked => prune_wlinked g
  | ModelZLinked => prune_zlinked g
  | ModelMaternal => prune_maternal g
  | ModelPaternal => prune_paternal g
  | ModelOther => Throw (ModelUnsupported
      "Selected inheritance model invalid or not implemented yet.")
  end.

(** A father and a mother with one child each way: vertex 0 is male,
    vertex 1 is female, vertex 2 is their child. *)
Definition trio : Graph :=
  mkGraph [ mkVertex "dad" Male 2 Germline;
            mkVertex "mom" Female 2 Germline;
            mkVertex "kid" Male 2 Germline ]
          [ mkEdge 0 2 (float_of 1 0) GERM_EDGE; mkEdge 1 2 (float_of 1 0) GERM_EDGE ].

(** ** The pedigree (mutk/pedigree.hpp) and the graph builder *)

Record Member : Type := mkMember {
  name : string;
  sex : Sex;
  dad : option string;
  mom : option string;
  dad_length : option float;
  mom_length : option float;
  tags : list string;
  samples : list string
}.

(** The name index of the pedigree is provided by the pedigree adapter; the
    builder only calls it, so it is a field of the pedigree here. *)
Record Pedigree : Type := mkPedigree {
  members : list Member;
  LookupMemberPosition : string -> nat
}.

Definition NumberOfMembers (p : Pedigree) : nat := List.length (members p).

Definition default_member : Member :=
  mkMember EmptyString Unknown None None None None [] [].

Definition GetMember (p : Pedigree) (i : nat) : Member := nth i (members p) default_member.

Definition is_some {A : Type} (o : option A) : bool :=
  match o with Some _ => true | None => false end.

Definition value_or {A : Type} (o : option A) (d : A) : A :=
  match o with Some a => a | None => d end.

(** [boost::algorithm::iequals]: comparison after folding the case of the
    ASCII letters. *)
Definition to_lower (c : ascii) : ascii :=
  let n := nat_of_ascii c in
  if (65 <=? n) && (n <=? 90) then ascii_of_nat (n + 32) else c.

Fixpoint lower (s : string) : string :=
  match s with
  | EmptyString => EmptyString
  | String c s' => String (to_lower c) (lower s')
  end.

Definition iequals (a b : string) : bool := String.eqb (lower a) (lower b).

Definition has_tag (member : Member) (tag : string) : bool :=
  existsb (fun a => iequals a tag) (tags member).

(** A read of a vertex property through [get(tag, graph, v)]: the vertex
    storage is a vector, a descriptor past its end reads out of range. *)
Definition get {A : Type} (f : VertexProp -> A) (g : Graph) (v : vertex_t) : result A :=
  match nth_error (vertex_props g) v with
  | Some p => Ok (f p)
  | None => Undefined (OutOfRangeRead v)
  end.

Definition add_edges_step (pedigree : Pedigree) (graph : Graph) (v : vertex_t)
  : result Graph :=
  let member := GetMember pedigree v in
  if has_tag member "founder" || (negb (is_some (dad member)) && negb (is_some (mom member)))
  then Ok graph
  else
    do ploidy <- get vertex_ploidy graph v ;
    if (ploidy =? 0)%Z then
      if is_some (dad member) && is_some (mom member) then
        Throw (PedigreeInvalid ("Unable to construct graph for pedigree; clone '"
                 ++ name member ++ "' has two parents instead of one.")%string)
      else
        let '(parent, len) :=
          match dad member with
          | Some d => (LookupMemberPosition pedigree d, value_or (dad_length member) (float_of 1 0))
          | None => (LookupMemberPosition pedigree (value_or (mom member) EmptyString),
                     value_or (mom_length member) (float_of 1 0))
          end in
        if NumberOfMembers pedigree <=? parent then
          Throw (PedigreeInvalid ("Unable to construct graph for pedigree; the clone parent of '"
                   ++ name member ++ "' is unknown.")%string)
        else
          let graph := add_edge parent v len GERM_EDGE graph in
          do ploidy <- get vertex_ploidy graph parent ;
          let graph := put_vertex v (set_ploidy ploidy) graph in
          do sex <- get vertex_sex graph parent ;
          Ok (put_vertex v (set_sex sex) graph)
    else if (ploidy =? 1)%Z then
      if is_some (dad member) && is_some (mom member) then
        Throw (PedigreeInvalid ("Unable to construct graph for pedigree; gamete '"
                 ++ name member ++ "' has two parents instead of one.")%string)
      else
        do pl <-
          match dad member with
          | Some d =>
              let parent := LookupMemberPosition pedigree d in
              let len := value_or (dad_length member) (float_of 1 0) in
              do s <- get vertex_sex graph parent ;
              if Sex_eqb s Female then
                Throw (PedigreeInvalid ("Unable to construct graph for pedigree; the father of '"
                         ++ name member ++ "' is female.")%string)
              else Ok (parent, len)
          | None =>
              let parent := LookupMemberPosition pedigree (value_or (mom member) EmptyString) in
              let len := value_or (mom_length member) (float_of 1 0) in
              do s <- get vertex_sex graph parent ;
              if Sex_eqb s Male then
                Throw (PedigreeInvalid ("Unable to construct graph for pedigree; the mother of '"
                         ++ name member ++ "' is male.")%string)
              else Ok (parent, len)
          end ;
        let '(parent, len) := pl in
        if NumberOfMembers pedigree <=? parent then
          Throw (PedigreeInvalid ("Unable to construct graph for pedigree; the parent of '"
                   ++ name member ++ "' is unknown.")%string)
        else Ok (add_edge parent v len GERM_EDGE graph)
    else
      match dad member, mom member with
      | None, _ =>
          Throw (PedigreeInvalid ("Unable to construct graph for pedigree; the father of '"
                   ++ name member ++ "' is unspecified.")%string)
      | Some _, None =>
          Throw (PedigreeInvalid ("Unable to construct graph for pedigree; the mother of '"
                   ++ name member ++ "' is unspecified.")%string)
      | Some d, Some m =>
          let dad := LookupMemberPosition pedigree d in
          let mom := LookupMemberPosition pedigree m in
          let dad_len := value_or (dad_length member) (float_of 1 0) in
          let mom_len := value_or (mom_length member) (float_of 1 0) in
          if NumberOfMembers pedigree <=? dad then
            Throw (PedigreeInvalid ("Unable to construct graph for pedigree; the father of '"
                     ++ name member ++ "' is unknown.")%string)
          else if NumberOfMembers pedigree <=? mom then
            Throw (PedigreeInvalid ("Unable to construct graph for pedigree; the mother of '"
                     ++ name member ++ "' is unknown.")%string)
          else
            do sd <- get vertex_sex graph dad ;
            if Sex_eqb sd Female then
              Throw (PedigreeInvalid ("Unable to construct graph for pedigree; the father of '"
                       ++ name member ++ "' is female.")%string)
            else
              do sm <- get vertex_sex graph mom ;
              if Sex_eqb sm Male then
                Throw (PedigreeInvalid ("Unable to construct graph for pedigree; the mother of '"
                         ++ name member ++ "' is male.")%string)
              else
                Ok (add_edge mom v mom_len GERM_EDGE (add_edge dad v dad_len GERM_EDGE graph))
      end.

Definition add_edges_to_pedigree_graph (pedigree : Pedigree) (graph : Graph)
  : result Graph :=
  foldM (add_edges_step pedigree) (vertices graph) graph.

Definition get_ploidy (member : Member) : Z :=
  let fix first_ploidy (l : list string) : option Z :=
    match l with
    | [] => None
    | a :: l' =>
        if iequals a "haploid" || iequals a "gamete" || iequals a "p=1" || iequals a "ploidy=1"
        then Some 1%Z
        else if iequals a "diploid" || iequals a "p=2" || iequals a "ploidy=2"
        then Some 2%Z
        else first_ploidy l'
    end in
  match first_ploidy (tags member) with
  | Some p => p
  | None => if existsb (fun a => iequals a "clone") (tags member) then 0%Z else 2%Z
  end.

(** Lines 553-565: somatic vertices whose label is a known sample become
    [Sample] vertices. *)
Definition mark_known_samples (known_samples : list string) (graph : Graph) : Graph :=
  fold_left (fun g v =>
               if negb (VertexType_eqb (types g v) Somatic) then g
               else if existsb (String.eqb (labels g v)) known_samples
                    then put_vertex v (set_type Sample) g
                    else g)
            (vertices graph) graph.

Section Builder.

(** [mutk::detail::parse_newick(text, graph, anchor, normalize)]: the Newick
    parser is external to this file; it returns whether the text parsed and
    leaves the somatic tree attached to the graph. *)
Variable parse_newick : string -> Graph -> vertex_t -> bool -> bool * Graph.

Definition construct_pedigree_graph (pedigree : Pedigree) (known_samples : list string)
    (normalize_somatic_trees : bool) : result Graph :=
  let graph := empty_graph in
  let graph :=
    fold_left (fun g j =>
                 let member := GetMember pedigree j in
                 add_vertex (mkVertex (name member) (sex member) (get_ploidy member) Germline) g)
              (seq 0 (NumberOfMembers pedigree)) graph in
  do graph <- add_edges_to_pedigree_graph pedigree graph ;
  do graph <-
    foldM (fun g i =>
             foldM (fun g sample =>
                      let '(ok, g') := parse_newick sample g i normalize_somatic_trees in
                      if negb ok then
                        Throw (SomaticParseError ("Unable to parse somatic data for individual '"
                                 ++ name (GetMember pedigree i) ++ "'.")%string)
                      else Ok g')
                   (samples (GetMember pedigree i)) g)
          (seq 0 (NumberOfMembers pedigree)) graph ;
  Ok (mark_known_samples known_samples graph).

End Builder.

(** ** The edge-length scaler *)

Definition update_edge_lengths (graph : Graph) (mu_germ mu_soma : double) : Graph :=
  mkGraph (vertex_props graph)
    (map (fun e =>
            if has_germ (edge_type e)
            then mkEdge (source e) (target e) (mul_assign (edge_length e) mu_germ)
                        (edge_type e)
            else mkEdge (source e) (target e) (mul_assign (edge_length e) mu_soma)
                        (edge_type e))
         (edge_list graph)).

(** ** [boost::topological_sort]

    A depth-first search from every vertex in index order, following the
    out-edges in their order; a vertex is emitted when it is finished, so the
    output is a reverse topological order; an edge to a vertex that is still
    open is a cycle and raises [not_a_dag]. *)

Inductive color : Type := White | Gray | Black.

Definition color_of (c : list color) (v : vertex_t) : color := nth v c Black.

Fixpoint dfs_visit (fuel : nat) (g : Graph) (u : vertex_t)
    (st : list color * list vertex_t) : result (list color * list vertex_t) :=
  match fuel with
  | O => Undefined OutOfFuel
  | S fuel' =>
      let st1 := (update_nth u (fun _ => Gray) (fst st), snd st) in
      do st2 <-
        foldM (fun st e =>
                 match color_of (fst st) (target e) with
                 | White => dfs_visit fuel' g (target e) st
                 | Gray => Throw NotADag
                 | Black => Ok st
                 end)
              (out_edges g u) st1 ;
      Ok (update_nth u (fun _ => Black) (fst st2), snd st2 ++ [u])
  end.

Definition topological_sort (g : Graph) : result (list vertex_t) :=
  do st <-
    foldM (fun st u =>
             match color_of (fst st) u with
             | White => dfs_visit (S (num_vertices g)) g u st
             | _ => Ok st
             end)
          (vertices g) (repeat White (num_vertices g), []) ;
  Ok (snd st).

(** ** The simplifier *)

(** Pass A: clear the leaves that are not samples, from the tips. *)
Definition cull_leaf (graph : Graph) (v : vertex_t) : Graph :=
  if (out_degree graph v =? 0) && negb (VertexType_eqb (types graph v) Sample)
  then clear_vertex v graph
  else graph.

(** Pass B: unlink the founders that are summed out anyway. *)
Definition unlink_founders (graph : Graph) (v : vertex_t) : Graph :=
  if negb (VertexType_eqb (types graph v) Germline) then graph
  else
    let edge_range := in_edges graph v in
    match edge_range with
    | [] => graph
    | _ =>
        let all := forallb (fun e => degree graph (source e) =? 1) edge_range in
        if all then clear_in_edges v graph else graph
    end.

(** Pass C: bypass a vertex that has one out-edge. *)
Definition bypass (graph : Graph) (v : vertex_t) : Graph :=
  if (in_degree graph v =? 0) || negb (out_degree graph v =? 1) then graph
  else
    let in_edge_range := in_edges graph v in
    match out_edges graph v with
    | [] => graph
    | out_edge :: _ =>
        let child := target out_edge in
        if 2 <? in_degree graph child + in_degree graph v - 1 then graph
        else if negb (ploidies graph child =? ploidies graph v)%Z then graph
        else
          let len := edge_length out_edge in
          let otype := edge_type out_edge in
          let graph :=
            fold_left (fun g e =>
                         let etype := N.lor otype (edge_type e) in
                         let grand := source e in
                         add_edge grand child (float_add len (edge_length e)) etype g)
                      in_edge_range graph in
          clear_vertex v graph
    end.

Definition simplify_with (rev_topo_order : list vertex_t) (graph : Graph) : Graph :=
  let topo_order := rev rev_topo_order in
  let graph := fold_left cull_leaf rev_topo_order graph in
  let graph := fold_left unlink_founders topo_order graph in
  fold_left bypass topo_order graph.

Definition simplify (graph : Graph) : result Graph :=
  do rev_topo_order <- topological_sort graph ;
  Ok (simplify_with rev_topo_order graph).

(** ** The finalizer *)

Definition is_founder_band (input : Graph) (v : vertex_t) : bool :=
  (in_degree input v =? 0) && (0 <? out_degree input v)
  && VertexType_eqb (types input v) Germline.
Definition is_germline_band (input : Graph) (v : vertex_t) : bool :=
  (0 <? in_degree input v) && VertexType_eqb (types input v) Germline.
Definition is_somatic_band (input : Graph) (v : vertex_t) : bool :=
  (0 <? degree input v) && VertexType_eqb (types input v) Somatic.
Definition is_sample_band (input : Graph) (v : vertex_t) : bool :=
  (0 <? degree input v) && VertexType_eqb (types input v) Sample.

Definition vertex_order (topo_order : list vertex_t) (input : Graph) : list vertex_t :=
  filter (is_founder_band input) (rev topo_order)
  ++ filter (is_germline_band input) (rev topo_order)
  ++ filter (is_somatic_band input) (rev topo_order)
  ++ filter (is_sample_band input) (rev topo_order).

(** [map_in_to_out], a vector filled with -1 and written at [v] for each
    vertex of the order; [None] is the -1. *)
Definition map_in_to_out (order : list vertex_t) (input : Graph) : list (option vertex_t) :=
  snd (fold_left (fun '(w, m) v => (S w, update_nth v (fun _ => Some w) m))
                 order (0, repeat None (num_vertices input))).

Definition mapped (m : list (option vertex_t)) (v : vertex_t) : result vertex_t :=
  match nth v m None with
  | Some w => Ok w
  | None => Undefined (UnmappedVertex v)
  end.

Definition add_suffix (x : VertexProp) : VertexProp :=
  match vertex_type x with
  | Founder | Germline => set_label (vertex_label x ++ "/z")%string x
  | Somatic => set_label (vertex_label x ++ "/t")%string x
  | Sample => x
  end.

Definition finalize_with (topo_order : list vertex_t) (input : Graph) : result Graph :=
  let order := vertex_order topo_order input in
  let m := map_in_to_out order input in
  let output := fold_left (fun out v => add_vertex (prop input v) out) order empty_graph in
  do output <-
    foldM (fun out e =>
             do new_src <- mapped m (source e) ;
             do new_tgt <- mapped m (target e) ;
             Ok (add_edge new_src new_tgt (edge_length e) (edge_type e) out))
          (edges input) output ;
  Ok (mkGraph (map add_suffix (vertex_props output)) (edge_list output)).

Definition finalize (input : Graph) : result Graph :=
  do topo_order <- topological_sort input ;
  finalize_with topo_order input.

(** The stages of [Construct] between the builder and the elimination
    planner. *)
Definition compile (graph : Graph) (model : InheritanceModel) (mu mu_somatic : double)
  : result Graph :=
  let graph := update_edge_lengths graph mu mu_somatic in
  do graph <- simplify graph ;
  do graph <- prune graph model ;
  finalize graph.

(** ** The elimination planner *)

(** [boost::container::flat_set<vertex_t>]: a sorted vector without
    duplicates; an iterator is a position in it. *)
Definition flat_set := list vertex_t.

Fixpoint set_insert (x : vertex_t) (s : flat_set) : flat_set :=
  match s with
  | [] => [x]
  | y :: s' =>
      if x <? y then x :: s
      else if x =? y then s
      else y :: set_insert x s'
  end.

Fixpoint set_erase (x : vertex_t) (s : flat_set) : flat_set :=
  match s with
  | [] => []
  | y :: s' => if x =? y then s' else y :: set_erase x s'
  end.

Definition set_contains (x : vertex_t) (s : flat_set) : bool :=
  existsb (Nat.eqb x) s.

(** [std::includes] on two sorted ranges: is the second a subset of the
    first. *)
Fixpoint includes (l1 l2 : list vertex_t) {struct l2} : bool :=
  match l2 with
  | [] => true
  | b :: l2' =>
      (fix scan (l : list vertex_t) : bool :=
         match l with
         | [] => false
         | a :: l' =>
             if b <? a then false
             else if a <? b then scan l'
             else includes l' l2'
         end) l1
  end.

(** [boost::sort] on a small vector of vertices. *)
Fixpoint sort_insert (x : vertex_t) (l : list vertex_t) : list vertex_t :=
  match l with
  | [] => [x]
  | y :: l' => if x <=? y then x :: l else y :: sort_insert x l'
  end.

Definition sort (l : list vertex_t) : list vertex_t := fold_right sort_insert [] l.

Definition depends (graph : Graph) (v : vertex_t) : list vertex_t :=
  sort (map source (in_edges graph v)).

Definition potential_t := list vertex_t.

(** The vector is created with one (empty) entry per vertex and the factors
    are then pushed behind those entries. *)
Definition potentials (graph : Graph) : list potential_t :=
  fold_left (fun pots v =>
               let pots :=
                 if out_degree graph v =? 0 then pots ++ [[v]] else pots in
               if in_degree graph v =? 0 then pots ++ [[v]]
               else pots ++ [v :: depends graph v])
            (vertices graph)
            (repeat [] (num_vertices graph)).

Definition neighbors_t := list flat_set.

Definition nb_get (neighbors : neighbors_t) (v : vertex_t) : flat_set := nth v neighbors [].

Definition nb_insert (a b : vertex_t) (neighbors : neighbors_t) : neighbors_t :=
  update_nth a (set_insert b) neighbors.

Definition nb_erase (a b : vertex_t) (neighbors : neighbors_t) : neighbors_t :=
  update_nth a (set_erase b) neighbors.

(** The closure of one potential: every pair of its members becomes
    adjacent. *)
Fixpoint close_potential (p : potential_t) (neighbors : neighbors_t) : neighbors_t :=
  match p with
  | [] => neighbors
  | x1 :: p' =>
      close_potential p'
        (fold_left (fun nb x2 => nb_insert x2 x1 (nb_insert x1 x2 nb)) p' neighbors)
  end.

Definition closures (graph : Graph) : neighbors_t :=
  fold_left (fun nb p => close_potential p nb) (potentials graph)
            (repeat [] (num_vertices graph)).

Fixpoint fill_in_pairs (neighbors : neighbors_t) (k : list vertex_t) : Z :=
  match k with
  | [] => 0%Z
  | x1 :: k' =>
      (fold_left (fun fill x2 =>
                    if negb (set_contains x2 (nb_get neighbors x1))
                    then (fill + 1)%Z else fill) k' 0
       + fill_in_pairs neighbors k')%Z
  end.

Definition fill_in_count (neighbors : neighbors_t) (v : vertex_t) : Z :=
  fill_in_pairs neighbors (nb_get neighbors v).

Definition record_t := (Z * vertex_t)%type.

Definition record_cmp_t (a b : record_t) : bool :=
  if (fst a =? fst b)%Z then snd a <? snd b
  else (fst a >? fst b)%Z.

(** The mutable heap seen through its handles: entry [v] is [Some f] while
    the record [(f, v)] is in the heap (the handle of [v] points to it) and
    [None] once it was popped (the handle was reset).  [top] is the greatest
    record under the comparison, as for every [boost::heap]. *)
Definition heap_t := list (option Z).

Fixpoint top_from (i : vertex_t) (q : heap_t) (best : option record_t) : option record_t :=
  match q with
  | [] => best
  | o :: q' =>
      let best' :=
        match o, best with
        | Some f, None => Some (f, i)
        | Some f, Some b => if record_cmp_t b (f, i) then Some (f, i) else Some b
        | None, _ => best
        end in
      top_from (S i) q' best'
  end.

Definition top (q : heap_t) : option record_t := top_from 0 q None.

Definition pop (v : vertex_t) (q : heap_t) : heap_t := update_nth v (fun _ => None) q.

Definition update (a : vertex_t) (f : Z) (q : heap_t) : result heap_t :=
  match nth a q None with
  | None => Undefined (NullHandle a)
  | Some _ => Ok (update_nth a (fun _ => Some f) q)
  end.

(** The range-for over [k = neighbors[v]], a reference: the end of the range
    is taken once ([steps] iterations), the element at the position [i] is
    read from the set as it is at that moment, and [neighbors[a]] is [k]
    itself when [a == v]. *)
Fixpoint update_cliques (steps : nat) (i : nat) (v : vertex_t) (score : Z)
    (neighbors : neighbors_t) : result neighbors_t :=
  match steps with
  | O => Ok neighbors
  | S steps' =>
      match nth_error (nb_get neighbors v) i with
      | None => Undefined (InvalidatedIterator v)
      | Some a =>
          let neighbors :=
            if (score >? 0)%Z
            then fold_left (fun nb b => nb_insert a b nb) (nb_get neighbors v) neighbors
            else neighbors in
          update_cliques steps' (S i) v score (nb_erase a v neighbors)
      end
  end.

Record elim_state : Type := mkElim {
  st_neighbors : neighbors_t;
  st_queue : heap_t;
  st_order : list vertex_t
}.

Definition eliminate (score : Z) (v : vertex_t) (st : elim_state) : result elim_state :=
  let q := pop v (st_queue st) in
  let order := st_order st ++ [v] in
  do nb <- update_cliques (List.length (nb_get (st_neighbors st) v)) 0 v score
                          (st_neighbors st) ;
  do q <- foldM (fun q a => update a (fill_in_count nb a) q) (nb_get nb v) q ;
  Ok (mkElim nb q order).

Fixpoint elimination_loop (fuel : nat) (st : elim_state) : result elim_state :=
  match top (st_queue st) with
  | None => Ok st
  | Some (score, v) =>
      match fuel with
      | O => Undefined OutOfFuel
      | S fuel' => do st' <- eliminate score v st ; elimination_loop fuel' st'
      end
  end.

Definition initial_queue (graph : Graph) (neighbors : neighbors_t) : heap_t :=
  map (fun v => Some (fill_in_count neighbors v)) (vertices graph).

(** ** The junction tree *)

Fixpoint list_eqb (a b : list vertex_t) : bool :=
  match a, b with
  | [], [] => true
  | x :: a', y :: b' => (x =? y) && list_eqb a' b'
  | _, _ => false
  end.

(** [boost::range::find(cliques, s)]: the position of the first clique equal
    to [s]. *)
Fixpoint find_from (i : nat) (cliques : list flat_set) (s : flat_set) : option nat :=
  match cliques with
  | [] => None
  | c :: cliques' => if list_eqb c s then Some i else find_from (S i) cliques' s
  end.

Definition find (cliques : list flat_set) (s : flat_set) : option nat :=
  find_from 0 cliques s.

(** [min_element(cliques | filtered(is_subset), cmp_size).base()]: the
    position of the first clique of least size among those that include [s];
    [None] is [cliques.end()]. *)
Fixpoint min_superset_from (i : nat) (cliques : list flat_set) (s : flat_set)
    (best : option (nat * nat)) : option (nat * nat) :=
  match cliques with
  | [] => best
  | c :: cliques' =>
      let best' :=
        if includes c s then
          match best with
          | None => Some (i, List.length c)
          | Some (p, n) => if List.length c <? n then Some (i, List.length c) else best
          end
        else best in
      min_superset_from (S i) cliques' s best'
  end.

Definition min_superset (cliques : list flat_set) (s : flat_set) : option nat :=
  option_map fst (min_superset_from 0 cliques s None).

Record junction_tree_t : Type := mkJunction {
  jt_nodes : nat;                        (* num_vertices(junction_tree) *)
  jt_edges : list (nat * nat);           (* edges(junction_tree) *)
  cliques : list flat_set;
  is_intersection_node : list bool
}.

Definition empty_junction : junction_tree_t := mkJunction 0 [] [] [].

Definition junction_step (neighbors : neighbors_t) (jt : junction_tree_t) (v : vertex_t)
  : junction_tree_t :=
  let s := nb_get neighbors v in
  let j := jt_nodes jt in
  let jt1 :=
    match find (cliques jt) s with
    | Some pos =>
        mkJunction (S j) (jt_edges jt ++ [(pos, j)]) (cliques jt)
                   (update_nth pos (fun _ => true) (is_intersection_node jt))
    | None =>
        match min_superset (cliques jt) s with
        | Some pos1 =>
            let pos2 := j in
            let j := S j in
            mkJunction (S j) (jt_edges jt ++ [(pos1, pos2); (pos2, j)])
                       (cliques jt ++ [s]) (is_intersection_node jt ++ [true])
        | None =>
            mkJunction (S j) (jt_edges jt) (cliques jt) (is_intersection_node jt)
        end
    end in
  mkJunction (jt_nodes jt1) (jt_edges jt1)
             (cliques jt1 ++ [set_insert v s]) (is_intersection_node jt1 ++ [false]).

Definition junction_tree (neighbors : neighbors_t) (elim_order : list vertex_t)
  : junction_tree_t :=
  fold_left (junction_step neighbors) (rev elim_order) empty_junction.

(** What [peeling_order] computes (the source keeps it in locals and prints
    it). *)
Record peeling_t : Type := mkPeeling {
  peel_potentials : list potential_t;
  elim_order : list vertex_t;
  peel_neighbors : neighbors_t;
  peel_junction : junction_tree_t
}.

Definition peeling_order (graph : Graph) : result peeling_t :=
  let pots := potentials graph in
  let neighbors := closures graph in
  let priority_queue := initial_queue graph neighbors in
  do st <- elimination_loop (num_vertices graph) (mkElim neighbors priority_queue []) ;
  Ok (mkPeeling pots (st_order st) (st_neighbors st)
                (junction_tree (st_neighbors st) (st_order st))).

(** ** [RelationshipGraph::Construct] and [PrintGraph] *)

Record RelationshipGraph : Type := mkRelationshipGraph {
  inheritance_model_ : InheritanceModel;
  graph_ : Graph
}.

Section Construct.

Variable parse_newick : string -> Graph -> vertex_t -> bool -> bool * Graph.

Definition Construct (pedigree : Pedigree) (known_samples : list string)
    (model : InheritanceModel) (mu mu_somatic : double) (normalize_somatic_trees : bool)
  : result (bool * RelationshipGraph) :=
  do graph <- construct_pedigree_graph parse_newick pedigree known_samples
                normalize_somatic_trees ;
  do graph <- compile graph model mu mu_somatic ;
  do _ <- peeling_order graph ;
  Ok (true, mkRelationshipGraph model graph).

End Construct.

(** The four sections of [PrintGraph], as the vertices they list. *)
Definition print_founding (g : Graph) : list vertex_t :=
  filter (fun v => in_degree g v =? 0) (vertices g).
Definition print_germline (g : Graph) : list vertex_t :=
  filter (fun v => (0 <? in_degree g v) && VertexType_eqb (types g v) Germline) (vertices g).
Definition print_somatic (g : Graph) : list vertex_t :=
  filter (fun v => (0 <? in_degree g v) && VertexType_eqb (types g v) Somatic) (vertices g).
Definition print_sample (g : Graph) : list vertex_t :=
  filter (fun v => (0 <? in_degree g v) && VertexType_eqb (types g v) Sample) (vertices g).

(** ** Concrete graphs used below *)

Definition germ (l : string) (s : Sex) (p : Z) : VertexProp := mkVertex l s p Germline.
Definition plain_edge (u v : vertex_t) : Edge := mkEdge u v (float_of 1 0) GERM_EDGE.

(** A founder and its only child. *)
Definition pair_graph : Graph :=
  mkGraph [germ "F" Male 1; mkVertex "S" Male 1 Sample] [plain_edge 0 1].

(** The finalized graph of [loop_pedigree] below: the founders b (0) and a
    (1); c (2), child of a; d (3), child of c and b; e (4), child of d and b;
    the sample s (5) below a and e. *)
Definition loop_graph : Graph :=
  mkGraph [germ "b/z" Female 2; germ "a/z" Male 2; germ "c/z" Male 1;
           germ "d/z" Male 2; germ "e/z" Female 2; mkVertex "s" Male 2 Sample]
          [plain_edge 1 2; plain_edge 2 3; plain_edge 0 3; plain_edge 3 4;
           plain_edge 0 4; mkEdge 1 5 (float_of 2 0) 3%N; mkEdge 4 5 (float_of 2 0) 3%N].

(** A pedigree of one haploid member whose father is not a member; the name
    index answers [NumberOfMembers()] for a name it does not know. *)
Definition lookup_in (l : list Member) (n : string) : nat :=
  (fix pos (l : list Member) (i : nat) : nat :=
     match l with
     | [] => i
     | m :: l' => if String.eqb (name m) n then i else pos l' (S i)
     end) l 0.

Definition pedigree_of (l : list Member) : Pedigree := mkPedigree l (lookup_in l).

Definition lone_gamete : Pedigree :=
  pedigree_of [mkMember "A" Male (Some "X") None None None ["gamete"] []].

Definition trio_pedigree : Pedigree :=
  pedigree_of [mkMember "A" Male None None None None ["founder"] [];
               mkMember "B" Female None None None None ["founder"] [];
               mkMember "C" Unknown (Some "A") (Some "B") None None [] []].

(** A parser that rejects every text. *)
Definition reject_all (text : string) (g : Graph) (anchor : vertex_t) (normalize : bool)
  : bool * Graph := (false, g).

(** The factors the planner pushes for one vertex. *)
Definition factors_of (graph : Graph) (v : vertex_t) : list potential_t :=
  (if out_degree graph v =? 0 then [[v]] else [])
  ++ [if in_degree graph v =? 0 then [v] else v :: depends graph v].

(** The factor list as the specification words it: one factor per vertex. *)
Definition potentials_spec (graph : Graph) : list potential_t :=
  map (fun v =>
         if (out_degree graph v =? 0) || (in_degree graph v =? 0) then [v]
         else v :: depends graph v)
      (vertices graph).

Definition nonempty (p : potential_t) : bool :=
  match p with [] => false | _ => true end.

(** A parser for the one-node trees, used to run [Construct] on small
    pedigrees: the text is the label of a single somatic node, attached below
    the anchor with length 1. *)
Definition single_node_parser (text : string) (g : Graph) (anchor : vertex_t)
    (normalize : bool) : bool * Graph :=
  (true,
   add_edge anchor (num_vertices g) (float_of 1 0) SOMA_EDGE
     (add_vertex (mkVertex text (sexes g anchor) (ploidies g anchor) Somatic) g)).

(** Two founders with two children; each child has one sequenced sample. *)
Definition quartet_pedigree : Pedigree :=
  pedigree_of [mkMember "A" Male None None None None ["founder"] [];
               mkMember "B" Female None None None None ["founder"] [];
               mkMember "C" Male (Some "A") (Some "B") None None [] ["c1"];
               mkMember "D" Female (Some "A") (Some "B") None None [] ["d1"]].

(** No vertex of the graph carries [VertexType::Founder]. *)
Definition no_founder (g : Graph) : Prop :=
  Forall (fun p => vertex_type p <> Founder) (vertex_props g).

Definition vtypes (g : Graph) : list VertexType := map vertex_type (vertex_props g).

(** The graph the builder hands on for one member [A] with the somatic tree
    [(leaf1:0.5,leaf2:0.5)trunk:1.0;]: the trunk hangs below the germline
    vertex and carries the two leaves. *)
Definition somatic_tree_graph : Graph :=
  mkGraph [germ "A" Male 2;
           mkVertex "trunk" Male 2 Somatic;
           mkVertex "leaf1" Male 2 Somatic;
           mkVertex "leaf2" Male 2 Somatic]
          [mkEdge 0 1 (float_of 1 0) SOMA_EDGE;
           mkEdge 1 2 (float_of 1 (-1)) SOMA_EDGE;
           mkEdge 1 3 (float_of 1 (-1)) SOMA_EDGE].

(** ** The chain of original edges behind an edge of the result *)

(** The rate an original edge is scaled with. *)
Definition mu_of (mu_germ mu_soma : double) (e : Edge) : double :=
  if has_germ (edge_type e) then mu_germ else mu_soma.

(** The length the scaler leaves on an original edge. *)
Definition scaled (mu_germ mu_soma : double) (e : Edge) : float :=
  mul_assign (edge_length e) (mu_of mu_germ mu_soma e).




(** [is_chain u w chain]: the edges of the chain follow one another from [u]
    to [w]. *)
Fixpoint is_chain (u w : vertex_t) (chain : list Edge) : Prop :=
  match chain with
  | [] => False
  | e :: chain' =>
      source e = u
      /\ match chain' with
         | [] => target e = w
         | _ => is_chain (target e) w chain'
         end
  end.


(** The graph the builder yields for [quartet_pedigree] when each sample text
    is a single node. *)
Definition quartet_built : Graph :=
  mkGraph [germ "A" Male 2; germ "B" Female 2; germ "C" Male 2; germ "D" Female 2;
           mkVertex "c1" Male 2 Sample; mkVertex "d1" Female 2 Sample]
          [plain_edge 0 2; plain_edge 1 2; plain_edge 0 3; plain_edge 1 3;
           mkEdge 2 4 (float_of 1 0) SOMA_EDGE; mkEdge 3 5 (float_of 1 0) SOMA_EDGE].


(** A pedigree with a marriage loop: the founders a and b; c, a haploid child
    of a; d, child of c and b; e, child of d and b; f, child of a and e, with
    one sequenced sample. *)
Definition loop_pedigree : Pedigree :=
  pedigree_of [mkMember "a" Male None None None None ["founder"] [];
               mkMember "b" Female None None None None ["founder"] [];
               mkMember "c" Male (Some "a") None None None ["haploid"] [];
               mkMember "d" Male (Some "c") (Some "b") None None [] [];
               mkMember "e" Female (Some "d") (Some "b") None None [] [];
               mkMember "f" Male (Some "a") (Some "e") None None [] ["s"]].

(** ** Vocabulary for the elimination planner *)

(** A flat set is well formed when it is strictly increasing. *)
Definition sorted (s : flat_set) : Prop := StronglySorted lt s.

(** [insert_all k s]: every element of [k] inserted into [s]. *)
Definition insert_all (k s : flat_set) : flat_set :=
  fold_left (fun s b => set_insert b s) k s.

(** What one round of the clique update does to the set of a neighbour of
    the eliminated vertex [v], [k] being the neighbours of [v]. *)
Definition clique_update (v : vertex_t) (score : Z) (k s : flat_set) : flat_set :=
  set_erase v (if (score >? 0)%Z then insert_all k s else s).

(** One round of the range-for of [update_cliques], for the neighbour [a]. *)
Definition clique_step (v : vertex_t) (score : Z) (neighbors : neighbors_t) (a : vertex_t)
  : neighbors_t :=
  nb_erase a v
    (if (score >? 0)%Z
     then fold_left (fun nb b => nb_insert a b nb) (nb_get neighbors v) neighbors
     else neighbors).

(** [alive q a]: the record of [a] is still in the queue. *)
Definition alive (q : heap_t) (a : vertex_t) : Prop := nth a q None <> None.

(** The neighbours of [a] are pairwise adjacent. *)
Definition clique_at (nb : neighbors_t) (a : vertex_t) : Prop :=
  forall x y, In x (nb_get nb a) -> In y (nb_get nb a) -> x <> y -> In y (nb_get nb x).

(** The invariant of the elimination loop on a graph of [n] vertices. *)
Record elim_inv (n : nat) (st : elim_state) : Prop := mk_elim_inv {
  inv_len_nb : List.length (st_neighbors st) = n;
  inv_len_q : List.length (st_queue st) = n;
  inv_sorted : forall a, sorted (nb_get (st_neighbors st) a);
  inv_alive : forall a x,
      alive (st_queue st) a -> In x (nb_get (st_neighbors st) a) -> alive (st_queue st) x;
  inv_sym : forall a x,
      alive (st_queue st) a -> In x (nb_get (st_neighbors st) a) ->
      In a (nb_get (st_neighbors st) x);
  inv_dead : forall v, v < n -> (In v (st_order st) <-> ~ alive (st_queue st) v);
  inv_nodup : NoDup (st_order st);
  inv_range : forall v, In v (st_order st) -> v < n;
  inv_score : forall a s,
      nth a (st_queue st) None = Some s -> (s <= 0)%Z -> clique_at (st_neighbors st) a;
  inv_later : forall l1 v l2,
      st_order st = l1 ++ v :: l2 ->
      forall x, In x (nb_get (st_neighbors st) v) -> In x l2 \/ alive (st_queue st) x;
  inv_super : forall l1 v l2,
      st_order st = l1 ++ v :: l2 ->
      (exists u, In u l2
                 /\ forall x, In x (nb_get (st_neighbors st) v) ->
                              x = u \/ In x (nb_get (st_neighbors st) u))
      \/ ((forall x, In x (nb_get (st_neighbors st) v) -> alive (st_queue st) x)
          /\ clique_at (st_neighbors st) v)
}.

Arguments inv_len_nb {n st} _.
Arguments inv_len_q {n st} _.
Arguments inv_sorted {n st} _ a.
Arguments inv_alive {n st} _ a x _ _.
Arguments inv_sym {n st} _ a x _ _.
Arguments inv_dead {n st} _ v _.
Arguments inv_nodup {n st} _.
Arguments inv_range {n st} _ v _.
Arguments inv_score {n st} _ a s _ _.
Arguments inv_later {n st} _ l1 v l2 _ x _.
Arguments inv_super {n st} _ l1 v l2 _.

(** What the junction tree needs of a finished elimination: the order lists
    every vertex once, the neighbours a vertex had when it was eliminated
    are all eliminated after it, and they all belong to the clique of one of
    them. *)
Record elimination_done (n : nat) (nb : neighbors_t) (order : list vertex_t) : Prop :=
  mk_elimination_done {
  done_nodup : NoDup order;
  done_all : forall v, v < n <-> In v order;
  done_sorted : forall a, sorted (nb_get nb a);
  done_later : forall l1 v l2,
      order = l1 ++ v :: l2 -> forall x, In x (nb_get nb v) -> In x l2;
  done_super : forall l1 v l2,
      order = l1 ++ v :: l2 -> l2 <> [] ->
      exists u, In u l2 /\ forall x, In x (nb_get nb v) -> x = u \/ In x (nb_get nb u)
}.

Arguments done_nodup {n nb order} _.
Arguments done_all {n nb order} _ v.
Arguments done_sorted {n nb order} _ a.
Arguments done_later {n nb order} _ l1 v l2 _ x _.
Arguments done_super {n nb order} _ l1 v l2 _ _.

(** Every edge of the graph joins two of its vertices. *)
Definition graph_wf (g : Graph) : Prop :=
  forall e, In e (edge_list g) ->
            source e < num_vertices g /\ target e < num_vertices g.

(** The adjacency built from the potentials: sorted sets of vertices of the
    graph, symmetric. *)
Definition closure_inv (n : nat) (nb : neighbors_t) : Prop :=
  List.length nb = n
  /\ (forall a, sorted (nb_get nb a))
  /\ (forall a x, In x (nb_get nb a) -> x < n /\ In a (nb_get nb x)).

(** ** Vocabulary for the junction tree *)

(** [reach E P i j]: the nodes [i] and [j] are joined by a path of the
    undirected edges [E] all of whose nodes satisfy [P]. *)
Inductive reach (E : list (nat * nat)) (P : nat -> Prop) : nat -> nat -> Prop :=
| reach_refl (i : nat) : P i -> reach E P i i
| reach_step (i j k : nat) :
    reach E P i j -> In (j, k) E \/ In (k, j) E -> P k -> reach E P i k.

(** A tree on the nodes [0 .. n-1] with one clique per node: it is
    connected, has [n - 1] edges, each from a node to a later node, and the
    nodes whose clique holds a given vertex are connected among
    themselves. *)
Record tree_ok (n : nat) (E : list (nat * nat)) (cl : list flat_set) : Prop := mk_tree_ok {
  tree_cliques : List.length cl = n;
  tree_edges : forall p j, In (p, j) E -> p < j /\ j < n;
  tree_count : List.length E = n - 1;
  tree_connected : forall i j, i < n -> j < n -> reach E (fun _ => True) i j;
  tree_running : forall x i j,
      i < n -> j < n -> In x (nth i cl []) -> In x (nth j cl []) ->
      reach E (fun m => In x (nth m cl [])) i j
}.

Arguments tree_cliques {n E cl} _.
Arguments tree_edges {n E cl} _ p j _.
Arguments tree_count {n E cl} _.
Arguments tree_connected {n E cl} _ i j _ _.
Arguments tree_running {n E cl} _ x i j _ _ _ _.

(** The junction tree after the vertices [l2], the end of the elimination
    order, were added. *)
Record jt_inv (nb : neighbors_t) (l2 : list vertex_t) (jt : junction_tree_t) : Prop :=
  mk_jt_inv {
  ji_tree : tree_ok (jt_nodes jt) (jt_edges jt) (cliques jt);
  ji_empty : l2 = [] -> jt_nodes jt = 0;
  ji_members : forall i x, In x (nth i (cliques jt) []) -> In x l2;
  ji_present : forall u, In u l2 ->
      exists i, i < jt_nodes jt /\ nth i (cliques jt) [] = set_insert u (nb_get nb u)
}.

Arguments ji_tree {nb l2 jt} _.
Arguments ji_empty {nb l2 jt} _ _.
Arguments ji_members {nb l2 jt} _ i x _.
Arguments ji_present {nb l2 jt} _ u _.

(** ** Vocabulary for the queue, the depth-first search and the finalizer *)

(** [better r x]: [r] comes out of the heap before [x]. *)
Definition better (r x : record_t) : Prop :=
  (fst r < fst x)%Z \/ (fst r = fst x /\ snd x <= snd r).

(** The depth-first search keeps its output free of duplicates, and black. *)
Definition dfs_inv (st : list color * list vertex_t) : Prop :=
  NoDup (snd st)
  /\ (forall v, In v (snd st) -> color_of (fst st) v = Black)
  /\ (forall v, In v (snd st) -> v < List.length (fst st)).

(** What a visit leaves alone: the colour of every vertex that was not white. *)
Definition dfs_frame (st st' : list color * list vertex_t) : Prop :=
  List.length (fst st') = List.length (fst st)
  /\ forall w, color_of (fst st) w <> White -> color_of (fst st') w = color_of (fst st) w.

(** [renumbered m e e']: [e'] is [e] with both ends sent through the map. *)
Definition renumbered (m : list (option vertex_t)) (e e' : Edge) : Prop :=
  nth (source e) m None = Some (source e')
  /\ nth (target e) m None = Some (target e')
  /\ edge_length e' = edge_length e
  /\ edge_type e' = edge_type e.

(** ** Vocabulary for the bounds of the model's recursions *)

(** The outcome is an outcome of the program, not an exhausted bound of the
    model. *)
Definition within_bound {A : Type} (r : result A) : Prop := r <> Undefined OutOfFuel.

Definition is_white (c : color) : bool :=
  match c with White => true | _ => false end.

Definition white_count (colors : list color) : nat := List.length (filter is_white colors).

Definition alive_count (q : heap_t) : nat := List.length (filter is_some q).

(** ** Vocabulary for the sex-linked pruners *)

(** The sexes the pruners have a case for. *)
Definition known_sex (s : Sex) : bool :=
  match s with Male | Female => true | _ => false end.

(** An end of the edge is a vertex of sex [s]. *)
Definition touches (g : Graph) (s : Sex) (e : Edge) : bool :=
  Sex_eqb (sexes g (source e)) s || Sex_eqb (sexes g (target e)) s.

(** The edge is incident to one of the vertices of [l] that satisfy [c]. *)
Definition hits (c : vertex_t -> bool) (l : list vertex_t) (e : Edge) : bool :=
  existsb (fun v => c v && ((source e =? v) || (target e =? v))) l.

(** [graph_wf] as a test. *)
Definition graph_wfb (g : Graph) : bool :=
  forallb (fun e => (source e <? num_vertices g) && (target e <? num_vertices g))
          (edge_list g).

(** A father (0), a mother (1), their son (2) and their daughter (3). *)
Definition family : Graph :=
  mkGraph [germ "dad" Male 2; germ "mom" Female 2; germ "son" Male 2; germ "daughter" Female 2]
          [plain_edge 0 2; plain_edge 1 2; plain_edge 0 3; plain_edge 1 3].

(** ** Vocabulary for the graph builder *)

(** The ploidy a single tag asks for, as the first loop of [get_ploidy]
    reads it. *)
Definition ploidy_tag (a : string) : option Z :=
  if iequals a "haploid" || iequals a "gamete" || iequals a "p=1" || iequals a "ploidy=1"
  then Some 1%Z
  else if iequals a "diploid" || iequals a "p=2" || iequals a "ploidy=2"
  then Some 2%Z
  else None.

(** The graph after the first loop of [construct_pedigree_graph]: one
    germline vertex per member, no edge. *)
Definition member_vertices (pedigree : Pedigree) : Graph :=
  fold_left (fun g j =>
               let member := GetMember pedigree j in
               add_vertex (mkVertex (name member) (sex member) (get_ploidy member) Germline) g)
            (seq 0 (NumberOfMembers pedigree)) empty_graph.

(** The member is passed over by [add_edges_to_pedigree_graph]. *)
Definition is_founder_member (member : Member) : bool :=
  has_tag member "founder" || (negb (is_some (dad member)) && negb (is_some (mom member))).

(** The number of parents the builder links a member to. *)
Definition parent_count (member : Member) : nat :=
  if is_founder_member member then 0
  else if (get_ploidy member =? 0)%Z || (get_ploidy member =? 1)%Z then 1
  else 2.

(** The position of one of the parents the member names. *)
Definition names_parent (pedigree : Pedigree) (member : Member) (u : vertex_t) : Prop :=
  exists d, (dad member = Some d \/ mom member = Some d)
            /\ u = LookupMemberPosition pedigree d.
(** ** Vocabulary for the order of the depth-first search *)

(** [before l u v]: [u] stands before [v] in [l]. *)
Definition before (l : list vertex_t) (u v : vertex_t) : Prop :=
  exists l1 l2 l3, l = l1 ++ u :: l2 ++ v :: l3.

(** Every finished vertex is in the output, after the targets of its
    out-edges. *)
Definition dfs_sorted (g : Graph) (st : list color * list vertex_t) : Prop :=
  (forall v, v < List.length (fst st) -> color_of (fst st) v = Black -> In v (snd st))
  /\ (forall e, In e (edge_list g) -> In (source e) (snd st) ->
                target e < List.length (fst st) ->
                before (snd st) (target e) (source e)).

(** What a visit does to the state: it leaves the colours that were not
    white, appends to the output, and leaves no vertex open. *)
Definition dfs_rel (st st' : list color * list vertex_t) : Prop :=
  dfs_frame st st'
  /\ (exists added, snd st' = snd st ++ added)
  /\ (forall w, color_of (fst st') w = Gray -> color_of (fst st) w = Gray).

(** ** Vocabulary for the simplifier *)

(** Every edge joins two vertices of the graph and its target stands before
    its source in [order] (a reverse topological order). *)
Definition ordered (order : list vertex_t) (n : nat) (es : list Edge) : Prop :=
  forall e, In e es -> source e < n /\ target e < n /\ before order (target e) (source e).

(** A vertex without out-edge that is not typed [Sample] has no in-edge. *)
Definition leaves_are_samples (g : Graph) (x : vertex_t) : Prop :=
  types g x <> Sample ->
  (forall e, In e (edge_list g) -> source e <> x) ->
  forall e, In e (edge_list g) -> target e <> x.

(** The state kept by the three passes of the simplifier: the vertices of
    [g0], edges that respect the order. *)
Definition pass_inv (g0 : Graph) (order : list vertex_t) (g : Graph) : Prop :=
  vertex_props g = vertex_props g0
  /\ ordered order (num_vertices g0) (edge_list g).

(** ** Vocabulary for the finalizer *)

(** The band of a vertex in the order of the finalizer: 0 for a founder (a
    germline vertex without in-edge), 1 for any other germline vertex, 2 for
    a somatic vertex, 3 for a sample. *)
Definition band (g : Graph) (v : vertex_t) : nat :=
  match types g v with
  | Founder => 0
  | Germline => if in_degree g v =? 0 then 0 else 1
  | Somatic => 2
  | Sample => 3
  end.

(** The outcomes of a depth-first search of the model: a result, the
    [not_a_dag] exception, or the exhausted bound. *)
Definition dag_outcome {A : Type} (r : result A) : Prop :=
  (exists a, r = Ok a) \/ r = Throw NotADag \/ r = Undefined OutOfFuel.

(** ** Vocabulary for the moral graph *)

(** [parent_of g u v]: an edge of [g] runs from [u] to [v]. *)
Definition parent_of (g : Graph) (u v : vertex_t) : Prop :=
  exists e, In e (edges g) /\ source e = u /\ target e = v.
(** ** The table of the model names *)

(** [mutk::detail::CHR_MODEL_MAP], in the order of its initializer. *)
Definition CHR_MODEL_MAP : list (string * InheritanceModel) :=
  [ ("autosomal", ModelAutosomal);
    ("maternal", ModelMaternal);
    ("paternal", ModelPaternal);
    ("x-linked", ModelXLinked);
    ("y-linked", ModelYLinked);
    ("w-linked", ModelWLinked);
    ("z-linked", ModelZLinked);
    ("mitochondrial", ModelMaternal);
    ("xlinked", ModelXLinked);
    ("ylinked", ModelYLinked);
    ("wlinked", ModelWLinked);
    ("zlinked", ModelZLinked) ].

(** The vertices [PrintGraph] prints, section after section. *)
Definition printed (g : Graph) : list vertex_t :=
  print_founding g ++ print_germline g ++ print_somatic g ++ print_sample g.

(** The finalized graph of [quartet_pedigree]: the founders B (0) and A (1),
    the samples c1 (2) and d1 (3), each below both founders. *)
Definition quartet_graph : Graph :=
  mkGraph [germ "B/z" Female 2; germ "A/z" Male 2;
           mkVertex "c1" Male 2 Sample; mkVertex "d1" Female 2 Sample]
          [mkEdge 1 3 (float_of 3 (-2)) 3%N; mkEdge 0 3 (float_of 3 (-2)) 3%N;
           mkEdge 1 2 (float_of 3 (-2)) 3%N; mkEdge 0 2 (float_of 3 (-2)) 3%N].

(** What [add_edges_to_pedigree_graph] demands of a member whose vertex has
    ploidy [ploidy] when its turn comes: a founder-tagged member or a member
    without parents is passed over; a clone (ploidy 0) or a haploid member
    (ploidy 1) names exactly one parent, a member of the pedigree; any other
    member names a father and a mother, both members of the pedigree. *)
Definition valid_member (pedigree : Pedigree) (ploidy : Z) (member : Member) : Prop :=
  is_founder_member member = true
  \/ ((ploidy = 0%Z \/ ploidy = 1%Z)
      /\ exists d, ((dad member = Some d /\ mom member = None)
                    \/ (dad member = None /\ mom member = Some d))
                   /\ LookupMemberPosition pedigree d < NumberOfMembers pedigree)
  \/ (ploidy <> 0%Z /\ ploidy <> 1%Z
      /\ exists d m, dad member = Some d /\ mom member = Some m
                     /\ LookupMemberPosition pedigree d < NumberOfMembers pedigree
                     /\ LookupMemberPosition pedigree m < NumberOfMembers pedigree).

(** ** Vocabulary for cycles *)

(** [path g u w]: a chain of edges of [g] leads from [u] to [w]. *)
Definition path (g : Graph) (u w : vertex_t) : Prop :=
  exists chain, incl chain (edges g) /\ is_chain u w chain.

(** The graph has a directed cycle. *)
Definition has_cycle (g : Graph) : Prop := exists v, path g v v.

(** A haploid founder and its clone, listed after it. *)
Definition clone_pedigree : Pedigree :=
  pedigree_of [mkMember "A" Male None None None None ["founder"; "haploid"] [];
               mkMember "B" Unknown (Some "A") None None None ["clone"] []].

(** A state of the elimination loop: vertex 0 has the neighbours 1 and 2,
    which are not adjacent; its score is 1. *)
Definition fork_state : elim_state :=
  mkElim [[1; 2]; [0]; [0]] [Some 1%Z; Some 0%Z; Some 0%Z] [].

(** ** The external Newick parser *)

(** Modelled from the spec: [parse_newick] is not part of the sources at
    hand.  Section 4.1 of the specification says that, anchored at a germline
    vertex, it appends the vertices of a somatic tree, typed [Somatic], and
    the edges of that tree.  [appends_tree] words this: the graph it is
    given stays in place, the new vertices are typed [Somatic], the new
    edges run between vertices of the graph and enter a new vertex, and
    every new vertex has exactly one of them as its in-edge. *)
Definition appends_tree
    (parse_newick : string -> Graph -> vertex_t -> bool -> bool * Graph) : Prop :=
  forall text g anchor normalize,
    anchor < num_vertices g ->
    exists new_vertices new_edges,
      snd (parse_newick text g anchor normalize)
      = mkGraph (vertex_props g ++ new_vertices) (edge_list g ++ new_edges)
      /\ Forall (fun p => vertex_type p = Somatic) new_vertices
      /\ Forall (fun e => source e < num_vertices g + List.length new_vertices
                          /\ num_vertices g <= target e
                          /\ target e < num_vertices g + List.length new_vertices)
                new_edges
      /\ forall w, num_vertices g <= w -> w < num_vertices g + List.length new_vertices ->
                   List.length (filter (fun e => target e =? w) new_edges) = 1.

(** What the builder hands on, given such a parser: the graph is well
    formed, it has the [n] member vertices, no vertex has more than two
    in-edges and every vertex that is not a germline vertex has a parent. *)
Definition built_inv (n : nat) (g : Graph) : Prop :=
  graph_wf g
  /\ n <= num_vertices g
  /\ (forall x, in_degree g x <= 2)
  /\ (forall x, x < num_vertices g -> types g x <> Germline -> 1 <= in_degree g x).

(** A vertex that is not a germline vertex and has no in-edge has no
    out-edge either. *)
Definition hangs_below_parent (g : Graph) : Prop :=
  forall x, types g x <> Germline -> in_degree g x = 0 -> out_degree g x = 0.

(** ** A parser for small trees *)

(** The text up to the first occurrence of [c], and the text behind it. *)
Fixpoint split_on (c : ascii) (s : string) : option (string * string) :=
  match s with
  | EmptyString => None
  | String a s' =>
      if Ascii.eqb a c then Some (EmptyString, s')
      else match split_on c s' with
           | Some (l, r) => Some (String a l, r)
           | None => None
           end
  end.

(** The trees the parser below reads: a single node, or a cherry
    [(leaf1,leaf2)root;]. *)
Inductive newick_shape : Type :=
| OneNode (label : string)
| Cherry (leaf1 leaf2 root : string)
| Malformed.

Definition read_newick (text : string) : newick_shape :=
  match text with
  | EmptyString => OneNode text
  | String c rest =>
      if Ascii.eqb c "(" then
        match split_on "," rest with
        | Some (leaf1, rest1) =>
            match split_on ")" rest1 with
            | Some (leaf2, rest2) =>
                Cherry leaf1 leaf2 (match split_on ";" rest2 with
                                    | Some (root, _) => root
                                    | None => rest2
                                    end)
            | None => Malformed
            end
        | None => Malformed
        end
      else OneNode text
  end.

(** A parser for the one-node trees and for the cherries, used to run
    [Construct] on small pedigrees: the root is attached below the anchor and
    carries the two leaves; every branch has length 1 and the new vertices
    take the sex and the ploidy of the anchor. *)
Definition cherry_parser (text : string) (g : Graph) (anchor : vertex_t)
    (normalize : bool) : bool * Graph :=
  match read_newick text with
  | OneNode _ => single_node_parser text g anchor normalize
  | Cherry leaf1 leaf2 root =>
      let n := num_vertices g in
      let node l := mkVertex l (sexes g anchor) (ploidies g anchor) Somatic in
      (true,
       add_edge n (n + 2) (float_of 1 0) SOMA_EDGE
         (add_edge n (n + 1) (float_of 1 0) SOMA_EDGE
            (add_edge anchor n (float_of 1 0) SOMA_EDGE
               (add_vertex (node leaf2)
                  (add_vertex (node leaf1) (add_vertex (node root) g))))))
  | Malformed => (false, g)
  end.

(** One founder whose sample is a cherry. *)
Definition cherry_pedigree : Pedigree :=
  pedigree_of [mkMember "A" Male None None None None ["founder"] ["(leaf1,leaf2)trunk;"]].

(** A father with a sample of his own and a haploid son whose sample is a
    cherry. *)
Definition father_son_pedigree : Pedigree :=
  pedigree_of [mkMember "A" Male None None None None ["founder"] ["a1"];
               mkMember "C" Male (Some "A") None None None ["haploid"]
                        ["(leaf1,leaf2)trunk;"]].







(* ================================================================== *)
(** * Properties *)

(** ** Outcomes and enumerations *)

Lemma bind_Ok_inv {A B : Type} (r : result A) (k : A -> result B) (b : B) :
  bind r k = Ok b -> exists a, r = Ok a /\ k a = Ok b.
Proof. destruct r; simpl; intros H; try discriminate. eauto. Qed.

Lemma Sex_eqb_eq (a b : Sex) : Sex_eqb a b = true <-> a = b.
Proof. destruct a, b; simpl; split; congruence. Qed.

Lemma VertexType_eqb_eq (a b : VertexType) : VertexType_eqb a b = true <-> a = b.
Proof. destruct a, b; simpl; split; congruence. Qed.

(** ** The pruner *)

Lemma prune_paternal_is_prune_maternal (g : Graph) :
  prune_paternal g = prune_maternal g.
Proof. reflexivity. Qed.

(** C1 -- the code at the trio (father 0, mother 1, child 2) under the
    Paternal model: the edge from the father is deleted and the edge from the
    mother is the one that remains, the opposite of deleting an edge exactly
    when its source is female.  Every ploidy becomes 1. *)
Theorem prune_paternal_trio :
  exists g',
    prune trio ModelPaternal = Ok g'
    /\ edges g' = [mkEdge 1 2 (float_of 1 0) GERM_EDGE]
    /\ sexes trio 0 = Male /\ sexes trio 1 = Female
    /\ map vertex_ploidy (vertex_props g') = [1%Z; 1%Z; 1%Z].
Proof. eexists. repeat split. Qed.

(** ** The priority queue *)

Lemma record_cmp_t_true (b x : record_t) :
  record_cmp_t b x = true -> better x b /\ x <> b.
Proof.
  unfold record_cmp_t, better. destruct b as [fb vb], x as [fx vx]; simpl.
  destruct (Z.eqb_spec fb fx) as [->|Hne].
  - rewrite Nat.ltb_lt. intros H. split; [right; split; [reflexivity|lia]|].
    intros E. inversion E. lia.
  - intros H. apply Z.gtb_lt in H. split; [left; lia|]. intros E. inversion E. lia.
Qed.

Lemma record_cmp_t_false (b x : record_t) :
  record_cmp_t b x = false -> better b x.
Proof.
  unfold record_cmp_t, better. destruct b as [fb vb], x as [fx vx]; simpl.
  destruct (Z.eqb_spec fb fx) as [->|Hne].
  - rewrite Nat.ltb_ge. intros H. right. split; [reflexivity|lia].
  - intros H. left. assert (~ (fb > fx)%Z).
    { intros G. apply Z.gtb_gt in G. congruence. } lia.
Qed.

Lemma better_trans (a b c : record_t) : better a b -> better b c -> better a c.
Proof. unfold better. intros [H|[H1 H2]] [G|[G1 G2]]; [left|left|left|right]; lia. Qed.

Lemma better_refl (a : record_t) : better a a.
Proof. right. split; [reflexivity|lia]. Qed.

Lemma top_from_spec (q : heap_t) :
  forall (i : nat) (best : option record_t) (r : record_t),
    top_from i q best = Some r ->
    (forall b, best = Some b -> better r b)
    /\ (forall a f, nth a q None = Some f -> better r (f, i + a))
    /\ (best = Some r \/ exists a, nth a q None = Some (fst r) /\ snd r = i + a).
Proof.
  induction q as [|o q IH]; intros i best r H; simpl in H.
  - subst best. split; [|split].
    + intros b E. inversion E. apply better_refl.
    + intros a f E. destruct a; discriminate.
    + left; reflexivity.
  - assert (Hshift : forall a f, nth a q None = Some f ->
              better r (f, S i + a) -> better r (f, i + S a)).
    { intros a f _ G. replace (i + S a) with (S i + a) by lia. exact G. }
    destruct o as [f|]; [destruct best as [b|];
      [match type of H with
       | context [if ?c then _ else _] => destruct c eqn:C
       end|]|];
      apply IH in H; destruct H as (Hb & Hq & Hr);
      (split; [|split]).
    + intros b0 E. inversion E; subst b0.
      apply better_trans with (f, i); [apply Hb; reflexivity|].
      apply record_cmp_t_true in C. tauto.
    + intros [|a] f0 E; simpl in E.
      * inversion E; subst f0. rewrite Nat.add_0_r. apply Hb; reflexivity.
      * apply Hshift; auto.
    + right. destruct Hr as [Hr|(a & Ha & Hs)].
      * exists 0. inversion Hr; subst r. simpl. split; [reflexivity|lia].
      * exists (S a). simpl. split; [assumption|lia].
    + intros b0 E. inversion E; subst b0. apply Hb; reflexivity.
    + intros [|a] f0 E; simpl in E.
      * inversion E; subst f0. rewrite Nat.add_0_r.
        apply better_trans with b; [apply Hb; reflexivity|].
        apply record_cmp_t_false; assumption.
      * apply Hshift; auto.
    + destruct Hr as [Hr|(a & Ha & Hs)]; [left; assumption|].
      right. exists (S a). simpl. split; [assumption|lia].
    + intros b0 E. discriminate.
    + intros [|a] f0 E; simpl in E.
      * inversion E; subst f0. rewrite Nat.add_0_r. apply Hb; reflexivity.
      * apply Hshift; auto.
    + right. destruct Hr as [Hr|(a & Ha & Hs)].
      * exists 0. inversion Hr; subst r. simpl. split; [reflexivity|lia].
      * exists (S a). simpl. split; [assumption|lia].
    + intros b0 E. apply Hb; assumption.
    + intros [|a] f0 E; simpl in E; [discriminate|]. apply Hshift; auto.
    + destruct Hr as [Hr|(a & Ha & Hs)]; [left; assumption|].
      right. exists (S a). simpl. split; [assumption|lia].
Qed.

(** C2, as the code has it -- the record on top of the queue has the least
    fill-in, and among the records of that fill-in the GREATEST vertex index:
    the queue is a max-heap on (-fill_in, +index). *)
Theorem top_least_fill_then_greatest_index (q : heap_t) (score : Z) (v : vertex_t) :
  top q = Some (score, v) ->
  nth v q None = Some score
  /\ forall a f, nth a q None = Some f ->
       (score < f)%Z \/ (score = f /\ a <= v).
Proof.
  unfold top. intros H. apply top_from_spec in H. destruct H as (_ & Hq & Hr).
  split.
  - destruct Hr as [Hr|(a & Ha & Hs)]; [discriminate|]. simpl in *. subst v. assumption.
  - intros a f E. apply Hq in E. exact E.
Qed.

Lemma top_least_fill_then_greatest_index_witness :
  nth 1 [Some 0%Z; Some 0%Z] None = Some 0%Z
  /\ forall a f, nth a [Some 0%Z; Some 0%Z] None = Some f ->
       (0 < f)%Z \/ (0%Z = f /\ a <= 1).
Proof.
  apply (@top_least_fill_then_greatest_index [Some 0%Z; Some 0%Z] 0%Z 1).
  reflexivity.
Defined.

(** C2 refuted as stated -- vertices 0 and 1 are both in the queue with
    fill-in 0 and the vertex popped is 1, not the smaller index 0; on the
    graph of a founder and its child the elimination order is [1; 0]. *)
Lemma equal_fill_pops_larger_index :
  nth 0 (initial_queue pair_graph (closures pair_graph)) None = Some 0%Z
  /\ nth 1 (initial_queue pair_graph (closures pair_graph)) None = Some 0%Z
  /\ top (initial_queue pair_graph (closures pair_graph)) = Some (0%Z, 1)
  /\ exists p, peeling_order pair_graph = Ok p /\ elim_order p = [1; 0].
Proof. repeat split. eexists. split; reflexivity. Qed.

(** ** The factor list *)

Lemma potentials_unfold (g : Graph) :
  potentials g = repeat [] (num_vertices g) ++ flat_map (factors_of g) (vertices g).
Proof.
  unfold potentials.
  generalize (repeat (@nil vertex_t) (num_vertices g)) as init.
  induction (vertices g) as [|v vs IH]; intros init; simpl.
  - now rewrite app_nil_r.
  - rewrite IH. unfold factors_of.
    destruct (out_degree g v =? 0), (in_degree g v =? 0); simpl;
      repeat rewrite <- app_assoc; reflexivity.
Qed.

Lemma filter_nonempty_repeat (n : nat) : filter nonempty (repeat [] n) = [].
Proof. induction n; simpl; auto. Qed.

Lemma factors_of_nonempty (g : Graph) (v : vertex_t) :
  forallb nonempty (factors_of g v) = true.
Proof.
  unfold factors_of.
  destruct (out_degree g v =? 0), (in_degree g v =? 0); reflexivity.
Qed.

Lemma filter_all {A : Type} (f : A -> bool) (l : list A) :
  forallb f l = true -> filter f l = l.
Proof.
  induction l as [|a l IH]; simpl; intros H; [reflexivity|].
  apply andb_prop in H. destruct H as [Ha Hl]. rewrite Ha, IH; auto.
Qed.

(** C3, as the code has it -- the non-empty factors of the list are, vertex
    by vertex in index order: a unary factor on the vertex when it is a leaf,
    followed by a unary factor when it is a founder and by the factor on the
    vertex and its sorted in-neighbours otherwise.  A leaf that has parents
    contributes two factors. *)
Theorem potentials_nonempty_factors (g : Graph) :
  filter nonempty (potentials g) = flat_map (factors_of g) (vertices g).
Proof.
  rewrite potentials_unfold, filter_app, filter_nonempty_repeat. simpl.
  apply filter_all.
  induction (vertices g) as [|v vs IH]; simpl; [reflexivity|].
  rewrite forallb_app, factors_of_nonempty, IH. reflexivity.
Qed.

(** C3 refuted as stated -- for a founder 0 and its child 1 the list holds
    five factors for two vertices; the leaf 1 has the unary factor and the
    factor with its parent, and the list is not the one-factor-per-vertex
    list, with or without its empty entries. *)
Lemma potentials_not_one_per_vertex :
  potentials pair_graph = [[]; []; [0]; [1]; [1; 0]]
  /\ potentials_spec pair_graph = [[0]; [1]]
  /\ num_vertices pair_graph = 2
  /\ ~ Permutation (potentials pair_graph) (potentials_spec pair_graph)
  /\ ~ Permutation (filter nonempty (potentials pair_graph)) (potentials_spec pair_graph).
Proof.
  repeat split; intros P; apply Permutation_length in P; discriminate.
Qed.

(** ** The builder *)

(** C4 -- the code at a haploid member whose father is not in the pedigree:
    whatever the parser and the other arguments, [Construct] reads the sex of
    the vertex at the unresolved position 1 of a one-vertex graph before it
    compares that position with [NumberOfMembers()]; it does not end with the
    exception. *)
Theorem construct_reads_unresolved_parent
    (parse_newick : string -> Graph -> vertex_t -> bool -> bool * Graph)
    (known_samples : list string) (model : InheritanceModel) (mu mu_somatic : double)
    (normalize : bool) :
  LookupMemberPosition lone_gamete "X" = NumberOfMembers lone_gamete
  /\ Construct parse_newick lone_gamete known_samples model mu mu_somatic normalize
     = Undefined (OutOfRangeRead 1).
Proof. split; reflexivity. Qed.

(** ** The return value of [Construct] *)

(** C9 -- a call of [Construct] that returns, returns [true]; a failure is
    never a returned [false]. *)
Theorem Construct_returns_true
    (parse_newick : string -> Graph -> vertex_t -> bool -> bool * Graph)
    (pedigree : Pedigree) (known_samples : list string) (model : InheritanceModel)
    (mu mu_somatic : double) (normalize : bool) (b : bool) (rg : RelationshipGraph) :
  Construct parse_newick pedigree known_samples model mu mu_somatic normalize = Ok (b, rg) ->
  b = true.
Proof.
  unfold Construct. intros H.
  apply bind_Ok_inv in H. destruct H as (g0 & _ & H).
  apply bind_Ok_inv in H. destruct H as (g1 & _ & H).
  apply bind_Ok_inv in H. destruct H as (p & _ & H).
  congruence.
Qed.

Lemma Construct_returns_true_witness :
  Construct reject_all trio_pedigree [] ModelAutosomal (double_of 1 (-1)) (double_of 1 (-2)) false
    = Ok (true, mkRelationshipGraph ModelAutosomal empty_graph)
  /\ true = true.
Proof.
  split; [reflexivity|].
  apply (@Construct_returns_true reject_all trio_pedigree [] ModelAutosomal
           (double_of 1 (-1)) (double_of 1 (-2)) false true (mkRelationshipGraph ModelAutosomal empty_graph)).
  reflexivity.
Defined.

(** ** What the stages do to the vertex storage *)

Lemma update_nth_length {A : Type} (n : nat) (f : A -> A) (l : list A) :
  List.length (update_nth n f l) = List.length l.
Proof.
  revert n; induction l as [|a l IH]; intros [|n]; simpl; auto.
Qed.

Lemma nth_update_nth {A : Type} (n m : nat) (f : A -> A) (l : list A) (d : A) :
  nth m (update_nth n f l) d =
  if (n =? m) && (n <? List.length l) then f (nth m l d) else nth m l d.
Proof.
  revert n m; induction l as [|a l IH]; intros [|n] [|m]; simpl;
    try rewrite andb_false_r; try reflexivity.
  rewrite IH. reflexivity.
Qed.

Lemma map_update_nth {A B : Type} (g : A -> B) (n : nat) (f : A -> A) (l : list A) :
  (forall a, g (f a) = g a) -> map g (update_nth n f l) = map g l.
Proof.
  intros H. revert n; induction l as [|a l IH]; intros [|n]; simpl; auto.
  - now rewrite H.
  - now rewrite IH.
Qed.

Lemma fold_left_preserves {A S : Type} (P : S -> Prop) (f : S -> A -> S) (l : list A) :
  (forall s a, P s -> P (f s a)) -> forall s, P s -> P (fold_left f l s).
Proof. intros H. induction l as [|a l IH]; simpl; auto. Qed.

Lemma foldM_preserves {A S : Type} (P : S -> Prop) (f : S -> A -> result S) (l : list A) :
  (forall s a s', P s -> f s a = Ok s' -> P s') ->
  forall s s', P s -> foldM f l s = Ok s' -> P s'.
Proof.
  intros H. induction l as [|a l IH]; simpl; intros s s' Hs E.
  - inversion E; subst; assumption.
  - apply bind_Ok_inv in E. destruct E as (s1 & E1 & E2). eauto.
Qed.

Lemma vertex_props_remove_edge_if (p : Edge -> bool) (g : Graph) :
  vertex_props (remove_edge_if p g) = vertex_props g.
Proof. reflexivity. Qed.

Lemma vertex_props_cull_leaf (g : Graph) (v : vertex_t) :
  vertex_props (cull_leaf g v) = vertex_props g.
Proof. unfold cull_leaf. destruct (_ && _); reflexivity. Qed.

Lemma vertex_props_unlink_founders (g : Graph) (v : vertex_t) :
  vertex_props (unlink_founders g v) = vertex_props g.
Proof.
  unfold unlink_founders. destruct (negb _); [reflexivity|].
  destruct (in_edges g v); [reflexivity|]. destruct (forallb _ _); reflexivity.
Qed.

Lemma vertex_props_bypass (g : Graph) (v : vertex_t) :
  vertex_props (bypass g v) = vertex_props g.
Proof.
  unfold bypass. destruct (_ || _); [reflexivity|].
  destruct (out_edges g v) as [|out_edge ?]; [reflexivity|].
  destruct (_ <? _); [reflexivity|]. destruct (negb _); [reflexivity|].
  unfold clear_vertex. rewrite vertex_props_remove_edge_if.
  apply (fold_left_preserves (fun g' => vertex_props g' = vertex_props g)); auto.
Qed.

Lemma vertex_props_simplify_with (order : list vertex_t) (g : Graph) :
  vertex_props (simplify_with order g) = vertex_props g.
Proof.
  unfold simplify_with.
  apply (fold_left_preserves (fun g' => vertex_props g' = vertex_props g)).
  { intros s a H. now rewrite vertex_props_bypass. }
  apply (fold_left_preserves (fun g' => vertex_props g' = vertex_props g)).
  { intros s a H. now rewrite vertex_props_unlink_founders. }
  apply (fold_left_preserves (fun g' => vertex_props g' = vertex_props g)).
  { intros s a H. now rewrite vertex_props_cull_leaf. }
  reflexivity.
Qed.

Lemma vtypes_put_ploidy (v : vertex_t) (p : Z) (g : Graph) :
  vtypes (put_vertex v (set_ploidy p) g) = vtypes g.
Proof. unfold vtypes, put_vertex; simpl. apply map_update_nth. reflexivity. Qed.

Lemma vtypes_clear_vertex (v : vertex_t) (g : Graph) :
  vtypes (clear_vertex v g) = vtypes g.
Proof. reflexivity. Qed.

Ltac prune_step :=
  let s := fresh "s" in let a := fresh "a" in let s' := fresh "s'" in
  let H := fresh "H" in let E := fresh "E" in
  intros s a s' H E;
  destruct (sexes s a); try destruct (negb _); inversion E; subst;
  repeat first [rewrite vtypes_put_ploidy | rewrite vtypes_clear_vertex]; assumption.

Lemma vtypes_prune (g g' : Graph) (model : InheritanceModel) :
  prune g model = Ok g' -> vtypes g' = vtypes g.
Proof.
  destruct model; simpl; intros H.
  - inversion H; reflexivity.
  - unfold prune_xlinked in H.
    apply (fun hstep hinit =>
             @foldM_preserves _ _ (fun x => vtypes x = vtypes g) _ _ hstep _ _ hinit H);
      [prune_step | reflexivity].
  - unfold prune_ylinked in H.
    apply (fun hstep hinit =>
             @foldM_preserves _ _ (fun x => vtypes x = vtypes g) _ _ hstep _ _ hinit H);
      [prune_step | reflexivity].
  - unfold prune_wlinked in H.
    apply (fun hstep hinit =>
             @foldM_preserves _ _ (fun x => vtypes x = vtypes g) _ _ hstep _ _ hinit H);
      [prune_step | reflexivity].
  - unfold prune_zlinked in H.
    apply (fun hstep hinit =>
             @foldM_preserves _ _ (fun x => vtypes x = vtypes g) _ _ hstep _ _ hinit H);
      [prune_step | reflexivity].
  - unfold prune_maternal in H. inversion H.
    apply (fold_left_preserves (fun x => vtypes x = vtypes g)); [|reflexivity].
    intros s a Hs. now rewrite vtypes_put_ploidy.
  - unfold prune_paternal in H. inversion H.
    apply (fold_left_preserves (fun x => vtypes x = vtypes g)); [|reflexivity].
    intros s a Hs. now rewrite vtypes_put_ploidy.
  - discriminate.
Qed.

(** ** The topological sort emits every vertex at most once *)

Lemma dfs_frame_refl (st : list color * list vertex_t) : dfs_frame st st.
Proof. split; auto. Qed.

Lemma dfs_frame_trans (a b c : list color * list vertex_t) :
  dfs_frame a b -> dfs_frame b c -> dfs_frame a c.
Proof.
  intros [L1 F1] [L2 F2]. split; [congruence|].
  intros w Hw. rewrite F2; [auto|]. rewrite F1; auto.
Qed.

Lemma color_of_update (c : list color) (u w : vertex_t) (x : color) :
  color_of (update_nth u (fun _ => x) c) w =
  if (u =? w) && (u <? List.length c) then x else color_of c w.
Proof. unfold color_of. apply nth_update_nth. Qed.

Lemma color_white_in_range (c : list color) (u : vertex_t) :
  color_of c u = White -> u < List.length c.
Proof.
  unfold color_of. intros H. destruct (Nat.lt_ge_cases u (List.length c)); [assumption|].
  rewrite nth_overflow in H; [discriminate|assumption].
Qed.

Lemma dfs_visit_spec (fuel : nat) (g : Graph) :
  forall u st st',
    color_of (fst st) u = White -> dfs_inv st ->
    dfs_visit fuel g u st = Ok st' ->
    dfs_inv st' /\ dfs_frame st st'.
Proof.
  induction fuel as [|fuel IH]; intros u st st' Hu Hinv H; simpl in H; [discriminate|].
  apply bind_Ok_inv in H. destruct H as (st2 & Hfold & Hend).
  inversion Hend; subst st'; clear Hend.
  pose proof (color_white_in_range _ _ Hu) as Hrange.
  set (st1 := (update_nth u (fun _ => Gray) (fst st), snd st)) in *.
  assert (Hinv1 : dfs_inv st1).
  { destruct Hinv as (N & B & R). unfold st1. repeat split; simpl; auto.
    - intros v Hv. rewrite color_of_update.
      destruct (Nat.eqb_spec u v) as [->|]; simpl; auto.
      apply B in Hv. congruence.
    - intros v Hv. rewrite update_nth_length. auto. }
  assert (Hfr1 : dfs_frame st st1).
  { unfold st1. split; simpl; [apply update_nth_length|].
    intros w Hw. rewrite color_of_update.
    destruct (Nat.eqb_spec u w) as [->|]; simpl; auto. congruence. }
  assert (Hin : dfs_inv st2 /\ dfs_frame st1 st2).
  { apply (fun hstep hinit =>
             @foldM_preserves _ _ (fun x => dfs_inv x /\ dfs_frame st1 x)
                              _ _ hstep _ _ hinit Hfold).
    - intros s e s' [Hs Hf] E.
      destruct (color_of (fst s) (target e)) eqn:C.
      + apply IH in E; auto. destruct E as [E1 E2].
        split; [assumption|]. eapply dfs_frame_trans; eauto.
      + discriminate.
      + inversion E; subst. auto.
    - split; [assumption|apply dfs_frame_refl]. }
  destruct Hin as [(N2 & B2 & R2) [L2 F2]].
  assert (Hgray : color_of (fst st2) u = Gray).
  { rewrite F2; unfold st1; simpl; rewrite color_of_update, Nat.eqb_refl;
      apply Nat.ltb_lt in Hrange; rewrite Hrange; simpl; [reflexivity|discriminate]. }
  split.
  - repeat split; simpl.
    + apply NoDup_app; [assumption | constructor; [intros [] | constructor] | ].
      intros a Ha [Hau|[]]. subst a. apply B2 in Ha. congruence.
    + intros v Hv. rewrite color_of_update. apply in_app_or in Hv.
      destruct (Nat.eqb_spec u v) as [->|Hne]; simpl.
      * assert (Hl : (v <? List.length (fst st2)) = true).
        { apply Nat.ltb_lt. rewrite L2. unfold st1; simpl.
          rewrite update_nth_length. assumption. }
        rewrite Hl. reflexivity.
      * destruct Hv as [Hv|[Hv|[]]]; [auto|congruence].
    + intros v Hv. rewrite update_nth_length. apply in_app_or in Hv.
      destruct Hv as [Hv|[Hv|[]]]; [auto|]. subst v.
      rewrite L2. unfold st1; simpl. rewrite update_nth_length. assumption.
  - split; simpl.
    + rewrite update_nth_length, L2. apply Hfr1.
    + intros w Hw. rewrite color_of_update.
      destruct (Nat.eqb_spec u w) as [->|Hne]; simpl; [congruence|].
      rewrite F2; [apply Hfr1; assumption|].
      destruct Hfr1 as [_ F1]. rewrite F1; assumption.
Qed.

Lemma topological_sort_nodup (g : Graph) (order : list vertex_t) :
  topological_sort g = Ok order ->
  NoDup order /\ forall v, In v order -> v < num_vertices g.
Proof.
  unfold topological_sort. intros H.
  apply bind_Ok_inv in H. destruct H as (st & Hfold & Hend).
  inversion Hend; subst order; clear Hend.
  set (st0 := (repeat White (num_vertices g), @nil vertex_t)) in *.
  assert (Hin : dfs_inv st /\ dfs_frame st0 st).
  { apply (fun hstep hinit =>
             @foldM_preserves _ _ (fun x => dfs_inv x /\ dfs_frame st0 x)
                              _ _ hstep _ _ hinit Hfold).
    - intros s u s' [Hs Hf] E.
      destruct (color_of (fst s) u) eqn:C.
      + apply dfs_visit_spec in E; auto. destruct E as [E1 E2].
        split; [assumption|]. eapply dfs_frame_trans; eauto.
      + inversion E; subst; auto.
      + inversion E; subst; auto.
    - split; [|apply dfs_frame_refl]. unfold st0, dfs_inv; simpl.
      repeat split; [constructor| |]; intros v []. }
  destruct Hin as [(N & B & R) [L F]]. split; [assumption|].
  intros v Hv. apply R in Hv. rewrite L in Hv. unfold st0 in Hv; simpl in Hv.
  now rewrite repeat_length in Hv.
Qed.

(** ** The finalizer, as a renumbering *)

Lemma finalize_vertices (input : Graph) (order : list vertex_t) :
  forall out,
    vertex_props (fold_left (fun out v => add_vertex (prop input v) out) order out)
      = vertex_props out ++ map (prop input) order
    /\ edge_list (fold_left (fun out v => add_vertex (prop input v) out) order out)
      = edge_list out.
Proof.
  induction order as [|v order IH]; intros out; simpl.
  - now rewrite app_nil_r.
  - destruct (IH (add_vertex (prop input v) out)) as [H1 H2].
    rewrite H1, H2. simpl. now rewrite <- app_assoc.
Qed.

Lemma finalize_edges (m : list (option vertex_t)) (es : list Edge) :
  forall out out',
    foldM (fun out e =>
             do new_src <- mapped m (source e) ;
             do new_tgt <- mapped m (target e) ;
             Ok (add_edge new_src new_tgt (edge_length e) (edge_type e) out)) es out
      = Ok out' ->
    vertex_props out' = vertex_props out
    /\ exists es', edge_list out' = edge_list out ++ es' /\ Forall2 (renumbered m) es es'.
Proof.
  induction es as [|e es IH]; intros out out' H; simpl in H.
  - inversion H; subst. split; [reflexivity|]. exists []. now rewrite app_nil_r.
  - apply bind_Ok_inv in H. destruct H as (out1 & H1 & H).
    apply bind_Ok_inv in H1. destruct H1 as (s & Hs & H1).
    apply bind_Ok_inv in H1. destruct H1 as (t & Ht & H1).
    inversion H1; subst out1; clear H1.
    apply IH in H. destruct H as (Hv & es' & He & HF). simpl in *.
    split; [assumption|].
    exists (mkEdge s t (edge_length e) (edge_type e) :: es').
    split; [now rewrite He, <- app_assoc|].
    constructor; [|assumption].
    unfold mapped in Hs, Ht. unfold renumbered; simpl.
    destruct (nth (source e) m None); [|discriminate].
    destruct (nth (target e) m None); [|discriminate].
    inversion Hs; inversion Ht; subst. auto.
Qed.

Lemma finalize_with_Ok (topo : list vertex_t) (input output : Graph) :
  finalize_with topo input = Ok output ->
  vertex_props output
    = map (fun v => add_suffix (prop input v)) (vertex_order topo input)
  /\ Forall2 (renumbered (map_in_to_out (vertex_order topo input) input))
             (edges input) (edges output).
Proof.
  unfold finalize_with. intros H.
  apply bind_Ok_inv in H. destruct H as (out & H & E).
  inversion E; subst output; clear E. simpl.
  apply finalize_edges in H. destruct H as (Hv & es' & He & HF).
  destruct (finalize_vertices input (vertex_order topo input) empty_graph) as [V1 V2].
  rewrite V1 in Hv. rewrite V2 in He. simpl in Hv, He.
  split.
  - rewrite Hv, map_map. reflexivity.
  - unfold edges in *. simpl. rewrite He. assumption.
Qed.

Lemma map_in_to_out_fold (order : list vertex_t) :
  forall (w0 : nat) (m0 : list (option vertex_t)),
    let m := snd (fold_left (fun '(w, m) v => (S w, update_nth v (fun _ => Some w) m))
                            order (w0, m0)) in
    List.length m = List.length m0
    /\ (forall v, ~ In v order -> nth v m None = nth v m0 None)
    /\ (NoDup order ->
        forall i v, nth_error order i = Some v -> v < List.length m0 ->
                    nth v m None = Some (w0 + i)).
Proof.
  induction order as [|v0 order IH]; intros w0 m0; cbv zeta; simpl.
  - split; [reflexivity|]. split; [reflexivity|].
    intros _ [|i] v E; discriminate.
  - destruct (IH (S w0) (update_nth v0 (fun _ => Some w0) m0)) as (L & Out & In_).
    cbv zeta in L, Out, In_.
    split; [etransitivity; [exact L | apply update_nth_length]|].
    split.
    + intros v Hv. etransitivity; [apply Out; tauto|].
      rewrite nth_update_nth.
      destruct (Nat.eqb_spec v0 v); [tauto|reflexivity].
    + intros ND [|i] v E Hr; simpl in E.
      * inversion E; subst v0. inversion ND; subst.
        etransitivity; [apply Out; assumption|].
        rewrite nth_update_nth, Nat.eqb_refl.
        apply Nat.ltb_lt in Hr. rewrite Hr. simpl. f_equal. lia.
      * inversion ND; subst.
        replace (w0 + S i) with (S w0 + i) by lia.
        apply In_; auto. now rewrite update_nth_length.
Qed.

Lemma map_in_to_out_spec (order : list vertex_t) (input : Graph) :
  List.length (map_in_to_out order input) = num_vertices input
  /\ (forall v, ~ In v order -> nth v (map_in_to_out order input) None = None)
  /\ (NoDup order ->
      forall i v, nth_error order i = Some v -> v < num_vertices input ->
                  nth v (map_in_to_out order input) None = Some i).
Proof.
  destruct (map_in_to_out_fold order 0 (repeat None (num_vertices input)))
    as (L & Out & In_).
  cbv zeta in L, Out, In_. rewrite repeat_length in L, In_.
  split; [exact L|]. split.
  - intros v Hv. etransitivity; [apply Out; assumption|].
    destruct (Nat.lt_ge_cases v (num_vertices input)).
    + now apply nth_repeat_lt.
    + apply nth_overflow. now rewrite repeat_length.
  - intros ND i v Hi Hr. apply (In_ ND i v Hi Hr).
Qed.

Lemma map_in_to_out_inv (order : list vertex_t) (input : Graph) (v w : vertex_t) :
  NoDup order ->
  nth v (map_in_to_out order input) None = Some w ->
  nth_error order w = Some v.
Proof.
  intros ND H.
  destruct (map_in_to_out_spec order input) as (L & Out & In_).
  destruct (in_dec Nat.eq_dec v order) as [Hin|Hout].
  - apply In_nth_error in Hin. destruct Hin as (i & Hi).
    assert (Hr : v < num_vertices input).
    { destruct (Nat.lt_ge_cases v (num_vertices input)) as [|Hge]; [assumption|].
      rewrite nth_overflow in H; [discriminate|]. now rewrite L. }
    rewrite (In_ ND i v Hi Hr) in H. inversion H; subst. assumption.
  - rewrite Out in H by assumption. discriminate.
Qed.

Lemma band_type (input : Graph) (topo : list vertex_t) (u : vertex_t) :
  In u (vertex_order topo input) ->
  (types input u = Germline /\ (is_founder_band input u = true
                                \/ is_germline_band input u = true))
  \/ (types input u = Somatic /\ is_somatic_band input u = true)
  \/ (types input u = Sample /\ is_sample_band input u = true).
Proof.
  unfold vertex_order. intros H.
  repeat (apply in_app_or in H; destruct H as [H|H]);
    apply filter_In in H; destruct H as [_ H]; pose proof H as H';
    unfold is_founder_band, is_germline_band, is_somatic_band, is_sample_band in H';
    repeat (apply andb_prop in H'; destruct H' as [H' ?]);
    match goal with E : VertexType_eqb _ _ = true |- _ => apply VertexType_eqb_eq in E end;
    auto.
Qed.

Lemma vertex_order_nodup (input : Graph) (topo : list vertex_t) :
  NoDup topo -> NoDup (vertex_order topo input).
Proof.
  intros ND. apply NoDup_rev in ND. unfold vertex_order.
  repeat apply NoDup_app; try (apply NoDup_filter; assumption);
    intros a Ha Hb; apply filter_In in Ha; destruct Ha as [_ Ha];
    repeat (apply in_app_or in Hb; destruct Hb as [Hb|Hb]);
    apply filter_In in Hb; destruct Hb as [_ Hb];
    unfold is_founder_band, is_germline_band, is_somatic_band, is_sample_band in *;
    repeat match goal with
           | H : _ && _ = true |- _ => apply andb_prop in H; destruct H
           | H : VertexType_eqb _ _ = true |- _ => apply VertexType_eqb_eq in H
           | H : (_ =? _) = true |- _ => apply Nat.eqb_eq in H
           | H : (_ <? _) = true |- _ => apply Nat.ltb_lt in H
           end; try congruence; lia.
Qed.

Lemma Forall2_In_l {A B : Type} (R : A -> B -> Prop) (l : list A) (l' : list B) (x : A) :
  Forall2 R l l' -> In x l -> exists y, In y l' /\ R x y.
Proof.
  induction 1 as [|a b l l' Hab HF IH]; intros Hin; [destruct Hin|].
  destruct Hin as [->|Hin].
  - exists b. split; [left; reflexivity|assumption].
  - destruct (IH Hin) as (y & Hy & Hr). exists y. split; [right; assumption|assumption].
Qed.

Lemma Forall2_In_r {A B : Type} (R : A -> B -> Prop) (l : list A) (l' : list B) (y : B) :
  Forall2 R l l' -> In y l' -> exists x, In x l /\ R x y.
Proof.
  induction 1 as [|a b l l' Hab HF IH]; intros Hin; [destruct Hin|].
  destruct Hin as [->|Hin].
  - exists a. split; [left; reflexivity|assumption].
  - destruct (IH Hin) as (x & Hx & Hr). exists x. split; [right; assumption|assumption].
Qed.

Lemma filter_length_pos {A : Type} (f : A -> bool) (l : list A) (x : A) :
  In x l -> f x = true -> 1 <= List.length (filter f l).
Proof.
  intros Hin Hf. assert (H : In x (filter f l)) by (apply filter_In; auto).
  destruct (filter f l); [destruct H|simpl; lia].
Qed.

Lemma length_pos_In {A : Type} (l : list A) : 0 < List.length l -> exists x, In x l.
Proof. destruct l as [|x l]; simpl; [lia|]. exists x; auto. Qed.

Lemma degree_pos_edge (g : Graph) (u : vertex_t) :
  0 < degree g u ->
  exists e, In e (edge_list g) /\ (source e = u \/ target e = u).
Proof.
  unfold degree, in_degree, out_degree, in_edges, out_edges. intros H.
  destruct (filter (fun e => target e =? u) (edge_list g)) as [|e l] eqn:E.
  - simpl in H. apply length_pos_In in H. destruct H as (e & He).
    apply filter_In in He. destruct He as [He Hs]. apply Nat.eqb_eq in Hs. eauto.
  - assert (He : In e (filter (fun e => target e =? u) (edge_list g)))
      by (rewrite E; left; reflexivity).
    apply filter_In in He. destruct He as [He Ht]. apply Nat.eqb_eq in Ht. eauto.
Qed.

Lemma edge_degree (g : Graph) (e : Edge) (v : vertex_t) :
  In e (edge_list g) -> source e = v \/ target e = v -> 1 <= degree g v.
Proof.
  intros He [Hs|Ht]; unfold degree, in_degree, out_degree, in_edges, out_edges.
  - assert (1 <= List.length (filter (fun e => source e =? v) (edge_list g))).
    { apply filter_length_pos with e; [assumption|]. now apply Nat.eqb_eq. }
    lia.
  - assert (1 <= List.length (filter (fun e => target e =? v) (edge_list g))).
    { apply filter_length_pos with e; [assumption|]. now apply Nat.eqb_eq. }
    lia.
Qed.

Lemma vertex_type_add_suffix (x : VertexProp) :
  vertex_type (add_suffix x) = vertex_type x.
Proof. unfold add_suffix. destruct (vertex_type x) eqn:E; simpl; auto. Qed.

(** A vertex of the finalized graph is the vertex of the input at the same
    place of the order, with its label suffixed. *)
Lemma finalized_vertex (topo : list vertex_t) (input output : Graph) (v : vertex_t) :
  finalize_with topo input = Ok output ->
  v < num_vertices output ->
  exists u, nth_error (vertex_order topo input) v = Some u
            /\ prop output v = add_suffix (prop input u).
Proof.
  intros H Hv. apply finalize_with_Ok in H. destruct H as [Hp _].
  unfold num_vertices in Hv. rewrite Hp, length_map in Hv.
  destruct (nth_error (vertex_order topo input) v) as [u|] eqn:E.
  - exists u. split; [reflexivity|]. unfold prop at 1. rewrite Hp.
    apply nth_error_nth.
    rewrite nth_error_map, E. reflexivity.
  - apply nth_error_None in E. lia.
Qed.

Lemma sample_attached_finalize (topo : list vertex_t) (input output : Graph) (v : vertex_t) :
  NoDup topo ->
  finalize_with topo input = Ok output ->
  v < num_vertices output -> types output v = Sample ->
  1 <= degree output v.
Proof.
  intros ND H Hv Ht.
  destruct (finalized_vertex _ _ H Hv) as (u & Hu & Hp).
  unfold types in Ht. rewrite Hp, vertex_type_add_suffix in Ht.
  pose proof (nth_error_In _ _ Hu) as Hin.
  apply band_type in Hin.
  destruct Hin as [[T _]|[[T _]|[T B]]]; unfold types in T; try congruence.
  unfold is_sample_band in B. apply andb_prop in B. destruct B as [B _].
  apply Nat.ltb_lt in B. apply degree_pos_edge in B. destruct B as (e & He & Hends).
  apply finalize_with_Ok in H. destruct H as [_ HF].
  destruct (Forall2_In_l e HF He) as (e' & He' & (Rs & Rt & _)).
  pose proof (vertex_order_nodup input ND) as NDo.
  apply edge_degree with e'; [exact He'|].
  destruct Hends as [Hs|Hs]; subst u; [left|right].
  - apply map_in_to_out_inv in Rs; [|assumption].
    apply (proj1 (NoDup_nth_error _) NDo).
    + apply nth_error_Some. congruence.
    + congruence.
  - apply map_in_to_out_inv in Rt; [|assumption].
    apply (proj1 (NoDup_nth_error _) NDo).
    + apply nth_error_Some. congruence.
    + congruence.
Qed.

(** ** The stages of [compile], one by one *)

Lemma compile_inv (g gf : Graph) (model : InheritanceModel) (mu mu_somatic : double) :
  compile g model mu mu_somatic = Ok gf ->
  exists rev_topo pruned topo,
    topological_sort (update_edge_lengths g mu mu_somatic) = Ok rev_topo
    /\ prune (simplify_with rev_topo (update_edge_lengths g mu mu_somatic)) model = Ok pruned
    /\ topological_sort pruned = Ok topo
    /\ finalize_with topo pruned = Ok gf.
Proof.
  unfold compile, simplify, finalize. intros H.
  apply bind_Ok_inv in H. destruct H as (g1 & H1 & H).
  apply bind_Ok_inv in H1. destruct H1 as (rev_topo & Hs & H1).
  inversion H1; subst g1; clear H1.
  apply bind_Ok_inv in H. destruct H as (pruned & Hp & H).
  apply bind_Ok_inv in H. destruct H as (topo & Ht & H).
  exists rev_topo, pruned, topo. auto.
Qed.

Lemma Construct_inv
    (parse_newick : string -> Graph -> vertex_t -> bool -> bool * Graph)
    (pedigree : Pedigree) (known_samples : list string) (model : InheritanceModel)
    (mu mu_somatic : double) (normalize : bool) (b : bool) (rg : RelationshipGraph) :
  Construct parse_newick pedigree known_samples model mu mu_somatic normalize = Ok (b, rg) ->
  exists g0 p,
    construct_pedigree_graph parse_newick pedigree known_samples normalize = Ok g0
    /\ compile g0 model mu mu_somatic = Ok (graph_ rg)
    /\ peeling_order (graph_ rg) = Ok p.
Proof.
  unfold Construct. intros H.
  apply bind_Ok_inv in H. destruct H as (g0 & H0 & H).
  apply bind_Ok_inv in H. destruct H as (g1 & H1 & H).
  apply bind_Ok_inv in H. destruct H as (p & Hp & H).
  inversion H; subst; simpl. eauto.
Qed.

(** ** No vertex is ever typed [Founder] *)

Lemma no_founder_vtypes (g g' : Graph) :
  vtypes g' = vtypes g -> no_founder g -> no_founder g'.
Proof.
  assert (K : forall x, no_founder x <-> Forall (fun t => t <> Founder) (vtypes x)).
  { intros x. unfold no_founder, vtypes. symmetry.
    apply (Forall_map vertex_type (fun t => t <> Founder)). }
  intros E H. apply K. rewrite E. apply K. exact H.
Qed.

Lemma vtypes_put_sex (v : vertex_t) (x : Sex) (g : Graph) :
  vtypes (put_vertex v (set_sex x) g) = vtypes g.
Proof. unfold vtypes, put_vertex; simpl. apply map_update_nth. reflexivity. Qed.

Ltac break_match H :=
  repeat match type of H with
         | context [if ?c then _ else _] => destruct c
         | context [match ?x with _ => _ end] => destruct x eqn:?
         end.

Lemma vtypes_add_edges_step (pedigree : Pedigree) (g g' : Graph) (v : vertex_t) :
  add_edges_step pedigree g v = Ok g' -> vtypes g' = vtypes g.
Proof.
  unfold add_edges_step, bind, get. intros H.
  break_match H; try discriminate; inversion H; subst;
    repeat first [rewrite vtypes_put_sex | rewrite vtypes_put_ploidy]; reflexivity.
Qed.

Lemma no_founder_mark_known_samples (known : list string) (g : Graph) :
  no_founder g -> no_founder (mark_known_samples known g).
Proof.
  unfold mark_known_samples.
  apply fold_left_preserves. intros s a Hs.
  destruct (negb _); [assumption|]. destruct (existsb _ _); [|assumption].
  unfold no_founder, put_vertex in *; simpl.
  clear -Hs. revert a. induction (vertex_props s) as [|x l IH]; intros [|a]; simpl; auto.
  - inversion Hs; subst. constructor; [discriminate|assumption].
  - inversion Hs; subst. constructor; auto.
Qed.

Lemma no_founder_built
    (parse_newick : string -> Graph -> vertex_t -> bool -> bool * Graph)
    (pedigree : Pedigree) (known_samples : list string) (normalize : bool) (g0 : Graph) :
  (forall text g anchor n, no_founder g -> no_founder (snd (parse_newick text g anchor n))) ->
  construct_pedigree_graph parse_newick pedigree known_samples normalize = Ok g0 ->
  no_founder g0.
Proof.
  intros Hparse. unfold construct_pedigree_graph. intros H.
  apply bind_Ok_inv in H. destruct H as (g1 & H1 & H).
  apply bind_Ok_inv in H. destruct H as (g2 & H2 & H).
  inversion H; subst g0; clear H.
  apply no_founder_mark_known_samples.
  revert H2. apply foldM_preserves.
  { intros s i s'. apply foldM_preserves.
    intros t text t' Ht E. specialize (Hparse text t i normalize Ht).
    destruct (parse_newick text t i normalize) as [ok t1]. simpl in Hparse.
    destruct (negb ok); [discriminate|]. inversion E; subst. assumption. }
  revert H1. unfold add_edges_to_pedigree_graph.
  match goal with
  | |- foldM _ _ ?g = _ -> _ =>
      assert (Hinit : no_founder g);
      [|generalize Hinit; apply foldM_preserves]
  end.
  - apply fold_left_preserves; [|constructor].
    intros s a Hs. unfold no_founder, add_vertex in *; simpl.
    apply Forall_app. split; [assumption|]. constructor; [discriminate|constructor].
  - intros s a s' Hs E. apply vtypes_add_edges_step in E.
    eapply no_founder_vtypes; eassumption.
Qed.

Lemma no_founder_prop (g : Graph) (u : vertex_t) :
  no_founder g -> vertex_type (prop g u) <> Founder.
Proof.
  unfold no_founder, prop. intros H.
  destruct (nth_in_or_default u (vertex_props g) default_vertex) as [Hin | ->].
  - rewrite Forall_forall in H. apply H. exact Hin.
  - discriminate.
Qed.

Lemma no_founder_finalize_with (topo : list vertex_t) (input output : Graph) :
  finalize_with topo input = Ok output -> no_founder input -> no_founder output.
Proof.
  intros H Hn. apply finalize_with_Ok in H. destruct H as [Hp _].
  unfold no_founder. rewrite Hp. apply Forall_map. apply Forall_forall.
  intros u _. rewrite vertex_type_add_suffix. now apply no_founder_prop.
Qed.

Lemma no_founder_compile (g gf : Graph) (model : InheritanceModel) (mu mu_somatic : double) :
  compile g model mu mu_somatic = Ok gf -> no_founder g ->
  exists pruned topo,
    finalize_with topo pruned = Ok gf /\ no_founder pruned /\ no_founder gf.
Proof.
  intros H Hn. apply compile_inv in H.
  destruct H as (rev_topo & pruned & topo & _ & Hp & _ & Hf).
  assert (Hpr : no_founder pruned).
  { apply vtypes_prune in Hp. eapply no_founder_vtypes; [exact Hp|].
    unfold no_founder. rewrite vertex_props_simplify_with. exact Hn. }
  exists pruned, topo. split; [assumption|]. split; [assumption|].
  eapply no_founder_finalize_with; eassumption.
Qed.

Lemma founder_band_is_germline (topo : list vertex_t) (input output : Graph) (i : nat) :
  finalize_with topo input = Ok output ->
  i < List.length (filter (is_founder_band input) (rev topo)) ->
  types output i = Germline.
Proof.
  intros H Hi. apply finalize_with_Ok in H. destruct H as [Hp _].
  unfold types, prop. rewrite Hp.
  destruct (nth_error (filter (is_founder_band input) (rev topo)) i) as [u|] eqn:E;
    [|apply nth_error_None in E; lia].
  assert (K : nth i (map (fun v => add_suffix (prop input v)) (vertex_order topo input))
                 default_vertex = add_suffix (prop input u)).
  { apply nth_error_nth. rewrite nth_error_map. unfold vertex_order.
    rewrite nth_error_app1 by assumption. rewrite E. reflexivity. }
  rewrite K, vertex_type_add_suffix. apply nth_error_In in E.
  apply filter_In in E. destruct E as [_ E]. unfold is_founder_band in E.
  apply andb_prop in E. destruct E as [_ E]. now apply VertexType_eqb_eq in E.
Qed.

Lemma print_founding_spec (g : Graph) (v : vertex_t) :
  In v (print_founding g) <-> v < num_vertices g /\ in_degree g v = 0.
Proof.
  unfold print_founding, vertices. rewrite filter_In, in_seq, Nat.eqb_eq. lia.
Qed.

(** C10 -- no stage of the pipeline types a vertex [Founder]: the finalized
    graph of a successful [Construct] has no such vertex (the parser, which
    is external, is taken not to create one), the vertices of its founder
    band, the first of the finalizer's order, are typed [Germline], and the
    [founding] section of [PrintGraph] lists exactly the vertices of
    in-degree 0, whatever their type. *)
Theorem no_vertex_is_typed_founder
    (parse_newick : string -> Graph -> vertex_t -> bool -> bool * Graph)
    (pedigree : Pedigree) (known_samples : list string) (model : InheritanceModel)
    (mu mu_somatic : double) (normalize : bool) (b : bool) (rg : RelationshipGraph) :
  (forall text g anchor n, no_founder g -> no_founder (snd (parse_newick text g anchor n))) ->
  Construct parse_newick pedigree known_samples model mu mu_somatic normalize = Ok (b, rg) ->
  (forall v, types (graph_ rg) v <> Founder)
  /\ (exists pruned topo,
        finalize_with topo pruned = Ok (graph_ rg)
        /\ no_founder pruned
        /\ forall i, i < List.length (filter (is_founder_band pruned) (rev topo)) ->
                     types (graph_ rg) i = Germline)
  /\ (forall v, In v (print_founding (graph_ rg))
                <-> v < num_vertices (graph_ rg) /\ in_degree (graph_ rg) v = 0).
Proof.
  intros Hparse H. apply Construct_inv in H. destruct H as (g0 & p & Hb & Hc & _).
  apply (no_founder_built _ _ _ _ Hparse) in Hb.
  destruct (no_founder_compile _ _ _ Hc Hb) as (pruned & topo & Hf & Hn & Hg).
  split; [|split].
  - intros v. now apply no_founder_prop.
  - exists pruned, topo. split; [assumption|]. split; [assumption|].
    intros i Hi. eapply founder_band_is_germline; eassumption.
  - intros v. apply print_founding_spec.
Qed.

Lemma single_node_parser_no_founder (text : string) (g : Graph) (anchor : vertex_t)
    (n : bool) :
  no_founder g -> no_founder (snd (single_node_parser text g anchor n)).
Proof.
  unfold no_founder, single_node_parser; simpl. intros H.
  apply Forall_app. split; [assumption|]. constructor; [discriminate|constructor].
Qed.

Lemma no_vertex_is_typed_founder_witness :
  exists rg,
    Construct single_node_parser quartet_pedigree ["c1"; "d1"] ModelAutosomal
              (double_of 1 (-1)) (double_of 1 (-2)) false = Ok (true, rg)
    /\ forall v, types (graph_ rg) v <> Founder.
Proof.
  eexists. split; [vm_compute; reflexivity|].
  apply (@no_vertex_is_typed_founder single_node_parser quartet_pedigree
           ["c1"; "d1"] ModelAutosomal (double_of 1 (-1)) (double_of 1 (-2)) false true).
  - apply single_node_parser_no_founder.
  - vm_compute. reflexivity.
Defined.

(** ** Edge lengths through the scaler and the simplifier *)

Lemma is_chain_app (c1 c2 : list Edge) :
  forall u v w, is_chain u v c1 -> is_chain v w c2 -> is_chain u w (c1 ++ c2).
Proof.
  induction c1 as [|e c1 IH]; intros u v w H1 H2; [destruct H1|].
  simpl in H1. destruct H1 as [Hs H1]. simpl. split; [assumption|].
  destruct c1 as [|e1 c1].
  - simpl. subst v. destruct c2; [destruct H2|exact H2].
  - simpl app. specialize (IH (target e) v w H1 H2). exact IH.
Qed.


Lemma remove_edge_if_incl (p : Edge -> bool) (g : Graph) :
  incl (edge_list (remove_edge_if p g)) (edge_list g).
Proof. intros e He. simpl in He. apply filter_In in He. tauto. Qed.

Lemma bypass_new_edges (child : vertex_t) (len : float) (otype : EdgeType) (l : list Edge) :
  forall g,
    edge_list (fold_left (fun g e =>
                 add_edge (source e) child (float_add len (edge_length e))
                          (N.lor otype (edge_type e)) g) l g)
    = edge_list g
      ++ map (fun e => mkEdge (source e) child (float_add len (edge_length e))
                              (N.lor otype (edge_type e))) l.
Proof.
  induction l as [|e l IH]; intros g; simpl.
  - now rewrite app_nil_r.
  - rewrite IH. simpl. now rewrite <- app_assoc.
Qed.

(** ** The pruner only deletes edges and only rewrites ploidies *)

Lemma map_put_ploidy {B : Type} (f : VertexProp -> B) (v : vertex_t) (p : Z) (g : Graph) :
  (forall q x, f (set_ploidy q x) = f x) ->
  map f (vertex_props (put_vertex v (set_ploidy p) g)) = map f (vertex_props g).
Proof. intros H. unfold put_vertex; simpl. apply map_update_nth. apply H. Qed.

Ltac prune_case H P step :=
  apply (fun hstep hinit => @foldM_preserves _ _ P _ _ hstep _ _ hinit H);
  [ let s := fresh "s" in let a := fresh "a" in let s' := fresh "s'" in
    let Hs := fresh "Hs" in let E := fresh "E" in
    intros s a s' Hs E;
    destruct (sexes s a); try destruct (negb _); inversion E; subst; step
  | ].

Lemma prune_preserves {B : Type} (f : VertexProp -> B) (g g' : Graph)
    (model : InheritanceModel) :
  (forall q x, f (set_ploidy q x) = f x) ->
  prune g model = Ok g' ->
  map f (vertex_props g') = map f (vertex_props g).
Proof.
  intros Hf.
  assert (Hput : forall v p s, map f (vertex_props s) = map f (vertex_props g) ->
                   map f (vertex_props (put_vertex v (set_ploidy p) s))
                   = map f (vertex_props g)).
  { intros v p s Hs. rewrite map_put_ploidy; assumption. }
  destruct model; simpl; intros H;
    try (inversion H; subst; reflexivity); try discriminate.
  - unfold prune_xlinked in H.
    prune_case H (fun x => map f (vertex_props x) = map f (vertex_props g))
      ltac:(first [assumption | apply Hput; assumption]).
    reflexivity.
  - unfold prune_ylinked in H.
    prune_case H (fun x => map f (vertex_props x) = map f (vertex_props g))
      ltac:(first [assumption | apply Hput; assumption]).
    reflexivity.
  - unfold prune_wlinked in H.
    prune_case H (fun x => map f (vertex_props x) = map f (vertex_props g))
      ltac:(first [assumption | apply Hput; assumption]).
    reflexivity.
  - unfold prune_zlinked in H.
    prune_case H (fun x => map f (vertex_props x) = map f (vertex_props g))
      ltac:(first [assumption | apply Hput; assumption]).
    reflexivity.
  - unfold prune_maternal in H. inversion H.
    apply (fold_left_preserves
             (fun x => map f (vertex_props x) = map f (vertex_props g)));
      [|reflexivity].
    intros s a Hs. apply Hput; assumption.
  - unfold prune_paternal in H. inversion H.
    apply (fold_left_preserves
             (fun x => map f (vertex_props x) = map f (vertex_props g)));
      [|reflexivity].
    intros s a Hs. apply Hput; assumption.
Qed.

Lemma prune_incl (g g' : Graph) (model : InheritanceModel) :
  prune g model = Ok g' -> incl (edge_list g') (edge_list g).
Proof.
  assert (Hclear : forall v s, incl (edge_list s) (edge_list g) ->
                     incl (edge_list (clear_vertex v s)) (edge_list g)).
  { intros v s Hs. eapply incl_tran; [apply remove_edge_if_incl|assumption]. }
  destruct model; simpl; intros H;
    try (inversion H; subst; apply incl_refl); try discriminate.
  - unfold prune_xlinked in H.
    prune_case H (fun x => incl (edge_list x) (edge_list g))
      ltac:(simpl; first [assumption | apply Hclear; assumption]).
    apply remove_edge_if_incl.
  - unfold prune_ylinked in H.
    prune_case H (fun x => incl (edge_list x) (edge_list g))
      ltac:(simpl; first [assumption | apply Hclear; assumption]).
    apply remove_edge_if_incl.
  - unfold prune_wlinked in H.
    prune_case H (fun x => incl (edge_list x) (edge_list g))
      ltac:(simpl; first [assumption | apply Hclear; assumption]).
    apply remove_edge_if_incl.
  - unfold prune_zlinked in H.
    prune_case H (fun x => incl (edge_list x) (edge_list g))
      ltac:(simpl; first [assumption | apply Hclear; assumption]).
    apply remove_edge_if_incl.
  - unfold prune_maternal in H. inversion H.
    apply (fold_left_preserves (fun x => incl (edge_list x) (edge_list g)));
      [intros; assumption|apply remove_edge_if_incl].
  - unfold prune_paternal in H. inversion H.
    apply (fold_left_preserves (fun x => incl (edge_list x) (edge_list g)));
      [intros; assumption|apply remove_edge_if_incl].
Qed.

Lemma finalized_vertex_at (topo : list vertex_t) (input output : Graph) (v u : vertex_t) :
  finalize_with topo input = Ok output ->
  nth_error (vertex_order topo input) v = Some u ->
  prop output v = add_suffix (prop input u).
Proof.
  intros H Hu. apply finalize_with_Ok in H. destruct H as [Hp _].
  unfold prop at 1. rewrite Hp. apply nth_error_nth.
  rewrite nth_error_map, Hu. reflexivity.
Qed.


(** ** Flat sets *)

Lemma set_insert_In (x y : vertex_t) (s : flat_set) :
  In y (set_insert x s) <-> y = x \/ In y s.
Proof.
  induction s as [|z s IH]; simpl.
  - intuition.
  - destruct (Nat.ltb_spec x z).
    + simpl. intuition.
    + destruct (Nat.eqb_spec x z).
      * subst. simpl. intuition.
      * simpl. rewrite IH. intuition.
Qed.

Lemma set_insert_sorted (x : vertex_t) (s : flat_set) :
  sorted s -> sorted (set_insert x s).
Proof.
  unfold sorted. induction s as [|z s IH]; simpl; intros H.
  - repeat constructor.
  - apply StronglySorted_inv in H. destruct H as [Hs Hz].
    destruct (Nat.ltb_spec x z).
    + constructor; [constructor; assumption|].
      constructor; [assumption|].
      rewrite Forall_forall in *. intros y Hy. specialize (Hz y Hy). lia.
    + destruct (Nat.eqb_spec x z).
      * constructor; assumption.
      * constructor; [auto|].
        rewrite Forall_forall in *. intros y Hy.
        apply set_insert_In in Hy. destruct Hy as [->|Hy]; [lia|auto].
Qed.

Lemma sorted_NoDup (s : flat_set) : sorted s -> NoDup s.
Proof.
  unfold sorted. induction 1 as [|a l Hs IH Ha]; constructor; [|assumption].
  intros Hin. rewrite Forall_forall in Ha. specialize (Ha a Hin). lia.
Qed.

Lemma set_insert_id (x : vertex_t) (s : flat_set) :
  sorted s -> In x s -> set_insert x s = s.
Proof.
  unfold sorted. induction s as [|z s IH]; simpl; intros H Hin; [destruct Hin|].
  apply StronglySorted_inv in H. destruct H as [Hs Hz].
  destruct Hin as [->|Hin].
  - rewrite Nat.ltb_irrefl, Nat.eqb_refl. reflexivity.
  - rewrite Forall_forall in Hz. specialize (Hz x Hin).
    destruct (Nat.ltb_spec x z); [lia|].
    destruct (Nat.eqb_spec x z); [lia|]. now rewrite IH.
Qed.

Lemma set_erase_In (x y : vertex_t) (s : flat_set) :
  NoDup s -> (In y (set_erase x s) <-> In y s /\ y <> x).
Proof.
  induction s as [|z s IH]; simpl; intros H.
  - intuition.
  - inversion H; subst. destruct (Nat.eqb_spec x z).
    + subst. split.
      * intros Hy. split; [auto|]. intros ->. contradiction.
      * intros [[->|Hy] Hne]; [congruence|assumption].
    + simpl. rewrite IH by assumption. split.
      * intros [->|[Hy Hne]]; auto.
      * intros [[->|Hy] Hne]; auto.
Qed.

Lemma set_erase_sorted (x : vertex_t) (s : flat_set) :
  sorted s -> sorted (set_erase x s).
Proof.
  unfold sorted. induction s as [|z s IH]; simpl; intros H; [constructor|].
  apply StronglySorted_inv in H. destruct H as [Hs Hz].
  destruct (Nat.eqb_spec x z); [assumption|].
  constructor; [auto|].
  rewrite Forall_forall in *. intros y Hy.
  apply set_erase_In in Hy; [|apply sorted_NoDup; assumption]. apply Hz. tauto.
Qed.

Lemma set_erase_absent (x : vertex_t) (s : flat_set) :
  ~ In x s -> set_erase x s = s.
Proof.
  induction s as [|z s IH]; simpl; intros H; [reflexivity|].
  destruct (Nat.eqb_spec x z); [subst; tauto|]. rewrite IH; tauto.
Qed.

Lemma set_erase_middle (x : vertex_t) (l1 l2 : flat_set) :
  ~ In x l1 -> set_erase x (l1 ++ x :: l2) = l1 ++ l2.
Proof.
  induction l1 as [|z l1 IH]; simpl; intros H.
  - now rewrite Nat.eqb_refl.
  - destruct (Nat.eqb_spec x z); [subst; tauto|]. rewrite IH; tauto.
Qed.

Lemma set_contains_In (x : vertex_t) (s : flat_set) :
  set_contains x s = true <-> In x s.
Proof.
  unfold set_contains. rewrite existsb_exists. split.
  - intros (y & Hy & E). apply Nat.eqb_eq in E. now subst.
  - intros H. exists x. split; [assumption|apply Nat.eqb_refl].
Qed.

Lemma insert_all_In (k s : flat_set) (y : vertex_t) :
  In y (insert_all k s) <-> In y k \/ In y s.
Proof.
  unfold insert_all. revert s. induction k as [|b k IH]; intros s; simpl.
  - intuition.
  - rewrite IH, set_insert_In. intuition.
Qed.

Lemma insert_all_sorted (k s : flat_set) : sorted s -> sorted (insert_all k s).
Proof.
  unfold insert_all. revert s. induction k as [|b k IH]; intros s H; simpl; auto.
  apply IH. now apply set_insert_sorted.
Qed.

Lemma insert_all_id (k s : flat_set) :
  sorted s -> incl k s -> insert_all k s = s.
Proof.
  unfold insert_all. induction k as [|b k IH]; intros H Hi; simpl; [reflexivity|].
  rewrite set_insert_id; [|assumption|apply Hi; left; reflexivity].
  apply IH; [assumption|]. intros y Hy. apply Hi. right. exact Hy.
Qed.

Lemma clique_update_In (v : vertex_t) (score : Z) (k s : flat_set) (y : vertex_t) :
  sorted s ->
  (In y (clique_update v score k s)
   <-> (In y s \/ ((score > 0)%Z /\ In y k)) /\ y <> v).
Proof.
  intros H. unfold clique_update. destruct (Z.gtb_spec score 0).
  - rewrite set_erase_In by (apply sorted_NoDup, insert_all_sorted; assumption).
    rewrite insert_all_In. intuition lia.
  - rewrite set_erase_In by (apply sorted_NoDup; assumption). intuition lia.
Qed.

Lemma clique_update_sorted (v : vertex_t) (score : Z) (k s : flat_set) :
  sorted s -> sorted (clique_update v score k s).
Proof.
  intros H. unfold clique_update. apply set_erase_sorted.
  destruct (score >? 0)%Z; [apply insert_all_sorted|]; assumption.
Qed.

(** ** The clique update, round by round *)

Lemma update_nth_ext {A : Type} (n : nat) (f g : A -> A) (l : list A) :
  (forall a, f a = g a) -> update_nth n f l = update_nth n g l.
Proof.
  intros H. revert n. induction l as [|a l IH]; intros [|n]; simpl; auto.
  - now rewrite H.
  - now rewrite IH.
Qed.

Lemma update_nth_compose {A : Type} (n : nat) (f g : A -> A) (l : list A) :
  update_nth n f (update_nth n g l) = update_nth n (fun a => f (g a)) l.
Proof.
  revert n. induction l as [|a l IH]; intros [|n]; simpl; auto. now rewrite IH.
Qed.

Lemma nb_get_update (a b : vertex_t) (f : flat_set -> flat_set) (nb : neighbors_t) :
  nb_get (update_nth a f nb) b =
  if (a =? b) && (a <? List.length nb) then f (nb_get nb b) else nb_get nb b.
Proof. unfold nb_get. apply nth_update_nth. Qed.

Lemma update_nth_id {A : Type} (n : nat) (f : A -> A) (l : list A) :
  (forall a, f a = a) -> update_nth n f l = l.
Proof.
  intros H. revert n. induction l as [|a l IH]; intros [|n]; simpl; auto.
  - now rewrite H.
  - now rewrite IH.
Qed.

Lemma nb_insert_all (a : vertex_t) (k : flat_set) (nb : neighbors_t) :
  fold_left (fun nb b => nb_insert a b nb) k nb = update_nth a (insert_all k) nb.
Proof.
  revert nb. induction k as [|b k IH]; intros nb; simpl.
  - symmetry. apply update_nth_id. reflexivity.
  - rewrite IH. unfold nb_insert. rewrite update_nth_compose. reflexivity.
Qed.

Lemma clique_step_eq (v : vertex_t) (score : Z) (nb : neighbors_t) (a : vertex_t) :
  clique_step v score nb a = update_nth a (clique_update v score (nb_get nb v)) nb.
Proof.
  unfold clique_step, clique_update, nb_erase. destruct (score >? 0)%Z.
  - rewrite nb_insert_all, update_nth_compose. reflexivity.
  - reflexivity.
Qed.

Lemma update_cliques_step (steps i : nat) (v : vertex_t) (score : Z) (nb : neighbors_t) :
  update_cliques (S steps) i v score nb =
  match nth_error (nb_get nb v) i with
  | None => Undefined (InvalidatedIterator v)
  | Some a => update_cliques steps (S i) v score (clique_step v score nb a)
  end.
Proof. reflexivity. Qed.

Lemma nth_error_middle {A : Type} (l1 l2 : list A) (a : A) :
  nth_error (l1 ++ a :: l2) (List.length l1) = Some a.
Proof. induction l1; simpl; auto. Qed.

(** Once the set of [v] has shrunk under the iterator, the range-for runs
    past its end. *)
Lemma update_cliques_overrun (v : vertex_t) (score : Z) (l : flat_set) :
  ~ In v l ->
  forall steps i nb nb',
    nb_get nb v = l -> i <= List.length l -> List.length l < i + steps ->
    update_cliques steps i v score nb = Ok nb' -> False.
Proof.
  intros Hv. induction steps as [|steps IH]; intros i nb nb' Hl Hi Hlen H.
  - lia.
  - rewrite update_cliques_step, Hl in H.
    destruct (nth_error l i) as [a|] eqn:E; [|discriminate].
    assert (Hav : a <> v) by (intros ->; apply Hv; eapply nth_error_In; eassumption).
    assert (i < List.length l) by (apply nth_error_Some; congruence).
    apply IH in H; auto; try lia.
    rewrite clique_step_eq, nb_get_update.
    destruct (Nat.eqb_spec a v); [contradiction|]. simpl. assumption.
Qed.

Lemma update_cliques_Ok (v : vertex_t) (score : Z) :
  forall rest done nb nb',
    nb_get nb v = done ++ rest -> ~ In v done -> sorted (done ++ rest) ->
    update_cliques (List.length rest) (List.length done) v score nb = Ok nb' ->
    nb' = fold_left (fun nb a => update_nth a (clique_update v score (done ++ rest)) nb)
                    rest nb.
Proof.
  induction rest as [|a rest IH]; intros done nb nb' Hk Hv Hs H.
  - simpl in H. inversion H. reflexivity.
  - simpl List.length in H. rewrite update_cliques_step, Hk, nth_error_middle in H.
    rewrite clique_step_eq, Hk in H. simpl fold_left.
    destruct (Nat.eq_dec a v) as [->|Hav].
    + (* the set of [v] itself: it loses [v] under the iterator *)
      assert (Hr : v < List.length nb).
      { destruct (Nat.lt_ge_cases v (List.length nb)) as [|Hge]; [assumption|].
        unfold nb_get in Hk. rewrite nth_overflow in Hk by assumption.
        destruct done; discriminate. }
      destruct rest as [|b rest].
      * simpl in H. inversion H. reflexivity.
      * exfalso. revert H.
        apply update_cliques_overrun with (l := done ++ b :: rest).
        -- pose proof (sorted_NoDup Hs) as ND. apply NoDup_remove_2 in ND. exact ND.
        -- rewrite nb_get_update, Nat.eqb_refl. apply Nat.ltb_lt in Hr. rewrite Hr.
           simpl. rewrite Hk. unfold clique_update.
           destruct (score >? 0)%Z.
           ++ rewrite insert_all_id by (assumption || apply incl_refl).
              now apply set_erase_middle.
           ++ now apply set_erase_middle.
        -- rewrite length_app. simpl. lia.
        -- rewrite length_app. simpl. lia.
    + replace (done ++ a :: rest) with ((done ++ [a]) ++ rest) in *
        by (rewrite <- app_assoc; reflexivity).
      apply IH; auto.
      * rewrite nb_get_update. destruct (Nat.eqb_spec a v); [contradiction|].
        simpl. assumption.
      * intros Hin. apply in_app_or in Hin. destruct Hin as [Hin|[Hin|[]]]; auto.
      * rewrite length_app, Nat.add_comm. exact H.
Qed.

Lemma fold_update_length (F : flat_set -> flat_set) (l : list vertex_t) (nb : neighbors_t) :
  List.length (fold_left (fun nb a => update_nth a F nb) l nb) = List.length nb.
Proof.
  revert nb. induction l as [|a l IH]; intros nb; simpl; [reflexivity|].
  now rewrite IH, update_nth_length.
Qed.

Lemma fold_update_get (F : flat_set -> flat_set) (l : list vertex_t) :
  NoDup l ->
  forall nb b,
    nb_get (fold_left (fun nb a => update_nth a F nb) l nb) b =
    if set_contains b l && (b <? List.length nb) then F (nb_get nb b) else nb_get nb b.
Proof.
  induction 1 as [|a l Ha ND IH]; intros nb b; simpl; [reflexivity|].
  rewrite IH, update_nth_length, nb_get_update.
  destruct (Nat.eqb_spec b a) as [->|Hne].
  - rewrite Nat.eqb_refl. simpl.
    assert (Hc : set_contains a l = false).
    { destruct (set_contains a l) eqn:C; [|reflexivity].
      apply set_contains_In in C. contradiction. }
    rewrite Hc. simpl. reflexivity.
  - destruct (Nat.eqb_spec a b); [congruence|]. simpl. reflexivity.
Qed.

(** The clique update, when it returns: the set of every neighbour [b] of
    [v] received the neighbours of [v] (when the score is positive) and lost
    [v]; so did the set of [v] itself when it held [v]. *)
Lemma update_cliques_spec (v : vertex_t) (score : Z) (nb nb' : neighbors_t) :
  sorted (nb_get nb v) ->
  update_cliques (List.length (nb_get nb v)) 0 v score nb = Ok nb' ->
  List.length nb' = List.length nb
  /\ forall b,
       nb_get nb' b =
       if set_contains b (nb_get nb v) && (b <? List.length nb)
       then clique_update v score (nb_get nb v) (nb_get nb b)
       else nb_get nb b.
Proof.
  intros Hs H.
  apply (@update_cliques_Ok v score (nb_get nb v) [] nb nb') in H; auto.
  simpl in H. subst nb'. split.
  - apply fold_update_length.
  - intros b. apply fold_update_get. now apply sorted_NoDup.
Qed.

(** ** The priority queue through one elimination *)

Lemma update_Ok (a : vertex_t) (f : Z) (q q' : heap_t) :
  update a f q = Ok q' ->
  nth a q None <> None /\ q' = update_nth a (fun _ => Some f) q.
Proof.
  unfold update. destruct (nth a q None); intros H; inversion H.
  split; [discriminate|reflexivity].
Qed.

Lemma requeue_spec (F : vertex_t -> Z) (l : list vertex_t) :
  forall q q',
    foldM (fun q a => update a (F a) q) l q = Ok q' ->
    List.length q' = List.length q
    /\ (forall a, In a l -> nth a q None <> None)
    /\ (forall b, nth b q' None = if set_contains b l then Some (F b) else nth b q None).
Proof.
  induction l as [|a l IH]; intros q q' H; simpl in H.
  - inversion H; subst. split; [reflexivity|]. split; [intros a []|reflexivity].
  - apply bind_Ok_inv in H. destruct H as (q1 & H1 & H).
    apply update_Ok in H1. destruct H1 as [Ha ->].
    apply IH in H. destruct H as (L & A & G).
    rewrite update_nth_length in L. split; [assumption|]. split.
    + intros b [->|Hb]; [assumption|].
      specialize (A b Hb). rewrite nth_update_nth in A.
      destruct ((a =? b) && (a <? List.length q)) eqn:C; [|assumption].
      apply andb_prop in C. destruct C as [C _]. apply Nat.eqb_eq in C. now subst.
    + intros b. rewrite G, nth_update_nth. unfold set_contains. simpl.
      destruct (Nat.eqb_spec b a) as [->|Hne].
      * rewrite Nat.eqb_refl. simpl.
        destruct (existsb (Nat.eqb a) l); [reflexivity|].
        destruct (Nat.ltb_spec a (List.length q)); [reflexivity|].
        exfalso. apply Ha. now apply nth_overflow.
      * simpl. destruct (Nat.eqb_spec a b); [congruence|]. reflexivity.
Qed.

Lemma eliminate_Ok (score : Z) (v : vertex_t) (st st' : elim_state) :
  sorted (nb_get (st_neighbors st) v) ->
  eliminate score v st = Ok st' ->
  let k := nb_get (st_neighbors st) v in
  st_order st' = st_order st ++ [v]
  /\ List.length (st_neighbors st') = List.length (st_neighbors st)
  /\ (forall b,
        nb_get (st_neighbors st') b =
        if set_contains b k && (b <? List.length (st_neighbors st))
        then clique_update v score k (nb_get (st_neighbors st) b)
        else nb_get (st_neighbors st) b)
  /\ List.length (st_queue st') = List.length (st_queue st)
  /\ (forall a, In a (nb_get (st_neighbors st') v) -> a <> v /\ nth a (st_queue st) None <> None)
  /\ (forall b,
        nth b (st_queue st') None =
        if set_contains b (nb_get (st_neighbors st') v)
        then Some (fill_in_count (st_neighbors st') b)
        else if b =? v then None else nth b (st_queue st) None).
Proof.
  intros Hs H. unfold eliminate in H.
  apply bind_Ok_inv in H. destruct H as (nb' & Hnb & H).
  apply bind_Ok_inv in H. destruct H as (q' & Hq & H).
  inversion H; subst st'; clear H. simpl.
  apply update_cliques_spec in Hnb; [|assumption]. destruct Hnb as [Ln Gn].
  apply requeue_spec in Hq. destruct Hq as (Lq & Aq & Gq).
  unfold pop in *. rewrite update_nth_length in Lq.
  split; [reflexivity|]. split; [assumption|]. split; [assumption|].
  split; [assumption|]. split.
  - intros a Ha. specialize (Aq a Ha). rewrite nth_update_nth in Aq.
    destruct (Nat.eqb_spec v a) as [->|Hne]; simpl in Aq.
    + destruct (a <? List.length (st_queue st)) eqn:C; [congruence|].
      split; [|assumption]. exfalso.
      apply Nat.ltb_ge in C. apply Aq. now apply nth_overflow.
    + split; [congruence|assumption].
  - intros b. rewrite Gq, nth_update_nth.
    destruct (set_contains b (nb_get nb' v)); [reflexivity|].
    rewrite (Nat.eqb_sym b v).
    destruct (Nat.eqb_spec v b) as [->|Hne]; simpl; [|reflexivity].
    destruct (Nat.ltb_spec b (List.length (st_queue st))); [reflexivity|].
    now apply nth_overflow.
Qed.

(** ** One elimination, in terms of membership *)

Lemma alive_range (q : heap_t) (a : vertex_t) : alive q a -> a < List.length q.
Proof.
  unfold alive. intros H. destruct (Nat.lt_ge_cases a (List.length q)); [assumption|].
  exfalso. apply H. now apply nth_overflow.
Qed.

Lemma set_contains_true (x : vertex_t) (s : flat_set) : In x s -> set_contains x s = true.
Proof. apply set_contains_In. Qed.

Lemma set_contains_false (x : vertex_t) (s : flat_set) : ~ In x s -> set_contains x s = false.
Proof.
  intros H. destruct (set_contains x s) eqn:C; [|reflexivity].
  apply set_contains_In in C. contradiction.
Qed.

Lemma step_facts (n : nat) (score : Z) (v : vertex_t) (st st' : elim_state) :
  elim_inv n st ->
  nth v (st_queue st) None = Some score ->
  eliminate score v st = Ok st' ->
  let nb := st_neighbors st in
  let nb' := st_neighbors st' in
  let k := nb_get nb v in
  st_order st' = st_order st ++ [v]
  /\ List.length nb' = n /\ List.length (st_queue st') = n
  /\ (forall y, In y (nb_get nb' v) <-> In y k /\ y <> v)
  /\ (forall b, b <> v -> In b k ->
        forall y, In y (nb_get nb' b)
                  <-> (In y (nb_get nb b) \/ ((score > 0)%Z /\ In y k)) /\ y <> v)
  /\ (forall b, b <> v -> ~ In b k -> nb_get nb' b = nb_get nb b)
  /\ (forall b, sorted (nb_get nb' b))
  /\ (forall b, alive (st_queue st') b <-> alive (st_queue st) b /\ b <> v)
  /\ (forall b, In b k -> b <> v ->
        nth b (st_queue st') None = Some (fill_in_count nb' b))
  /\ (forall b, ~ In b k -> b <> v ->
        nth b (st_queue st') None = nth b (st_queue st) None).
Proof.
  intros I Hv H. cbv zeta.
  pose proof (inv_sorted I) as Hsorted.
  apply eliminate_Ok in H; [|apply Hsorted]. cbv zeta in H.
  destruct H as (Ho & Ln & Gn & Lq & Aq & Gq).
  assert (Av : alive (st_queue st) v) by (unfold alive; congruence).
  assert (Hk : forall b, In b (nb_get (st_neighbors st) v) ->
                 b < List.length (st_neighbors st)).
  { intros b Hb. rewrite (inv_len_nb I), <- (inv_len_q I).
    apply alive_range. eapply inv_alive; eassumption. }
  assert (M3 : forall y, In y (nb_get (st_neighbors st') v)
                         <-> In y (nb_get (st_neighbors st) v) /\ y <> v).
  { intros y. rewrite Gn.
    destruct (in_dec Nat.eq_dec v (nb_get (st_neighbors st) v)) as [Hin|Hout].
    - rewrite (set_contains_true _ _ Hin).
      pose proof (Hk v Hin) as Hr. apply Nat.ltb_lt in Hr. rewrite Hr. simpl.
      rewrite clique_update_In by apply Hsorted. tauto.
    - rewrite (set_contains_false _ _ Hout). simpl. split; [|tauto].
      intros Hy. split; [assumption|]. intros ->. contradiction. }
  assert (M1 : forall b, b <> v -> In b (nb_get (st_neighbors st) v) ->
             forall y, In y (nb_get (st_neighbors st') b)
                       <-> (In y (nb_get (st_neighbors st) b)
                            \/ ((score > 0)%Z /\ In y (nb_get (st_neighbors st) v)))
                           /\ y <> v).
  { intros b Hne Hin y. rewrite Gn, (set_contains_true _ _ Hin).
    pose proof (Hk b Hin) as Hr. apply Nat.ltb_lt in Hr. rewrite Hr. simpl.
    apply clique_update_In. apply Hsorted. }
  assert (M2 : forall b, b <> v -> ~ In b (nb_get (st_neighbors st) v) ->
             nb_get (st_neighbors st') b = nb_get (st_neighbors st) b).
  { intros b Hne Hout. rewrite Gn, (set_contains_false _ _ Hout). reflexivity. }
  split; [assumption|]. split; [rewrite Ln; apply (inv_len_nb I)|].
  split; [rewrite Lq; apply (inv_len_q I)|].
  split; [assumption|]. split; [assumption|]. split; [assumption|].
  split.
  { intros b. rewrite Gn.
    destruct (set_contains b (nb_get (st_neighbors st) v)
              && (b <? List.length (st_neighbors st))); [|apply Hsorted].
    apply clique_update_sorted. apply Hsorted. }
  split.
  { intros b. unfold alive. rewrite Gq.
    destruct (in_dec Nat.eq_dec b (nb_get (st_neighbors st') v)) as [Hin|Hout].
    - rewrite (set_contains_true _ _ Hin). destruct (Aq b Hin) as [Hne Hal].
      split; [intros _; split; assumption|intros _; discriminate].
    - rewrite (set_contains_false _ _ Hout).
      destruct (Nat.eqb_spec b v) as [->|Hne]; [tauto|tauto]. }
  split.
  { intros b Hin Hne. rewrite Gq.
    rewrite set_contains_true; [reflexivity|]. apply M3. tauto. }
  { intros b Hout Hne. rewrite Gq.
    rewrite set_contains_false; [|intros Hin; apply M3 in Hin; tauto].
    destruct (Nat.eqb_spec b v); [contradiction|reflexivity]. }
Qed.

(** ** The fill-in count *)

Lemma fill_inner_ge (nb : neighbors_t) (x1 : vertex_t) (k : list vertex_t) :
  forall init,
    (init <= fold_left (fun fill x2 =>
                          if negb (set_contains x2 (nb_get nb x1))
                          then (fill + 1)%Z else fill) k init)%Z.
Proof.
  induction k as [|y k IH]; intros init; simpl; [lia|].
  destruct (negb _); [specialize (IH (init + 1)%Z)|specialize (IH init)]; lia.
Qed.

Lemma fill_inner_le (nb : neighbors_t) (x1 : vertex_t) (k : list vertex_t) :
  forall init,
    (fold_left (fun fill x2 =>
                  if negb (set_contains x2 (nb_get nb x1))
                  then (fill + 1)%Z else fill) k init <= init)%Z ->
    forall y, In y k -> In y (nb_get nb x1).
Proof.
  induction k as [|z k IH]; intros init H y Hy; [destruct Hy|].
  simpl in H. destruct (set_contains z (nb_get nb x1)) eqn:C; simpl in H.
  - destruct Hy as [->|Hy]; [now apply set_contains_In|]. eapply IH; eassumption.
  - pose proof (fill_inner_ge nb x1 k (init + 1)%Z). lia.
Qed.

Lemma fill_in_pairs_nonneg (nb : neighbors_t) (k : list vertex_t) :
  (0 <= fill_in_pairs nb k)%Z.
Proof.
  induction k as [|x k IH]; simpl; [lia|].
  pose proof (fill_inner_ge nb x k 0%Z). lia.
Qed.

Lemma fill_in_pairs_zero (nb : neighbors_t) (k : list vertex_t) :
  (fill_in_pairs nb k <= 0)%Z ->
  forall l1 x l2, k = l1 ++ x :: l2 -> forall y, In y l2 -> In y (nb_get nb x).
Proof.
  induction k as [|z k IH]; intros H l1 x l2 E y Hy.
  - destruct l1; discriminate.
  - simpl in H.
    pose proof (fill_inner_ge nb z k 0%Z). pose proof (fill_in_pairs_nonneg nb k).
    destruct l1 as [|w l1]; simpl in E; inversion E; subst.
    + apply (@fill_inner_le nb x l2 0%Z); [lia|assumption].
    + apply (IH ltac:(lia) l1 x l2 eq_refl y Hy).
Qed.

Lemma fill_clique (nb : neighbors_t) (a : vertex_t) :
  (forall x y, In x (nb_get nb a) -> In y (nb_get nb x) -> In x (nb_get nb y)) ->
  (fill_in_count nb a <= 0)%Z -> clique_at nb a.
Proof.
  intros Hsym H x y Hx Hy Hne. unfold fill_in_count in H.
  destruct (in_split _ _ Hx) as (l1 & l2 & E).
  rewrite E in Hy. apply in_app_or in Hy. destruct Hy as [Hy|[->|Hy]].
  - destruct (in_split _ _ Hy) as (l3 & l4 & E').
    assert (Hxy : In x (nb_get nb y)).
    { eapply fill_in_pairs_zero with (l1 := l3) (l2 := l4 ++ x :: l2); [exact H| |].
      - rewrite E, E', <- app_assoc. reflexivity.
      - apply in_or_app. right. left. reflexivity. }
    apply Hsym; [|assumption]. rewrite E, E'.
    apply in_or_app. left. apply in_or_app. right. left. reflexivity.
  - congruence.
  - eapply fill_in_pairs_zero; [exact H|exact E|exact Hy].
Qed.

Lemma app_snoc_split {A : Type} (l l1 l2 : list A) (v w : A) :
  l ++ [v] = l1 ++ w :: l2 ->
  (exists l2', l2 = l2' ++ [v] /\ l = l1 ++ w :: l2')
  \/ (l2 = [] /\ w = v /\ l1 = l).
Proof.
  revert l1. induction l as [|a l IH]; intros l1 E.
  - destruct l1 as [|b l1]; simpl in E.
    + inversion E; subst. right. auto.
    + inversion E. destruct l1; discriminate.
  - destruct l1 as [|b l1]; simpl in E; inversion E; subst.
    + left. exists l. auto.
    + destruct (IH l1 H1) as [(l2' & E1 & E2)|(E1 & E2 & E3)].
      * left. exists l2'. split; [assumption|]. simpl. now rewrite E2.
      * right. subst. auto.
Qed.

(** ** The invariant is kept by one elimination *)

Section EliminationStep.

Unset Implicit Arguments.

Variables (n : nat) (score : Z) (v : vertex_t) (st st' : elim_state).
Hypothesis I : elim_inv n st.
Hypothesis Hv : nth v (st_queue st) None = Some score.
Hypothesis HE : eliminate score v st = Ok st'.

Let nb := st_neighbors st.
Let nb' := st_neighbors st'.
Let q := st_queue st.
Let q' := st_queue st'.
Let k := nb_get nb v.

Lemma step_alive_v : alive q v.
Proof. unfold alive, q. congruence. Qed.

Lemma step_alive' (b : vertex_t) : alive q' b <-> alive q b /\ b <> v.
Proof. apply (@step_facts n score v st st' I Hv HE). Qed.

Lemma step_self (y : vertex_t) : In y (nb_get nb' v) <-> In y k /\ y <> v.
Proof. apply (@step_facts n score v st st' I Hv HE). Qed.

Lemma step_neighbour (b : vertex_t) :
  b <> v -> In b k ->
  forall y, In y (nb_get nb' b)
            <-> (In y (nb_get nb b) \/ ((score > 0)%Z /\ In y k)) /\ y <> v.
Proof. apply (@step_facts n score v st st' I Hv HE). Qed.

Lemma step_other (b : vertex_t) : b <> v -> ~ In b k -> nb_get nb' b = nb_get nb b.
Proof. apply (@step_facts n score v st st' I Hv HE). Qed.

(** Adjacency between two vertices other than [v] is kept. *)
Lemma step_keeps (x y : vertex_t) :
  x <> v -> y <> v -> In y (nb_get nb x) -> In y (nb_get nb' x).
Proof.
  intros Hx Hy H. destruct (in_dec Nat.eq_dec x k) as [Hin|Hout].
  - apply step_neighbour; auto.
  - rewrite step_other; auto.
Qed.

(** A vertex that is not adjacent to [v] keeps its set. *)
Lemma step_far (a : vertex_t) : alive q a -> a <> v -> ~ In a k -> ~ In v (nb_get nb a).
Proof.
  intros Ha Hne Hout Hin. apply Hout. unfold k. apply (inv_sym I); assumption.
Qed.

Lemma step_dead_frozen (w : vertex_t) :
  In w (st_order st) -> w <> v /\ nb_get nb' w = nb_get nb w.
Proof.
  intros Hw. pose proof (inv_range I _ Hw) as Hr.
  apply (inv_dead I _ Hr) in Hw.
  assert (Hne : w <> v) by (intros ->; apply Hw; apply step_alive_v).
  split; [assumption|]. apply step_other; [assumption|].
  intros Hin. apply Hw. apply (inv_alive I v); [apply step_alive_v|assumption].
Qed.

Lemma step_inv_alive (a x : vertex_t) :
  alive q' a -> In x (nb_get nb' a) -> alive q' x.
Proof.
  intros Ha Hx. apply step_alive' in Ha. destruct Ha as [Ha Hne].
  apply step_alive'.
  destruct (in_dec Nat.eq_dec a k) as [Hin|Hout].
  - apply (step_neighbour a Hne Hin) in Hx. destruct Hx as [[Hx|[_ Hx]] Hxv].
    + split; [|assumption]. apply (inv_alive I a); assumption.
    + split; [|assumption]. apply (inv_alive I v); [apply step_alive_v|assumption].
  - rewrite (step_other a Hne Hout) in Hx. split.
    + apply (inv_alive I a); assumption.
    + intros ->. apply (step_far a Ha Hne Hout Hx).
Qed.

Lemma step_inv_sym (a x : vertex_t) :
  alive q' a -> In x (nb_get nb' a) -> In a (nb_get nb' x).
Proof.
  intros Ha Hx. pose proof (step_inv_alive a x Ha Hx) as Hax.
  apply step_alive' in Ha. destruct Ha as [Ha Hne].
  apply step_alive' in Hax. destruct Hax as [Hax Hxv].
  destruct (in_dec Nat.eq_dec a k) as [Hin|Hout].
  - apply (step_neighbour a Hne Hin) in Hx. destruct Hx as [Hx _].
    destruct (in_dec Nat.eq_dec x k) as [Hxk|Hxk].
    + apply step_neighbour; auto. split; [|assumption].
      destruct Hx as [Hx|[Hs _]]; [left; apply (inv_sym I); assumption|right; tauto].
    + rewrite step_other by assumption.
      destruct Hx as [Hx|[_ Hx]]; [apply (inv_sym I); assumption|contradiction].
  - rewrite (step_other a Hne Hout) in Hx.
    apply step_keeps; auto. apply (inv_sym I); assumption.
Qed.

Lemma step_inv_score (a : vertex_t) (s : Z) :
  nth a q' None = Some s -> (s <= 0)%Z -> clique_at nb' a.
Proof.
  intros Hs Hle.
  assert (Ha' : alive q' a) by (unfold alive; congruence).
  pose proof Ha' as Ha. apply step_alive' in Ha. destruct Ha as [Ha Hne].
  destruct (in_dec Nat.eq_dec a k) as [Hin|Hout].
  - destruct (@step_facts n score v st st' I Hv HE) as (_ & _ & _ & _ & _ & _ & _ & _ & Q1 & _).
    unfold q' in Hs. rewrite (Q1 a Hin Hne) in Hs. inversion Hs; subst s.
    apply fill_clique; [|assumption].
    intros x y Hx Hy. apply step_inv_sym; [|assumption].
    apply (step_inv_alive a x Ha' Hx).
  - destruct (@step_facts n score v st st' I Hv HE) as (_ & _ & _ & _ & _ & _ & _ & _ & _ & Q2).
    unfold q' in Hs. rewrite (Q2 a Hout Hne) in Hs.
    pose proof (inv_score I _ _ Hs Hle) as Hc.
    intros x y Hx Hy Hxy. rewrite (step_other a Hne Hout) in Hx, Hy.
    pose proof (step_far a Ha Hne Hout) as Hfar.
    apply step_keeps; [intros ->; auto|intros ->; auto|].
    apply Hc; assumption.
Qed.

Lemma step_inv_later (l1 l2 : list vertex_t) (w x : vertex_t) :
  st_order st ++ [v] = l1 ++ w :: l2 ->
  In x (nb_get nb' w) -> In x l2 \/ alive q' x.
Proof.
  intros E Hx. apply app_snoc_split in E.
  destruct E as [(l2' & -> & E)|(-> & -> & ->)].
  - assert (Hw : In w (st_order st))
      by (rewrite E; apply in_or_app; right; left; reflexivity).
    destruct (step_dead_frozen w Hw) as [Hne Hfr]. rewrite Hfr in Hx.
    destruct (inv_later I _ _ _ E _ Hx) as [Hin|Hal].
    + left. apply in_or_app. left. assumption.
    + destruct (Nat.eq_dec x v) as [->|Hxv].
      * left. apply in_or_app. right. left. reflexivity.
      * right. apply step_alive'. tauto.
  - right. apply step_self in Hx. destruct Hx as [Hx Hxv].
    apply step_alive'. split; [|assumption].
    apply (inv_alive I v); [apply step_alive_v|assumption].
Qed.

Lemma step_inv_super (l1 l2 : list vertex_t) (w : vertex_t) :
  st_order st ++ [v] = l1 ++ w :: l2 ->
  (exists u, In u l2 /\ forall x, In x (nb_get nb' w) -> x = u \/ In x (nb_get nb' u))
  \/ ((forall x, In x (nb_get nb' w) -> alive q' x) /\ clique_at nb' w).
Proof.
  intros E. apply app_snoc_split in E.
  destruct E as [(l2' & -> & E)|(-> & -> & ->)].
  - assert (Hw : In w (st_order st))
      by (rewrite E; apply in_or_app; right; left; reflexivity).
    destruct (step_dead_frozen w Hw) as [Hne Hfr]. rewrite Hfr.
    destruct (inv_super I _ _ _ E) as [(u & Hu & Hsub)|[Hal Hc]].
    + left. exists u. split; [apply in_or_app; left; assumption|].
      assert (Hu' : In u (st_order st)).
      { rewrite E. apply in_or_app. right. right. assumption. }
      destruct (step_dead_frozen u Hu') as [_ Hfu]. rewrite Hfu. assumption.
    + destruct (in_dec Nat.eq_dec v (nb_get nb w)) as [Hin|Hout].
      * left. exists v. split; [apply in_or_app; right; left; reflexivity|].
        intros x Hx. destruct (Nat.eq_dec x v) as [->|Hxv]; [left; reflexivity|].
        right. apply step_self. split; [|assumption].
        apply (Hc v x); auto.
      * right. split.
        -- intros x Hx. apply step_alive'. split; [auto|]. intros ->. contradiction.
        -- intros x y Hx Hy Hxy. rewrite Hfr in Hx, Hy.
           apply step_keeps; [intros ->; contradiction|intros ->; contradiction|].
           apply Hc; assumption.
  - right. split.
    + intros x Hx. apply step_self in Hx. destruct Hx as [Hx Hxv].
      apply step_alive'. split; [|assumption].
      apply (inv_alive I v); [apply step_alive_v|assumption].
    + intros x y Hx Hy Hxy.
      apply step_self in Hx. apply step_self in Hy.
      destruct Hx as [Hx Hxv]. destruct Hy as [Hy Hyv].
      apply step_neighbour; auto. split; [|assumption].
      destruct (Z_gt_le_dec score 0) as [Hpos|Hle]; [right; tauto|left].
      apply (inv_score I _ _ Hv Hle); assumption.
Qed.

Lemma step_inv : elim_inv n st'.
Proof.
  destruct (@step_facts n score v st st' I Hv HE) as (Ho & Ln & Lq & _ & _ & _ & Hsorted & _).
  constructor.
  - exact Ln.
  - exact Lq.
  - exact Hsorted.
  - exact step_inv_alive.
  - exact step_inv_sym.
  - intros w Hw. rewrite Ho. rewrite in_app_iff. simpl.
    rewrite (inv_dead I _ Hw). split.
    + intros [Hd|[<-|[]]] Hal; apply step_alive' in Hal; tauto.
    + intros Hd. destruct (Nat.eq_dec w v) as [->|Hne]; [tauto|].
      left. intros Hal. apply Hd. apply step_alive'. tauto.
  - rewrite Ho. apply NoDup_app; [apply (inv_nodup I)| |].
    + constructor; [intros []|constructor].
    + intros a Ha [<-|[]].
      pose proof (inv_range I _ Ha) as Hr.
      apply (inv_dead I _ Hr) in Ha. apply Ha. apply step_alive_v.
  - intros w Hw. rewrite Ho in Hw. apply in_app_or in Hw.
    destruct Hw as [Hw|[<-|[]]]; [apply (inv_range I _ Hw)|].
    rewrite <- (inv_len_q I). apply alive_range. apply step_alive_v.
  - exact step_inv_score.
  - intros l1 w l2 E x Hx. rewrite Ho in E. eapply step_inv_later; eassumption.
  - intros l1 w l2 E. rewrite Ho in E. eapply step_inv_super; eassumption.
Qed.

End EliminationStep.

Set Implicit Arguments.

(** ** The elimination loop *)

Lemma top_from_None (q : heap_t) :
  forall i best, top_from i q best = None ->
                 best = None /\ forall a, nth a q None = None.
Proof.
  induction q as [|o q IH]; intros i best H; simpl in H.
  - split; [assumption|]. intros [|a]; reflexivity.
  - apply IH in H. destruct H as [Hb Hq].
    destruct o as [f|].
    + destruct best as [b|]; [destruct (record_cmp_t b (f, i))|]; discriminate.
    + split; [assumption|]. intros [|a]; simpl; auto.
Qed.

Lemma top_None (q : heap_t) : top q = None -> forall a, nth a q None = None.
Proof. intros H. now apply top_from_None in H. Qed.

Lemma top_Some (q : heap_t) (score : Z) (v : vertex_t) :
  top q = Some (score, v) -> nth v q None = Some score.
Proof.
  unfold top. intros H. apply top_from_spec in H. destruct H as (_ & _ & Hr).
  destruct Hr as [Hr|(a & Ha & Hs)]; [discriminate|]. simpl in *. now subst v.
Qed.

Lemma elimination_loop_inv (n : nat) :
  forall fuel st st',
    elim_inv n st -> elimination_loop fuel st = Ok st' ->
    elim_inv n st' /\ forall a, nth a (st_queue st') None = None.
Proof.
  induction fuel as [|fuel IH]; intros st st' I H; simpl in H.
  - destruct (top (st_queue st)) as [[score v]|] eqn:T; [discriminate|].
    inversion H; subst st'. split; [assumption|]. now apply top_None.
  - destruct (top (st_queue st)) as [[score v]|] eqn:T.
    + apply bind_Ok_inv in H. destruct H as (st1 & H1 & H).
      apply top_Some in T.
      apply (IH st1 st'); [|assumption].
      exact (step_inv n score v st st1 I T H1).
    + inversion H; subst st'. split; [assumption|]. now apply top_None.
Qed.

Lemma elimination_loop_done (n fuel : nat) (st st' : elim_state) :
  elim_inv n st -> elimination_loop fuel st = Ok st' ->
  elimination_done n (st_neighbors st') (st_order st').
Proof.
  intros I H. apply (@elimination_loop_inv n fuel st st' I) in H. destruct H as [I' Hq].
  assert (Hdead : forall x, ~ alive (st_queue st') x).
  { intros x Hx. apply Hx. apply Hq. }
  constructor.
  - apply (inv_nodup I').
  - intros v. split.
    + intros Hv. apply (inv_dead I' v Hv). apply Hdead.
    + apply (inv_range I').
  - apply (inv_sorted I').
  - intros l1 v l2 E x Hx.
    destruct (inv_later I' l1 v l2 E x Hx) as [Hin|Hal]; [assumption|].
    exfalso. exact (Hdead x Hal).
  - intros l1 v l2 E Hne.
    destruct (inv_super I' l1 v l2 E) as [Hu|[Hal _]]; [assumption|].
    destruct l2 as [|u l2]; [congruence|].
    exists u. split; [left; reflexivity|].
    intros x Hx. exfalso. exact (Hdead x (Hal x Hx)).
Qed.

(** ** The state the loop starts from *)

Lemma sort_insert_In (x y : vertex_t) (l : list vertex_t) :
  In y (sort_insert x l) <-> y = x \/ In y l.
Proof.
  induction l as [|z l IH]; simpl; [intuition|].
  destruct (x <=? z); simpl; [intuition|]. rewrite IH. intuition.
Qed.

Lemma sort_In (y : vertex_t) (l : list vertex_t) : In y (sort l) <-> In y l.
Proof.
  unfold sort. induction l as [|x l IH]; simpl; [tauto|].
  rewrite sort_insert_In, IH. intuition.
Qed.

Lemma potentials_range (g : Graph) (p : potential_t) (x : vertex_t) :
  graph_wf g -> In p (potentials g) -> In x p -> x < num_vertices g.
Proof.
  intros W Hp Hx. rewrite potentials_unfold in Hp. apply in_app_or in Hp.
  destruct Hp as [Hp|Hp].
  - apply repeat_spec in Hp. subst p. destruct Hx.
  - apply in_flat_map in Hp. destruct Hp as (v & Hv & Hp).
    unfold vertices in Hv. apply in_seq in Hv.
    assert (Hdep : forall y, In y (v :: depends g v) -> y < num_vertices g).
    { intros y [<-|Hy]; [lia|]. unfold depends in Hy. apply (proj1 (sort_In _ _)) in Hy.
      apply in_map_iff in Hy. destruct Hy as (e & <- & He).
      unfold in_edges in He. apply filter_In in He. apply W. tauto. }
    unfold factors_of in Hp. apply in_app_or in Hp.
    destruct Hp as [Hp|[Hp|[]]].
    + destruct (out_degree g v =? 0); [|destruct Hp].
      destruct Hp as [<-|[]]. apply Hdep. destruct Hx as [<-|[]]. left; reflexivity.
    + destruct (in_degree g v =? 0); subst p.
      * apply Hdep. destruct Hx as [<-|[]]. left; reflexivity.
      * apply Hdep. assumption.
Qed.

Lemma pair_insert_get (n : nat) (nb : neighbors_t) (x1 x2 c y : vertex_t) :
  List.length nb = n -> x1 < n -> x2 < n ->
  (In y (nb_get (nb_insert x2 x1 (nb_insert x1 x2 nb)) c)
   <-> In y (nb_get nb c) \/ (c = x1 /\ y = x2) \/ (c = x2 /\ y = x1)).
Proof.
  intros L H1 H2. unfold nb_insert.
  rewrite nb_get_update, update_nth_length, nb_get_update, L.
  apply Nat.ltb_lt in H1, H2. rewrite H1, H2, !andb_true_r.
  destruct (Nat.eqb_spec x2 c) as [->|N2], (Nat.eqb_spec x1 c) as [->|N1];
    repeat rewrite set_insert_In; intuition congruence.
Qed.

Lemma pair_insert_inv (n : nat) (nb : neighbors_t) (x1 x2 : vertex_t) :
  closure_inv n nb -> x1 < n -> x2 < n ->
  closure_inv n (nb_insert x2 x1 (nb_insert x1 x2 nb)).
Proof.
  intros (L & S & Y) H1 H2. split; [|split].
  - unfold nb_insert. now rewrite !update_nth_length.
  - intros a. unfold nb_insert. rewrite nb_get_update.
    destruct (_ && _).
    + apply set_insert_sorted. rewrite nb_get_update.
      destruct (_ && _); [apply set_insert_sorted|]; apply S.
    + rewrite nb_get_update. destruct (_ && _); [apply set_insert_sorted|]; apply S.
  - intros a x Hx. apply (pair_insert_get nb a x L H1 H2) in Hx.
    rewrite (pair_insert_get nb x a L H1 H2).
    destruct Hx as [Hx|[[-> ->]|[-> ->]]].
    + destruct (Y a x Hx). tauto.
    + tauto.
    + tauto.
Qed.

Lemma close_potential_inv (n : nat) (p : potential_t) :
  forall nb, closure_inv n nb -> (forall x, In x p -> x < n) ->
             closure_inv n (close_potential p nb).
Proof.
  induction p as [|x1 p IH]; intros nb I Hp; simpl; [assumption|].
  apply IH; [|intros x Hx; apply Hp; right; assumption].
  assert (H1 : x1 < n) by (apply Hp; left; reflexivity).
  assert (Hrest : forall x, In x p -> x < n) by (intros x Hx; apply Hp; right; assumption).
  clear IH Hp. revert nb I. induction p as [|x2 p IHp]; intros nb I; simpl; [assumption|].
  apply IHp; [intros x Hx; apply Hrest; right; assumption|].
  apply pair_insert_inv; [assumption|assumption|apply Hrest; left; reflexivity].
Qed.

Lemma closures_inv (g : Graph) : graph_wf g -> closure_inv (num_vertices g) (closures g).
Proof.
  intros W. unfold closures.
  assert (Hp : forall p, In p (potentials g) -> forall x, In x p -> x < num_vertices g).
  { intros p Hp x Hx. eapply potentials_range; eassumption. }
  assert (I0 : closure_inv (num_vertices g) (repeat [] (num_vertices g))).
  { split; [apply repeat_length|]. split.
    - intros a. unfold nb_get. rewrite nth_repeat. constructor.
    - intros a x Hx. exfalso. unfold nb_get in Hx. rewrite nth_repeat in Hx.
      destruct Hx. }
  revert Hp I0. generalize (repeat (@nil vertex_t) (num_vertices g)) as nb.
  induction (potentials g) as [|p ps IH]; intros nb Hp I0; simpl; [assumption|].
  apply IH.
  - intros q Hq. apply Hp. right. assumption.
  - apply close_potential_inv; [assumption|]. apply Hp. left. reflexivity.
Qed.

Lemma initial_queue_nth (g : Graph) (nb : neighbors_t) (a : vertex_t) :
  nth a (initial_queue g nb) None =
  if a <? num_vertices g then Some (fill_in_count nb a) else None.
Proof.
  unfold initial_queue, vertices.
  destruct (Nat.ltb_spec a (num_vertices g)) as [Hlt|Hge].
  - rewrite (nth_indep _ None (Some (fill_in_count nb 0)))
      by (rewrite length_map, length_seq; assumption).
    rewrite (map_nth (fun v => Some (fill_in_count nb v))), seq_nth by assumption.
    reflexivity.
  - apply nth_overflow. now rewrite length_map, length_seq.
Qed.

Lemma initial_inv (g : Graph) :
  graph_wf g ->
  elim_inv (num_vertices g)
           (mkElim (closures g) (initial_queue g (closures g)) []).
Proof.
  intros W. destruct (closures_inv W) as (L & S & Y).
  assert (Halive : forall a, alive (initial_queue g (closures g)) a <-> a < num_vertices g).
  { intros a. unfold alive. rewrite initial_queue_nth.
    destruct (Nat.ltb_spec a (num_vertices g)); split; intros; try lia; congruence. }
  constructor; simpl.
  - exact L.
  - unfold initial_queue, vertices. now rewrite length_map, length_seq.
  - exact S.
  - intros a x _ Hx. apply Halive. apply (Y a x Hx).
  - intros a x _ Hx. apply (Y a x Hx).
  - intros v Hv. split; [intros []|]. intros H. exfalso. apply H. now apply Halive.
  - constructor.
  - intros v [].
  - intros a s Hs Hle. rewrite initial_queue_nth in Hs.
    destruct (a <? num_vertices g); [|discriminate]. inversion Hs; subst s.
    apply fill_clique; [|assumption].
    intros x y Hx Hy. apply (Y x y Hy).
  - intros l1 v l2 E. destruct l1; discriminate.
  - intros l1 v l2 E. destruct l1; discriminate.
Qed.

Lemma peeling_order_done (g : Graph) (p : peeling_t) :
  graph_wf g -> peeling_order g = Ok p ->
  elimination_done (num_vertices g) (peel_neighbors p) (elim_order p)
  /\ peel_junction p = junction_tree (peel_neighbors p) (elim_order p).
Proof.
  intros W H. unfold peeling_order in H.
  apply bind_Ok_inv in H. destruct H as (st & Hl & H).
  inversion H; subst p; clear H. simpl. split; [|reflexivity].
  eapply elimination_loop_done; [apply initial_inv; assumption|eassumption].
Qed.

(** ** Paths in the junction tree *)

Lemma reach_mono (E E' : list (nat * nat)) (P P' : nat -> Prop) (i j : nat) :
  incl E E' -> (forall m, P m -> P' m) -> reach E P i j -> reach E' P' i j.
Proof.
  intros HE HP. induction 1 as [i Hi|i j k _ IH Hjk Hk].
  - apply reach_refl. auto.
  - apply reach_step with j; [assumption| |auto].
    destruct Hjk as [H|H]; [left|right]; apply HE; assumption.
Qed.

Lemma reach_ends (E : list (nat * nat)) (P : nat -> Prop) (i j : nat) :
  reach E P i j -> P i /\ P j.
Proof. induction 1; tauto. Qed.

Lemma reach_trans (E : list (nat * nat)) (P : nat -> Prop) (i j k : nat) :
  reach E P i j -> reach E P j k -> reach E P i k.
Proof.
  intros Hij Hjk. induction Hjk as [j Hj|j m k _ IH Hmk Hk]; [assumption|].
  apply reach_step with m; auto.
Qed.

Lemma reach_sym (E : list (nat * nat)) (P : nat -> Prop) (i j : nat) :
  reach E P i j -> reach E P j i.
Proof.
  induction 1 as [i Hi|i j k Hij IH Hjk Hk]; [now apply reach_refl|].
  apply reach_trans with j; [|assumption].
  apply reach_step with k; [now apply reach_refl|tauto|].
  apply (reach_ends Hij).
Qed.

Lemma nth_app_old {A : Type} (l l' : list A) (d : A) (i : nat) :
  i < List.length l -> nth i (l ++ l') d = nth i l d.
Proof. intros H. now apply app_nth1. Qed.

Lemma nth_app_new {A : Type} (l : list A) (a d : A) : nth (List.length l) (l ++ [a]) d = a.
Proof. rewrite app_nth2 by lia. now rewrite Nat.sub_diag. Qed.

Lemma tree_ok_empty : tree_ok 0 [] [].
Proof. constructor; simpl; try reflexivity; intros; try lia; contradiction. Qed.

Lemma tree_ok_first (D : flat_set) : tree_ok 1 [] [D].
Proof.
  constructor; simpl; try reflexivity.
  - intros p j [].
  - intros i j Hi Hj. assert (i = 0) by lia. assert (j = 0) by lia. subst.
    now apply reach_refl.
  - intros x i j Hi Hj Hx _. assert (i = 0) by lia. assert (j = 0) by lia. subst.
    now apply reach_refl.
Qed.

(** A new node is hung below the node [p]; what its clique shares with the
    tree is in the clique of [p]. *)
Lemma tree_ok_attach (n : nat) (E : list (nat * nat)) (cl : list flat_set)
    (p : nat) (D : flat_set) :
  tree_ok n E cl -> p < n ->
  (forall x i, In x D -> i < n -> In x (nth i cl []) -> In x (nth p cl [])) ->
  tree_ok (S n) (E ++ [(p, n)]) (cl ++ [D]).
Proof.
  intros T Hp HD. pose proof (tree_cliques T) as L.
  assert (Hincl : incl E (E ++ [(p, n)])) by (intros e He; apply in_or_app; now left).
  assert (Hedge : In (p, n) (E ++ [(p, n)])) by (apply in_or_app; right; left; reflexivity).
  assert (Hold : forall m, m < n -> nth m (cl ++ [D]) [] = nth m cl []).
  { intros m Hm. apply nth_app_old. lia. }
  assert (Hnew : nth n (cl ++ [D]) [] = D) by (rewrite <- L; apply nth_app_new).
  assert (HP : forall x m, In x (nth m cl []) -> In x (nth m (cl ++ [D]) [])).
  { intros x m Hx. destruct (Nat.lt_ge_cases m n) as [Hm|Hm].
    - now rewrite Hold.
    - rewrite nth_overflow in Hx by lia. destruct Hx. }
  constructor.
  - rewrite length_app. simpl. lia.
  - intros a b Hab. apply in_app_or in Hab. destruct Hab as [Hab|[Hab|[]]].
    + apply (tree_edges T) in Hab. lia.
    + inversion Hab; subst. lia.
  - rewrite length_app, (tree_count T). simpl. lia.
  - assert (Hto : forall i, i < S n -> reach (E ++ [(p, n)]) (fun _ => True) p i).
    { intros i Hi. destruct (Nat.eq_dec i n) as [->|Hne].
      - apply reach_step with p; [now apply reach_refl|now left|exact Logic.I].
      - apply reach_mono with (E := E) (P := fun _ => True); auto.
        apply (tree_connected T); lia. }
    intros i j Hi Hj. apply reach_trans with p; [apply reach_sym|]; auto.
  - intros x i j Hi Hj Hxi Hxj.
    assert (Hto : forall i, i < S n -> In x (nth i (cl ++ [D]) []) ->
                    In x (nth p (cl ++ [D]) []) ->
                    reach (E ++ [(p, n)]) (fun m => In x (nth m (cl ++ [D]) [])) p i).
    { intros m Hm Hxm Hxp. destruct (Nat.eq_dec m n) as [->|Hne].
      - apply reach_step with p; [now apply reach_refl|now left|assumption].
      - apply reach_mono with (E := E) (P := fun m => In x (nth m cl []));
          [assumption|intros m'; apply HP|].
        rewrite Hold in Hxm, Hxp by lia. apply (tree_running T); auto; lia. }
    destruct (Nat.eq_dec i n) as [->|Hin], (Nat.eq_dec j n) as [->|Hjn].
    + now apply reach_refl.
    + assert (Hxp : In x (nth p (cl ++ [D]) [])).
      { rewrite Hold by assumption. rewrite Hnew in Hxi.
        rewrite Hold in Hxj by lia. apply (HD x j); auto; lia. }
      apply reach_trans with p; [apply reach_sym|]; auto.
    + assert (Hxp : In x (nth p (cl ++ [D]) [])).
      { rewrite Hold by assumption. rewrite Hnew in Hxj.
        rewrite Hold in Hxi by lia. apply (HD x i); auto; lia. }
      apply reach_trans with p; [apply reach_sym|]; auto.
    + apply reach_mono with (E := E) (P := fun m => In x (nth m cl []));
        [assumption|intros m'; apply HP|].
      rewrite Hold in Hxi, Hxj by lia. apply (tree_running T); auto; lia.
Qed.

(** ** Searching the cliques *)

Lemma includes_sound (l2 : list vertex_t) :
  forall l1, includes l1 l2 = true -> incl l2 l1.
Proof.
  induction l2 as [|b l2 IH]; intros l1 H; [intros x []|].
  induction l1 as [|a l1 IHl]; simpl in H; [discriminate|].
  destruct (Nat.ltb_spec b a); [discriminate|].
  destruct (Nat.ltb_spec a b).
  - intros x Hx. right. apply (IHl H). exact Hx.
  - assert (a = b) by lia. subst a. apply IH in H.
    intros x [<-|Hx]; [left; reflexivity|right; apply H; assumption].
Qed.

Lemma sorted_head_lt (a : vertex_t) (l : flat_set) (x : vertex_t) :
  sorted (a :: l) -> In x l -> a < x.
Proof.
  intros H Hx. apply StronglySorted_inv in H. destruct H as [_ H].
  rewrite Forall_forall in H. auto.
Qed.

Lemma sorted_tail (a : vertex_t) (l : flat_set) : sorted (a :: l) -> sorted l.
Proof. intros H. apply StronglySorted_inv in H. tauto. Qed.

Lemma includes_complete (l2 : list vertex_t) :
  forall l1, sorted l1 -> sorted l2 -> incl l2 l1 -> includes l1 l2 = true.
Proof.
  induction l2 as [|b l2 IH]; intros l1 S1 S2 Hi; [reflexivity|].
  induction l1 as [|a l1 IHl]; [destruct (Hi b); left; reflexivity|].
  simpl. destruct (Nat.ltb_spec b a) as [Hba|Hba].
  - exfalso. destruct (Hi b (or_introl eq_refl)) as [E|Hin]; [lia|].
    pose proof (@sorted_head_lt _ _ _ S1 Hin). lia.
  - destruct (Nat.ltb_spec a b) as [Hab|Hab].
    + apply IHl; [eapply sorted_tail; eassumption|].
      intros x Hx. destruct (Hi x Hx) as [E|Hin]; [|assumption]. exfalso. subst x.
      destruct Hx as [E|Hx]; [lia|]. pose proof (@sorted_head_lt _ _ _ S2 Hx). lia.
    + assert (a = b) by lia. subst a.
      apply IH; [eapply sorted_tail; eassumption|eapply sorted_tail; eassumption|].
      intros x Hx. pose proof (@sorted_head_lt _ _ _ S2 Hx).
      destruct (Hi x (or_intror Hx)) as [E|Hin]; [lia|assumption].
Qed.

Lemma list_eqb_eq (a b : list vertex_t) : list_eqb a b = true -> a = b.
Proof.
  revert b. induction a as [|x a IH]; intros [|y b] H; simpl in H;
    try discriminate; [reflexivity|].
  apply andb_prop in H. destruct H as [H1 H2]. apply Nat.eqb_eq in H1.
  f_equal; auto.
Qed.

Lemma find_from_Some (cl : list flat_set) (s : flat_set) :
  forall i pos, find_from i cl s = Some pos ->
                exists k, pos = i + k /\ k < List.length cl /\ nth k cl [] = s.
Proof.
  induction cl as [|c cl IH]; intros i pos H; simpl in H; [discriminate|].
  destruct (list_eqb c s) eqn:E.
  - inversion H; subst pos. exists 0. simpl.
    split; [lia|]. split; [lia|]. now apply list_eqb_eq.
  - apply IH in H. destruct H as (k & -> & Hk & Hn).
    exists (S k). simpl. split; [lia|]. split; [lia|assumption].
Qed.

Lemma find_Some (cl : list flat_set) (s : flat_set) (pos : nat) :
  find cl s = Some pos -> pos < List.length cl /\ nth pos cl [] = s.
Proof.
  intros H. apply find_from_Some in H. destruct H as (k & -> & Hk & Hn). auto.
Qed.

Lemma min_superset_from_Some (cl : list flat_set) (s : flat_set) :
  forall i best pos sz,
    min_superset_from i cl s best = Some (pos, sz) ->
    best = Some (pos, sz)
    \/ exists k, pos = i + k /\ k < List.length cl /\ includes (nth k cl []) s = true.
Proof.
  induction cl as [|c cl IH]; intros i best pos sz H; simpl in H; [left; assumption|].
  apply IH in H. destruct H as [H|(k & -> & Hk & Hn)].
  - destruct (includes c s) eqn:C; [|left; assumption].
    assert (Hhere : Some (i, List.length c) = Some (pos, sz) ->
                    exists k, pos = i + k /\ k < List.length (c :: cl)
                              /\ includes (nth k (c :: cl) []) s = true).
    { intros E. inversion E; subst. exists 0. simpl.
      split; [lia|]. split; [lia|assumption]. }
    destruct best as [[p m]|]; [destruct (List.length c <? m)|].
    + right. auto.
    + left. assumption.
    + right. auto.
  - right. exists (S k). simpl. split; [lia|]. split; [lia|assumption].
Qed.

Lemma min_superset_from_keeps (cl : list flat_set) (s : flat_set) :
  forall i best, min_superset_from i cl s (Some best) <> None.
Proof.
  induction cl as [|c cl IH]; intros i [p m]; simpl; [discriminate|].
  destruct (includes c s); [destruct (List.length c <? m)|]; apply IH.
Qed.

Lemma min_superset_from_None (cl : list flat_set) (s : flat_set) :
  forall i best,
    min_superset_from i cl s best = None ->
    forall k, k < List.length cl -> includes (nth k cl []) s = false.
Proof.
  induction cl as [|c cl IH]; intros i best H k Hk; simpl in Hk; [lia|].
  simpl in H. destruct (includes c s) eqn:C.
  - exfalso.
    destruct best as [[p m]|]; [destruct (List.length c <? m)|];
      exact (min_superset_from_keeps _ _ _ _ H).
  - destruct k as [|k]; [assumption|]. simpl. eapply IH; [eassumption|lia].
Qed.

Lemma min_superset_Some (cl : list flat_set) (s : flat_set) (pos : nat) :
  min_superset cl s = Some pos ->
  pos < List.length cl /\ incl s (nth pos cl []).
Proof.
  unfold min_superset. intros H.
  destruct (min_superset_from 0 cl s None) as [[p sz]|] eqn:E; [|discriminate].
  inversion H; subst p. apply min_superset_from_Some in E.
  destruct E as [E|(k & -> & Hk & Hn)]; [discriminate|].
  split; [assumption|]. now apply includes_sound.
Qed.

Lemma min_superset_None (cl : list flat_set) (s : flat_set) (k : nat) :
  min_superset cl s = None -> k < List.length cl -> includes (nth k cl []) s = false.
Proof.
  unfold min_superset. intros H.
  destruct (min_superset_from 0 cl s None) as [[p sz]|] eqn:E; [discriminate|].
  eapply min_superset_from_None; eassumption.
Qed.

(** ** The junction tree, one vertex after the other *)

Lemma nth_member (l : list flat_set) (i : nat) (x : vertex_t) :
  In x (nth i l []) -> In (nth i l []) l.
Proof.
  revert i. induction l as [|c l IH]; intros [|i] Hx; simpl in *; auto; destruct Hx.
Qed.

Lemma junction_step_inv (n : nat) (nb : neighbors_t) (order l1 l2 : list vertex_t)
    (v : vertex_t) (jt : junction_tree_t) :
  elimination_done n nb order -> order = l1 ++ v :: l2 ->
  jt_inv nb l2 jt -> jt_inv nb (v :: l2) (junction_step nb jt v).
Proof.
  intros D E J.
  pose proof (ji_tree J) as T. pose proof (tree_cliques T) as L.
  assert (HS : forall x, In x (nb_get nb v) -> In x l2)
    by (intros x Hx; exact (done_later D l1 v l2 E x Hx)).
  assert (Hv : ~ In v l2).
  { pose proof (done_nodup D) as ND. rewrite E in ND. apply NoDup_remove_2 in ND.
    intros Hin. apply ND. apply in_or_app. now right. }
  assert (Hfresh : forall i, ~ In v (nth i (cliques jt) [])).
  { intros i Hin. apply Hv. exact (ji_members J i v Hin). }
  assert (HC : forall x, In x (set_insert v (nb_get nb v)) -> In x (v :: l2)).
  { intros x Hx. apply set_insert_In in Hx. destruct Hx as [->|Hx]; [now left|].
    right. auto. }
  assert (Hmem : forall cl' i x,
             (forall y, In y cl' -> forall x, In x y -> In x (v :: l2)) ->
             In x (nth i (cliques jt ++ cl') []) -> In x (v :: l2)).
  { intros cl' i x Hcl Hx.
    destruct (Nat.lt_ge_cases i (List.length (cliques jt))) as [Hi|Hi].
    - rewrite app_nth1 in Hx by assumption. right. exact (ji_members J i x Hx).
    - rewrite app_nth2 in Hx by assumption.
      exact (Hcl _ (nth_member _ _ _ Hx) x Hx). }
  unfold junction_step.
  destruct (find (cliques jt) (nb_get nb v)) as [pos|] eqn:F.
  - (* the separator is an existing clique *)
    apply find_Some in F. destruct F as [Hpos Hnth]. rewrite L in Hpos.
    constructor; simpl.
    + apply tree_ok_attach; [assumption|assumption|].
      intros x i Hx Hi Hxi. rewrite Hnth. apply set_insert_In in Hx.
      destruct Hx as [->|Hx]; [|assumption]. exfalso. exact (Hfresh i Hxi).
    + discriminate.
    + intros i x Hx. apply (Hmem [set_insert v (nb_get nb v)] i x); [|assumption].
      intros y [<-|[]]. assumption.
    + intros u [<-|Hu].
      * exists (jt_nodes jt). split; [lia|]. rewrite <- L. apply nth_app_new.
      * destruct (ji_present J u Hu) as (i & Hi & Hn).
        exists i. split; [lia|]. rewrite app_nth1 by lia. assumption.
  - destruct (min_superset (cliques jt) (nb_get nb v)) as [pos1|] eqn:M.
    + (* a separator node is put between a superset and the new clique *)
      apply min_superset_Some in M. destruct M as [Hpos Hincl]. rewrite L in Hpos.
      assert (T1 : tree_ok (S (jt_nodes jt)) (jt_edges jt ++ [(pos1, jt_nodes jt)])
                           (cliques jt ++ [nb_get nb v])).
      { apply tree_ok_attach; [assumption|assumption|].
        intros x i Hx _ _. apply Hincl. assumption. }
      assert (Hsep : nth (jt_nodes jt) (cliques jt ++ [nb_get nb v]) [] = nb_get nb v)
        by (rewrite <- L; apply nth_app_new).
      constructor; simpl.
      * replace (jt_edges jt ++ [(pos1, jt_nodes jt); (jt_nodes jt, S (jt_nodes jt))])
          with ((jt_edges jt ++ [(pos1, jt_nodes jt)]) ++ [(jt_nodes jt, S (jt_nodes jt))])
          by (rewrite <- app_assoc; reflexivity).
        apply tree_ok_attach; [assumption|lia|].
        intros x i Hx Hi Hxi. rewrite Hsep. apply set_insert_In in Hx.
        destruct Hx as [->|Hx]; [|assumption]. exfalso.
        destruct (Nat.eq_dec i (jt_nodes jt)) as [->|Hne].
        -- rewrite Hsep in Hxi. apply Hv. auto.
        -- rewrite app_nth1 in Hxi by lia. exact (Hfresh i Hxi).
      * discriminate.
      * intros i x Hx. rewrite <- app_assoc in Hx. simpl in Hx.
        apply (Hmem [nb_get nb v; set_insert v (nb_get nb v)] i x); [|assumption].
        intros y [<-|[<-|[]]] z Hz; [right; auto|auto].
      * intros u [<-|Hu].
        -- exists (S (jt_nodes jt)). split; [lia|].
           replace (S (jt_nodes jt)) with (List.length (cliques jt ++ [nb_get nb v]))
             by (rewrite length_app; simpl; lia).
           apply nth_app_new.
        -- destruct (ji_present J u Hu) as (i & Hi & Hn).
           exists i. split; [lia|]. rewrite <- app_assoc, app_nth1 by lia. assumption.
    + (* no clique yet *)
      assert (Hzero : jt_nodes jt = 0).
      { destruct l2 as [|u0 l2']; [exact (ji_empty J eq_refl)|]. exfalso.
        destruct (done_super D l1 v (u0 :: l2') E ltac:(discriminate)) as (u & Hu & Hsub).
        destruct (ji_present J u Hu) as (i & Hi & Hn).
        rewrite <- L in Hi. pose proof (min_superset_None _ _ M Hi) as Hno.
        rewrite Hn in Hno.
        rewrite includes_complete in Hno; [discriminate| | |].
        - apply set_insert_sorted. apply (done_sorted D).
        - apply (done_sorted D).
        - intros x Hx. apply set_insert_In. destruct (Hsub x Hx); auto. }
      pose proof (tree_count T) as Hc. rewrite Hzero in *.
      destruct (cliques jt) as [|c cl]; [|discriminate].
      destruct (jt_edges jt) as [|e es]; [|discriminate].
      constructor; simpl.
      * apply tree_ok_first.
      * discriminate.
      * intros [|[|i]] x Hx; simpl in Hx; [apply HC; assumption|destruct Hx|destruct Hx].
      * intros u [<-|Hu].
        -- exists 0. split; [lia|reflexivity].
        -- destruct (ji_present J u Hu) as (i & Hi & _). lia.
Qed.

Lemma junction_tree_inv (n : nat) (nb : neighbors_t) (order : list vertex_t) :
  elimination_done n nb order -> jt_inv nb order (junction_tree nb order).
Proof.
  intros D. unfold junction_tree.
  assert (G : forall l2 l1, order = l1 ++ l2 ->
                jt_inv nb l2 (fold_left (junction_step nb) (rev l2) empty_junction)).
  { induction l2 as [|v l2 IH]; intros l1 E; simpl.
    - constructor; simpl.
      + apply tree_ok_empty.
      + reflexivity.
      + intros [|i] x Hx; destruct Hx.
      + intros u [].
    - rewrite fold_left_app. simpl.
      apply (@junction_step_inv n nb order l1 l2 v _ D E).
      apply (IH (l1 ++ [v])). rewrite <- app_assoc. exact E. }
  apply (G order []). reflexivity.
Qed.

(** ** The finalized graph is well formed *)

Lemma finalize_with_wf (topo : list vertex_t) (input output : Graph) :
  NoDup topo -> finalize_with topo input = Ok output -> graph_wf output.
Proof.
  intros ND H. pose proof (vertex_order_nodup input ND) as NDo.
  apply finalize_with_Ok in H. destruct H as [Hp HF].
  assert (Hn : num_vertices output = List.length (vertex_order topo input)).
  { unfold num_vertices. now rewrite Hp, length_map. }
  intros e' He'. destruct (Forall2_In_r e' HF He') as (e & _ & (Rs & Rt & _)).
  apply map_in_to_out_inv in Rs; [|assumption].
  apply map_in_to_out_inv in Rt; [|assumption].
  rewrite Hn. split; apply nth_error_Some; congruence.
Qed.

Lemma compile_wf (g gf : Graph) (model : InheritanceModel) (mu mu_somatic : double) :
  compile g model mu mu_somatic = Ok gf -> graph_wf gf.
Proof.
  intros H. apply compile_inv in H.
  destruct H as (rev_topo & pruned & topo & _ & _ & Hts & Hf).
  apply topological_sort_nodup in Hts. destruct Hts as [ND _].
  eapply finalize_with_wf; eassumption.
Qed.

Lemma peeling_junction_tree_ok (g : Graph) (p : peeling_t) :
  graph_wf g -> peeling_order g = Ok p ->
  tree_ok (jt_nodes (peel_junction p)) (jt_edges (peel_junction p))
          (cliques (peel_junction p)).
Proof.
  intros W H. destruct (peeling_order_done W H) as [D ->].
  apply (ji_tree (junction_tree_inv D)).
Qed.

(** When the planner returns, the elimination order lists every vertex of
    the graph exactly once. *)
Lemma elim_order_complete (g : Graph) (p : peeling_t) :
  graph_wf g -> peeling_order g = Ok p ->
  NoDup (elim_order p)
  /\ List.length (elim_order p) = num_vertices g
  /\ forall v, v < num_vertices g <-> In v (elim_order p).
Proof.
  intros W H. destruct (peeling_order_done W H) as [D _].
  split; [apply (done_nodup D)|]. split; [|apply (done_all D)].
  assert (P : Permutation (elim_order p) (seq 0 (num_vertices g))).
  { apply NoDup_Permutation; [apply (done_nodup D)|apply seq_NoDup|].
    intros v. rewrite in_seq. rewrite (done_all D v). intuition lia. }
  apply Permutation_length in P. now rewrite length_seq in P.
Qed.

(** ** The elimination loop on a pedigree with a marriage loop *)

(** C8 -- the code at [loop_pedigree] (one sample, autosomal model): the
    finalized graph is [loop_graph]; the loop eliminates the sample 5, then
    vertex 3 with a positive score, which puts vertex 0 into its own
    neighbour set [0; 2; 4]; vertex 0 comes next, and the range-for over its
    set erases 0 from that very set: the iterator skips the neighbour 2 and
    runs past the end of the shrunk set.  The loop does not end with an empty
    queue. *)
Theorem elimination_loop_on_marriage_loop :
  (do g <- construct_pedigree_graph single_node_parser loop_pedigree ["s"] false ;
   compile g ModelAutosomal (double_of 1 0) (double_of 1 0)) = Ok loop_graph
  /\ (exists st,
        (do st1 <- eliminate 0 5 (mkElim (closures loop_graph)
                                        (initial_queue loop_graph (closures loop_graph)) []) ;
         eliminate 1 3 st1) = Ok st
        /\ st_order st = [5; 3]
        /\ nb_get (st_neighbors st) 0 = [0; 2; 4]
        /\ top (st_queue st) = Some (0%Z, 0)
        /\ eliminate 0 0 st = Undefined (InvalidatedIterator 0))
  /\ peeling_order loop_graph = Undefined (InvalidatedIterator 0)
  /\ Construct single_node_parser loop_pedigree ["s"] ModelAutosomal
               (double_of 1 0) (double_of 1 0) false
     = Undefined (InvalidatedIterator 0).
Proof.
  split; [vm_compute; reflexivity|]. split; [|split; vm_compute; reflexivity].
  eexists. split; [vm_compute; reflexivity|]. repeat split.
Qed.

(** ** Support for the two defects of the front stages *)

Lemma set_all_ploidies (l : list vertex_t) :
  forall g,
    edge_list (fold_left (fun g v => put_vertex v (set_ploidy 1) g) l g) = edge_list g
    /\ num_vertices (fold_left (fun g v => put_vertex v (set_ploidy 1) g) l g)
       = num_vertices g
    /\ forall v, v < num_vertices g -> In v l \/ ploidies g v = 1%Z ->
                 ploidies (fold_left (fun g v => put_vertex v (set_ploidy 1) g) l g) v = 1%Z.
Proof.
  induction l as [|a l IH]; intros g; simpl.
  - split; [reflexivity|]. split; [reflexivity|]. intros v _ [[]|H]; assumption.
  - destruct (IH (put_vertex a (set_ploidy 1) g)) as (He & Hn & Hp).
    assert (Hlen : num_vertices (put_vertex a (set_ploidy 1) g) = num_vertices g)
      by (unfold num_vertices, put_vertex; simpl; apply update_nth_length).
    split; [rewrite He; reflexivity|]. split; [now rewrite Hn|].
    intros v Hv H. apply Hp; [now rewrite Hlen|].
    destruct H as [[->|H]|H]; [right| left; assumption | right].
    + unfold ploidies, prop, put_vertex; simpl. rewrite nth_update_nth, Nat.eqb_refl.
      apply Nat.ltb_lt in Hv. unfold num_vertices in Hv. rewrite Hv. reflexivity.
    + unfold ploidies, prop, put_vertex; simpl. rewrite nth_update_nth.
      destruct (_ && _); [reflexivity|exact H].
Qed.

(** What [prune_paternal] does on every graph: it deletes the GERM_EDGE
    edges whose source is male, keeps every other edge, and sets every ploidy
    to 1. *)
Lemma prune_paternal_spec (g g' : Graph) :
  prune_paternal g = Ok g' ->
  (forall e, In e (edges g')
             <-> In e (edges g)
                 /\ ~ (has_germ (edge_type e) = true /\ sexes g (source e) = Male))
  /\ forall v, v < num_vertices g -> ploidies g' v = 1%Z.
Proof.
  unfold prune_paternal. intros H. inversion H; subst g'; clear H.
  destruct (set_all_ploidies (vertices (remove_edge_if (is_m g) g))
                             (remove_edge_if (is_m g) g)) as (He & Hn & Hp).
  split.
  - intros e. unfold edges. rewrite He. simpl. rewrite filter_In.
    unfold is_m. rewrite negb_true_iff.
    destruct (has_germ (edge_type e)); simpl.
    + rewrite <- Sex_eqb_eq. destruct (Sex_eqb (sexes g (source e)) Male); intuition congruence.
    + intuition congruence.
  - intros v Hv. apply Hp; [exact Hv|]. left. unfold vertices. apply in_seq.
    unfold num_vertices in *. simpl. lia.
Qed.

(** The haploid branch on every pedigree: a father that is not a member is
    read at his out-of-range position before the range test. *)
Lemma haploid_unresolved_father_is_read (pedigree : Pedigree) (graph : Graph)
    (v : vertex_t) (d : string) :
  num_vertices graph = NumberOfMembers pedigree ->
  has_tag (GetMember pedigree v) "founder" = false ->
  dad (GetMember pedigree v) = Some d ->
  mom (GetMember pedigree v) = None ->
  get vertex_ploidy graph v = Ok 1%Z ->
  NumberOfMembers pedigree <= LookupMemberPosition pedigree d ->
  add_edges_step pedigree graph v
  = Undefined (OutOfRangeRead (LookupMemberPosition pedigree d)).
Proof.
  intros Hn Hf Hd Hm Hp Hr. unfold add_edges_step.
  rewrite Hf, Hd, Hm, Hp. simpl. unfold get.
  assert (E : nth_error (vertex_props graph) (LookupMemberPosition pedigree d) = None).
  { apply nth_error_None. unfold num_vertices in Hn. lia. }
  rewrite E. reflexivity.
Qed.

(** The clone branch tests the range first. *)
Lemma clone_unresolved_father_throws (pedigree : Pedigree) (graph : Graph)
    (v : vertex_t) (d : string) :
  has_tag (GetMember pedigree v) "founder" = false ->
  dad (GetMember pedigree v) = Some d ->
  mom (GetMember pedigree v) = None ->
  get vertex_ploidy graph v = Ok 0%Z ->
  NumberOfMembers pedigree <= LookupMemberPosition pedigree d ->
  exists what, add_edges_step pedigree graph v = Throw (PedigreeInvalid what).
Proof.
  intros Hf Hd Hm Hp Hr. unfold add_edges_step.
  rewrite Hf, Hd, Hm, Hp. simpl.
  apply Nat.leb_le in Hr. rewrite Hr. eexists. reflexivity.
Qed.

(** So does the diploid branch, for the father and for the mother. *)
Lemma diploid_unresolved_parent_throws (pedigree : Pedigree) (graph : Graph)
    (v : vertex_t) (d m : string) (ploidy : Z) :
  has_tag (GetMember pedigree v) "founder" = false ->
  dad (GetMember pedigree v) = Some d ->
  mom (GetMember pedigree v) = Some m ->
  get vertex_ploidy graph v = Ok ploidy -> ploidy <> 0%Z -> ploidy <> 1%Z ->
  NumberOfMembers pedigree <= LookupMemberPosition pedigree d
  \/ NumberOfMembers pedigree <= LookupMemberPosition pedigree m ->
  exists what, add_edges_step pedigree graph v = Throw (PedigreeInvalid what).
Proof.
  intros Hf Hd Hm Hp H0 H1 Hr. unfold add_edges_step.
  rewrite Hf, Hd, Hm, Hp. simpl.
  destruct (Z.eqb_spec ploidy 0); [contradiction|].
  destruct (Z.eqb_spec ploidy 1); [contradiction|].
  destruct (NumberOfMembers pedigree <=? LookupMemberPosition pedigree d) eqn:Ed;
    [eexists; reflexivity|].
  destruct (NumberOfMembers pedigree <=? LookupMemberPosition pedigree m) eqn:Em;
    [eexists; reflexivity|].
  apply Nat.leb_gt in Ed, Em. lia.
Qed.

(** ** The bounds of the model are never reached *)

Lemma bind_within_bound {A B : Type} (r : result A) (k : A -> result B) :
  within_bound r -> (forall a, r = Ok a -> within_bound (k a)) ->
  within_bound (bind r k).
Proof.
  unfold within_bound. intros Hr Hk. destruct r as [a|e|u]; simpl.
  - apply Hk. reflexivity.
  - discriminate.
  - intros E. apply Hr. inversion E. reflexivity.
Qed.

Lemma foldM_within_bound {A S : Type} (P : S -> Prop) (f : S -> A -> result S)
    (l : list A) :
  (forall s a, P s -> within_bound (f s a) /\ forall s', f s a = Ok s' -> P s') ->
  forall s, P s ->
            within_bound (foldM f l s) /\ forall s', foldM f l s = Ok s' -> P s'.
Proof.
  intros Hf. induction l as [|a l IH]; intros s Hs; simpl.
  - split; [discriminate|]. intros s' E. inversion E; subst. assumption.
  - destruct (Hf s a Hs) as [Hb Hok]. split.
    + apply bind_within_bound; [assumption|]. intros s1 E. apply IH. auto.
    + intros s' E. apply bind_Ok_inv in E. destruct E as (s1 & E1 & E2).
      apply (IH s1); auto.
Qed.

Lemma white_count_paint (colors : list color) (u : vertex_t) (c : color) :
  is_white c = false ->
  white_count (update_nth u (fun _ => c) colors) <= white_count colors
  /\ (color_of colors u = White ->
      S (white_count (update_nth u (fun _ => c) colors)) = white_count colors).
Proof.
  intros Hc. unfold white_count, color_of. revert u.
  induction colors as [|x colors IH]; intros [|u]; simpl.
  - split; [lia|discriminate].
  - split; [lia|discriminate].
  - rewrite Hc. destruct x; simpl; split; intros; try lia; discriminate.
  - destruct (IH u) as [H1 H2].
    destruct x; simpl; split; intros; auto; try lia;
      try (rewrite <- H2 by assumption; lia).
Qed.

Lemma white_count_pos (colors : list color) (u : vertex_t) :
  color_of colors u = White -> 0 < white_count colors.
Proof.
  unfold white_count, color_of. revert u.
  induction colors as [|x colors IH]; intros [|u]; simpl; try discriminate.
  - intros ->. simpl. lia.
  - intros H. apply IH in H. destruct (is_white x); simpl; lia.
Qed.

Lemma dfs_visit_within_bound (g : Graph) :
  forall fuel u st,
    color_of (fst st) u = White -> white_count (fst st) <= fuel ->
    within_bound (dfs_visit fuel g u st)
    /\ forall st', dfs_visit fuel g u st = Ok st' ->
                   white_count (fst st') < white_count (fst st).
Proof.
  induction fuel as [|fuel IH]; intros u st Hu Hw.
  - pose proof (white_count_pos _ _ Hu). lia.
  - simpl.
    destruct (white_count_paint (fst st) u Gray eq_refl) as [_ Hgray].
    specialize (Hgray Hu).
    set (st1 := (update_nth u (fun _ => Gray) (fst st), snd st)) in *.
    destruct (@foldM_within_bound _ _
                (fun s => white_count (fst s) <= white_count (fst st1))
                (fun st e =>
                   match color_of (fst st) (target e) with
                   | White => dfs_visit fuel g (target e) st
                   | Gray => Throw NotADag
                   | Black => Ok st
                   end)
                (out_edges g u)) with (s := st1) as [Hb Hok].
    + intros s e Hs. destruct (color_of (fst s) (target e)) eqn:C.
      * destruct (IH (target e) s C) as [B D]; [simpl in *; lia|].
        split; [assumption|]. intros s' E. apply D in E. lia.
      * split; [discriminate|discriminate].
      * split; [discriminate|]. intros s' E. inversion E; subst. assumption.
    + lia.
    + split.
      * apply bind_within_bound; [assumption|]. intros a _. discriminate.
      * intros st' E. apply bind_Ok_inv in E. destruct E as (st2 & E1 & E2).
        inversion E2; subst st'; simpl. apply Hok in E1.
        destruct (white_count_paint (fst st2) u Black eq_refl) as [Hle _].
        simpl in *. lia.
Qed.

Lemma topological_sort_within_bound (g : Graph) : within_bound (topological_sort g).
Proof.
  unfold topological_sort. apply bind_within_bound; [|intros; discriminate].
  apply (@foldM_within_bound _ _ (fun s => white_count (fst s) <= num_vertices g)).
  - intros s u Hs. destruct (color_of (fst s) u) eqn:C.
    + destruct (@dfs_visit_within_bound g (S (num_vertices g)) u s C) as [B D]; [lia|].
      split; [assumption|]. intros s' E. apply D in E. lia.
    + split; [discriminate|]. intros s' E. inversion E; subst. assumption.
    + split; [discriminate|]. intros s' E. inversion E; subst. assumption.
  - simpl. unfold white_count.
    assert (H : forall n, List.length (filter is_white (repeat White n)) = n).
    { induction n; simpl; auto. }
    rewrite H. lia.
Qed.

Lemma alive_count_update (q : heap_t) (a : vertex_t) (o : option Z) :
  (is_some o = true ->
   nth a q None <> None ->
   alive_count (update_nth a (fun _ => o) q) = alive_count q)
  /\ (is_some o = false ->
      nth a q None <> None ->
      S (alive_count (update_nth a (fun _ => o) q)) = alive_count q).
Proof.
  unfold alive_count. revert a. induction q as [|x q IH]; intros [|a]; simpl.
  - split; intros _ H; exfalso; apply H; reflexivity.
  - split; intros _ H; exfalso; apply H; reflexivity.
  - split; intros Ho Hx; rewrite Ho; destruct x; simpl; try reflexivity;
      exfalso; apply Hx; reflexivity.
  - destruct (IH a) as [H1 H2].
    split; intros Ho Hx; destruct (is_some x); simpl; auto.
Qed.

Lemma requeue_count (F : vertex_t -> Z) (l : list vertex_t) :
  forall q q', foldM (fun q a => update a (F a) q) l q = Ok q' ->
               alive_count q' = alive_count q.
Proof.
  induction l as [|a l IH]; intros q q' H; simpl in H.
  - inversion H. reflexivity.
  - apply bind_Ok_inv in H. destruct H as (q1 & H1 & H).
    apply update_Ok in H1. destruct H1 as [Ha ->].
    apply IH in H. rewrite H.
    apply (proj1 (alive_count_update q a (Some (F a))) eq_refl Ha).
Qed.

Lemma eliminate_count (score : Z) (v : vertex_t) (st st' : elim_state) :
  nth v (st_queue st) None = Some score ->
  eliminate score v st = Ok st' ->
  S (alive_count (st_queue st')) = alive_count (st_queue st).
Proof.
  intros Hv H. unfold eliminate in H.
  apply bind_Ok_inv in H. destruct H as (nb' & _ & H).
  apply bind_Ok_inv in H. destruct H as (q' & Hq & H).
  inversion H; subst st'; simpl. apply requeue_count in Hq. rewrite Hq.
  apply (proj2 (alive_count_update (st_queue st) v None) eq_refl). congruence.
Qed.

Lemma update_cliques_within_bound (v : vertex_t) (score : Z) :
  forall steps i nb, within_bound (update_cliques steps i v score nb).
Proof.
  induction steps as [|steps IH]; intros i nb; [discriminate|].
  rewrite update_cliques_step. destruct (nth_error (nb_get nb v) i); [apply IH|discriminate].
Qed.

Lemma eliminate_within_bound (score : Z) (v : vertex_t) (st : elim_state) :
  within_bound (eliminate score v st).
Proof.
  unfold eliminate. apply bind_within_bound; [apply update_cliques_within_bound|].
  intros nb _. apply bind_within_bound; [|intros; discriminate].
  apply (@foldM_within_bound _ _ (fun _ => True)); [|exact Logic.I].
  intros q a _. split; [|auto]. unfold update. destruct (nth a q None); discriminate.
Qed.

Lemma elimination_loop_within_bound :
  forall fuel st, alive_count (st_queue st) <= fuel ->
                  within_bound (elimination_loop fuel st).
Proof.
  induction fuel as [|fuel IH]; intros st Hc; simpl;
    destruct (top (st_queue st)) as [[score v]|] eqn:T; try discriminate.
  - apply top_Some in T.
    assert (Hpos : 0 < alive_count (st_queue st)).
    { unfold alive_count.
      assert (Hin : In (Some score) (st_queue st)).
      { rewrite <- T. apply nth_In.
        destruct (Nat.lt_ge_cases v (List.length (st_queue st))); [assumption|].
        rewrite nth_overflow in T by assumption. discriminate. }
      pose proof (filter_length_pos is_some _ _ Hin eq_refl). lia. }
    lia.
  - apply top_Some in T. apply bind_within_bound; [apply eliminate_within_bound|].
    intros st1 E. apply IH. apply (@eliminate_count score v st st1 T) in E. lia.
Qed.

Lemma peeling_order_within_bound (g : Graph) : within_bound (peeling_order g).
Proof.
  unfold peeling_order. apply bind_within_bound; [|intros; discriminate].
  apply elimination_loop_within_bound. simpl.
  unfold alive_count, initial_queue, vertices.
  assert (H : forall (f : vertex_t -> Z) l,
             List.length (filter is_some (map (fun v => Some (f v)) l)) = List.length l).
  { intros f l. induction l; simpl; auto. }
  rewrite H, length_seq. lia.
Qed.

Lemma prune_within_bound (g : Graph) (model : InheritanceModel) :
  within_bound (prune g model).
Proof.
  destruct model; simpl; try discriminate;
    unfold prune_xlinked, prune_ylinked, prune_wlinked, prune_zlinked;
    apply (@foldM_within_bound _ _ (fun _ => True)); try exact Logic.I;
    intros s v _; (split; [|auto]);
    destruct (sexes s v); try destruct (negb _); discriminate.
Qed.

Lemma compile_within_bound (g : Graph) (model : InheritanceModel) (mu mu_somatic : double) :
  within_bound (compile g model mu mu_somatic).
Proof.
  unfold compile, simplify, finalize.
  apply bind_within_bound.
  { apply bind_within_bound; [apply topological_sort_within_bound|intros; discriminate]. }
  intros g1 _. apply bind_within_bound; [apply prune_within_bound|].
  intros g2 _. apply bind_within_bound; [apply topological_sort_within_bound|].
  intros topo _. unfold finalize_with.
  apply bind_within_bound; [|intros; discriminate].
  apply (@foldM_within_bound _ _ (fun _ => True)); [|exact Logic.I].
  intros out e _. split; [|auto].
  unfold mapped, bind.
  destruct (nth (source e) _ None); [|discriminate].
  destruct (nth (target e) _ None); discriminate.
Qed.

Lemma get_within_bound {A : Type} (f : VertexProp -> A) (g : Graph) (v : vertex_t) :
  within_bound (get f g v).
Proof. unfold get. destruct (nth_error (vertex_props g) v); discriminate. Qed.

Ltac within_bound_cases :=
  repeat first
    [ apply get_within_bound
    | apply bind_within_bound; [ | intros ? _]
    | match goal with
      | |- within_bound (if ?c then _ else _) => destruct c
      | |- within_bound (match ?x with _ => _ end) => destruct x
      | |- within_bound (Ok _) => discriminate
      | |- within_bound (Throw _) => discriminate
      end ].

Lemma add_edges_step_within_bound (pedigree : Pedigree) (g : Graph) (v : vertex_t) :
  within_bound (add_edges_step pedigree g v).
Proof. unfold add_edges_step. within_bound_cases. Qed.

(** [Construct] never ends on an exhausted bound of the model: every
    [Undefined] outcome stands for undefined behaviour of the program. *)
Lemma Construct_within_bound
    (parse_newick : string -> Graph -> vertex_t -> bool -> bool * Graph)
    (pedigree : Pedigree) (known_samples : list string) (model : InheritanceModel)
    (mu mu_somatic : double) (normalize : bool) :
  within_bound (Construct parse_newick pedigree known_samples model mu mu_somatic normalize).
Proof.
  unfold Construct. apply bind_within_bound.
  - unfold construct_pedigree_graph. apply bind_within_bound.
    + apply (@foldM_within_bound _ _ (fun _ => True)); [|exact Logic.I].
      intros s a _. split; [apply add_edges_step_within_bound|auto].
    + intros g1 _. apply bind_within_bound; [|intros; discriminate].
      apply (@foldM_within_bound _ _ (fun _ => True)); [|exact Logic.I].
      intros s i _. split; [|auto].
      apply (@foldM_within_bound _ _ (fun _ => True)); [|exact Logic.I].
      intros t text _. split; [|auto].
      destruct (parse_newick text t i normalize) as [ok t'].
      destruct (negb ok); discriminate.
  - intros g0 _. apply bind_within_bound; [apply compile_within_bound|].
    intros g1 _. apply bind_within_bound; [apply peeling_order_within_bound|].
    intros p _. discriminate.
Qed.

(** ** The sex-linked pruners *)

Lemma filter_filter {A : Type} (p q : A -> bool) (l : list A) :
  filter q (filter p l) = filter (fun x => p x && q x) l.
Proof.
  induction l as [|a l IH]; simpl; [reflexivity|].
  destruct (p a); simpl; [destruct (q a)|]; now rewrite IH.
Qed.

Lemma existsb_pointwise {A : Type} (f g : A -> bool) (l : list A) :
  (forall a, f a = g a) -> existsb f l = existsb g l.
Proof. intros H. induction l as [|a l IH]; simpl; [reflexivity|]. now rewrite H, IH. Qed.

Lemma filter_nil_filter {A : Type} (p q : A -> bool) (l : list A) :
  filter p l = [] -> filter p (filter q l) = [].
Proof.
  intros H. rewrite filter_filter.
  induction l as [|a l IH]; simpl in *; [reflexivity|].
  destruct (p a); [discriminate|]. rewrite andb_false_r. auto.
Qed.

Lemma sexes_update_ploidy (g g' : Graph) (v : vertex_t) (p : Z) :
  vertex_props g' = update_nth v (set_ploidy p) (vertex_props g) ->
  forall w, sexes g' w = sexes g w.
Proof.
  intros H w. unfold sexes, prop. rewrite H, nth_update_nth.
  destruct (_ && _); reflexivity.
Qed.

Lemma ploidies_update_ploidy (g g' : Graph) (v : vertex_t) (p : Z) :
  vertex_props g' = update_nth v (set_ploidy p) (vertex_props g) ->
  forall w, ploidies g' w
            = if (v =? w) && (v <? num_vertices g) then p else ploidies g w.
Proof.
  intros H w. unfold ploidies, prop, num_vertices. rewrite H, nth_update_nth.
  destruct (_ && _); reflexivity.
Qed.

Section SexLinkedLoop.

(** The loop over the vertices of a sex-linked pruner: [cleared] tells the
    sexes whose vertices are cleared, [ploidy_of] the ploidy written for a
    sex. *)
Variable body : Graph -> vertex_t -> result Graph.
Variable cleared : Sex -> bool.
Variable ploidy_of : Sex -> option Z.

Hypothesis body_Ok : forall g v g',
  body g v = Ok g' ->
  vertex_props g'
    = match ploidy_of (sexes g v) with
      | Some p => update_nth v (set_ploidy p) (vertex_props g)
      | None => vertex_props g
      end
  /\ edge_list g'
     = (if cleared (sexes g v) then edge_list (clear_vertex v g) else edge_list g)
  /\ (known_sex (sexes g v) = false -> out_degree g v = 0).

Hypothesis body_total : forall g v,
  known_sex (sexes g v) = true \/ out_degree g v = 0 -> exists g', body g v = Ok g'.

Lemma body_sexes (g g' : Graph) (v : vertex_t) :
  body g v = Ok g' -> forall w, sexes g' w = sexes g w.
Proof.
  intros H w. apply body_Ok in H. destruct H as (Hp & _ & _).
  destruct (ploidy_of (sexes g v)).
  - eapply sexes_update_ploidy; eassumption.
  - unfold sexes, prop. now rewrite Hp.
Qed.

Lemma body_length (g g' : Graph) (v : vertex_t) :
  body g v = Ok g' -> num_vertices g' = num_vertices g.
Proof.
  intros H. apply body_Ok in H. destruct H as (Hp & _ & _). unfold num_vertices.
  rewrite Hp. destruct (ploidy_of _); [apply update_nth_length | reflexivity].
Qed.

Lemma linked_loop (l : list vertex_t) :
  forall g g',
    foldM body l g = Ok g' ->
    num_vertices g' = num_vertices g
    /\ (forall w, sexes g' w = sexes g w)
    /\ edge_list g'
       = filter (fun e => negb (hits (fun v => cleared (sexes g v)) l e)) (edge_list g)
    /\ (forall v, In v l -> known_sex (sexes g v) = false -> out_degree g' v = 0)
    /\ (NoDup l ->
        forall w, ploidies g' w
                  = if existsb (Nat.eqb w) l && (w <? num_vertices g)
                    then match ploidy_of (sexes g w) with
                         | Some p => p
                         | None => ploidies g w
                         end
                    else ploidies g w).
Proof.
  induction l as [|a l IH]; simpl; intros g g' H.
  - inversion H; subst. split; [reflexivity|]. split; [reflexivity|].
    split; [|split; [intros v []|reflexivity]].
    unfold hits; simpl. clear. induction (edge_list g') as [|e l IH]; simpl; congruence.
  - apply bind_Ok_inv in H. destruct H as (g1 & E1 & E2).
    pose proof (body_sexes E1) as Hs1. pose proof (body_length E1) as Hn1.
    destruct (IH _ _ E2) as (Hn & Hs & He & Ho & Hp).
    pose proof E1 as E1'. apply body_Ok in E1'. destruct E1' as (Hp1 & He1 & Ho1).
    split; [congruence|]. split; [intros w; now rewrite Hs, Hs1|].
    split; [|split].
    + rewrite He, He1. unfold hits; simpl.
      destruct (cleared (sexes g a)) eqn:C.
      * unfold clear_vertex, remove_edge_if; simpl. rewrite filter_filter.
        apply filter_ext. intros e. rewrite !negb_orb. f_equal.
        f_equal. apply existsb_pointwise. intros v. now rewrite Hs1.
      * apply filter_ext. intros e. simpl. f_equal.
        apply existsb_pointwise. intros v. now rewrite Hs1.
    + intros v [->|Hin] Hk.
      * unfold out_degree, out_edges. rewrite He.
        rewrite filter_nil_filter; [reflexivity|].
        specialize (Ho1 Hk). unfold out_degree, out_edges in Ho1.
        apply length_zero_iff_nil in Ho1.
        rewrite He1. destruct (cleared _); [|assumption].
        unfold clear_vertex, remove_edge_if; simpl.
        now apply filter_nil_filter.
      * apply Ho; [assumption|]. now rewrite Hs1.
    + intros Hnd w. inversion Hnd as [|? ? Hnot Hnd']; subst.
      rewrite (Hp Hnd' w), Hn1, Hs1.
      assert (Hw : ploidies g1 w
                   = if (a =? w) && (a <? num_vertices g)
                     then match ploidy_of (sexes g a) with
                          | Some p => p
                          | None => ploidies g w
                          end
                     else ploidies g w).
      { destruct (ploidy_of (sexes g a)) eqn:P.
        - now apply ploidies_update_ploidy.
        - unfold ploidies, prop. rewrite Hp1. now destruct (_ && _). }
      destruct (Nat.eqb_spec w a) as [->|Hne]; simpl.
      * rewrite Nat.eqb_refl in Hw; simpl in Hw.
        assert (Hl : existsb (Nat.eqb a) l = false).
        { apply not_true_is_false. intros Hx. apply existsb_exists in Hx.
          destruct Hx as (x & Hx & Hax). apply Nat.eqb_eq in Hax. now subst. }
        rewrite Hl; simpl. rewrite Hw. destruct (a <? num_vertices g); reflexivity.
      * assert (Ha : (a =? w) = false) by (apply Nat.eqb_neq; congruence).
        rewrite Ha in Hw; simpl in Hw. rewrite Hw. reflexivity.
Qed.

Lemma linked_loop_total (l : list vertex_t) :
  forall g,
    (forall e, In e (edge_list g) -> known_sex (sexes g (source e)) = true) ->
    exists g', foldM body l g = Ok g'.
Proof.
  induction l as [|a l IH]; simpl; intros g H; [eauto|].
  destruct (body_total g a) as (g1 & E1).
  { destruct (known_sex (sexes g a)) eqn:K; [now left | right].
    unfold out_degree, out_edges.
    destruct (filter _ _) as [|e r] eqn:F; [reflexivity|].
    assert (Hin : In e (filter (fun e => source e =? a) (edge_list g)))
      by (rewrite F; now left).
    apply filter_In in Hin. destruct Hin as (Hin & Hsrc). apply Nat.eqb_eq in Hsrc.
    apply H in Hin. rewrite Hsrc in Hin. congruence. }
  rewrite E1; simpl. apply IH. intros e He.
  rewrite (body_sexes E1).
  pose proof E1 as E1'. apply body_Ok in E1'. destruct E1' as (_ & He1 & _).
  rewrite He1 in He.
  apply H. destruct (cleared _); [|assumption].
  unfold clear_vertex, remove_edge_if in He; simpl in He.
  now apply filter_In in He.
Qed.

End SexLinkedLoop.
Lemma graph_wfb_wf (g : Graph) : graph_wfb g = true -> graph_wf g.
Proof.
  unfold graph_wfb, graph_wf. rewrite forallb_forall. intros H e He.
  apply H in He. apply andb_true_iff in He. destruct He as [H1 H2].
  apply Nat.ltb_lt in H1, H2. now split.
Qed.

Lemma sexes_in_range (g : Graph) (v : vertex_t) :
  known_sex (sexes g v) = true -> v < num_vertices g.
Proof.
  unfold sexes, prop, num_vertices. intros H.
  destruct (Nat.lt_ge_cases v (List.length (vertex_props g))) as [|Hge]; [assumption|].
  rewrite nth_overflow in H by assumption. discriminate.
Qed.

Lemma hits_touches (g : Graph) (s : Sex) (e : Edge) :
  known_sex s = true ->
  hits (fun v => Sex_eqb (sexes g v) s) (vertices g) e = touches g s e.
Proof.
  intros Hs. unfold hits, touches. apply eq_true_iff_eq. split; intros H.
  - apply existsb_exists in H. destruct H as (v & _ & H).
    apply andb_true_iff in H. destruct H as [Hv H].
    apply orb_true_iff in H. apply orb_true_iff.
    destruct H as [H|H]; apply Nat.eqb_eq in H; rewrite H; auto.
  - apply orb_true_iff in H. apply existsb_exists.
    destruct H as [H|H].
    + exists (source e). split.
      * apply in_seq. split; [lia|]. apply sexes_in_range.
        apply Sex_eqb_eq in H. now rewrite H.
      * now rewrite H, Nat.eqb_refl.
    + exists (target e). split.
      * apply in_seq. split; [lia|]. apply sexes_in_range.
        apply Sex_eqb_eq in H. now rewrite H.
      * rewrite H, Nat.eqb_refl. now rewrite orb_true_r.
Qed.

Lemma hits_none (l : list vertex_t) (e : Edge) : hits (fun _ => false) l e = false.
Proof. unfold hits. induction l; simpl; auto. Qed.

Lemma in_range_listed (n w : nat) : existsb (Nat.eqb w) (seq 0 n) = (w <? n).
Proof.
  apply eq_true_iff_eq. rewrite existsb_exists, Nat.ltb_lt. split.
  - intros (x & Hx & E). apply Nat.eqb_eq in E. subst. apply in_seq in Hx. lia.
  - intros H. exists w. split; [apply in_seq; lia | apply Nat.eqb_refl].
Qed.

Lemma edge_has_out_degree (g : Graph) (e : Edge) :
  In e (edge_list g) -> out_degree g (source e) <> 0.
Proof.
  intros He H. unfold out_degree, out_edges in H. apply length_zero_iff_nil in H.
  assert (Hin : In e (filter (fun e0 => source e0 =? source e) (edge_list g)))
    by (apply filter_In; split; [assumption | apply Nat.eqb_refl]).
  rewrite H in Hin. destruct Hin.
Qed.

(** The loop of [prune_ylinked], [prune_xlinked], [prune_wlinked] and
    [prune_zlinked] on a well-formed graph: the edges that are left, the sex
    of their sources, the ploidies. *)
Lemma linked_outcome (body : Graph -> vertex_t -> result Graph)
    (cleared : Sex -> bool) (ploidy_of : Sex -> option Z) (g1 g' : Graph) :
  (forall g v g',
     body g v = Ok g' ->
     vertex_props g'
       = match ploidy_of (sexes g v) with
         | Some p => update_nth v (set_ploidy p) (vertex_props g)
         | None => vertex_props g
         end
     /\ edge_list g'
        = (if cleared (sexes g v) then edge_list (clear_vertex v g) else edge_list g)
     /\ (known_sex (sexes g v) = false -> out_degree g v = 0)) ->
  graph_wf g1 ->
  foldM body (vertices g1) g1 = Ok g' ->
  edge_list g'
    = filter (fun e => negb (hits (fun v => cleared (sexes g1 v)) (vertices g1) e))
             (edge_list g1)
  /\ (forall e, In e (edge_list g') -> known_sex (sexes g1 (source e)) = true)
  /\ (forall v, v < num_vertices g1 ->
        ploidies g' v = match ploidy_of (sexes g1 v) with
                        | Some p => p
                        | None => ploidies g1 v
                        end).
Proof.
  intros Hbody Hwf H.
  destruct (linked_loop body cleared ploidy_of Hbody _ _ H) as (Hn & Hs & He & Ho & Hp).
  split; [assumption|]. split.
  - intros e Hin. destruct (known_sex (sexes g1 (source e))) eqn:K; [reflexivity|].
    exfalso. apply (edge_has_out_degree _ _ Hin). apply Ho; [|assumption].
    assert (In e (edge_list g1)) as Hin1
      by (rewrite He in Hin; now apply filter_In in Hin).
    apply in_seq. destruct (Hwf _ Hin1). unfold num_vertices in *. lia.
  - intros v Hv. rewrite (Hp (seq_NoDup _ _) v).
    unfold vertices. rewrite in_range_listed.
    apply Nat.ltb_lt in Hv. now rewrite Hv.
Qed.
Lemma graph_wf_remove_edge_if (p : Edge -> bool) (g : Graph) :
  graph_wf g -> graph_wf (remove_edge_if p g).
Proof.
  intros H e He. unfold remove_edge_if in He; simpl in He.
  apply filter_In in He. destruct He as [He _]. apply (H e He).
Qed.

Ltac linked_body :=
  let g := fresh "g" in let v := fresh "v" in let g' := fresh "g'" in
  let E := fresh "E" in
  intros g v g' E;
  destruct (sexes g v) eqn:?; simpl;
  try (destruct (out_degree g v =? 0) eqn:?; simpl in E; [|discriminate E]);
  inversion E; subst; repeat split; try reflexivity; try discriminate;
  intros _; now apply Nat.eqb_eq.

(** X1 -- [prune_ylinked] on a well-formed graph, when it returns: the edges
    left are exactly the edges neither end of which is female, in their
    order; each of them leaves a male vertex; a female vertex has ploidy 0, a
    male vertex ploidy 1, any other vertex keeps its ploidy. *)
Theorem prune_ylinked_keeps_male_lines (g g' : Graph) :
  graph_wf g -> prune_ylinked g = Ok g' ->
  edges g' = filter (fun e => negb (touches g Female e)) (edges g)
  /\ (forall e, In e (edges g') -> sexes g (source e) = Male)
  /\ (forall v, v < num_vertices g ->
        ploidies g' v = match sexes g v with
                        | Female => 0%Z
                        | Male => 1%Z
                        | _ => ploidies g v
                        end).
Proof.
  intros Hwf H. unfold prune_ylinked in H.
  apply (@linked_outcome _ (fun s => Sex_eqb s Female)
           (fun s => match s with Female => Some 0%Z | Male => Some 1%Z | _ => None end))
    in H; [|linked_body|now apply graph_wf_remove_edge_if].
  destruct H as (He & Hk & Hp).
  assert (Hedges : edges g' = filter (fun e => negb (touches g Female e)) (edges g)).
  { unfold edges. rewrite He. unfold remove_edge_if; simpl. rewrite filter_filter.
    apply filter_ext. intros e.
    change (vertices (mkGraph (vertex_props g) (filter (fun e0 => negb (is_x g e0)) (edge_list g))))
      with (vertices g).
    change (hits _ (vertices g) e)
      with (hits (fun v => Sex_eqb (sexes g v) Female) (vertices g) e).
    rewrite hits_touches by reflexivity.
    unfold is_x, touches. destruct (has_germ (edge_type e)); simpl; [|reflexivity].
    now destruct (_ || _). }
  split; [assumption|]. split.
  - intros e Hin. specialize (Hk e Hin).
    change (known_sex (sexes g (source e)) = true) in Hk.
    unfold edges in Hedges, Hin. rewrite Hedges in Hin. apply filter_In in Hin.
    destruct Hin as [_ Hin]. unfold touches in Hin.
    destruct (sexes g (source e)); try discriminate; reflexivity.
  - intros v Hv. specialize (Hp v Hv).
    change (ploidies g' v = match (match sexes g v with
                                   | Female => Some 0%Z | Male => Some 1%Z | _ => None end) with
                            | Some p => p | None => ploidies g v end) in Hp.
    rewrite Hp. destruct (sexes g v); reflexivity.
Qed.
(** X2 -- [prune_wlinked] on a well-formed graph, when it returns: the edges
    left are exactly the edges neither end of which is male, in their order;
    each of them leaves a female vertex; a male vertex has ploidy 0, a female
    vertex ploidy 1, any other vertex keeps its ploidy. *)
Theorem prune_wlinked_keeps_female_lines (g g' : Graph) :
  graph_wf g -> prune_wlinked g = Ok g' ->
  edges g' = filter (fun e => negb (touches g Male e)) (edges g)
  /\ (forall e, In e (edges g') -> sexes g (source e) = Female)
  /\ (forall v, v < num_vertices g ->
        ploidies g' v = match sexes g v with
                        | Male => 0%Z
                        | Female => 1%Z
                        | _ => ploidies g v
                        end).
Proof.
  intros Hwf H. unfold prune_wlinked in H.
  apply (@linked_outcome _ (fun s => Sex_eqb s Male)
           (fun s => match s with Male => Some 0%Z | Female => Some 1%Z | _ => None end))
    in H; [|linked_body|now apply graph_wf_remove_edge_if].
  destruct H as (He & Hk & Hp).
  assert (Hedges : edges g' = filter (fun e => negb (touches g Male e)) (edges g)).
  { unfold edges. rewrite He. unfold remove_edge_if; simpl. rewrite filter_filter.
    apply filter_ext. intros e.
    change (vertices (mkGraph (vertex_props g) (filter (fun e0 => negb (is_z g e0)) (edge_list g))))
      with (vertices g).
    change (hits _ (vertices g) e)
      with (hits (fun v => Sex_eqb (sexes g v) Male) (vertices g) e).
    rewrite hits_touches by reflexivity.
    unfold is_z, touches. destruct (has_germ (edge_type e)); simpl; [|reflexivity].
    now destruct (_ || _). }
  split; [assumption|]. split.
  - intros e Hin. specialize (Hk e Hin).
    change (known_sex (sexes g (source e)) = true) in Hk.
    unfold edges in Hedges, Hin. rewrite Hedges in Hin. apply filter_In in Hin.
    destruct Hin as [_ Hin]. unfold touches in Hin.
    destruct (sexes g (source e)); try discriminate; reflexivity.
  - intros v Hv. specialize (Hp v Hv).
    change (ploidies g' v = match (match sexes g v with
                                   | Male => Some 0%Z | Female => Some 1%Z | _ => None end) with
                            | Some p => p | None => ploidies g v end) in Hp.
    rewrite Hp. destruct (sexes g v); reflexivity.
Qed.

Lemma filter_true {A : Type} (l : list A) : filter (fun _ => true) l = l.
Proof. induction l as [|a l IH]; simpl; congruence. Qed.

(** X3 -- [prune_xlinked] on a well-formed graph, when it returns: the edges
    removed are exactly the germline edges from a male to a male; every edge
    of the input leaves a male or a female vertex (an edge that leaves a
    vertex of another sex makes the pruner throw); a male vertex has
    ploidy 1 and every other vertex keeps its ploidy. *)
Theorem prune_xlinked_cuts_father_to_son (g g' : Graph) :
  graph_wf g -> prune_xlinked g = Ok g' ->
  edges g' = filter (fun e => negb (has_germ (edge_type e)
                                    && Sex_eqb (sexes g (source e)) Male
                                    && Sex_eqb (sexes g (target e)) Male)) (edges g)
  /\ (forall e, In e (edges g) -> sexes g (source e) = Male \/ sexes g (source e) = Female)
  /\ (forall v, v < num_vertices g ->
        ploidies g' v = match sexes g v with
                        | Male => 1%Z
                        | _ => ploidies g v
                        end).
Proof.
  intros Hwf H. unfold prune_xlinked in H.
  apply (@linked_outcome _ (fun _ => false)
           (fun s => match s with Male => Some 1%Z | _ => None end))
    in H; [|linked_body|now apply graph_wf_remove_edge_if].
  destruct H as (He & Hk & Hp).
  assert (Hedges : edge_list g' = filter (fun e => negb (is_y g e)) (edge_list g)).
  { rewrite He. unfold remove_edge_if; simpl.
    erewrite filter_ext; [apply filter_true|]. intros e. now rewrite hits_none. }
  split; [|split].
  - unfold edges. rewrite Hedges. apply filter_ext. intros e. unfold is_y.
    destruct (has_germ (edge_type e)); reflexivity.
  - intros e Hin. unfold edges in Hin. destruct (is_y g e) eqn:Y.
    + unfold is_y in Y. destruct (negb _); [discriminate|].
      apply andb_true_iff in Y. destruct Y as [Y _]. apply Sex_eqb_eq in Y. now left.
    + assert (Hin' : In e (edge_list g'))
        by (rewrite Hedges; apply filter_In; split; [assumption | now rewrite Y]).
      specialize (Hk e Hin'). change (known_sex (sexes g (source e)) = true) in Hk.
      destruct (sexes g (source e)); try discriminate; auto.
  - intros v Hv. specialize (Hp v Hv).
    change (ploidies g' v = match (match sexes g v with
                                   | Male => Some 1%Z | _ => None end) with
                            | Some p => p | None => ploidies g v end) in Hp.
    rewrite Hp. destruct (sexes g v); reflexivity.
Qed.

(** X4 -- [prune_zlinked] on a well-formed graph, when it returns: the edges
    removed are exactly the germline edges from a female to a female; every
    edge of the input leaves a male or a female vertex; a female vertex has
    ploidy 1 and every other vertex keeps its ploidy. *)
Theorem prune_zlinked_cuts_mother_to_daughter (g g' : Graph) :
  graph_wf g -> prune_zlinked g = Ok g' ->
  edges g' = filter (fun e => negb (has_germ (edge_type e)
                                    && Sex_eqb (sexes g (source e)) Female
                                    && Sex_eqb (sexes g (target e)) Female)) (edges g)
  /\ (forall e, In e (edges g) -> sexes g (source e) = Male \/ sexes g (source e) = Female)
  /\ (forall v, v < num_vertices g ->
        ploidies g' v = match sexes g v with
                        | Female => 1%Z
                        | _ => ploidies g v
                        end).
Proof.
  intros Hwf H. unfold prune_zlinked in H.
  apply (@linked_outcome _ (fun _ => false)
           (fun s => match s with Female => Some 1%Z | _ => None end))
    in H; [|linked_body|now apply graph_wf_remove_edge_if].
  destruct H as (He & Hk & Hp).
  assert (Hedges : edge_list g' = filter (fun e => negb (is_w g e)) (edge_list g)).
  { rewrite He. unfold remove_edge_if; simpl.
    erewrite filter_ext; [apply filter_true|]. intros e. now rewrite hits_none. }
  split; [|split].
  - unfold edges. rewrite Hedges. apply filter_ext. intros e. unfold is_w.
    destruct (has_germ (edge_type e)); reflexivity.
  - intros e Hin. unfold edges in Hin. destruct (is_w g e) eqn:Y.
    + unfold is_w in Y. destruct (negb _); [discriminate|].
      apply andb_true_iff in Y. destruct Y as [Y _]. apply Sex_eqb_eq in Y. now right.
    + assert (Hin' : In e (edge_list g'))
        by (rewrite Hedges; apply filter_In; split; [assumption | now rewrite Y]).
      specialize (Hk e Hin'). change (known_sex (sexes g (source e)) = true) in Hk.
      destruct (sexes g (source e)); try discriminate; auto.
  - intros v Hv. specialize (Hp v Hv).
    change (ploidies g' v = match (match sexes g v with
                                   | Female => Some 1%Z | _ => None end) with
                            | Some p => p | None => ploidies g v end) in Hp.
    rewrite Hp. destruct (sexes g v); reflexivity.
Qed.
Ltac linked_total :=
  let g := fresh "g" in let v := fresh "v" in let H := fresh "H" in
  intros g v H;
  destruct (sexes g v) eqn:?; simpl in H;
  try (eexists; reflexivity);
  (destruct H as [H|H]; [discriminate H|]); rewrite H; simpl; eexists; reflexivity.

(** X5 -- [prune] returns for each of the seven models of its switch when
    every edge of the graph leaves a male or a female vertex: the only throw
    of the sex-linked pruners is for a vertex of another sex that has an
    out-edge. *)
Theorem prune_returns_when_parents_have_known_sex (g : Graph) (model : InheritanceModel) :
  model <> ModelOther ->
  (forall e, In e (edges g) -> sexes g (source e) = Male \/ sexes g (source e) = Female) ->
  exists g', prune g model = Ok g'.
Proof.
  intros Hm H.
  assert (K : forall p e, In e (edge_list (remove_edge_if p g)) ->
                          known_sex (sexes (remove_edge_if p g) (source e)) = true).
  { intros p e He. unfold remove_edge_if in He; simpl in He. apply filter_In in He.
    destruct He as [He _]. change (known_sex (sexes g (source e)) = true).
    destruct (H e He) as [E|E]; now rewrite E. }
  destruct model; simpl; try (eexists; reflexivity); try congruence.
  - unfold prune_xlinked.
    apply (@linked_loop_total _ (fun _ => false)
             (fun s => match s with Male => Some 1%Z | _ => None end));
      [linked_body | linked_total | apply K].
  - unfold prune_ylinked.
    apply (@linked_loop_total _ (fun s => Sex_eqb s Female)
             (fun s => match s with Female => Some 0%Z | Male => Some 1%Z | _ => None end));
      [linked_body | linked_total | apply K].
  - unfold prune_wlinked.
    apply (@linked_loop_total _ (fun s => Sex_eqb s Male)
             (fun s => match s with Male => Some 0%Z | Female => Some 1%Z | _ => None end));
      [linked_body | linked_total | apply K].
  - unfold prune_zlinked.
    apply (@linked_loop_total _ (fun _ => false)
             (fun s => match s with Female => Some 1%Z | _ => None end));
      [linked_body | linked_total | apply K].
Qed.

(** X6 -- [prune_maternal] always returns; it removes exactly the germline
    edges that leave a male vertex and sets the ploidy of every vertex
    to 1. *)
Theorem prune_maternal_cuts_paternal_edges (g : Graph) :
  exists g',
    prune_maternal g = Ok g'
    /\ edges g' = filter (fun e => negb (has_germ (edge_type e)
                                         && Sex_eqb (sexes g (source e)) Male)) (edges g)
    /\ num_vertices g' = num_vertices g
    /\ (forall v, v < num_vertices g -> ploidies g' v = 1%Z).
Proof.
  eexists. split; [reflexivity|].
  destruct (set_all_ploidies (vertices (remove_edge_if (is_p g) g))
                             (remove_edge_if (is_p g) g)) as (He & Hn & Hp).
  split; [|split].
  - unfold edges. rewrite He. unfold remove_edge_if; simpl. apply filter_ext.
    intros e. unfold is_p. destruct (has_germ (edge_type e)); reflexivity.
  - exact Hn.
  - intros v Hv. apply Hp; [exact Hv|]. left. apply in_seq.
    unfold num_vertices in *. simpl. lia.
Qed.

(** X7 -- whatever the model, [prune] keeps the vertices with their labels,
    sexes and types, and the edges it returns are edges of its input: it
    neither adds nor renumbers anything, it writes ploidies and removes
    edges. *)
Theorem prune_only_removes_edges_and_writes_ploidies
    (g g' : Graph) (model : InheritanceModel) :
  prune g model = Ok g' ->
  num_vertices g' = num_vertices g
  /\ (forall v, labels g' v = labels g v /\ sexes g' v = sexes g v /\ types g' v = types g v)
  /\ (forall e, In e (edges g') -> In e (edges g)).
Proof.
  intros H.
  pose proof (@prune_preserves _ (fun x => (vertex_label x, vertex_sex x, vertex_type x))
                g g' model (fun q x => eq_refl) H) as Hm.
  split; [|split].
  - unfold num_vertices. rewrite <- (length_map (fun x => (vertex_label x, vertex_sex x, vertex_type x))).
    rewrite Hm. apply length_map.
  - intros v.
    assert (E : (fun x => (vertex_label x, vertex_sex x, vertex_type x)) (prop g' v)
                = (fun x => (vertex_label x, vertex_sex x, vertex_type x)) (prop g v)).
    { unfold prop.
      rewrite <- (map_nth (fun x => (vertex_label x, vertex_sex x, vertex_type x))
                          (vertex_props g') default_vertex v).
      rewrite <- (map_nth (fun x => (vertex_label x, vertex_sex x, vertex_type x))
                          (vertex_props g) default_vertex v).
      now rewrite Hm. }
    simpl in E. unfold labels, sexes, types. inversion E. auto.
  - apply (prune_incl _ _ H).
Qed.
Lemma prune_ylinked_keeps_male_lines_witness :
  exists g',
    graph_wf family /\ prune_ylinked family = Ok g'
    /\ edges g' = filter (fun e => negb (touches family Female e)) (edges family)
    /\ (forall e, In e (edges g') -> sexes family (source e) = Male)
    /\ (forall v, v < num_vertices family ->
          ploidies g' v = match sexes family v with
                          | Female => 0%Z
                          | Male => 1%Z
                          | _ => ploidies family v
                          end).
Proof.
  eexists. split; [apply graph_wfb_wf; reflexivity|].
  split; [vm_compute; reflexivity|].
  apply prune_ylinked_keeps_male_lines; [apply graph_wfb_wf; reflexivity|].
  vm_compute. reflexivity.
Defined.

Lemma prune_wlinked_keeps_female_lines_witness :
  exists g',
    graph_wf family /\ prune_wlinked family = Ok g'
    /\ edges g' = filter (fun e => negb (touches family Male e)) (edges family)
    /\ (forall e, In e (edges g') -> sexes family (source e) = Female)
    /\ (forall v, v < num_vertices family ->
          ploidies g' v = match sexes family v with
                          | Male => 0%Z
                          | Female => 1%Z
                          | _ => ploidies family v
                          end).
Proof.
  eexists. split; [apply graph_wfb_wf; reflexivity|].
  split; [vm_compute; reflexivity|].
  apply prune_wlinked_keeps_female_lines; [apply graph_wfb_wf; reflexivity|].
  vm_compute. reflexivity.
Defined.

Lemma prune_xlinked_cuts_father_to_son_witness :
  exists g',
    graph_wf family /\ prune_xlinked family = Ok g'
    /\ edges g' = filter (fun e => negb (has_germ (edge_type e)
                                         && Sex_eqb (sexes family (source e)) Male
                                         && Sex_eqb (sexes family (target e)) Male))
                         (edges family)
    /\ (forall e, In e (edges family) ->
                  sexes family (source e) = Male \/ sexes family (source e) = Female)
    /\ (forall v, v < num_vertices family ->
          ploidies g' v = match sexes family v with
                          | Male => 1%Z
                          | _ => ploidies family v
                          end).
Proof.
  eexists. split; [apply graph_wfb_wf; reflexivity|].
  split; [vm_compute; reflexivity|].
  apply prune_xlinked_cuts_father_to_son; [apply graph_wfb_wf; reflexivity|].
  vm_compute. reflexivity.
Defined.

Lemma prune_zlinked_cuts_mother_to_daughter_witness :
  exists g',
    graph_wf family /\ prune_zlinked family = Ok g'
    /\ edges g' = filter (fun e => negb (has_germ (edge_type e)
                                         && Sex_eqb (sexes family (source e)) Female
                                         && Sex_eqb (sexes family (target e)) Female))
                         (edges family)
    /\ (forall e, In e (edges family) ->
                  sexes family (source e) = Male \/ sexes family (source e) = Female)
    /\ (forall v, v < num_vertices family ->
          ploidies g' v = match sexes family v with
                          | Female => 1%Z
                          | _ => ploidies family v
                          end).
Proof.
  eexists. split; [apply graph_wfb_wf; reflexivity|].
  split; [vm_compute; reflexivity|].
  apply prune_zlinked_cuts_mother_to_daughter; [apply graph_wfb_wf; reflexivity|].
  vm_compute. reflexivity.
Defined.

Lemma prune_returns_when_parents_have_known_sex_witness :
  ModelYLinked <> ModelOther
  /\ (forall e, In e (edges family) ->
                sexes family (source e) = Male \/ sexes family (source e) = Female)
  /\ exists g', prune family ModelYLinked = Ok g'.
Proof.
  assert (H : forall e, In e (edges family) ->
                        sexes family (source e) = Male \/ sexes family (source e) = Female).
  { intros e [<-|[<-|[<-|[<-|[]]]]]; simpl; auto. }
  split; [discriminate|]. split; [exact H|].
  apply prune_returns_when_parents_have_known_sex; [discriminate | exact H].
Defined.

Lemma prune_only_removes_edges_and_writes_ploidies_witness :
  exists g',
    prune family ModelXLinked = Ok g'
    /\ num_vertices g' = num_vertices family
    /\ (forall v, labels g' v = labels family v /\ sexes g' v = sexes family v
                  /\ types g' v = types family v)
    /\ (forall e, In e (edges g') -> In e (edges family)).
Proof.
  eexists. split; [vm_compute; reflexivity|].
  apply (@prune_only_removes_edges_and_writes_ploidies family _ ModelXLinked).
  vm_compute. reflexivity.
Defined.

(** ** The ploidy of a member *)

(** X8 -- [get_ploidy]: the first tag that names a ploidy decides, whatever
    comes after it and wherever a [clone] tag stands; without such a tag the
    ploidy is 0 for a member tagged [clone] and 2 otherwise. *)
Theorem get_ploidy_first_ploidy_tag_decides (member : Member) :
  (forall l1 a l2 p,
     tags member = l1 ++ a :: l2 ->
     Forall (fun b => ploidy_tag b = None) l1 ->
     ploidy_tag a = Some p ->
     get_ploidy member = p /\ (p = 1%Z \/ p = 2%Z))
  /\ (Forall (fun b => ploidy_tag b = None) (tags member) ->
      get_ploidy member = if has_tag member "clone" then 0%Z else 2%Z).
Proof.
  unfold get_ploidy, has_tag. destruct member as [n s d m dl ml tg sm]; simpl.
  generalize (existsb (fun a => iequals a "clone") tg). intros c. split.
  - intros l1 a l2 p -> Hl1 Ha. induction Hl1 as [|b l1 Hb Hl1 IH]; simpl.
    + unfold ploidy_tag in Ha.
      destruct (_ || _); [inversion Ha; auto|].
      destruct (_ || _); [inversion Ha; auto|discriminate].
    + unfold ploidy_tag in Hb.
      destruct (_ || _); [discriminate|]. destruct (_ || _); [discriminate|]. exact IH.
  - intros H. induction H as [|b l Hb Hl IH]; simpl; [reflexivity|].
    unfold ploidy_tag in Hb.
    destruct (_ || _); [discriminate|]. destruct (_ || _); [discriminate|]. exact IH.
Qed.
(** ** The edges of the pedigree graph *)

Lemma get_Ok {A : Type} (f : VertexProp -> A) (g : Graph) (v : vertex_t) (x : A) :
  get f g v = Ok x -> v < num_vertices g /\ x = f (prop g v).
Proof.
  unfold get, prop, num_vertices. destruct (nth_error (vertex_props g) v) eqn:E; [|discriminate].
  intros H. inversion H; subst. split.
  - apply nth_error_Some. congruence.
  - now rewrite (nth_error_nth _ _ default_vertex E).
Qed.

(** One round of the loop of [add_edges_to_pedigree_graph]: the edges it
    adds all enter [v], are germline edges and leave a member that [v]
    names as a parent; it writes no vertex but [v], and neither the label nor
    the type of [v]. *)
Lemma add_edges_step_shape (pedigree : Pedigree) (g g' : Graph) (v : vertex_t) :
  add_edges_step pedigree g v = Ok g' ->
  num_vertices g' = num_vertices g
  /\ (forall w, w <> v -> prop g' w = prop g w)
  /\ labels g' v = labels g v /\ types g' v = types g v
  /\ exists new,
       edge_list g' = edge_list g ++ new
       /\ Forall (fun e => target e = v /\ edge_type e = GERM_EDGE
                           /\ source e < NumberOfMembers pedigree
                           /\ names_parent pedigree (GetMember pedigree v) (source e)) new
       /\ List.length new
          = if is_founder_member (GetMember pedigree v) then 0
            else if (ploidies g v =? 0)%Z || (ploidies g v =? 1)%Z then 1 else 2.
Proof.
  unfold add_edges_step, is_founder_member.
  set (member := GetMember pedigree v).
  destruct (has_tag member "founder" || _) eqn:F.
  { intros H. inversion H; subst. repeat split; auto.
    exists []. rewrite app_nil_r. repeat split; auto. }
  intros H. apply bind_Ok_inv in H. destruct H as (ploidy & Hp & H).
  apply get_Ok in Hp. destruct Hp as [Hv Hp]. fold (ploidies g v) in Hp. subst ploidy.
  assert (P1 : forall (q : Z) (h : Graph) w,
             w <> v -> prop (put_vertex v (set_ploidy q) h) w = prop h w).
  { intros q h w Hw. unfold prop, put_vertex; simpl. rewrite nth_update_nth.
    destruct (Nat.eqb_spec v w); [congruence|reflexivity]. }
  assert (P2 : forall (q : Sex) (h : Graph) w,
             w <> v -> prop (put_vertex v (set_sex q) h) w = prop h w).
  { intros q h w Hw. unfold prop, put_vertex; simpl. rewrite nth_update_nth.
    destruct (Nat.eqb_spec v w); [congruence|reflexivity]. }
  destruct (ploidies g v =? 0)%Z eqn:Z0; simpl.
  - (* clone *)
    destruct (is_some (dad member) && is_some (mom member)) eqn:B; [discriminate|].
    destruct (match dad member with
              | Some d => (LookupMemberPosition pedigree d, value_or (dad_length member) (float_of 1 0))
              | None => (LookupMemberPosition pedigree (value_or (mom member) EmptyString),
                         value_or (mom_length member) (float_of 1 0))
              end) as [parent len] eqn:PL.
    destruct (NumberOfMembers pedigree <=? parent) eqn:R; [discriminate|].
    apply Nat.leb_gt in R.
    apply bind_Ok_inv in H. destruct H as (pl & _ & H).
    apply bind_Ok_inv in H. destruct H as (sx & _ & H).
    inversion H; subst g'; clear H.
    assert (NP : names_parent pedigree member parent).
    { destruct (dad member) as [d|] eqn:D.
      - exists d. inversion PL. auto.
      - destruct (mom member) as [m|] eqn:M.
        + exists m. inversion PL. auto.
        + rewrite orb_false_iff in F. destruct F as [_ F]. discriminate. }
    split; [unfold num_vertices; simpl; now rewrite !update_nth_length|].
    split; [intros w Hw; now rewrite P2, P1|].
    split; [|split].
    + unfold labels, prop; simpl. rewrite !nth_update_nth.
      repeat destruct (_ && _); reflexivity.
    + unfold types, prop; simpl. rewrite !nth_update_nth.
      repeat destruct (_ && _); reflexivity.
    + eexists. split; [reflexivity|]. split; [|reflexivity].
      constructor; [|constructor]. simpl. auto.
  - destruct (ploidies g v =? 1)%Z eqn:Z1; simpl.
    + (* haploid *)
      destruct (is_some (dad member) && is_some (mom member)) eqn:B; [discriminate|].
      apply bind_Ok_inv in H. destruct H as ([parent len] & PL & H).
      destruct (NumberOfMembers pedigree <=? parent) eqn:R; [discriminate|].
      apply Nat.leb_gt in R. inversion H; subst g'; clear H.
      assert (NP : names_parent pedigree member parent).
      { destruct (dad member) as [d|] eqn:D.
        - apply bind_Ok_inv in PL. destruct PL as (s & _ & PL).
          destruct (Sex_eqb s Female); [discriminate|]. inversion PL. exists d. auto.
        - apply bind_Ok_inv in PL. destruct PL as (s & _ & PL).
          destruct (Sex_eqb s Male); [discriminate|]. inversion PL.
          destruct (mom member) as [m|] eqn:M.
          + exists m. auto.
          + rewrite orb_false_iff in F. destruct F as [_ F]. discriminate. }
      repeat split; auto.
      eexists. split; [reflexivity|]. split; [|reflexivity].
      constructor; [|constructor]. simpl. auto.
    + (* diploid *)
      destruct (dad member) as [d|] eqn:D; [|discriminate].
      destruct (mom member) as [m|] eqn:M; [|discriminate].
      destruct (NumberOfMembers pedigree <=? LookupMemberPosition pedigree d) eqn:R1;
        [discriminate|].
      destruct (NumberOfMembers pedigree <=? LookupMemberPosition pedigree m) eqn:R2;
        [discriminate|].
      apply Nat.leb_gt in R1, R2.
      apply bind_Ok_inv in H. destruct H as (sd & _ & H).
      destruct (Sex_eqb sd Female); [discriminate|].
      apply bind_Ok_inv in H. destruct H as (sm & _ & H).
      destruct (Sex_eqb sm Male); [discriminate|].
      inversion H; subst g'; clear H.
      repeat split; auto.
      eexists. split; [simpl; rewrite <- app_assoc; reflexivity|]. split; [|reflexivity].
      constructor; [|constructor; [|constructor]]; simpl; repeat split; auto.
      * exists d. auto.
      * exists m. auto.
Qed.
Lemma count_target_all (v : vertex_t) (l : list Edge) :
  Forall (fun e => target e = v) l ->
  List.length (filter (fun e => target e =? v) l) = List.length l.
Proof.
  induction 1 as [|e l He Hl IH]; simpl; [reflexivity|].
  rewrite He, Nat.eqb_refl. simpl. now rewrite IH.
Qed.

Lemma count_target_none (v : vertex_t) (l : list Edge) :
  Forall (fun e => target e <> v) l ->
  List.length (filter (fun e => target e =? v) l) = 0.
Proof.
  induction 1 as [|e l He Hl IH]; simpl; [reflexivity|].
  destruct (Nat.eqb_spec (target e) v); [contradiction | exact IH].
Qed.

Lemma add_edges_loop_shape (pedigree : Pedigree) (l : list vertex_t) :
  NoDup l ->
  forall g g',
    foldM (add_edges_step pedigree) l g = Ok g' ->
    num_vertices g' = num_vertices g
    /\ (forall w, labels g' w = labels g w /\ types g' w = types g w)
    /\ (forall w, ~ In w l -> prop g' w = prop g w)
    /\ exists new,
         edge_list g' = edge_list g ++ new
         /\ Forall (fun e => In (target e) l /\ edge_type e = GERM_EDGE
                             /\ source e < NumberOfMembers pedigree
                             /\ names_parent pedigree (GetMember pedigree (target e))
                                             (source e)) new
         /\ forall v, In v l ->
              List.length (filter (fun e => target e =? v) new)
              = if is_founder_member (GetMember pedigree v) then 0
                else if (ploidies g v =? 0)%Z || (ploidies g v =? 1)%Z then 1 else 2.
Proof.
  induction 1 as [|a l Ha Hl IH]; simpl; intros g g' H.
  - inversion H; subst. repeat split; auto. exists []. rewrite app_nil_r.
    repeat split; auto. intros v [].
  - apply bind_Ok_inv in H. destruct H as (g1 & E1 & E2).
    apply add_edges_step_shape in E1.
    destruct E1 as (Hn1 & Hw1 & Hl1 & Ht1 & new1 & He1 & Hf1 & Hc1).
    destruct (IH _ _ E2) as (Hn & Hlt & Hw & new2 & He & Hf & Hc).
    split; [congruence|]. split; [|split].
    + intros w. destruct (Hlt w) as [L T]. rewrite L, T.
      destruct (Nat.eq_dec w a) as [->|Hne]; [auto|].
      unfold labels, types. now rewrite (Hw1 w Hne).
    + intros w Hw'. rewrite Hw by tauto. apply Hw1. intros ->. tauto.
    + exists (new1 ++ new2). split; [rewrite He, He1; now rewrite app_assoc|]. split.
      * apply Forall_app. split.
        -- eapply Forall_impl; [|exact Hf1]. intros e (T & K & S & NP).
           rewrite T. auto.
        -- eapply Forall_impl; [|exact Hf]. intros e (T & K & S & NP). auto.
      * intros v Hv. rewrite filter_app, length_app.
        destruct Hv as [->|Hv].
        -- rewrite count_target_all
             by (eapply Forall_impl; [|exact Hf1]; intros e (T & _); exact T).
           rewrite count_target_none; [rewrite Hc1; lia|].
           eapply Forall_impl; [|exact Hf]. intros e (T & _) E. rewrite E in T. tauto.
        -- assert (Hne : v <> a) by (intros ->; tauto).
           rewrite count_target_none.
           2:{ eapply Forall_impl; [|exact Hf1]. intros e (T & _). congruence. }
           rewrite (Hc v Hv). unfold ploidies. now rewrite (Hw1 v Hne).
Qed.

Lemma add_vertices_fold (F : nat -> VertexProp) (l : list nat) :
  forall g, fold_left (fun g j => add_vertex (F j) g) l g
            = mkGraph (vertex_props g ++ map F l) (edge_list g).
Proof.
  induction l as [|a l IH]; simpl; intros g.
  - rewrite app_nil_r. now destruct g.
  - rewrite IH. simpl. now rewrite <- app_assoc.
Qed.

Lemma member_vertices_eq (pedigree : Pedigree) :
  member_vertices pedigree
  = mkGraph (map (fun j => mkVertex (name (GetMember pedigree j)) (sex (GetMember pedigree j))
                                    (get_ploidy (GetMember pedigree j)) Germline)
                 (seq 0 (NumberOfMembers pedigree))) [].
Proof.
  unfold member_vertices.
  exact (add_vertices_fold
           (fun j => mkVertex (name (GetMember pedigree j)) (sex (GetMember pedigree j))
                              (get_ploidy (GetMember pedigree j)) Germline)
           (seq 0 (NumberOfMembers pedigree)) empty_graph).
Qed.

Lemma nth_map_seq {A : Type} (F : nat -> A) (n v : nat) (d : A) :
  v < n -> nth v (map F (seq 0 n)) d = F v.
Proof.
  intros Hv. rewrite (nth_indep _ d (F 0)) by (rewrite length_map, length_seq; exact Hv).
  rewrite map_nth, seq_nth by exact Hv. reflexivity.
Qed.

Lemma member_vertices_prop (pedigree : Pedigree) (v : vertex_t) :
  v < NumberOfMembers pedigree ->
  prop (member_vertices pedigree) v
  = mkVertex (name (GetMember pedigree v)) (sex (GetMember pedigree v))
             (get_ploidy (GetMember pedigree v)) Germline.
Proof.
  intros Hv. rewrite member_vertices_eq. unfold prop; simpl.
  now rewrite nth_map_seq.
Qed.

Lemma construct_pedigree_graph_members
    (parse_newick : string -> Graph -> vertex_t -> bool -> bool * Graph)
    (pedigree : Pedigree) (known_samples : list string) (normalize : bool) (g : Graph) :
  construct_pedigree_graph parse_newick pedigree known_samples normalize = Ok g ->
  exists g1, add_edges_to_pedigree_graph pedigree (member_vertices pedigree) = Ok g1.
Proof.
  unfold construct_pedigree_graph. fold (member_vertices pedigree). intros H.
  apply bind_Ok_inv in H. destruct H as (g1 & H & _). eauto.
Qed.

(** X9 -- the graph [add_edges_to_pedigree_graph] returns on the member
    vertices: one vertex per member with the member's name, typed Germline;
    every edge is a germline edge from a member to a member, and leaves a
    parent its target names; a member tagged [founder] or without parents has
    no in-edge, a clone or haploid member one, any other member two. *)
Theorem pedigree_graph_links_declared_parents (pedigree : Pedigree) (g : Graph) :
  add_edges_to_pedigree_graph pedigree (member_vertices pedigree) = Ok g ->
  num_vertices g = NumberOfMembers pedigree
  /\ (forall v, v < NumberOfMembers pedigree ->
        labels g v = name (GetMember pedigree v) /\ types g v = Germline)
  /\ (forall e, In e (edges g) ->
        edge_type e = GERM_EDGE
        /\ source e < NumberOfMembers pedigree /\ target e < NumberOfMembers pedigree
        /\ names_parent pedigree (GetMember pedigree (target e)) (source e))
  /\ (forall v, v < NumberOfMembers pedigree ->
        in_degree g v = parent_count (GetMember pedigree v)).
Proof.
  unfold add_edges_to_pedigree_graph. intros H.
  assert (N0 : num_vertices (member_vertices pedigree) = NumberOfMembers pedigree).
  { rewrite member_vertices_eq. unfold num_vertices; simpl.
    now rewrite length_map, length_seq. }
  assert (E0 : edge_list (member_vertices pedigree) = [])
    by (now rewrite member_vertices_eq).
  apply add_edges_loop_shape in H; [|apply seq_NoDup].
  destruct H as (Hn & Hlt & _ & new & He & Hf & Hc).
  rewrite E0 in He; simpl in He. rewrite N0 in Hn.
  split; [exact Hn|]. split; [|split].
  - intros v Hv. destruct (Hlt v) as [L T]. rewrite L, T.
    unfold labels, types. now rewrite member_vertices_prop.
  - intros e Hin. unfold edges in Hin. rewrite He in Hin.
    rewrite Forall_forall in Hf. destruct (Hf e Hin) as (T & K & S & NP).
    unfold vertices in T. rewrite N0 in T. apply in_seq in T.
    repeat split; auto. lia.
  - intros v Hv. unfold in_degree, in_edges. rewrite He.
    rewrite Hc by (unfold vertices; rewrite N0; apply in_seq; lia).
    unfold parent_count, ploidies. now rewrite member_vertices_prop.
Qed.

Lemma pedigree_graph_links_declared_parents_witness :
  exists g,
    add_edges_to_pedigree_graph loop_pedigree (member_vertices loop_pedigree) = Ok g
    /\ num_vertices g = NumberOfMembers loop_pedigree
    /\ (forall v, v < NumberOfMembers loop_pedigree ->
          labels g v = name (GetMember loop_pedigree v) /\ types g v = Germline)
    /\ (forall e, In e (edges g) ->
          edge_type e = GERM_EDGE
          /\ source e < NumberOfMembers loop_pedigree
          /\ target e < NumberOfMembers loop_pedigree
          /\ names_parent loop_pedigree (GetMember loop_pedigree (target e)) (source e))
    /\ (forall v, v < NumberOfMembers loop_pedigree ->
          in_degree g v = parent_count (GetMember loop_pedigree v)).
Proof.
  eexists. split; [vm_compute; reflexivity|].
  apply pedigree_graph_links_declared_parents. vm_compute. reflexivity.
Defined.
(** ** Marking the known samples *)

Lemma mark_step_prop (known : list string) (g : Graph) (a w : vertex_t) :
  prop (if negb (VertexType_eqb (types g a) Somatic) then g
        else if existsb (String.eqb (labels g a)) known
             then put_vertex a (set_type Sample) g
             else g) w
  = if (a =? w) && VertexType_eqb (types g w) Somatic
       && existsb (String.eqb (labels g w)) known
    then set_type Sample (prop g w)
    else prop g w.
Proof.
  destruct (Nat.eqb_spec a w) as [->|Hne]; simpl.
  - destruct (VertexType_eqb (types g w) Somatic) eqn:T; simpl; [|reflexivity].
    destruct (existsb _ known); [|reflexivity].
    unfold prop, put_vertex; simpl. rewrite nth_update_nth, Nat.eqb_refl; simpl.
    destruct (w <? _) eqn:R; [reflexivity|].
    apply Nat.ltb_ge in R. unfold types, prop in T.
    rewrite nth_overflow in T by exact R. discriminate.
  - destruct (negb _); [reflexivity|]. destruct (existsb _ known); [|reflexivity].
    unfold prop, put_vertex; simpl. rewrite nth_update_nth.
    destruct (Nat.eqb_spec a w); [congruence|reflexivity].
Qed.

Lemma mark_loop (known : list string) (l : list vertex_t) :
  NoDup l ->
  forall g,
    let g' := fold_left (fun g v =>
                           if negb (VertexType_eqb (types g v) Somatic) then g
                           else if existsb (String.eqb (labels g v)) known
                                then put_vertex v (set_type Sample) g
                                else g) l g in
    edge_list g' = edge_list g
    /\ num_vertices g' = num_vertices g
    /\ forall w, prop g' w
                 = if existsb (Nat.eqb w) l && VertexType_eqb (types g w) Somatic
                      && existsb (String.eqb (labels g w)) known
                   then set_type Sample (prop g w)
                   else prop g w.
Proof.
  induction 1 as [|a l Ha Hl IH]; intros g; simpl; [auto|].
  set (g1 := if negb (VertexType_eqb (types g a) Somatic) then g
             else if existsb (String.eqb (labels g a)) known
                  then put_vertex a (set_type Sample) g
                  else g).
  destruct (IH g1) as (He & Hn & Hp).
  assert (E1 : edge_list g1 = edge_list g /\ num_vertices g1 = num_vertices g).
  { unfold g1. destruct (negb _); [auto|]. destruct (existsb _ known); [|auto].
    unfold num_vertices, put_vertex; simpl. now rewrite update_nth_length. }
  destruct E1 as [E1 N1].
  split; [congruence|]. split; [congruence|].
  intros w. rewrite Hp.
  pose proof (mark_step_prop known g a w) as S. fold g1 in S.
  unfold types, labels. rewrite S.
  destruct (Nat.eqb_spec w a) as [->|Hne]; simpl.
  - rewrite Nat.eqb_refl; simpl.
    assert (Hx : existsb (Nat.eqb a) l = false).
    { apply not_true_is_false. intros Hx. apply existsb_exists in Hx.
      destruct Hx as (x & Hx & E). apply Nat.eqb_eq in E. now subst. }
    rewrite Hx; simpl. reflexivity.
  - destruct (Nat.eqb_spec a w); [congruence|]. simpl. reflexivity.
Qed.

(** X10 -- [mark_known_samples] (the last loop of
    [construct_pedigree_graph]) keeps the edges, the number of vertices and
    every label, sex and ploidy; a vertex ends as [Sample] exactly when it
    was [Somatic] with a label among the known samples, or was [Sample]
    already: a germline vertex is never marked, whatever its label. *)
Theorem mark_known_samples_retypes_known_somatic_only (known : list string) (g : Graph) :
  edges (mark_known_samples known g) = edges g
  /\ num_vertices (mark_known_samples known g) = num_vertices g
  /\ forall v,
       labels (mark_known_samples known g) v = labels g v
       /\ sexes (mark_known_samples known g) v = sexes g v
       /\ ploidies (mark_known_samples known g) v = ploidies g v
       /\ types (mark_known_samples known g) v
          = if VertexType_eqb (types g v) Somatic && existsb (String.eqb (labels g v)) known
            then Sample else types g v.
Proof.
  destruct (mark_loop known (seq_NoDup (num_vertices g) 0) g) as (He & Hn & Hp).
  fold (vertices g) in He, Hn, Hp. fold (mark_known_samples known g) in He, Hn, Hp.
  split; [exact He|]. split; [exact Hn|]. intros v.
  unfold labels at 1, sexes at 1, ploidies at 1, types at 1. rewrite Hp.
  unfold vertices. rewrite in_range_listed.
  destruct (v <? num_vertices g) eqn:R; simpl.
  - destruct (_ && _); auto.
  - apply Nat.ltb_ge in R.
    assert (T : types g v = Germline)
      by (unfold types, prop; now rewrite nth_overflow by exact R).
    rewrite T. simpl. auto.
Qed.
(** ** The topological sort puts every vertex after its children *)

Lemma before_app (l l' : list vertex_t) (u v : vertex_t) :
  before l u v -> before (l ++ l') u v.
Proof.
  intros (l1 & l2 & l3 & ->). exists l1, l2, (l3 ++ l').
  rewrite <- !app_assoc. simpl. rewrite <- app_assoc. reflexivity.
Qed.

Lemma before_snoc (l : list vertex_t) (u v : vertex_t) :
  In u l -> before (l ++ [v]) u v.
Proof.
  intros H. destruct (in_split _ _ H) as (l1 & l2 & ->). exists l1, l2, [].
  rewrite <- app_assoc. reflexivity.
Qed.

Lemma dfs_rel_refl (st : list color * list vertex_t) : dfs_rel st st.
Proof.
  split; [apply dfs_frame_refl|]. split; [exists []; now rewrite app_nil_r | auto].
Qed.

Lemma dfs_rel_trans (a b c : list color * list vertex_t) :
  dfs_rel a b -> dfs_rel b c -> dfs_rel a c.
Proof.
  intros (F1 & (x & E1) & G1) (F2 & (y & E2) & G2).
  split; [eapply dfs_frame_trans; eauto|]. split.
  - exists (x ++ y). now rewrite E2, E1, app_assoc.
  - auto.
Qed.

Lemma dfs_visit_sorted (fuel : nat) (g : Graph) :
  forall u st st',
    color_of (fst st) u = White -> dfs_inv st -> dfs_sorted g st ->
    dfs_visit fuel g u st = Ok st' ->
    dfs_inv st' /\ dfs_sorted g st' /\ dfs_rel st st' /\ color_of (fst st') u = Black.
Proof.
  induction fuel as [|fuel IH]; intros u st st' Hu Hinv Hsorted H; [discriminate|].
  destruct (@dfs_visit_spec _ _ _ _ _ Hu Hinv H) as [Hinv' Hframe'].
  simpl in H. apply bind_Ok_inv in H. destruct H as (st2 & Hfold & Hend).
  inversion Hend; subst st'; clear Hend.
  pose proof (color_white_in_range _ _ Hu) as Hrange.
  set (st1 := (update_nth u (fun _ => Gray) (fst st), snd st)) in *.
  assert (Hinv1 : dfs_inv st1).
  { destruct Hinv as (N & B & R). unfold st1. repeat split; simpl; auto.
    - intros v Hv. rewrite color_of_update.
      destruct (Nat.eqb_spec u v) as [->|]; simpl; auto.
      apply B in Hv. congruence.
    - intros v Hv. rewrite update_nth_length. auto. }
  assert (Hsorted1 : dfs_sorted g st1).
  { destruct Hsorted as (B & S). unfold st1. split; simpl.
    - intros v Hv. rewrite update_nth_length in Hv. rewrite color_of_update.
      destruct (Nat.eqb_spec u v) as [->|]; simpl.
      + apply Nat.ltb_lt in Hrange. rewrite Hrange. discriminate.
      + auto.
    - intros e He Hs Ht. rewrite update_nth_length in Ht. auto. }
  assert (Hloop : forall l s s',
             dfs_inv s -> dfs_sorted g s ->
             foldM (fun st e =>
                      match color_of (fst st) (target e) with
                      | White => dfs_visit fuel g (target e) st
                      | Gray => Throw NotADag
                      | Black => Ok st
                      end) l s = Ok s' ->
             dfs_inv s' /\ dfs_sorted g s' /\ dfs_rel s s'
             /\ forall e, In e l -> color_of (fst s') (target e) = Black).
  { induction l as [|e l IHl]; simpl; intros s s' Is Ss E.
    - inversion E; subst. split; [assumption|]. split; [assumption|].
      split; [apply dfs_rel_refl|]. intros e [].
    - apply bind_Ok_inv in E. destruct E as (s1 & E1 & E2).
      assert (K : dfs_inv s1 /\ dfs_sorted g s1 /\ dfs_rel s s1
                  /\ color_of (fst s1) (target e) = Black).
      { destruct (color_of (fst s) (target e)) eqn:C.
        - eapply IH; eauto.
        - discriminate.
        - inversion E1; subst. split; [assumption|]. split; [assumption|].
          split; [apply dfs_rel_refl | exact C]. }
      destruct K as (I1 & S1 & R1 & B1).
      destruct (IHl _ _ I1 S1 E2) as (I' & S' & R' & B').
      split; [assumption|]. split; [assumption|].
      split; [eapply dfs_rel_trans; eauto|].
      intros e' [<-|He']; [|auto].
      destruct R' as ((_ & F) & _). rewrite F; [assumption | congruence]. }
  destruct (Hloop _ _ _ Hinv1 Hsorted1 Hfold) as (I2 & (B2 & S2) & (F2 & (added & A2) & G2) & T2).
  assert (L2 : List.length (fst st2) = List.length (fst st)).
  { destruct F2 as [L _]. rewrite L. unfold st1; simpl. apply update_nth_length. }
  split; [exact Hinv'|]. split; [|split].
  - split; simpl.
    + intros v Hv Hb. rewrite update_nth_length in Hv. rewrite color_of_update in Hb.
      apply in_or_app.
      destruct (Nat.eqb_spec u v) as [->|Hne]; simpl in Hb; [right; now left|].
      left. auto.
    + intros e He Hs Ht. rewrite update_nth_length in Ht.
      apply in_app_or in Hs. destruct Hs as [Hs|[Hs|[]]].
      * apply before_app. auto.
      * rewrite <- Hs. apply before_snoc. apply B2; [exact Ht|].
        apply T2. unfold out_edges. apply filter_In. split; [exact He|].
        apply Nat.eqb_eq. congruence.
  - split; [exact Hframe'|]. split; simpl.
    + exists (added ++ [u]). rewrite A2. unfold st1; simpl. now rewrite app_assoc.
    + intros w Hw. rewrite color_of_update in Hw.
      destruct (Nat.eqb_spec u w) as [->|Hne]; simpl in Hw.
      * apply Nat.ltb_lt in Hrange. rewrite L2, Hrange in Hw. discriminate.
      * apply G2 in Hw. unfold st1 in Hw; simpl in Hw. rewrite color_of_update in Hw.
        destruct (Nat.eqb_spec u w); [congruence|exact Hw].
  - simpl. rewrite color_of_update, Nat.eqb_refl, L2.
    apply Nat.ltb_lt in Hrange. now rewrite Hrange.
Qed.

Lemma color_of_repeat (c : color) (n v : nat) :
  color_of (repeat c n) v = if v <? n then c else Black.
Proof.
  unfold color_of. destruct (Nat.ltb_spec v n) as [H|H].
  - apply nth_repeat_lt. exact H.
  - apply nth_overflow. now rewrite repeat_length.
Qed.

(** The output of the topological sort lists every vertex, and each vertex
    after the targets of its out-edges. *)
Lemma topological_sort_sorted (g : Graph) (order : list vertex_t) :
  topological_sort g = Ok order ->
  (forall v, v < num_vertices g -> In v order)
  /\ (forall e, In e (edge_list g) ->
                source e < num_vertices g -> target e < num_vertices g ->
                before order (target e) (source e)).
Proof.
  unfold topological_sort. intros H. apply bind_Ok_inv in H.
  destruct H as (st & H & E). inversion E; subst order; clear E.
  set (n := num_vertices g) in *.
  set (K := fun s : list color * list vertex_t =>
              dfs_inv s /\ dfs_sorted g s /\ List.length (fst s) = n
              /\ forall w, color_of (fst s) w <> Gray).
  assert (Hloop : forall l s s',
             K s ->
             foldM (fun st u =>
                      match color_of (fst st) u with
                      | White => dfs_visit (S n) g u st
                      | _ => Ok st
                      end) l s = Ok s' ->
             K s' /\ dfs_frame s s'
             /\ forall u, In u l -> u < n -> color_of (fst s') u = Black).
  { induction l as [|u l IHl]; simpl; intros s s' Ks E.
    - inversion E; subst. split; [assumption|]. split; [apply dfs_frame_refl|]. intros u [].
    - apply bind_Ok_inv in E. destruct E as (s1 & E1 & E2).
      assert (K1 : K s1 /\ dfs_frame s s1 /\ (u < n -> color_of (fst s1) u = Black)).
      { pose proof Ks as (I & S0 & L & G).
        destruct (color_of (fst s) u) eqn:C.
        - destruct (@dfs_visit_sorted (S n) g u s s1 C I S0 E1) as (I1 & S1 & (F1 & _ & G1) & B1).
          split; [|split; [exact F1 | auto]].
          split; [exact I1|]. split; [exact S1|]. split.
          + destruct F1 as [L1 _]. congruence.
          + intros w Hw. apply G1 in Hw. now apply G in Hw.
        - exfalso. now apply (G u).
        - inversion E1; subst. split; [exact Ks|]. split; [apply dfs_frame_refl | auto]. }
      destruct K1 as (Ks1 & F1 & B1).
      destruct (IHl _ _ Ks1 E2) as (Ks' & F' & B').
      split; [exact Ks'|]. split; [eapply dfs_frame_trans; eauto|].
      intros w [<-|Hw] Hn; [|auto].
      destruct F' as [_ F']. rewrite F'; [auto|]. rewrite B1 by exact Hn. discriminate. }
  assert (K0 : K (repeat White n, [])).
  { unfold K; simpl. split; [|split; [|split]].
    - split; [constructor|]. split; intros v [].
    - split; simpl.
      + intros v Hv Hb. rewrite repeat_length in Hv. rewrite color_of_repeat in Hb.
        apply Nat.ltb_lt in Hv. rewrite Hv in Hb. discriminate.
      + intros e _ [].
    - apply repeat_length.
    - intros w. rewrite color_of_repeat. destruct (w <? n); discriminate. }
  destruct (Hloop _ _ _ K0 H) as ((I & (B & S0) & L & G) & _ & Bl).
  split.
  - intros v Hv. apply B; [now rewrite L|]. apply Bl; [|exact Hv].
    apply in_seq. fold n. lia.
  - intros e He Hs Ht. apply S0; [exact He| |now rewrite L].
    apply B; [now rewrite L|]. apply Bl; [|exact Hs]. apply in_seq. fold n. lia.
Qed.
(** ** The simplifier leaves no leaf that is not a sample *)

Lemma before_index (l : list vertex_t) (u v : vertex_t) :
  before l u v <->
  exists i j, i < j /\ nth_error l i = Some u /\ nth_error l j = Some v.
Proof.
  split.
  - intros (l1 & l2 & l3 & ->).
    exists (List.length l1), (List.length l1 + S (List.length l2)).
    split; [lia|]. split.
    + rewrite nth_error_app2, Nat.sub_diag by lia. reflexivity.
    + rewrite nth_error_app2 by lia.
      replace (List.length l1 + S (List.length l2) - List.length l1)
        with (S (List.length l2)) by lia.
      simpl. rewrite nth_error_app2, Nat.sub_diag by lia. reflexivity.
  - intros (i & j & Hij & Hi & Hj).
    apply nth_error_split in Hi. destruct Hi as (l1 & r & -> & Hl1).
    rewrite nth_error_app2 in Hj by lia.
    destruct (j - List.length l1) as [|k] eqn:K; [lia|]. simpl in Hj.
    apply nth_error_split in Hj. destruct Hj as (l2 & l3 & -> & _).
    exists l1, l2, l3. reflexivity.
Qed.

Lemma nodup_index (l : list vertex_t) (i j : nat) (x : vertex_t) :
  NoDup l -> nth_error l i = Some x -> nth_error l j = Some x -> i = j.
Proof.
  intros N Hi Hj. apply (proj1 (NoDup_nth_error l) N).
  - apply nth_error_Some. congruence.
  - congruence.
Qed.

Lemma before_trans (l : list vertex_t) (a b c : vertex_t) :
  NoDup l -> before l a b -> before l b c -> before l a c.
Proof.
  intros N H1 H2. apply before_index in H1, H2. apply before_index.
  destruct H1 as (i & j & Hij & Hi & Hj). destruct H2 as (j' & k & Hjk & Hj' & Hk).
  assert (j = j') by (eapply nodup_index; eauto). subst j'.
  exists i, k. split; [lia|auto].
Qed.

Lemma before_asym (l : list vertex_t) (a b : vertex_t) :
  NoDup l -> before l a b -> before l b a -> False.
Proof.
  intros N H1 H2. apply before_index in H1, H2.
  destruct H1 as (i & j & Hij & Hi & Hj). destruct H2 as (j' & i' & Hji & Hj' & Hi').
  assert (j = j') by (eapply nodup_index; eauto).
  assert (i = i') by (eapply nodup_index; eauto). lia.
Qed.

Lemma before_irrefl (l : list vertex_t) (a : vertex_t) :
  NoDup l -> before l a a -> False.
Proof. intros N H. exact (before_asym N H H). Qed.

Lemma before_done (done rest : list vertex_t) (v x : vertex_t) :
  NoDup (done ++ v :: rest) -> In x done -> before (done ++ v :: rest) v x -> False.
Proof.
  intros N Hx H. apply (before_asym N H).
  destruct (in_split _ _ Hx) as (l1 & l2 & ->). exists l1, l2, rest.
  rewrite <- app_assoc. reflexivity.
Qed.

Lemma out_degree_zero (g : Graph) (x : vertex_t) :
  out_degree g x = 0 <-> forall e, In e (edge_list g) -> source e <> x.
Proof.
  unfold out_degree, out_edges. rewrite length_zero_iff_nil. split.
  - intros H e He Hs.
    assert (Hin : In e (filter (fun e => source e =? x) (edge_list g)))
      by (apply filter_In; split; [assumption | now apply Nat.eqb_eq]).
    rewrite H in Hin. destruct Hin.
  - intros H. destruct (filter _ _) as [|e l] eqn:F; [reflexivity|].
    assert (Hin : In e (filter (fun e => source e =? x) (edge_list g)))
      by (rewrite F; now left).
    apply filter_In in Hin. destruct Hin as [He Hs]. apply Nat.eqb_eq in Hs.
    exfalso. exact (H e He Hs).
Qed.

Lemma in_degree_zero (g : Graph) (x : vertex_t) :
  in_degree g x = 0 <-> forall e, In e (edge_list g) -> target e <> x.
Proof.
  unfold in_degree, in_edges. rewrite length_zero_iff_nil. split.
  - intros H e He Hs.
    assert (Hin : In e (filter (fun e => target e =? x) (edge_list g)))
      by (apply filter_In; split; [assumption | now apply Nat.eqb_eq]).
    rewrite H in Hin. destruct Hin.
  - intros H. destruct (filter _ _) as [|e l] eqn:F; [reflexivity|].
    assert (Hin : In e (filter (fun e => target e =? x) (edge_list g)))
      by (rewrite F; now left).
    apply filter_In in Hin. destruct Hin as [He Hs]. apply Nat.eqb_eq in Hs.
    exfalso. exact (H e He Hs).
Qed.

Lemma clear_vertex_In (v : vertex_t) (g : Graph) (e : Edge) :
  In e (edge_list (clear_vertex v g))
  <-> In e (edge_list g) /\ source e <> v /\ target e <> v.
Proof.
  unfold clear_vertex, remove_edge_if; simpl. rewrite filter_In, negb_true_iff, orb_false_iff.
  rewrite !Nat.eqb_neq. tauto.
Qed.

Lemma clear_in_edges_In (v : vertex_t) (g : Graph) (e : Edge) :
  In e (edge_list (clear_in_edges v g)) <-> In e (edge_list g) /\ target e <> v.
Proof.
  unfold clear_in_edges, remove_edge_if; simpl. rewrite filter_In, negb_true_iff.
  rewrite Nat.eqb_neq. tauto.
Qed.

Lemma out_edges_all_or_other (g : Graph) (x v : vertex_t) :
  (forall e, In e (edge_list g) -> source e = x -> target e = v)
  \/ (exists e, In e (edge_list g) /\ source e = x /\ target e <> v).
Proof.
  destruct (existsb (fun e => (source e =? x) && negb (target e =? v)) (edge_list g)) eqn:X.
  - right. apply existsb_exists in X. destruct X as (e & He & H).
    apply andb_true_iff in H. destruct H as [H1 H2].
    apply Nat.eqb_eq in H1. apply negb_true_iff in H2. apply Nat.eqb_neq in H2. eauto.
  - left. intros e He Hs.
    assert (H : (source e =? x) && negb (target e =? v) = false).
    { destruct ((source e =? x) && negb (target e =? v)) eqn:Y; [|reflexivity].
      rewrite <- X. symmetry. apply existsb_exists. eauto. }
    apply Nat.eqb_eq in Hs. rewrite Hs in H. simpl in H.
    apply negb_false_iff in H. now apply Nat.eqb_eq.
Qed.

Section SimplifierPasses.

Variable g0 : Graph.
Variable order : list vertex_t.
Hypothesis order_nodup : NoDup order.

Lemma pass_inv_types (g : Graph) (x : vertex_t) : pass_inv g0 order g -> types g x = types g0 x.
Proof. intros [H _]. unfold types, prop. now rewrite H. Qed.

Lemma pass_inv_sub (g g' : Graph) :
  pass_inv g0 order g -> vertex_props g' = vertex_props g ->
  (forall e, In e (edge_list g') -> In e (edge_list g)) -> pass_inv g0 order g'.
Proof.
  intros [P O] Hp Hs. split; [congruence|]. intros e He. apply O. auto.
Qed.

(** Pass A, one vertex. *)
Lemma cull_leaf_step (done rest : list vertex_t) (v : vertex_t) (g : Graph) :
  order = done ++ v :: rest ->
  pass_inv g0 order g ->
  (forall x, In x done -> leaves_are_samples g x) ->
  pass_inv g0 order (cull_leaf g v)
  /\ forall x, In x (done ++ [v]) -> leaves_are_samples (cull_leaf g v) x.
Proof.
  intros Eo Hinv Hdone. pose proof order_nodup as N. rewrite Eo in N.
  unfold cull_leaf.
  destruct ((out_degree g v =? 0) && negb (VertexType_eqb (types g v) Sample)) eqn:C.
  - apply andb_true_iff in C. destruct C as [C1 C2].
    apply Nat.eqb_eq in C1. rewrite out_degree_zero in C1.
    split.
    + apply pass_inv_sub with (g := g); [exact Hinv | reflexivity |].
      intros e He. now apply clear_vertex_In in He.
    + intros x Hx. apply in_app_or in Hx. destruct Hx as [Hx|[<-|[]]].
      * intros Ht Hout e He. apply clear_vertex_In in He. destruct He as (He & _ & _).
        apply (Hdone x Hx); [exact Ht| |exact He].
        intros e' He' Hs.
        destruct (Nat.eq_dec (target e') v) as [Tv|Tv].
        -- destruct Hinv as [_ O]. destruct (O e' He') as (_ & _ & B).
           rewrite Tv, Hs, Eo in B. exact (before_done _ _ N Hx B).
        -- apply (Hout e'); [|exact Hs]. apply clear_vertex_In.
           split; [exact He'|]. split; [|exact Tv]. now apply C1.
      * intros _ _ e He. apply clear_vertex_In in He. tauto.
  - split; [exact Hinv|]. intros x Hx. apply in_app_or in Hx.
    destruct Hx as [Hx|[<-|[]]]; [auto|].
    intros Ht Hout. exfalso.
    apply andb_false_iff in C. destruct C as [C|C].
    + apply Nat.eqb_neq in C. apply C. now apply out_degree_zero.
    + apply negb_false_iff in C. apply VertexType_eqb_eq in C. contradiction.
Qed.

Lemma cull_leaves (rest : list vertex_t) :
  forall done g,
    order = done ++ rest ->
    pass_inv g0 order g ->
    (forall x, In x done -> leaves_are_samples g x) ->
    pass_inv g0 order (fold_left cull_leaf rest g)
    /\ forall x, In x order -> leaves_are_samples (fold_left cull_leaf rest g) x.
Proof.
  induction rest as [|v rest IH]; simpl; intros done g Eo Hinv Hdone.
  - split; [exact Hinv|]. rewrite Eo, app_nil_r. exact Hdone.
  - destruct (cull_leaf_step done rest v Eo Hinv Hdone) as [I1 D1].
    apply (IH (done ++ [v])); [now rewrite <- app_assoc | exact I1 | exact D1].
Qed.

(** Pass B, one vertex. *)
Lemma unlink_founders_step (v : vertex_t) (g : Graph) :
  pass_inv g0 order g ->
  (forall x, leaves_are_samples g x) ->
  pass_inv g0 order (unlink_founders g v)
  /\ forall x, leaves_are_samples (unlink_founders g v) x.
Proof.
  intros Hinv HL. unfold unlink_founders.
  destruct (negb _); [auto|].
  destruct (in_edges g v) as [|e0 r] eqn:Ein; [auto|].
  destruct (forallb _ _) eqn:All; [|auto].
  rewrite <- Ein in All. rewrite forallb_forall in All.
  split.
  - apply pass_inv_sub with (g := g); [exact Hinv | reflexivity |].
    intros e He. now apply clear_in_edges_In in He.
  - intros x Ht Hout e He Tx. apply clear_in_edges_In in He. destruct He as [He Tv].
    change (types (clear_in_edges v g) x) with (types g x) in Ht.
    destruct (out_edges_all_or_other g x v) as [Hall|(e' & He' & Hs' & Tv')].
    + (* every out-edge of x enters v *)
      destruct (out_degree g x) as [|k] eqn:Ox.
      * rewrite out_degree_zero in Ox. exact (HL x Ht Ox e He Tx).
      * (* x is a parent of v, of degree 1 *)
        assert (Hex : exists e1, In e1 (edge_list g) /\ source e1 = x).
        { unfold out_degree, out_edges in Ox.
          destruct (filter _ _) as [|e1 l1] eqn:F; [discriminate|].
          assert (Hin : In e1 (filter (fun e => source e =? x) (edge_list g)))
            by (rewrite F; now left).
          apply filter_In in Hin. destruct Hin as [H1 H2]. apply Nat.eqb_eq in H2. eauto. }
        destruct Hex as (e1 & He1 & Hs1).
        assert (Hin1 : In e1 (in_edges g v)).
        { unfold in_edges. apply filter_In. split; [exact He1|].
          apply Nat.eqb_eq. now apply Hall. }
        apply All in Hin1. apply Nat.eqb_eq in Hin1. rewrite Hs1 in Hin1.
        unfold degree in Hin1. rewrite Ox in Hin1.
        assert (I0 : in_degree g x = 0) by lia.
        rewrite in_degree_zero in I0. exact (I0 e He Tx).
    + apply (Hout e'); [|exact Hs']. apply clear_in_edges_In. auto.
Qed.

(** Pass C, one vertex. *)
Lemma bypass_step (v : vertex_t) (g : Graph) :
  pass_inv g0 order g ->
  (forall x, leaves_are_samples g x) ->
  pass_inv g0 order (bypass g v)
  /\ forall x, leaves_are_samples (bypass g v) x.
Proof.
  intros Hinv HL. pose proof (vertex_props_bypass g v) as Hprops. revert Hprops.
  unfold bypass.
  destruct (_ || _); [auto|].
  destruct (out_edges g v) as [|out_edge r] eqn:Eout; [auto|].
  destruct (_ <? _); [auto|]. destruct (negb _); [auto|].
  intros Hprops.
  set (child := target out_edge) in *.
  set (g1 := fold_left _ (in_edges g v) g) in *.
  assert (E1 : edge_list g1
               = edge_list g
                 ++ map (fun e => mkEdge (source e) child
                                         (float_add (edge_length out_edge) (edge_length e))
                                         (N.lor (edge_type out_edge) (edge_type e)))
                        (in_edges g v))
    by apply bypass_new_edges.
  assert (Ho : In out_edge (edge_list g) /\ source out_edge = v).
  { assert (Hin : In out_edge (out_edges g v)) by (rewrite Eout; now left).
    unfold out_edges in Hin. apply filter_In in Hin. destruct Hin as [H1 H2].
    apply Nat.eqb_eq in H2. auto. }
  destruct Ho as [Ho Hsv].
  pose proof Hinv as [_ O].
  destruct (O _ Ho) as (_ & Hc & Bc). fold child in Hc, Bc. rewrite Hsv in Bc.
  assert (Hcv : child <> v) by (intros E; rewrite E in Bc; exact (before_irrefl order_nodup Bc)).
  assert (Hnew : forall e', In e' (edge_list (clear_vertex v g1)) ->
                   (In e' (edge_list g) /\ source e' <> v /\ target e' <> v)
                   \/ (exists e, In e (edge_list g) /\ target e = v
                                 /\ source e' = source e /\ target e' = child)).
  { intros e' He'. apply clear_vertex_In in He'. destruct He' as (He' & S' & T').
    rewrite E1 in He'. apply in_app_or in He'. destruct He' as [He'|He']; [left; auto|].
    right. apply in_map_iff in He'. destruct He' as (e & <- & He).
    unfold in_edges in He. apply filter_In in He. destruct He as [He Ht].
    apply Nat.eqb_eq in Ht. exists e. simpl. auto. }
  assert (Hadd : forall e, In e (edge_list g) -> target e = v ->
                   exists e', In e' (edge_list (clear_vertex v g1))
                              /\ source e' = source e).
  { intros e He Ht.
    exists (mkEdge (source e) child (float_add (edge_length out_edge) (edge_length e))
                   (N.lor (edge_type out_edge) (edge_type e))).
    split; [|reflexivity]. apply clear_vertex_In. simpl. split; [|split; [|exact Hcv]].
    - rewrite E1. apply in_or_app. right. apply in_map_iff. exists e. split; [reflexivity|].
      unfold in_edges. apply filter_In. split; [exact He | now apply Nat.eqb_eq].
    - destruct (O _ He) as (_ & _ & B). rewrite Ht in B. intros E. rewrite E in B.
      exact (before_irrefl order_nodup B). }
  split.
  - split; [destruct Hinv as [P _]; congruence|].
    intros e' He'. destruct (Hnew _ He') as [(He & _ & _)|(e & He & Ht & S' & T')].
    + exact (O _ He).
    + destruct (O _ He) as (Hs & _ & B). rewrite Ht in B. rewrite S', T'.
      split; [exact Hs|]. split; [exact Hc|]. exact (before_trans order_nodup Bc B).
  - intros x Ht Hout e' He' Tx.
    change (types (clear_vertex v g1) x) with (types g1 x) in Ht.
    assert (Tg : types g1 x = types g x).
    { unfold types, prop. unfold clear_vertex, remove_edge_if in Hprops; simpl in Hprops.
      now rewrite Hprops. }
    rewrite Tg in Ht.
    destruct (Nat.eq_dec x v) as [->|Hxv].
    { apply clear_vertex_In in He'. tauto. }
    assert (Hout0 : forall e, In e (edge_list g) -> source e <> x).
    { intros e He Hs. destruct (Nat.eq_dec (target e) v) as [Tv|Tv].
      - destruct (Hadd e He Tv) as (e1 & He1 & Hs1). apply (Hout e1 He1). congruence.
      - apply (Hout e); [|exact Hs]. apply clear_vertex_In.
        rewrite E1. split; [apply in_or_app; now left|]. split; [congruence | exact Tv]. }
    destruct (Hnew _ He') as [(He & _ & _)|(e & He & _ & _ & T')].
    + exact (HL x Ht Hout0 e' He Tx).
    + apply (HL x Ht Hout0 out_edge Ho). fold child. congruence.
Qed.

End SimplifierPasses.
Lemma simplify_with_leaves (g : Graph) (order : list vertex_t) :
  graph_wf g -> topological_sort g = Ok order ->
  pass_inv g order (simplify_with order g)
  /\ forall x, leaves_are_samples (simplify_with order g) x.
Proof.
  intros Hwf Hts.
  destruct (@topological_sort_nodup _ _ Hts) as [N R].
  destruct (@topological_sort_sorted _ _ Hts) as [Hall Hbefore].
  assert (I0 : pass_inv g order g).
  { split; [reflexivity|]. intros e He. destruct (Hwf e He) as [Hs Ht]. auto. }
  destruct (@cull_leaves g order N order [] g eq_refl I0) as [IA LA].
  { intros x []. }
  assert (LA' : forall x, leaves_are_samples (fold_left cull_leaf order g) x).
  { intros x. destruct (Nat.lt_ge_cases x (num_vertices g)) as [Hx|Hx]; [auto|].
    intros _ _ e He Tx. destruct IA as [_ O]. destruct (O e He) as (_ & Ht & _). lia. }
  unfold simplify_with.
  apply (fold_left_preserves
           (fun h => pass_inv g order h /\ forall x, leaves_are_samples h x)).
  { intros h v [I L]. now apply bypass_step. }
  apply (fold_left_preserves
           (fun h => pass_inv g order h /\ forall x, leaves_are_samples h x)).
  { intros h v [I L]. now apply unlink_founders_step. }
  split; assumption.
Qed.

(** X11 -- [simplify] on a well-formed graph, when it returns: the vertices
    and their properties are untouched, every edge still joins two vertices
    of the graph, and every vertex that has a parent but no child is typed
    [Sample] -- no other leaf is left hanging. *)
Theorem simplify_leaves_only_sample_leaves (g g' : Graph) :
  graph_wf g -> simplify g = Ok g' ->
  vertex_props g' = vertex_props g
  /\ graph_wf g'
  /\ forall v, out_degree g' v = 0 -> 0 < in_degree g' v -> types g' v = Sample.
Proof.
  intros Hwf H. unfold simplify in H. apply bind_Ok_inv in H.
  destruct H as (order & Hts & E). inversion E; subst g'; clear E.
  destruct (@simplify_with_leaves _ _ Hwf Hts) as [[P O] L].
  split; [exact P|]. split.
  - intros e He. destruct (O e He) as (Hs & Ht & _).
    unfold num_vertices in *. rewrite P. auto.
  - intros v Hout Hin.
    destruct (VertexType_eqb (types (simplify_with order g) v) Sample) eqn:T;
      [now apply VertexType_eqb_eq|].
    exfalso. assert (Hn : types (simplify_with order g) v <> Sample).
    { intros E. apply VertexType_eqb_eq in E. congruence. }
    rewrite out_degree_zero in Hout.
    assert (I0 : in_degree (simplify_with order g) v = 0)
      by (apply in_degree_zero; exact (L v Hn Hout)).
    lia.
Qed.

Lemma simplify_leaves_only_sample_leaves_witness :
  exists g',
    graph_wf (mark_known_samples ["leaf1"] somatic_tree_graph)
    /\ simplify (mark_known_samples ["leaf1"] somatic_tree_graph) = Ok g'
    /\ vertex_props g' = vertex_props (mark_known_samples ["leaf1"] somatic_tree_graph)
    /\ graph_wf g'
    /\ forall v, out_degree g' v = 0 -> 0 < in_degree g' v -> types g' v = Sample.
Proof.
  eexists. split; [apply graph_wfb_wf; reflexivity|].
  split; [vm_compute; reflexivity|].
  apply simplify_leaves_only_sample_leaves; [apply graph_wfb_wf; reflexivity|].
  vm_compute. reflexivity.
Defined.

(** ** The finalizer: degrees, bands, order *)

Lemma Forall2_filter_length {A B : Type} (R : A -> B -> Prop) (p : A -> bool) (q : B -> bool)
    (l : list A) (l' : list B) :
  Forall2 R l l' -> (forall a b, R a b -> p a = q b) ->
  List.length (filter p l) = List.length (filter q l').
Proof.
  intros HF H. induction HF as [|a b l l' Hab HF IH]; simpl; [reflexivity|].
  rewrite (H a b Hab). destruct (q b); simpl; now rewrite IH.
Qed.

Lemma renumbered_end (order : list vertex_t) (input : Graph) (i u x x' : vertex_t) :
  NoDup order ->
  nth_error order i = Some u ->
  nth x (map_in_to_out order input) None = Some x' ->
  (x =? u) = (x' =? i).
Proof.
  intros ND Hi Hx. apply map_in_to_out_inv in Hx; [|exact ND].
  destruct (Nat.eqb_spec x u) as [->|Hne]; destruct (Nat.eqb_spec x' i) as [->|Hne'];
    try reflexivity.
  - exfalso. apply Hne'. eapply nodup_index; eauto.
  - exfalso. congruence.
Qed.

(** A vertex of the finalized graph has the in-edges and the out-edges of
    the vertex it stands for. *)
Lemma finalize_degrees (topo : list vertex_t) (input output : Graph) (i u : vertex_t) :
  NoDup topo ->
  finalize_with topo input = Ok output ->
  nth_error (vertex_order topo input) i = Some u ->
  in_degree output i = in_degree input u /\ out_degree output i = out_degree input u.
Proof.
  intros ND H Hi. pose proof (vertex_order_nodup input ND) as NDo.
  apply finalize_with_Ok in H. destruct H as [_ HF]. unfold edges in HF.
  unfold in_degree, out_degree, in_edges, out_edges. split; symmetry.
  - apply (Forall2_filter_length _ _ HF). intros e e' (_ & Rt & _).
    eapply renumbered_end; eauto.
  - apply (Forall2_filter_length _ _ HF). intros e e' (Rs & _ & _).
    eapply renumbered_end; eauto.
Qed.

Lemma finalize_band (topo : list vertex_t) (input output : Graph) (i u : vertex_t) :
  NoDup topo ->
  finalize_with topo input = Ok output ->
  nth_error (vertex_order topo input) i = Some u ->
  band output i = band input u.
Proof.
  intros ND H Hi. destruct (@finalize_degrees _ _ _ _ _ ND H Hi) as [Din _].
  unfold band. rewrite Din. unfold types.
  rewrite (@finalized_vertex_at _ _ _ _ _ H Hi), vertex_type_add_suffix. reflexivity.
Qed.

Lemma map_seq_nth_error {A B : Type} (f : nat -> B) (g : A -> B) (l : list A) :
  forall s,
    (forall i u, nth_error l i = Some u -> f (s + i) = g u) ->
    map f (seq s (List.length l)) = map g l.
Proof.
  induction l as [|a l IH]; intros s H; simpl; [reflexivity|].
  f_equal.
  - rewrite <- (H 0 a eq_refl). f_equal. lia.
  - apply IH. intros i u Hi. rewrite <- (H (S i) u Hi). f_equal. lia.
Qed.

Lemma map_constant {A B : Type} (f : A -> B) (k : B) (l : list A) :
  (forall x, In x l -> f x = k) -> map f l = repeat k (List.length l).
Proof.
  induction l as [|a l IH]; intros H; simpl; [reflexivity|].
  rewrite H by now left. f_equal. apply IH. intros x Hx. apply H. now right.
Qed.

Lemma band_of_bands (input : Graph) (u : vertex_t) :
  (is_founder_band input u = true -> band input u = 0)
  /\ (is_germline_band input u = true -> band input u = 1)
  /\ (is_somatic_band input u = true -> band input u = 2)
  /\ (is_sample_band input u = true -> band input u = 3).
Proof.
  unfold is_founder_band, is_germline_band, is_somatic_band, is_sample_band, band.
  repeat split; intros H;
    repeat (apply andb_prop in H; destruct H as [H ?]);
    match goal with E : VertexType_eqb _ _ = true |- _ => apply VertexType_eqb_eq in E; rewrite E end;
    try reflexivity.
  - now rewrite H.
  - apply Nat.ltb_lt in H. destruct (Nat.eqb_spec (in_degree input u) 0); [lia|reflexivity].
Qed.

Lemma finalize_inv (input output : Graph) :
  finalize input = Ok output ->
  exists topo, topological_sort input = Ok topo /\ finalize_with topo input = Ok output.
Proof.
  unfold finalize. intros H. apply bind_Ok_inv in H. exact H.
Qed.

(** X12 -- the vertices of the finalized graph are numbered band by band:
    first the founders (germline, no in-edge), then the other germline
    vertices, then the somatic vertices, then the samples. *)
Theorem finalize_numbers_vertices_band_by_band (input output : Graph) :
  finalize input = Ok output ->
  exists a b c d,
    map (band output) (vertices output)
    = repeat 0 a ++ repeat 1 b ++ repeat 2 c ++ repeat 3 d.
Proof.
  intros H. apply finalize_inv in H. destruct H as (topo & Hts & H).
  destruct (@topological_sort_nodup _ _ Hts) as [ND _].
  assert (Hn : num_vertices output = List.length (vertex_order topo input)).
  { pose proof H as H'. apply finalize_with_Ok in H'. destruct H' as [Hp _].
    unfold num_vertices. now rewrite Hp, length_map. }
  exists (List.length (filter (is_founder_band input) (rev topo))),
         (List.length (filter (is_germline_band input) (rev topo))),
         (List.length (filter (is_somatic_band input) (rev topo))),
         (List.length (filter (is_sample_band input) (rev topo))).
  transitivity (map (band input) (vertex_order topo input)).
  - unfold vertices. rewrite Hn.
    apply (@map_seq_nth_error _ _ (band output) (band input) (vertex_order topo input) 0).
    intros i u Hi. simpl. eapply finalize_band; eauto.
  - unfold vertex_order. rewrite !map_app.
    repeat f_equal; apply map_constant; intros x Hx; apply filter_In in Hx;
      destruct Hx as [_ Hx]; now apply band_of_bands.
Qed.

(** X13 -- no vertex of the finalized graph is isolated: each one has an
    in-edge or an out-edge. *)
Theorem finalize_drops_isolated_vertices (input output : Graph) (v : vertex_t) :
  finalize input = Ok output ->
  v < num_vertices output ->
  1 <= in_degree output v + out_degree output v.
Proof.
  intros H Hv. apply finalize_inv in H. destruct H as (topo & Hts & H).
  destruct (@topological_sort_nodup _ _ Hts) as [ND _].
  destruct (finalized_vertex _ _ H Hv) as (u & Hu & _).
  destruct (@finalize_degrees _ _ _ _ _ ND H Hu) as [Din Dout]. rewrite Din, Dout.
  pose proof (nth_error_In _ _ Hu) as Hin. unfold vertex_order in Hin.
  repeat (apply in_app_or in Hin; destruct Hin as [Hin|Hin]);
    apply filter_In in Hin; destruct Hin as [_ Hin];
    unfold is_founder_band, is_germline_band, is_somatic_band, is_sample_band, degree in Hin;
    repeat (apply andb_prop in Hin; destruct Hin as [Hin ?]);
    repeat match goal with
           | E : (_ <? _) = true |- _ => apply Nat.ltb_lt in E
           end; lia.
Qed.
Lemma before_app_r (l l' : list vertex_t) (u v : vertex_t) :
  before l u v -> before (l' ++ l) u v.
Proof.
  intros (l1 & l2 & l3 & ->). exists (l' ++ l1), l2, l3. now rewrite <- app_assoc.
Qed.

Lemma before_across (l l' : list vertex_t) (u v : vertex_t) :
  In u l -> In v l' -> before (l ++ l') u v.
Proof.
  intros Hu Hv. destruct (in_split _ _ Hu) as (a & b & ->).
  destruct (in_split _ _ Hv) as (c & d & ->).
  exists a, (b ++ c), d. rewrite <- ?app_assoc. simpl. rewrite <- ?app_assoc. reflexivity.
Qed.

Lemma before_rev (l : list vertex_t) (u v : vertex_t) :
  before l u v -> before (rev l) v u.
Proof.
  intros (l1 & l2 & l3 & ->). exists (rev l3), (rev l2), (rev l1).
  rewrite rev_app_distr. simpl. rewrite rev_app_distr. simpl.
  rewrite <- ?app_assoc. simpl. rewrite <- ?app_assoc. reflexivity.
Qed.

Lemma before_filter (p : vertex_t -> bool) (l : list vertex_t) (u v : vertex_t) :
  before l u v -> p u = true -> p v = true -> before (filter p l) u v.
Proof.
  intros (l1 & l2 & l3 & ->) Pu Pv.
  exists (filter p l1), (filter p l2), (filter p l3).
  rewrite filter_app. simpl. rewrite Pu, filter_app. simpl. now rewrite Pv.
Qed.

Lemma before_lt (l : list vertex_t) (u v : vertex_t) (i j : nat) :
  NoDup l -> before l u v ->
  nth_error l i = Some u -> nth_error l j = Some v -> i < j.
Proof.
  intros ND B Hi Hj. apply before_index in B. destruct B as (i' & j' & Hij & Hi' & Hj').
  assert (i = i') by (eapply nodup_index; eauto).
  assert (j = j') by (eapply nodup_index; eauto). lia.
Qed.

(** Two blocks that keep the order of a list [l0], the keys of the first
    below the keys of the second. *)
Lemma blocks_keep_order (key : vertex_t -> nat) (l0 l1 l2 : list vertex_t) :
  (forall u w, In u l1 -> In w l1 -> key u <= key w -> before l0 u w -> before l1 u w) ->
  (forall u w, In u l2 -> In w l2 -> key u <= key w -> before l0 u w -> before l2 u w) ->
  (forall x y, In x l1 -> In y l2 -> key x < key y) ->
  forall u w, In u (l1 ++ l2) -> In w (l1 ++ l2) -> key u <= key w ->
              before l0 u w -> before (l1 ++ l2) u w.
Proof.
  intros Q1 Q2 K u w Hu Hw Hk B.
  apply in_app_or in Hu. apply in_app_or in Hw.
  destruct Hu as [Hu|Hu]; destruct Hw as [Hw|Hw].
  - apply before_app. auto.
  - now apply before_across.
  - specialize (K w u Hw Hu). lia.
  - apply before_app_r. auto.
Qed.

Lemma vertex_order_keeps_order (input : Graph) (topo : list vertex_t) (u w : vertex_t) :
  In u (vertex_order topo input) -> In w (vertex_order topo input) ->
  band input u <= band input w ->
  before (rev topo) u w -> before (vertex_order topo input) u w.
Proof.
  assert (KB : forall p, forall u w : vertex_t,
             In u (filter p (rev topo)) -> In w (filter p (rev topo)) ->
             band input u <= band input w ->
             before (rev topo) u w -> before (filter p (rev topo)) u w).
  { intros p a b Ha Hb _ B. apply filter_In in Ha, Hb. apply before_filter; tauto. }
  assert (K0 : forall x, In x (filter (is_founder_band input) (rev topo)) -> band input x = 0)
    by (intros x Hx; apply filter_In in Hx; now apply band_of_bands).
  assert (K1 : forall x, In x (filter (is_germline_band input) (rev topo)) -> band input x = 1)
    by (intros x Hx; apply filter_In in Hx; now apply band_of_bands).
  assert (K2 : forall x, In x (filter (is_somatic_band input) (rev topo)) -> band input x = 2)
    by (intros x Hx; apply filter_In in Hx; now apply band_of_bands).
  assert (K3 : forall x, In x (filter (is_sample_band input) (rev topo)) -> band input x = 3)
    by (intros x Hx; apply filter_In in Hx; now apply band_of_bands).
  assert (K23 : forall x y, In x (filter (is_somatic_band input) (rev topo)) ->
                            In y (filter (is_sample_band input) (rev topo)) ->
                            band input x < band input y).
  { intros x y Hx Hy. rewrite (K2 x Hx), (K3 y Hy). lia. }
  assert (K12 : forall x y, In x (filter (is_germline_band input) (rev topo)) ->
                            In y (filter (is_somatic_band input) (rev topo)
                                  ++ filter (is_sample_band input) (rev topo)) ->
                            band input x < band input y).
  { intros x y Hx Hy. rewrite (K1 x Hx).
    apply in_app_or in Hy. destruct Hy as [Hy|Hy];
      [rewrite (K2 y Hy) | rewrite (K3 y Hy)]; lia. }
  assert (K01 : forall x y, In x (filter (is_founder_band input) (rev topo)) ->
                            In y (filter (is_germline_band input) (rev topo)
                                  ++ filter (is_somatic_band input) (rev topo)
                                  ++ filter (is_sample_band input) (rev topo)) ->
                            band input x < band input y).
  { intros x y Hx Hy. rewrite (K0 x Hx).
    repeat (apply in_app_or in Hy; destruct Hy as [Hy|Hy]);
      [rewrite (K1 y Hy) | rewrite (K2 y Hy) | rewrite (K3 y Hy)]; lia. }
  unfold vertex_order.
  exact (@blocks_keep_order (band input) (rev topo) _ _ (KB _)
           (@blocks_keep_order (band input) (rev topo) _ _ (KB _)
              (@blocks_keep_order (band input) (rev topo) _ _ (KB _) (KB _) K23) K12)
           K01 u w).
Qed.

(** X14 -- in the finalized graph a parent is numbered before its child
    whenever the band of the parent is not behind the band of the child: a
    germline vertex comes before its germline, somatic and sample children, a
    somatic vertex before its somatic and sample children, a sample before
    its sample children. *)
Theorem finalize_numbers_parents_before_children (input output : Graph) (e : Edge) :
  finalize input = Ok output ->
  In e (edges output) ->
  band output (source e) <= band output (target e) ->
  source e < target e.
Proof.
  intros H He Hb. apply finalize_inv in H. destruct H as (topo & Hts & H).
  destruct (@topological_sort_nodup _ _ Hts) as [ND Hrange].
  destruct (@topological_sort_sorted _ _ Hts) as [_ Hbefore].
  pose proof (vertex_order_nodup input ND) as NDo.
  pose proof H as H'. apply finalize_with_Ok in H'. destruct H' as [_ HF].
  destruct (Forall2_In_r e HF He) as (e0 & He0 & (Rs & Rt & _)).
  apply map_in_to_out_inv in Rs; [|exact NDo].
  apply map_in_to_out_inv in Rt; [|exact NDo].
  rewrite (@finalize_band _ _ _ _ _ ND H Rs), (@finalize_band _ _ _ _ _ ND H Rt) in Hb.
  assert (In_topo : forall x, In x (vertex_order topo input) -> In x topo).
  { intros x Hx. unfold vertex_order in Hx.
    repeat (apply in_app_or in Hx; destruct Hx as [Hx|Hx]);
      apply filter_In in Hx; destruct Hx as [Hx _]; now apply in_rev. }
  pose proof (nth_error_In _ _ Rs) as Is. pose proof (nth_error_In _ _ Rt) as It.
  apply (@before_lt (vertex_order topo input) (source e0) (target e0)); auto.
  apply vertex_order_keeps_order; auto.
  apply before_rev. apply Hbefore; [exact He0| |]; apply Hrange; auto.
Qed.

(** X15 -- the finalizer keeps every edge: the edges of the result are the
    edges of the input in the same order, each with its length and type, and
    each end is the vertex that stood at that end, its label suffixed. *)
Theorem finalize_keeps_every_edge (input output : Graph) :
  finalize input = Ok output ->
  Forall2 (fun e e' =>
             edge_length e' = edge_length e
             /\ edge_type e' = edge_type e
             /\ prop output (source e') = add_suffix (prop input (source e))
             /\ prop output (target e') = add_suffix (prop input (target e)))
          (edges input) (edges output).
Proof.
  intros H. apply finalize_inv in H. destruct H as (topo & Hts & H).
  destruct (@topological_sort_nodup _ _ Hts) as [ND _].
  pose proof (vertex_order_nodup input ND) as NDo.
  pose proof H as H'. apply finalize_with_Ok in H'. destruct H' as [_ HF].
  eapply Forall2_impl; [|exact HF]. intros e e' (Rs & Rt & L & T).
  apply map_in_to_out_inv in Rs; [|exact NDo].
  apply map_in_to_out_inv in Rt; [|exact NDo].
  split; [exact L|]. split; [exact T|].
  split; eapply finalized_vertex_at; eauto.
Qed.
(** ** The finalizer fails on cycles only *)

Lemma foldM_dag_outcome {A S : Type} (f : S -> A -> result S) (l : list A) :
  (forall s a, dag_outcome (f s a)) -> forall s, dag_outcome (foldM f l s).
Proof.
  intros H. induction l as [|a l IH]; intros s; simpl.
  - left. eauto.
  - destruct (H s a) as [(s1 & E)|[E|E]]; rewrite E; simpl; [apply IH | |];
      unfold dag_outcome; auto.
Qed.

Lemma dfs_visit_dag_outcome (fuel : nat) (g : Graph) :
  forall u st, dag_outcome (dfs_visit fuel g u st).
Proof.
  induction fuel as [|fuel IH]; intros u st; simpl.
  - right. right. reflexivity.
  - match goal with
    | |- dag_outcome (bind (foldM ?f0 ?l0 ?s0) _) =>
        assert (Hf : forall s a, dag_outcome (f0 s a));
          [|destruct (@foldM_dag_outcome _ _ f0 l0 Hf s0) as [(s1 & E)|[E|E]]]
    end.
    + intros s e. destruct (color_of (fst s) (target e)).
      * apply IH.
      * right. left. reflexivity.
      * left. eauto.
    + rewrite E. simpl. left. eauto.
    + rewrite E. simpl. right. left. reflexivity.
    + rewrite E. simpl. right. right. reflexivity.
Qed.

Lemma topological_sort_outcome (g : Graph) :
  (exists order, topological_sort g = Ok order) \/ topological_sort g = Throw NotADag.
Proof.
  pose proof (topological_sort_within_bound g) as W. unfold within_bound in W.
  revert W. unfold topological_sort.
  match goal with
  | |- context [bind (foldM ?f0 ?l0 ?s0) _] =>
      assert (Hf : forall s a, dag_outcome (f0 s a));
        [|destruct (@foldM_dag_outcome _ _ f0 l0 Hf s0) as [(s1 & E)|[E|E]]]
  end.
  - intros s u. destruct (color_of (fst s) u).
    + apply dfs_visit_dag_outcome.
    + left. eauto.
    + left. eauto.
  - rewrite E. simpl. left. eauto.
  - rewrite E. simpl. right. reflexivity.
  - rewrite E. simpl. intros W. congruence.
Qed.

Lemma foldM_total {A S : Type} (f : S -> A -> result S) (l : list A) :
  (forall a, In a l -> forall s, exists s', f s a = Ok s') ->
  forall s, exists s', foldM f l s = Ok s'.
Proof.
  induction l as [|a l IH]; intros H s; simpl; [eauto|].
  destruct (H a (or_introl eq_refl) s) as (s1 & E). rewrite E. simpl.
  apply IH. intros b Hb. apply H. now right.
Qed.

Lemma in_vertex_order (input : Graph) (topo : list vertex_t) (u : vertex_t) :
  In u topo -> 0 < degree input u -> types input u <> Founder ->
  In u (vertex_order topo input).
Proof.
  intros Hin Hd Ht. unfold vertex_order. apply in_rev in Hin.
  unfold degree in Hd.
  destruct (types input u) eqn:T; [congruence| | |].
  - destruct (in_degree input u) as [|k] eqn:D.
    + apply in_or_app. left. apply filter_In. split; [exact Hin|].
      unfold is_founder_band. rewrite D, T. simpl.
      apply andb_true_iff. split; [|reflexivity]. apply Nat.ltb_lt. lia.
    + apply in_or_app. right. apply in_or_app. left. apply filter_In.
      split; [exact Hin|]. unfold is_germline_band. rewrite D, T. reflexivity.
  - apply in_or_app. right. apply in_or_app. right. apply in_or_app. left.
    apply filter_In. split; [exact Hin|]. unfold is_somatic_band. rewrite T.
    apply andb_true_iff. split; [|reflexivity]. apply Nat.ltb_lt. unfold degree. lia.
  - apply in_or_app. right. apply in_or_app. right. apply in_or_app. right.
    apply filter_In. split; [exact Hin|]. unfold is_sample_band. rewrite T.
    apply andb_true_iff. split; [|reflexivity]. apply Nat.ltb_lt. unfold degree. lia.
Qed.

Lemma finalize_numbers_vertices_band_by_band_witness :
  exists output,
    finalize quartet_built = Ok output
    /\ exists a b c d,
         map (band output) (vertices output)
         = repeat 0 a ++ repeat 1 b ++ repeat 2 c ++ repeat 3 d.
Proof.
  eexists. split; [vm_compute; reflexivity|].
  apply (@finalize_numbers_vertices_band_by_band quartet_built).
  vm_compute. reflexivity.
Defined.

Lemma finalize_drops_isolated_vertices_witness :
  exists output,
    finalize quartet_built = Ok output
    /\ 4 < num_vertices output
    /\ 1 <= in_degree output 4 + out_degree output 4.
Proof.
  eexists. split; [vm_compute; reflexivity|].
  split; [vm_compute; lia|].
  apply (@finalize_drops_isolated_vertices quartet_built).
  - vm_compute. reflexivity.
  - vm_compute. lia.
Defined.

Lemma finalize_numbers_parents_before_children_witness :
  exists output,
    finalize quartet_built = Ok output
    /\ In (mkEdge 1 3 (float_of 1 0) GERM_EDGE) (edges output)
    /\ band output 1 <= band output 3
    /\ 1 < 3.
Proof.
  eexists. split; [vm_compute; reflexivity|].
  split; [left; reflexivity|]. split; [vm_compute; lia|].
  eapply (@finalize_numbers_parents_before_children quartet_built _
           (mkEdge 1 3 (float_of 1 0) GERM_EDGE)).
  - vm_compute. reflexivity.
  - left. reflexivity.
  - vm_compute. lia.
Defined.

Lemma finalize_keeps_every_edge_witness :
  exists output,
    finalize quartet_built = Ok output
    /\ Forall2 (fun e e' =>
                  edge_length e' = edge_length e
                  /\ edge_type e' = edge_type e
                  /\ prop output (source e') = add_suffix (prop quartet_built (source e))
                  /\ prop output (target e') = add_suffix (prop quartet_built (target e)))
               (edges quartet_built) (edges output).
Proof.
  eexists. split; [vm_compute; reflexivity|].
  apply (@finalize_keeps_every_edge quartet_built).
  vm_compute. reflexivity.
Defined.


(** ** The closures are the moral graph *)

Lemma before_cons (a : vertex_t) (l : list vertex_t) (u v : vertex_t) :
  before (a :: l) u v <-> (u = a /\ In v l) \/ before l u v.
Proof.
  split.
  - intros (l1 & l2 & l3 & E). destruct l1 as [|b l1]; simpl in E; inversion E; subst.
    + left. split; [reflexivity|]. apply in_or_app. right. now left.
    + right. exists l1, l2, l3. reflexivity.
  - intros [[-> H]|(l1 & l2 & l3 & ->)].
    + destruct (in_split _ _ H) as (l2 & l3 & ->). exists [], l2, l3. reflexivity.
    + exists (a :: l1), l2, l3. reflexivity.
Qed.

Lemma before_nil (u v : vertex_t) : ~ before [] u v.
Proof. intros (l1 & l2 & l3 & E). destruct l1; discriminate. Qed.

Lemma before_In (l : list vertex_t) (u v : vertex_t) : before l u v -> In u l /\ In v l.
Proof.
  intros (l1 & l2 & l3 & ->). split; apply in_or_app; right; [now left|].
  right. apply in_or_app. right. now left.
Qed.

Lemma In_before (l : list vertex_t) (u v : vertex_t) :
  In u l -> In v l -> u <> v -> before l u v \/ before l v u.
Proof.
  intros Hu Hv Hne. destruct (in_split _ _ Hu) as (l1 & l2 & ->).
  apply in_app_or in Hv. destruct Hv as [Hv|[Hv|Hv]]; [|congruence|].
  - right. destruct (in_split _ _ Hv) as (a & b & ->). exists a, b, l2.
    rewrite <- app_assoc. reflexivity.
  - left. destruct (in_split _ _ Hv) as (a & b & ->). exists l1, a, b. reflexivity.
Qed.

Lemma inner_pairs (n : nat) (x1 : vertex_t) (p : list vertex_t) :
  forall nb,
    List.length nb = n -> x1 < n -> (forall x, In x p -> x < n) ->
    List.length (fold_left (fun nb x2 => nb_insert x2 x1 (nb_insert x1 x2 nb)) p nb) = n
    /\ forall c y,
         In y (nb_get (fold_left (fun nb x2 => nb_insert x2 x1 (nb_insert x1 x2 nb)) p nb) c)
         <-> In y (nb_get nb c) \/ (c = x1 /\ In y p) \/ (y = x1 /\ In c p).
Proof.
  induction p as [|x2 p IH]; intros nb L H1 Hp; simpl.
  - split; [exact L|]. intros c y. tauto.
  - assert (H2 : x2 < n) by (apply Hp; now left).
    destruct (IH (nb_insert x2 x1 (nb_insert x1 x2 nb))) as [L' G'].
    + unfold nb_insert. now rewrite !update_nth_length.
    + exact H1.
    + intros x Hx. apply Hp. now right.
    + split; [exact L'|]. intros c y. rewrite G'.
      rewrite (pair_insert_get nb c y L H1 H2). intuition congruence.
Qed.

Lemma close_potential_get (n : nat) (p : potential_t) :
  forall nb,
    List.length nb = n -> (forall x, In x p -> x < n) ->
    List.length (close_potential p nb) = n
    /\ forall c y,
         In y (nb_get (close_potential p nb) c)
         <-> In y (nb_get nb c) \/ before p c y \/ before p y c.
Proof.
  induction p as [|x1 p IH]; intros nb L Hp; simpl.
  - split; [exact L|]. intros c y. pose proof (@before_nil c y). pose proof (@before_nil y c).
    tauto.
  - destruct (@inner_pairs n x1 p nb L) as [L1 G1].
    + apply Hp. now left.
    + intros x Hx. apply Hp. now right.
    + destruct (IH _ L1) as [L2 G2]; [intros x Hx; apply Hp; now right|].
      split; [exact L2|]. intros c y. rewrite G2, G1, !before_cons. intuition.
Qed.

Lemma closures_get (g : Graph) (c y : vertex_t) :
  graph_wf g ->
  (In y (nb_get (closures g) c)
   <-> exists p, In p (potentials g) /\ (before p c y \/ before p y c)).
Proof.
  intros W. unfold closures.
  assert (Hp : forall p, In p (potentials g) -> forall x, In x p -> x < num_vertices g).
  { intros p Hp x Hx. eapply potentials_range; eassumption. }
  assert (K : forall ps nb,
             (forall p, In p ps -> forall x, In x p -> x < num_vertices g) ->
             List.length nb = num_vertices g ->
             (In y (nb_get (fold_left (fun nb p => close_potential p nb) ps nb) c)
              <-> In y (nb_get nb c)
                  \/ exists p, In p ps /\ (before p c y \/ before p y c))).
  { induction ps as [|p ps IH]; intros nb Hps L; simpl.
    - split; [auto|]. intros [H|(p & [] & _)]. exact H.
    - destruct (@close_potential_get (num_vertices g) p nb L) as [L1 G1];
        [apply Hps; now left|].
      rewrite IH; [|intros q Hq; apply Hps; now right|exact L1].
      rewrite G1. split.
      + intros [[H|H]|(q & Hq & H)]; [now left| |].
        * right. exists p. split; [now left|exact H].
        * right. exists q. split; [now right|exact H].
      + intros [H|(q & [<-|Hq] & H)]; [left; now left| |].
        * left. now right.
        * right. exists q. auto. }
  rewrite (K _ _ Hp (repeat_length _ _)).
  unfold nb_get at 1. rewrite nth_repeat. simpl. tauto.
Qed.

Lemma depends_In (g : Graph) (v y : vertex_t) :
  In y (depends g v) <-> parent_of g y v.
Proof.
  unfold depends, parent_of, edges, in_edges. rewrite sort_In, in_map_iff. split.
  - intros (e & Hs & He). apply filter_In in He. destruct He as [He Ht].
    apply Nat.eqb_eq in Ht. eauto.
  - intros (e & He & Hs & Ht). exists e. split; [exact Hs|].
    apply filter_In. split; [exact He | now apply Nat.eqb_eq].
Qed.

Lemma potentials_pairs (g : Graph) (p : potential_t) (c y : vertex_t) :
  In p (potentials g) -> before p c y ->
  exists v, v < num_vertices g /\ p = v :: depends g v.
Proof.
  intros Hp B. rewrite potentials_unfold in Hp. apply in_app_or in Hp.
  destruct Hp as [Hp|Hp].
  - apply repeat_spec in Hp. subst p. now apply before_nil in B.
  - apply in_flat_map in Hp. destruct Hp as (v & Hv & Hp).
    unfold vertices in Hv. apply in_seq in Hv.
    assert (Single : ~ before [v] c y).
    { intros B'. apply before_cons in B'. destruct B' as [[_ []]|B']. now apply before_nil in B'. }
    unfold factors_of in Hp. apply in_app_or in Hp. destruct Hp as [Hp|[Hp|[]]].
    + destruct (out_degree g v =? 0); [|destruct Hp]. destruct Hp as [<-|[]]. contradiction.
    + destruct (in_degree g v =? 0); subst p; [contradiction|]. exists v. split; [lia|reflexivity].
Qed.

Lemma potential_of_child (g : Graph) (u v : vertex_t) :
  graph_wf g -> parent_of g u v -> In (v :: depends g v) (potentials g).
Proof.
  intros W (e & He & Hs & Ht). rewrite potentials_unfold. apply in_or_app. right.
  apply in_flat_map. exists v. split.
  - apply in_seq. destruct (W e He) as [_ H]. rewrite Ht in H. lia.
  - unfold factors_of. apply in_or_app. right.
    destruct (Nat.eqb_spec (in_degree g v) 0) as [Z|Z]; [|now left].
    exfalso. rewrite in_degree_zero in Z. exact (Z e He Ht).
Qed.

(** X17 -- the adjacency the planner builds from the potentials is the moral
    graph of the pedigree graph: two different vertices are neighbours
    exactly when one is a parent of the other or they are parents of a common
    child. *)
Theorem closures_is_the_moral_graph (g : Graph) (u v : vertex_t) :
  graph_wf g -> u <> v ->
  (In u (nb_get (closures g) v)
   <-> parent_of g u v \/ parent_of g v u
       \/ exists w, parent_of g u w /\ parent_of g v w).
Proof.
  intros W Hne. rewrite (closures_get v u W). split.
  - intros (p & Hp & B).
    assert (Hv : exists w, p = w :: depends g w).
    { destruct B as [B|B]; destruct (potentials_pairs _ Hp B) as (w & _ & E); eauto. }
    destruct Hv as (w & ->). rewrite !before_cons in B.
    destruct B as [[[-> H]|B]|[[-> H]|B]].
    + left. now apply depends_In.
    + apply before_In in B. destruct B as [B1 B2]. apply depends_In in B1, B2. eauto.
    + right. left. now apply depends_In.
    + apply before_In in B. destruct B as [B1 B2]. apply depends_In in B1, B2. eauto.
  - intros [H|[H|(w & Hu & Hv)]].
    + exists (v :: depends g v). split; [eapply potential_of_child; eauto|].
      left. apply before_cons. left. split; [reflexivity|]. now apply depends_In.
    + exists (u :: depends g u). split; [eapply potential_of_child; eauto|].
      right. apply before_cons. left. split; [reflexivity|]. now apply depends_In.
    + exists (w :: depends g w). split; [eapply potential_of_child; eauto|].
      apply depends_In in Hu, Hv.
      destruct (In_before _ Hv Hu) as [B|B]; [congruence| |].
      * left. apply before_cons. now right.
      * right. apply before_cons. now right.
Qed.

Lemma closures_is_the_moral_graph_witness :
  graph_wf loop_graph /\ 0 <> 2
  /\ (In 0 (nb_get (closures loop_graph) 2)
      <-> parent_of loop_graph 0 2 \/ parent_of loop_graph 2 0
          \/ exists w, parent_of loop_graph 0 w /\ parent_of loop_graph 2 w).
Proof.
  assert (W : graph_wf loop_graph) by (apply graph_wfb_wf; reflexivity).
  split; [exact W|]. split; [discriminate|].
  apply closures_is_the_moral_graph; [exact W | discriminate].
Defined.
(** ** The fill-in score *)

Lemma fill_inner_zero (nb : neighbors_t) (x1 : vertex_t) (k : list vertex_t) :
  (forall y, In y k -> In y (nb_get nb x1)) ->
  forall init,
    fold_left (fun fill x2 =>
                 if negb (set_contains x2 (nb_get nb x1))
                 then (fill + 1)%Z else fill) k init = init.
Proof.
  induction k as [|y k IH]; intros H init; simpl; [reflexivity|].
  rewrite set_contains_true by (apply H; now left). simpl.
  apply IH. intros z Hz. apply H. now right.
Qed.

Lemma fill_in_pairs_clique (nb : neighbors_t) (k : list vertex_t) :
  (forall l1 x l2, k = l1 ++ x :: l2 -> forall y, In y l2 -> In y (nb_get nb x)) ->
  fill_in_pairs nb k = 0%Z.
Proof.
  induction k as [|x k IH]; intros H; simpl; [reflexivity|].
  rewrite fill_inner_zero by (intros y Hy; exact (H [] x k eq_refl y Hy)).
  rewrite IH; [reflexivity|].
  intros l1 z l2 E y Hy. apply (H (x :: l1) z l2); [now rewrite E | exact Hy].
Qed.

(** X18 -- the score the queue starts with: [fill_in_count] is never
    negative, and on the adjacency built from the potentials it is 0 exactly
    for the vertices whose neighbours are pairwise adjacent (eliminating such
    a vertex adds no edge). *)
Theorem fill_in_count_zero_iff_clique (g : Graph) (v : vertex_t) :
  graph_wf g ->
  (0 <= fill_in_count (closures g) v)%Z
  /\ (fill_in_count (closures g) v = 0%Z <-> clique_at (closures g) v).
Proof.
  intros W. destruct (closures_inv W) as (L & S & Y).
  split; [apply fill_in_pairs_nonneg|]. split.
  - intros H. apply fill_clique; [|lia].
    intros x y _ Hy. now apply Y in Hy.
  - intros C. unfold fill_in_count. apply fill_in_pairs_clique.
    intros l1 x l2 E y Hy. apply C.
    + rewrite E. apply in_or_app. right. now left.
    + rewrite E. apply in_or_app. right. now right.
    + pose proof (sorted_NoDup (S v)) as ND. rewrite E in ND.
      apply NoDup_remove_2 in ND. intros ->. apply ND. apply in_or_app. now right.
Qed.

Lemma fill_in_count_zero_iff_clique_witness :
  graph_wf loop_graph
  /\ (0 <= fill_in_count (closures loop_graph) 5%nat)%Z
  /\ (fill_in_count (closures loop_graph) 5 = 0%Z <-> clique_at (closures loop_graph) 5).
Proof.
  assert (W : graph_wf loop_graph) by (apply graph_wfb_wf; reflexivity).
  split; [exact W|]. exact (@fill_in_count_zero_iff_clique loop_graph 5 W).
Defined.

(** ** The order of the queue *)

(** X19 -- [record_cmp_t] is a strict total order on the records: no record
    is below itself, the comparison is transitive, and of two different
    records one is below the other. *)
Theorem record_cmp_t_strict_total_order (a b c : record_t) :
  record_cmp_t a a = false
  /\ (record_cmp_t a b = true -> record_cmp_t b c = true -> record_cmp_t a c = true)
  /\ (a <> b -> record_cmp_t a b = true \/ record_cmp_t b a = true).
Proof.
  destruct a as [fa ia], b as [fb ib], c as [fc ic]. unfold record_cmp_t; simpl.
  split; [|split].
  - rewrite Z.eqb_refl. apply Nat.ltb_irrefl.
  - destruct (Z.eqb_spec fa fb), (Z.eqb_spec fb fc), (Z.eqb_spec fa fc);
      rewrite ?Nat.ltb_lt, ?Z.gtb_lt; try lia.
  - intros Hne.
    destruct (Z.eqb_spec fa fb) as [->|Hf].
    + rewrite Z.eqb_refl, !Nat.ltb_lt.
      assert (ia <> ib) by congruence. lia.
    + destruct (Z.eqb_spec fb fa); [congruence|]. rewrite !Z.gtb_lt. lia.
Qed.

(** ** The bookkeeping of the junction tree *)

Lemma find_from_range (cl : list flat_set) (s : flat_set) :
  forall i pos, find_from i cl s = Some pos -> i <= pos < i + List.length cl.
Proof.
  induction cl as [|c cl IH]; intros i pos H; simpl in H; [discriminate|].
  destruct (list_eqb c s).
  - inversion H; subst. simpl. lia.
  - apply IH in H. simpl. lia.
Qed.

Lemma min_superset_from_range (cl : list flat_set) (s : flat_set) :
  forall i best r,
    (forall p, best = Some p -> fst p < i) ->
    min_superset_from i cl s best = Some r -> fst r < i + List.length cl.
Proof.
  induction cl as [|c cl IH]; intros i best r Hb H; simpl in H.
  - apply Hb in H. simpl. lia.
  - apply IH in H; [simpl; lia|].
    intros p Hp. destruct (includes c s).
    + destruct best as [[q m]|].
      * destruct (List.length c <? m); inversion Hp; subst; simpl; [lia|].
        specialize (Hb (q, m) eq_refl). simpl in Hb. lia.
      * inversion Hp; subst. simpl. lia.
    + apply Hb in Hp. lia.
Qed.

Lemma junction_step_bookkeeping (nb : neighbors_t) (jt : junction_tree_t) (v : vertex_t) :
  List.length (cliques jt) = jt_nodes jt ->
  List.length (is_intersection_node jt) = jt_nodes jt ->
  (forall i j, In (i, j) (jt_edges jt) -> i < j /\ j < jt_nodes jt) ->
  let jt' := junction_step nb jt v in
  List.length (cliques jt') = jt_nodes jt'
  /\ List.length (is_intersection_node jt') = jt_nodes jt'
  /\ (forall i j, In (i, j) (jt_edges jt') -> i < j /\ j < jt_nodes jt')
  /\ jt_nodes jt < jt_nodes jt' <= jt_nodes jt + 2.
Proof.
  intros Lc Li He. unfold junction_step.
  destruct (find (cliques jt) (nb_get nb v)) as [pos|] eqn:F.
  - apply find_from_range in F. simpl in F. cbn.
    rewrite !length_app, update_nth_length. simpl.
    split; [lia|]. split; [lia|]. split; [|lia].
    intros i j Hin. apply in_app_or in Hin. destruct Hin as [Hin|[Hin|[]]].
    + apply He in Hin. lia.
    + inversion Hin; subst. lia.
  - destruct (min_superset (cliques jt) (nb_get nb v)) as [pos1|] eqn:M.
    + unfold min_superset in M.
      destruct (min_superset_from 0 (cliques jt) (nb_get nb v) None) as [r|] eqn:R;
        [|discriminate].
      apply min_superset_from_range in R; [|intros p Hp; discriminate].
      simpl in M. inversion M; subst pos1. cbn.
      rewrite !length_app. simpl.
      split; [lia|]. split; [lia|]. split; [|lia].
      intros i j Hin. apply in_app_or in Hin. destruct Hin as [Hin|[Hin|[Hin|[]]]].
      * apply He in Hin. lia.
      * inversion Hin; subst. simpl in R. lia.
      * inversion Hin; subst. lia.
    + cbn. rewrite !length_app. simpl.
      split; [lia|]. split; [lia|]. split; [|lia].
      intros i j Hin. apply He in Hin. lia.
Qed.

(** X20 -- the sanity assertions of the junction-tree loop hold on every
    run, whatever the neighbour sets and the order: the tree has one clique
    and one intersection flag per node, every edge joins an existing node to
    a later existing node, and each vertex of the order adds one or two
    nodes. *)
Theorem junction_tree_bookkeeping (nb : neighbors_t) (order : list vertex_t) :
  List.length (cliques (junction_tree nb order)) = jt_nodes (junction_tree nb order)
  /\ List.length (is_intersection_node (junction_tree nb order))
     = jt_nodes (junction_tree nb order)
  /\ (forall i j, In (i, j) (jt_edges (junction_tree nb order)) ->
                  i < j /\ j < jt_nodes (junction_tree nb order))
  /\ List.length order <= jt_nodes (junction_tree nb order) <= 2 * List.length order.
Proof.
  unfold junction_tree. rewrite <- (length_rev order).
  generalize (rev order) as l. intros l.
  assert (K : forall jt,
             List.length (cliques jt) = jt_nodes jt ->
             List.length (is_intersection_node jt) = jt_nodes jt ->
             (forall i j, In (i, j) (jt_edges jt) -> i < j /\ j < jt_nodes jt) ->
             let jt' := fold_left (junction_step nb) l jt in
             List.length (cliques jt') = jt_nodes jt'
             /\ List.length (is_intersection_node jt') = jt_nodes jt'
             /\ (forall i j, In (i, j) (jt_edges jt') -> i < j /\ j < jt_nodes jt')
             /\ jt_nodes jt + List.length l <= jt_nodes jt'
                <= jt_nodes jt + 2 * List.length l).
  { induction l as [|v l IH]; intros jt Lc Li He; simpl.
    - split; [exact Lc|]. split; [exact Li|]. split; [exact He|]. lia.
    - destruct (junction_step_bookkeeping nb jt v Lc Li He) as (Lc' & Li' & He' & Hn).
      destruct (IH _ Lc' Li' He') as (A & B & C & D).
      split; [exact A|]. split; [exact B|]. split; [exact C|]. lia. }
  destruct (K empty_junction eq_refl eq_refl) as (A & B & C & D).
  { intros i j []. }
  simpl in D. split; [exact A|]. split; [exact B|]. split; [exact C|]. lia.
Qed.
(** ** What [PrintGraph] prints *)

(** X21 -- [PrintGraph] prints no vertex twice, and it prints a vertex
    exactly when the vertex has no in-edge or is not typed [Founder]: on a
    graph without [Founder] vertices every vertex is printed once, in one of
    the four sections. *)
Theorem PrintGraph_prints_each_vertex_once (g : Graph) :
  NoDup (printed g)
  /\ forall v, In v (printed g)
               <-> v < num_vertices g /\ (in_degree g v = 0 \/ types g v <> Founder).
Proof.
  unfold printed, print_founding, print_germline, print_somatic, print_sample.
  pose proof (seq_NoDup (num_vertices g) 0) as ND. fold (vertices g) in ND.
  split.
  - repeat apply NoDup_app; try (apply NoDup_filter; assumption);
      intros a Ha Hb; apply filter_In in Ha; destruct Ha as [_ Ha];
      repeat (apply in_app_or in Hb; destruct Hb as [Hb|Hb]);
      apply filter_In in Hb; destruct Hb as [_ Hb];
      repeat match goal with
             | H : _ && _ = true |- _ => apply andb_prop in H; destruct H
             | H : VertexType_eqb _ _ = true |- _ => apply VertexType_eqb_eq in H
             | H : (_ =? _) = true |- _ => apply Nat.eqb_eq in H
             | H : (_ <? _) = true |- _ => apply Nat.ltb_lt in H
             end; try congruence; lia.
  - intros v. rewrite !in_app_iff, !filter_In. unfold vertices. rewrite in_seq.
    rewrite !andb_true_iff, !VertexType_eqb_eq, Nat.eqb_eq, !Nat.ltb_lt.
    destruct (types g v); split; intros H;
      repeat match goal with
             | H : _ \/ _ |- _ => destruct H
             | H : _ /\ _ |- _ => destruct H
             end; try discriminate; try lia;
      try (split; [lia|]; first [left; lia | right; discriminate]);
      destruct (in_degree g v) as [|k] eqn:D;
      try (left; split; [lia | reflexivity]);
      try congruence;
      try (right; left; split; [lia | split; [lia | reflexivity]]);
      try (right; right; left; split; [lia | split; [lia | reflexivity]]);
      try (right; right; right; split; [lia | split; [lia | reflexivity]]).
Qed.

(** ** The model names and the pruner *)

Lemma foldM_sex_outcome {A S : Type} (f : S -> A -> result S) (l : list A) :
  (forall s a, (exists s', f s a = Ok s') \/ (exists w, f s a = Throw (InvalidSex w))) ->
  forall s, (exists s', foldM f l s = Ok s') \/ (exists w, foldM f l s = Throw (InvalidSex w)).
Proof.
  intros H. induction l as [|a l IH]; intros s; simpl; [left; eauto|].
  destruct (H s a) as [(s1 & E)|(w & E)]; rewrite E; simpl; [apply IH | right; eauto].
Qed.

Lemma prune_outcome (g : Graph) (model : InheritanceModel) :
  model <> ModelOther ->
  (exists g', prune g model = Ok g') \/ (exists w, prune g model = Throw (InvalidSex w)).
Proof.
  intros Hm. destruct model; simpl; try (left; eexists; reflexivity); try congruence;
    apply foldM_sex_outcome; intros s a; destruct (sexes s a);
    try (left; eexists; reflexivity);
    (destruct (negb _); [right|left]; eexists; reflexivity).
Qed.

(** X22 -- the table of model names and the switch of [prune] agree: no name
    is listed twice, every name selects a model that [prune] implements (it
    returns or throws for a vertex of unknown sex, it never answers that the
    model is not implemented), and each of the seven implemented models has a
    name. *)
Theorem CHR_MODEL_MAP_names_implemented_models :
  NoDup (map fst CHR_MODEL_MAP)
  /\ (forall name model g,
        In (name, model) CHR_MODEL_MAP ->
        (exists g', prune g model = Ok g')
        \/ (exists w, prune g model = Throw (InvalidSex w)))
  /\ (forall model, model <> ModelOther -> exists name, In (name, model) CHR_MODEL_MAP).
Proof.
  split; [|split].
  - repeat constructor; simpl; intros H;
      repeat (destruct H as [H|H]; [discriminate H|]); exact H.
  - intros name model g H. apply prune_outcome. intros ->.
    simpl in H. repeat (destruct H as [H|H]; [discriminate H|]). exact H.
  - intros model Hm. destruct model; try congruence.
    + exists "autosomal". simpl. auto.
    + exists "x-linked". simpl. auto.
    + exists "y-linked". simpl. auto 10.
    + exists "w-linked". simpl. auto 10.
    + exists "z-linked". simpl. auto 10.
    + exists "maternal". simpl. auto.
    + exists "paternal". simpl. auto.
Qed.

(** ** At most two parents, from the builder to the finalizer *)

Lemma filter_impl_le {A : Type} (p q : A -> bool) (l : list A) :
  (forall a, p a = true -> q a = true) ->
  List.length (filter p l) <= List.length (filter q l).
Proof.
  intros H. induction l as [|a l IH]; simpl; [lia|].
  destruct (p a) eqn:P.
  - rewrite (H a P). simpl. lia.
  - destruct (q a); simpl; lia.
Qed.

Lemma filter_partition_length {A : Type} (p q : A -> bool) (l : list A) :
  List.length (filter p l)
  = List.length (filter (fun a => p a && q a) l)
    + List.length (filter (fun a => p a && negb (q a)) l).
Proof.
  induction l as [|a l IH]; simpl; [reflexivity|].
  destruct (p a), (q a); simpl; lia.
Qed.

Lemma filter_none {A : Type} (p : A -> bool) (l : list A) :
  (forall a, In a l -> p a = false) -> filter p l = [].
Proof.
  induction l as [|a l IH]; intros H; simpl; [reflexivity|].
  rewrite (H a (or_introl eq_refl)). apply IH. intros b Hb. apply H. now right.
Qed.

Lemma in_degree_remove_edge_if (p : Edge -> bool) (g : Graph) (x : vertex_t) :
  in_degree (remove_edge_if p g) x <= in_degree g x.
Proof.
  unfold in_degree, in_edges, remove_edge_if; simpl. rewrite filter_filter.
  apply filter_impl_le. intros e H. apply andb_true_iff in H. tauto.
Qed.

Lemma in_degree_filtered (P : Edge -> bool) (g g' : Graph) (x : vertex_t) :
  edge_list g' = filter P (edge_list g) -> in_degree g' x <= in_degree g x.
Proof.
  intros E. unfold in_degree, in_edges. rewrite E, filter_filter.
  apply filter_impl_le. intros e H. apply andb_true_iff in H. tauto.
Qed.

Lemma in_degree_cull_leaf (g : Graph) (v x : vertex_t) :
  in_degree (cull_leaf g v) x <= in_degree g x.
Proof.
  unfold cull_leaf. destruct (_ && _); [apply in_degree_remove_edge_if | lia].
Qed.

Lemma in_degree_unlink_founders (g : Graph) (v x : vertex_t) :
  in_degree (unlink_founders g v) x <= in_degree g x.
Proof.
  unfold unlink_founders. destruct (negb _); [lia|].
  destruct (in_edges g v); [lia|].
  destruct (forallb _ _); [apply in_degree_remove_edge_if | lia].
Qed.

Lemma in_degree_bypass (g : Graph) (v : vertex_t) :
  (forall x, in_degree g x <= 2) -> forall x, in_degree (bypass g v) x <= 2.
Proof.
  intros H x. unfold bypass.
  destruct (_ || _); [apply H|].
  destruct (out_edges g v) as [|out_edge r] eqn:Eout; [apply H|].
  destruct (2 <? in_degree g (target out_edge) + in_degree g v - 1) eqn:C; [apply H|].
  destruct (negb _); [apply H|].
  apply Nat.ltb_ge in C.
  set (child := target out_edge) in *.
  assert (Ho : In out_edge (edge_list g) /\ source out_edge = v).
  { assert (Hin : In out_edge (out_edges g v)) by (rewrite Eout; now left).
    unfold out_edges in Hin. apply filter_In in Hin. destruct Hin as [H1 H2].
    apply Nat.eqb_eq in H2. auto. }
  destruct Ho as [Ho Hsv].
  unfold in_degree at 1, in_edges, clear_vertex, remove_edge_if. simpl.
  rewrite bypass_new_edges, filter_filter, filter_app, length_app.
  destruct (Nat.eq_dec x child) as [->|Hx].
  - destruct (Nat.eq_dec child v) as [Ev|Ev].
    + rewrite !filter_none; [simpl; lia| |].
      * intros e _. rewrite Ev.
        destruct (target e =? v) eqn:T; [|now rewrite andb_false_r].
        now rewrite orb_true_r.
      * intros e _. rewrite Ev.
        destruct (target e =? v) eqn:T; [|now rewrite andb_false_r].
        now rewrite orb_true_r.
    + assert (A1 : List.length
                     (filter (fun e => negb ((source e =? v) || (target e =? v))
                                       && (target e =? child)) (edge_list g))
                   <= in_degree g child - 1).
      { pose proof (filter_partition_length (fun e => target e =? child)
                      (fun e => source e =? v) (edge_list g)) as P.
        fold (in_edges g child) in P. fold (in_degree g child) in P.
        assert (1 <= List.length (filter (fun e => (target e =? child) && (source e =? v))
                                         (edge_list g))).
        { apply filter_length_pos with out_edge; [exact Ho|].
          fold child. rewrite Hsv, !Nat.eqb_refl. reflexivity. }
        assert (List.length
                  (filter (fun e => negb ((source e =? v) || (target e =? v))
                                    && (target e =? child)) (edge_list g))
                <= List.length
                     (filter (fun e => (target e =? child) && negb (source e =? v))
                             (edge_list g))).
        { apply filter_impl_le. intros e E. apply andb_true_iff in E. destruct E as [E1 E2].
          rewrite E2. apply negb_true_iff in E1. apply orb_false_iff in E1.
          destruct E1 as [E1 _]. now rewrite E1. }
        lia. }
      assert (A2 : List.length
                     (filter (fun e => negb ((source e =? v) || (target e =? v))
                                       && (target e =? child))
                             (map (fun e => mkEdge (source e) child
                                                   (float_add (edge_length out_edge) (edge_length e))
                                                   (N.lor (edge_type out_edge) (edge_type e)))
                                  (in_edges g v)))
                   <= in_degree g v).
      { etransitivity; [apply filter_length_le|]. rewrite length_map. reflexivity. }
      assert (A3 : 1 <= in_degree g child).
      { unfold in_degree, in_edges. apply filter_length_pos with out_edge; [exact Ho|].
        fold child. apply Nat.eqb_refl. }
      unfold in_edges in A2. lia.
  - rewrite (@filter_none _ _ (map _ _)).
    + simpl. rewrite Nat.add_0_r. etransitivity; [|apply (H x)].
      unfold in_degree, in_edges. apply filter_impl_le.
      intros e E. apply andb_true_iff in E. tauto.
    + intros e He. apply in_map_iff in He. destruct He as (e0 & <- & _). simpl.
      destruct (Nat.eqb_spec child x); [congruence|]. now rewrite andb_false_r.
Qed.

Lemma in_degree_simplify_with (order : list vertex_t) (g : Graph) :
  (forall x, in_degree g x <= 2) -> forall x, in_degree (simplify_with order g) x <= 2.
Proof.
  intros H. unfold simplify_with.
  apply (fold_left_preserves (fun h => forall x, in_degree h x <= 2)).
  { intros h v Hh. now apply in_degree_bypass. }
  apply (fold_left_preserves (fun h => forall x, in_degree h x <= 2)).
  { intros h v Hh x. etransitivity; [apply in_degree_unlink_founders | apply Hh]. }
  apply (fold_left_preserves (fun h => forall x, in_degree h x <= 2)).
  { intros h v Hh x. etransitivity; [apply in_degree_cull_leaf | apply Hh]. }
  exact H.
Qed.

Lemma prune_edges_filtered (g g' : Graph) (model : InheritanceModel) :
  prune g model = Ok g' -> exists P, edge_list g' = filter P (edge_list g).
Proof.
  destruct model; simpl; intros H.
  - inversion H; subst. exists (fun _ => true). now rewrite filter_true.
  - unfold prune_xlinked in H.
    apply (@linked_loop _ (fun _ => false)
             (fun s => match s with Male => Some 1%Z | _ => None end)) in H;
      [|linked_body].
    destruct H as (_ & _ & He & _). rewrite He. simpl. rewrite filter_filter. eauto.
  - unfold prune_ylinked in H.
    apply (@linked_loop _ (fun s => Sex_eqb s Female)
             (fun s => match s with Female => Some 0%Z | Male => Some 1%Z | _ => None end))
      in H; [|linked_body].
    destruct H as (_ & _ & He & _). rewrite He. simpl. rewrite filter_filter. eauto.
  - unfold prune_wlinked in H.
    apply (@linked_loop _ (fun s => Sex_eqb s Male)
             (fun s => match s with Male => Some 0%Z | Female => Some 1%Z | _ => None end))
      in H; [|linked_body].
    destruct H as (_ & _ & He & _). rewrite He. simpl. rewrite filter_filter. eauto.
  - unfold prune_zlinked in H.
    apply (@linked_loop _ (fun _ => false)
             (fun s => match s with Female => Some 1%Z | _ => None end)) in H;
      [|linked_body].
    destruct H as (_ & _ & He & _). rewrite He. simpl. rewrite filter_filter. eauto.
  - unfold prune_maternal in H. inversion H; subst.
    destruct (set_all_ploidies (vertices (remove_edge_if (is_p g) g))
                               (remove_edge_if (is_p g) g)) as (He & _).
    rewrite He. simpl. eauto.
  - unfold prune_paternal in H. inversion H; subst.
    destruct (set_all_ploidies (vertices (remove_edge_if (is_m g) g))
                               (remove_edge_if (is_m g) g)) as (He & _).
    rewrite He. simpl. eauto.
  - discriminate.
Qed.

Lemma in_degree_update_edge_lengths (g : Graph) (mu_germ mu_soma : double) (x : vertex_t) :
  in_degree (update_edge_lengths g mu_germ mu_soma) x = in_degree g x.
Proof.
  unfold in_degree, in_edges, update_edge_lengths. simpl.
  induction (edge_list g) as [|e l IH]; simpl; [reflexivity|].
  destruct (has_germ (edge_type e)); simpl; destruct (target e =? x); simpl; now rewrite IH.
Qed.

(** X23 -- the stages between the builder and the planner never give a
    vertex a third parent: when no vertex of the built graph has more than
    two in-edges, no vertex of the finalized graph has. *)
Theorem compile_keeps_at_most_two_parents
    (g gf : Graph) (model : InheritanceModel) (mu mu_somatic : double) :
  compile g model mu mu_somatic = Ok gf ->
  (forall v, in_degree g v <= 2) ->
  forall v, in_degree gf v <= 2.
Proof.
  intros H H2. pose proof (compile_wf _ _ _ _ H) as Wf.
  apply compile_inv in H. destruct H as (rev_topo & pruned & topo & _ & Hp & Hts & Hf).
  assert (Hpruned : forall x, in_degree pruned x <= 2).
  { intros x. destruct (prune_edges_filtered _ _ Hp) as (P & E).
    etransitivity; [exact (in_degree_filtered P _ _ x E)|].
    apply in_degree_simplify_with. intros y. now rewrite in_degree_update_edge_lengths. }
  destruct (@topological_sort_nodup _ _ Hts) as [ND _].
  intros v. destruct (Nat.lt_ge_cases v (num_vertices gf)) as [Hv|Hv].
  - destruct (finalized_vertex _ _ Hf Hv) as (u & Hu & _).
    destruct (@finalize_degrees _ _ _ _ _ ND Hf Hu) as [Din _]. rewrite Din. apply Hpruned.
  - assert (Z : in_degree gf v = 0).
    { apply in_degree_zero. intros e He Ht. destruct (Wf e He). lia. }
    lia.
Qed.

Lemma compile_keeps_at_most_two_parents_witness :
  exists gf,
    compile quartet_built ModelAutosomal (double_of 1 (-1)) (double_of 1 (-2)) = Ok gf
    /\ (forall v, in_degree quartet_built v <= 2)
    /\ forall v, in_degree gf v <= 2.
Proof.
  assert (H2 : forall v, in_degree quartet_built v <= 2).
  { intros v. do 6 (destruct v as [|v]; [vm_compute; lia|]). vm_compute. lia. }
  eexists. split; [vm_compute; reflexivity|]. split; [exact H2|].
  apply (@compile_keeps_at_most_two_parents quartet_built _ ModelAutosomal (double_of 1 (-1)) (double_of 1 (-2)));
    [vm_compute; reflexivity | exact H2].
Defined.
(** ** The elimination order of a run that returns *)

(** X24 -- whenever the planner returns on a well-formed graph, the
    elimination order lists every vertex of the graph exactly once, and the
    neighbours a vertex is left with (its elimination clique) all come after
    it in the order. *)
Theorem peeling_order_eliminates_each_vertex_once (g : Graph) (p : peeling_t) :
  graph_wf g -> peeling_order g = Ok p ->
  NoDup (elim_order p)
  /\ List.length (elim_order p) = num_vertices g
  /\ (forall v, v < num_vertices g <-> In v (elim_order p))
  /\ (forall l1 v l2,
        elim_order p = l1 ++ v :: l2 ->
        forall x, In x (nb_get (peel_neighbors p) v) -> In x l2).
Proof.
  intros W H. destruct (peeling_order_done W H) as [D _].
  assert (P : Permutation (elim_order p) (seq 0 (num_vertices g))).
  { apply NoDup_Permutation; [apply (done_nodup D)|apply seq_NoDup|].
    intros v. rewrite in_seq. rewrite (done_all D v). intuition lia. }
  apply Permutation_length in P. rewrite length_seq in P.
  split; [apply (done_nodup D)|]. split; [exact P|]. split; [apply (done_all D)|].
  intros l1 v l2 E x Hx. exact (done_later D l1 v l2 E x Hx).
Qed.

Lemma peeling_order_eliminates_each_vertex_once_witness :
  exists p,
    graph_wf quartet_graph /\ peeling_order quartet_graph = Ok p
    /\ NoDup (elim_order p)
    /\ List.length (elim_order p) = num_vertices quartet_graph
    /\ (forall v, v < num_vertices quartet_graph <-> In v (elim_order p))
    /\ (forall l1 v l2,
          elim_order p = l1 ++ v :: l2 ->
          forall x, In x (nb_get (peel_neighbors p) v) -> In x l2).
Proof.
  assert (W : graph_wf quartet_graph) by (apply graph_wfb_wf; reflexivity).
  eexists. split; [exact W|]. split; [vm_compute; reflexivity|].
  apply (@peeling_order_eliminates_each_vertex_once quartet_graph _ W).
  vm_compute. reflexivity.
Defined.

(** ** The builder returns for valid pedigrees only *)

Lemma add_edges_step_valid (pedigree : Pedigree) (g g' : Graph) (v : vertex_t) :
  add_edges_step pedigree g v = Ok g' ->
  valid_member pedigree (ploidies g v) (GetMember pedigree v).
Proof.
  unfold add_edges_step, valid_member, is_founder_member.
  set (member := GetMember pedigree v).
  destruct (has_tag member "founder" || _) eqn:F; [auto|].
  intros H. right. apply bind_Ok_inv in H. destruct H as (ploidy & Hp & H).
  apply get_Ok in Hp. destruct Hp as [Hv Hp]. fold (ploidies g v) in Hp. subst ploidy.
  apply orb_false_iff in F. destruct F as [_ F].
  destruct (ploidies g v =? 0)%Z eqn:Z0.
  - apply Z.eqb_eq in Z0. left. split; [auto|].
    destruct (dad member) as [d|] eqn:D, (mom member) as [m|] eqn:M;
      simpl in H, F; try discriminate.
    + destruct (NumberOfMembers pedigree <=? LookupMemberPosition pedigree d) eqn:R;
        [discriminate|].
      apply Nat.leb_gt in R. exists d. auto.
    + destruct (NumberOfMembers pedigree <=? LookupMemberPosition pedigree m) eqn:R;
        [discriminate|].
      apply Nat.leb_gt in R. exists m. auto.
  - destruct (ploidies g v =? 1)%Z eqn:Z1.
    + apply Z.eqb_eq in Z1. left. split; [auto|].
      destruct (dad member) as [d|] eqn:D, (mom member) as [m|] eqn:M;
        simpl in H, F; try discriminate.
      * apply bind_Ok_inv in H. destruct H as ([parent len] & PL & H).
        apply bind_Ok_inv in PL. destruct PL as (s & _ & PL).
        destruct (Sex_eqb s Female); [discriminate|]. inversion PL; subst.
        destruct (_ <=? _) eqn:R; [discriminate|].
        apply Nat.leb_gt in R. exists d. auto.
      * apply bind_Ok_inv in H. destruct H as ([parent len] & PL & H).
        apply bind_Ok_inv in PL. destruct PL as (s & _ & PL).
        destruct (Sex_eqb s Male); [discriminate|]. inversion PL; subst.
        destruct (_ <=? _) eqn:R; [discriminate|].
        apply Nat.leb_gt in R. exists m. auto.
    + apply Z.eqb_neq in Z0, Z1. right. split; [exact Z0|]. split; [exact Z1|].
      destruct (dad member) as [d|] eqn:D; [|discriminate].
      destruct (mom member) as [m|] eqn:M; [|discriminate].
      destruct (NumberOfMembers pedigree <=? LookupMemberPosition pedigree d) eqn:R1;
        [discriminate|].
      destruct (NumberOfMembers pedigree <=? LookupMemberPosition pedigree m) eqn:R2;
        [discriminate|].
      apply Nat.leb_gt in R1, R2. exists d, m. auto.
Qed.

Lemma add_edges_loop_valid (pedigree : Pedigree) (l : list vertex_t) :
  NoDup l ->
  forall g g',
    foldM (add_edges_step pedigree) l g = Ok g' ->
    forall v, In v l -> valid_member pedigree (ploidies g v) (GetMember pedigree v).
Proof.
  induction 1 as [|a l Ha Hl IH]; simpl; intros g g' H v Hv; [destruct Hv|].
  apply bind_Ok_inv in H. destruct H as (g1 & E1 & E2).
  destruct Hv as [<-|Hv].
  - eapply add_edges_step_valid; eauto.
  - assert (Hne : v <> a) by (intros ->; tauto).
    apply add_edges_step_shape in E1. destruct E1 as (_ & Hw & _).
    specialize (IH _ _ E2 v Hv). unfold ploidies in *. now rewrite <- (Hw v Hne).
Qed.

(** X25 -- [add_edges_to_pedigree_graph] returns only for a pedigree all of
    whose members pass its checks: each member is a founder (tagged so, or
    without parents), or a clone or haploid member that names exactly one
    parent, or a member that names both a father and a mother; and every
    parent named is a member of the pedigree. *)
Theorem pedigree_graph_is_built_for_valid_members_only (pedigree : Pedigree) (g : Graph) :
  add_edges_to_pedigree_graph pedigree (member_vertices pedigree) = Ok g ->
  forall v, v < NumberOfMembers pedigree ->
            valid_member pedigree (get_ploidy (GetMember pedigree v)) (GetMember pedigree v).
Proof.
  unfold add_edges_to_pedigree_graph. intros H v Hv.
  assert (N0 : num_vertices (member_vertices pedigree) = NumberOfMembers pedigree).
  { rewrite member_vertices_eq. unfold num_vertices; simpl.
    now rewrite length_map, length_seq. }
  pose proof (@add_edges_loop_valid pedigree _ (seq_NoDup _ _) _ _ H v) as K.
  unfold ploidies in K. rewrite member_vertices_prop in K by exact Hv. simpl in K.
  apply K. unfold vertices. rewrite N0. apply in_seq. lia.
Qed.

Lemma pedigree_graph_is_built_for_valid_members_only_witness :
  exists g,
    add_edges_to_pedigree_graph loop_pedigree (member_vertices loop_pedigree) = Ok g
    /\ 2 < NumberOfMembers loop_pedigree
    /\ valid_member loop_pedigree (get_ploidy (GetMember loop_pedigree 2))
                    (GetMember loop_pedigree 2).
Proof.
  eexists. split; [vm_compute; reflexivity|]. split; [vm_compute; lia|].
  eapply (@pedigree_graph_is_built_for_valid_members_only loop_pedigree).
  - vm_compute. reflexivity.
  - vm_compute. lia.
Defined.
(** ** The topological sort throws exactly on the graphs with a cycle *)

Lemma path_edge (g : Graph) (e : Edge) :
  In e (edges g) -> path g (source e) (target e).
Proof.
  intros He. exists [e]. split; [intros x [<-|[]]; exact He|]. simpl. auto.
Qed.

Lemma path_trans (g : Graph) (u v w : vertex_t) : path g u v -> path g v w -> path g u w.
Proof.
  intros (c1 & I1 & P1) (c2 & I2 & P2). exists (c1 ++ c2). split.
  - intros x Hx. apply in_app_or in Hx. destruct Hx; auto.
  - eapply is_chain_app; eauto.
Qed.

Lemma chain_before (g : Graph) (order : list vertex_t) (chain : list Edge) :
  NoDup order ->
  (forall e, In e (edge_list g) -> before order (target e) (source e)) ->
  forall u w, incl chain (edges g) -> is_chain u w chain -> before order w u.
Proof.
  intros ND Hb. induction chain as [|e chain IH]; intros u w Hi Hc; [destruct Hc|].
  simpl in Hc. destruct Hc as [Hs Hc].
  assert (He : before order (target e) u).
  { rewrite <- Hs. apply Hb. apply Hi. now left. }
  destruct chain as [|e1 chain].
  - now rewrite <- Hc.
  - eapply before_trans; [exact ND| |exact He].
    apply IH; [|exact Hc]. intros x Hx. apply Hi. now right.
Qed.

Lemma topological_sort_acyclic (g : Graph) (order : list vertex_t) :
  graph_wf g -> topological_sort g = Ok order -> ~ has_cycle g.
Proof.
  intros W H (v & chain & Hi & Hc).
  destruct (@topological_sort_nodup _ _ H) as [ND _].
  destruct (@topological_sort_sorted _ _ H) as [_ Hb].
  apply (@before_irrefl order v ND).
  apply (@chain_before g order chain ND); auto.
  intros e He. destruct (W e He). now apply Hb.
Qed.

Lemma foldM_no_throw {A S : Type} (x : exn) (P : S -> Prop) (f : S -> A -> result S)
    (l : list A) :
  (forall s a, In a l -> P s -> f s a <> Throw x /\ forall s', f s a = Ok s' -> P s') ->
  forall s, P s -> foldM f l s <> Throw x.
Proof.
  induction l as [|a l IH]; intros H s Ps; simpl; [discriminate|].
  destruct (H s a (or_introl eq_refl) Ps) as [N K].
  destruct (f s a) as [s1| |]; simpl; [|exact N|discriminate].
  apply IH; [|now apply K]. intros s0 b Hb. apply H. now right.
Qed.

Lemma dfs_visit_no_throw (fuel : nat) (g : Graph) :
  ~ has_cycle g ->
  forall u st,
    color_of (fst st) u = White -> dfs_inv st -> dfs_sorted g st ->
    (forall w, color_of (fst st) w = Gray -> path g w u) ->
    dfs_visit fuel g u st <> Throw NotADag.
Proof.
  intros Acyc. induction fuel as [|fuel IH]; intros u st Hu Hinv Hsorted Hgray;
    [discriminate|].
  simpl.
  set (st1 := (update_nth u (fun _ => Gray) (fst st), snd st)).
  pose proof (color_white_in_range _ _ Hu) as Hrange.
  assert (Hinv1 : dfs_inv st1).
  { destruct Hinv as (N & B & R). unfold st1. repeat split; simpl; auto.
    - intros v Hv. rewrite color_of_update.
      destruct (Nat.eqb_spec u v) as [->|]; simpl; auto.
      apply B in Hv. congruence.
    - intros v Hv. rewrite update_nth_length. auto. }
  assert (Hsorted1 : dfs_sorted g st1).
  { destruct Hsorted as (B & S). unfold st1. split; simpl.
    - intros v Hv. rewrite update_nth_length in Hv. rewrite color_of_update.
      destruct (Nat.eqb_spec u v) as [->|]; simpl.
      + apply Nat.ltb_lt in Hrange. rewrite Hrange. discriminate.
      + auto.
    - intros e He Hs Ht. rewrite update_nth_length in Ht. auto. }
  assert (Hgray1 : forall w, color_of (fst st1) w = Gray -> w = u \/ color_of (fst st) w = Gray).
  { intros w. unfold st1; simpl. rewrite color_of_update.
    destruct (Nat.eqb_spec u w); simpl; auto. }
  set (J := fun s : list color * list vertex_t =>
              dfs_inv s /\ dfs_sorted g s
              /\ forall w, color_of (fst s) w = Gray -> w = u \/ color_of (fst st) w = Gray).
  assert (Hfold : foldM (fun st e =>
                           match color_of (fst st) (target e) with
                           | White => dfs_visit fuel g (target e) st
                           | Gray => Throw NotADag
                           | Black => Ok st
                           end) (out_edges g u) st1 <> Throw NotADag).
  { apply (@foldM_no_throw _ _ NotADag J); [|unfold J; auto].
    intros s e He (Is & Ss & Gs).
    unfold out_edges in He. apply filter_In in He. destruct He as [He Hsrc].
    apply Nat.eqb_eq in Hsrc.
    assert (Pe : path g u (target e)) by (rewrite <- Hsrc; now apply path_edge).
    assert (Hg : forall w, color_of (fst s) w = Gray -> path g w (target e)).
    { intros w Hw. destruct (Gs w Hw) as [->|Hw']; [exact Pe|].
      eapply path_trans; [apply Hgray; exact Hw' | exact Pe]. }
    destruct (color_of (fst s) (target e)) eqn:C.
    - split; [apply IH; auto|].
      intros s' E. destruct (@dfs_visit_sorted _ _ _ _ _ C Is Ss E) as (I' & S' & (_ & _ & G') & _).
      split; [exact I'|]. split; [exact S'|]. intros w Hw. apply Gs. now apply G'.
    - exfalso. apply Acyc. exists (target e). now apply Hg.
    - split; [discriminate|]. intros s' E. inversion E; subst. unfold J. auto. }
  destruct (foldM _ (out_edges g u) st1) as [s2| |]; simpl; [discriminate|exact Hfold|discriminate].
Qed.

Lemma topological_sort_returns (g : Graph) :
  ~ has_cycle g -> exists order, topological_sort g = Ok order.
Proof.
  intros Acyc. destruct (topological_sort_outcome g) as [H|H]; [exact H|]. exfalso.
  revert H. unfold topological_sort.
  set (K := fun s : list color * list vertex_t =>
              dfs_inv s /\ dfs_sorted g s /\ forall w, color_of (fst s) w <> Gray).
  assert (Hfold : foldM (fun st u =>
                           match color_of (fst st) u with
                           | White => dfs_visit (S (num_vertices g)) g u st
                           | _ => Ok st
                           end) (vertices g) (repeat White (num_vertices g), [])
                  <> Throw NotADag).
  { apply (@foldM_no_throw _ _ NotADag K).
    - intros s u _ (Is & Ss & Gs). destruct (color_of (fst s) u) eqn:C.
      + split.
        * apply dfs_visit_no_throw; auto. intros w Hw. now apply Gs in Hw.
        * intros s' E.
          destruct (@dfs_visit_sorted (S (num_vertices g)) g u s s' C Is Ss E)
            as (I' & S' & (_ & _ & G') & _).
          split; [exact I'|]. split; [exact S'|]. intros w Hw. apply (Gs w). now apply G'.
      + split; [discriminate|]. intros s' E. inversion E; subst. unfold K. auto.
      + split; [discriminate|]. intros s' E. inversion E; subst. unfold K. auto.
    - unfold K; simpl. split; [|split].
      + split; [constructor|]. split; intros v [].
      + split; simpl.
        * intros v Hv Hb. rewrite repeat_length in Hv. rewrite color_of_repeat in Hb.
          apply Nat.ltb_lt in Hv. rewrite Hv in Hb. discriminate.
        * intros e _ [].
      + intros w. rewrite color_of_repeat. destruct (w <? _); discriminate. }
  destruct (foldM _ (vertices g) _) as [s2| |]; simpl; [discriminate|congruence|discriminate].
Qed.

(** X26 -- [simplify] on a well-formed graph throws [not_a_dag] exactly when
    the graph has a directed cycle, and returns otherwise. *)
Theorem simplify_throws_exactly_on_cycles (g : Graph) :
  graph_wf g ->
  (has_cycle g -> simplify g = Throw NotADag)
  /\ (~ has_cycle g -> exists g', simplify g = Ok g').
Proof.
  intros W. unfold simplify. split.
  - intros C. destruct (topological_sort_outcome g) as [(order & H)|H].
    + exfalso. exact (topological_sort_acyclic W H C).
    + now rewrite H.
  - intros C. destruct (topological_sort_returns C) as (order & H).
    rewrite H. simpl. eauto.
Qed.

Lemma simplify_throws_exactly_on_cycles_witness :
  graph_wf quartet_built
  /\ (has_cycle quartet_built -> simplify quartet_built = Throw NotADag)
  /\ (~ has_cycle quartet_built -> exists g', simplify quartet_built = Ok g').
Proof.
  assert (W : graph_wf quartet_built) by (apply graph_wfb_wf; reflexivity).
  split; [exact W|]. exact (simplify_throws_exactly_on_cycles W).
Defined.

Lemma finalize_with_total (input : Graph) (topo : list vertex_t) :
  graph_wf input -> no_founder input -> topological_sort input = Ok topo ->
  exists output, finalize_with topo input = Ok output.
Proof.
  intros Hwf Hnf Hts.
  destruct (@topological_sort_nodup _ _ Hts) as [ND _].
  destruct (@topological_sort_sorted _ _ Hts) as [Hall _].
  pose proof (vertex_order_nodup input ND) as NDo.
  assert (Hmap : forall u e, In e (edge_list input) -> source e = u \/ target e = u ->
                   u < num_vertices input ->
                   exists w, mapped (map_in_to_out (vertex_order topo input) input) u = Ok w).
  { intros u e He Hends Hu.
    assert (Hin : In u (vertex_order topo input)).
    { apply in_vertex_order; [now apply Hall| |].
      - assert (1 <= degree input u) by (eapply edge_degree; eauto). lia.
      - now apply no_founder_prop. }
    apply In_nth_error in Hin. destruct Hin as (i & Hi).
    destruct (map_in_to_out_spec (vertex_order topo input) input) as (_ & _ & Hspec).
    exists i. unfold mapped. now rewrite (Hspec NDo i u Hi Hu). }
  unfold finalize_with.
  match goal with
  | |- exists output, bind (foldM ?f0 ?l0 ?s0) _ = Ok output =>
      assert (Hf : forall a, In a l0 -> forall s, exists s', f0 s a = Ok s');
        [|destruct (@foldM_total _ _ f0 l0 Hf s0) as (out & E)]
  end.
  - intros e He s. unfold edges in He. destruct (Hwf e He) as [Hs Ht].
    destruct (Hmap (source e) e He (or_introl eq_refl) Hs) as (ws & Es).
    destruct (Hmap (target e) e He (or_intror eq_refl) Ht) as (wt & Et).
    rewrite Es, Et. simpl. eauto.
  - rewrite E. simpl. eauto.
Qed.

(** X16 -- on a well-formed graph none of whose vertices is typed [Founder]
    the finalizer throws [not_a_dag] exactly when the graph has a directed
    cycle, and returns otherwise: every end of every edge has a place in the
    new numbering (the assertion on [map_in_to_out] holds). *)
Theorem finalize_throws_exactly_on_cycles (input : Graph) :
  graph_wf input -> no_founder input ->
  (has_cycle input -> finalize input = Throw NotADag)
  /\ (~ has_cycle input -> exists output, finalize input = Ok output).
Proof.
  intros W F. unfold finalize. split.
  - intros C. destruct (topological_sort_outcome input) as [(order & H)|H].
    + exfalso. exact (topological_sort_acyclic W H C).
    + now rewrite H.
  - intros C. destruct (topological_sort_returns C) as (topo & H).
    rewrite H. simpl. now apply finalize_with_total.
Qed.

Lemma finalize_throws_exactly_on_cycles_witness :
  graph_wf quartet_built /\ no_founder quartet_built
  /\ (has_cycle quartet_built -> finalize quartet_built = Throw NotADag)
  /\ (~ has_cycle quartet_built -> exists output, finalize quartet_built = Ok output).
Proof.
  assert (W : graph_wf quartet_built) by (apply graph_wfb_wf; reflexivity).
  assert (F : no_founder quartet_built) by (repeat constructor; discriminate).
  split; [exact W|]. split; [exact F|].
  exact (finalize_throws_exactly_on_cycles W F).
Defined.

(** ** The sexes of the parents, the ploidy and sex of a clone *)

Lemma foldM_split {A S : Type} (f : S -> A -> result S) (l1 l2 : list A) (a : A) :
  forall s s',
    foldM f (l1 ++ a :: l2) s = Ok s' ->
    exists sa sb, foldM f l1 s = Ok sa /\ f sa a = Ok sb /\ foldM f l2 sb = Ok s'.
Proof.
  induction l1 as [|b l1 IH]; simpl; intros s s' H.
  - apply bind_Ok_inv in H. destruct H as (sb & E1 & E2). exists s, sb. auto.
  - apply bind_Ok_inv in H. destruct H as (s1 & E1 & E2).
    destruct (IH _ _ E2) as (sa & sb & F1 & F2 & F3).
    exists sa, sb. rewrite E1. simpl. auto.
Qed.

(** One round of the loop on a member that is not a clone: the vertices
    keep their properties, a father was not female and a mother was not male
    when the member was linked to them. *)
Lemma add_edges_step_sexes (pedigree : Pedigree) (g g' : Graph) (v : vertex_t) :
  add_edges_step pedigree g v = Ok g' ->
  is_founder_member (GetMember pedigree v) = false ->
  ploidies g v <> 0%Z ->
  vertex_props g' = vertex_props g
  /\ (forall d, dad (GetMember pedigree v) = Some d ->
                sexes g (LookupMemberPosition pedigree d) <> Female)
  /\ (forall m, mom (GetMember pedigree v) = Some m ->
                sexes g (LookupMemberPosition pedigree m) <> Male).
Proof.
  unfold add_edges_step, is_founder_member.
  set (member := GetMember pedigree v). intros H F P. rewrite F in H.
  apply bind_Ok_inv in H. destruct H as (ploidy & Hp & H).
  apply get_Ok in Hp. destruct Hp as [Hv Hp]. fold (ploidies g v) in Hp. subst ploidy.
  destruct (ploidies g v =? 0)%Z eqn:Z0; [apply Z.eqb_eq in Z0; contradiction|].
  assert (NF : forall (s : Sex) (t : Sex) u,
             get vertex_sex g u = Ok s -> Sex_eqb s t = false -> sexes g u <> t).
  { intros s t u Hs Hne E. apply get_Ok in Hs. destruct Hs as [_ Hs].
    fold (sexes g u) in Hs. subst s. rewrite E in Hne.
    destruct t; discriminate. }
  destruct (ploidies g v =? 1)%Z eqn:Z1.
  - destruct (dad member) as [d|] eqn:D, (mom member) as [m|] eqn:M;
      simpl in H; try discriminate.
    + apply bind_Ok_inv in H. destruct H as ([parent len] & PL & H).
      apply bind_Ok_inv in PL. destruct PL as (s & Hs & PL).
      destruct (Sex_eqb s Female) eqn:C; [discriminate|].
      destruct (_ <=? _); [discriminate|]. inversion H; subst g'.
      split; [reflexivity|]. split.
      * intros d0 E. inversion E; subst d0. eapply NF; eauto.
      * intros m0 E. discriminate.
    + apply bind_Ok_inv in H. destruct H as ([parent len] & PL & H).
      apply bind_Ok_inv in PL. destruct PL as (s & Hs & PL).
      destruct (Sex_eqb s Male) eqn:C; [discriminate|].
      destruct (_ <=? _); [discriminate|]. inversion H; subst g'.
      split; [reflexivity|]. split.
      * intros d0 E. discriminate.
      * intros m0 E. inversion E; subst m0. eapply NF; eauto.
    + apply orb_false_iff in F. destruct F as [_ F]. discriminate.
  - destruct (dad member) as [d|] eqn:D; [|discriminate].
    destruct (mom member) as [m|] eqn:M; [|discriminate].
    destruct (_ <=? _); [discriminate|]. destruct (_ <=? _); [discriminate|].
    apply bind_Ok_inv in H. destruct H as (sd & Hsd & H).
    destruct (Sex_eqb sd Female) eqn:C1; [discriminate|].
    apply bind_Ok_inv in H. destruct H as (sm & Hsm & H).
    destruct (Sex_eqb sm Male) eqn:C2; [discriminate|].
    inversion H; subst g'.
    split; [reflexivity|]. split.
    + intros d0 E. inversion E; subst d0. eapply NF; eauto.
    + intros m0 E. inversion E; subst m0. eapply NF; eauto.
Qed.

(** One round on a clone: the clone takes the ploidy and the sex its parent
    has at that point. *)
Lemma add_edges_step_clone (pedigree : Pedigree) (g g' : Graph) (v : vertex_t) :
  add_edges_step pedigree g v = Ok g' ->
  is_founder_member (GetMember pedigree v) = false ->
  ploidies g v = 0%Z ->
  exists d, (dad (GetMember pedigree v) = Some d \/ mom (GetMember pedigree v) = Some d)
            /\ (LookupMemberPosition pedigree d <> v ->
                ploidies g' v = ploidies g (LookupMemberPosition pedigree d)
                /\ sexes g' v = sexes g (LookupMemberPosition pedigree d)).
Proof.
  unfold add_edges_step, is_founder_member.
  set (member := GetMember pedigree v). intros H F P. rewrite F in H.
  apply bind_Ok_inv in H. destruct H as (ploidy & Hp & H).
  apply get_Ok in Hp. destruct Hp as [Hv Hp]. fold (ploidies g v) in Hp. subst ploidy.
  rewrite P in H. simpl in H.
  destruct (is_some (dad member) && is_some (mom member)) eqn:B; [discriminate|].
  assert (K : forall parent len,
             (if NumberOfMembers pedigree <=? parent
              then Throw (PedigreeInvalid
                            ("Unable to construct graph for pedigree; the clone parent of '"
                             ++ name member ++ "' is unknown.")%string)
              else
                do ploidy <- get vertex_ploidy (add_edge parent v len GERM_EDGE g) parent ;
                do sex <- get vertex_sex
                            (put_vertex v (set_ploidy ploidy)
                                        (add_edge parent v len GERM_EDGE g)) parent ;
                Ok (put_vertex v (set_sex sex)
                      (put_vertex v (set_ploidy ploidy)
                                  (add_edge parent v len GERM_EDGE g)))) = Ok g' ->
             parent <> v ->
             ploidies g' v = ploidies g parent /\ sexes g' v = sexes g parent).
  { intros parent len K Hne. destruct (_ <=? _); [discriminate|].
    apply bind_Ok_inv in K. destruct K as (pl & Hpl & K).
    apply bind_Ok_inv in K. destruct K as (sx & Hsx & K).
    apply get_Ok in Hpl. destruct Hpl as [_ Hpl].
    apply get_Ok in Hsx. destruct Hsx as [_ Hsx].
    inversion K; subst g'; clear K.
    assert (Epl : pl = ploidies g parent) by exact Hpl.
    assert (Esx : sx = sexes g parent).
    { rewrite Hsx. unfold sexes, prop, put_vertex; simpl. rewrite nth_update_nth.
      destruct (Nat.eqb_spec v parent); [congruence|reflexivity]. }
    apply Nat.ltb_lt in Hv.
    split.
    - unfold ploidies, prop, put_vertex; simpl.
      rewrite nth_update_nth, update_nth_length, nth_update_nth, Nat.eqb_refl.
      unfold num_vertices in Hv. rewrite Hv. simpl. exact Epl.
    - unfold sexes at 1, prop, put_vertex; simpl.
      rewrite nth_update_nth, update_nth_length, Nat.eqb_refl.
      unfold num_vertices in Hv. rewrite Hv. simpl. exact Esx. }
  destruct (dad member) as [d|] eqn:D.
  - exists d. split; [now left|]. intros Hne. eapply K; eauto.
  - destruct (mom member) as [m|] eqn:M.
    + exists m. split; [now right|]. intros Hne. simpl in H. eapply K; eauto.
    + apply orb_false_iff in F. destruct F as [_ F]. discriminate.
Qed.
Lemma seq_split_at (n v : nat) :
  v < n -> seq 0 n = seq 0 v ++ v :: seq (S v) (n - S v).
Proof.
  intros H. replace n with (v + S (n - S v)) at 1 by lia.
  rewrite seq_app. simpl. reflexivity.
Qed.

Lemma add_edges_step_founder (pedigree : Pedigree) (g : Graph) (v : vertex_t) :
  is_founder_member (GetMember pedigree v) = true -> add_edges_step pedigree g v = Ok g.
Proof. unfold add_edges_step, is_founder_member. intros ->. reflexivity. Qed.

Lemma member_vertices_length (pedigree : Pedigree) :
  num_vertices (member_vertices pedigree) = NumberOfMembers pedigree.
Proof.
  rewrite member_vertices_eq. unfold num_vertices; simpl.
  now rewrite length_map, length_seq.
Qed.

(** The vertices of the members that are not clones keep the properties
    they were created with all along the loop. *)
Lemma add_edges_loop_keeps_non_clones (pedigree : Pedigree) (l : list vertex_t) (g g' : Graph) :
  (forall w, w < NumberOfMembers pedigree ->
             get_ploidy (GetMember pedigree w) <> 0%Z ->
             prop g w = prop (member_vertices pedigree) w) ->
  (forall a, In a l -> a < NumberOfMembers pedigree) ->
  foldM (add_edges_step pedigree) l g = Ok g' ->
  forall w, w < NumberOfMembers pedigree ->
            get_ploidy (GetMember pedigree w) <> 0%Z ->
            prop g' w = prop (member_vertices pedigree) w.
Proof.
  revert g. induction l as [|a l IH]; simpl; intros g I Hl H.
  - inversion H; subst. exact I.
  - apply bind_Ok_inv in H. destruct H as (g1 & E1 & E2).
    apply (IH g1); [|intros b Hb; apply Hl; now right|exact E2].
    intros w Hw Pw.
    destruct (Nat.eq_dec w a) as [->|Hne].
    + destruct (is_founder_member (GetMember pedigree a)) eqn:F.
      * rewrite add_edges_step_founder in E1 by exact F. inversion E1; subst. now apply I.
      * assert (Pa : ploidies g a <> 0%Z).
        { unfold ploidies. rewrite (I a Hw Pw), member_vertices_prop by exact Hw. exact Pw. }
        destruct (add_edges_step_sexes _ _ _ E1 F Pa) as (Hp & _).
        unfold prop at 1. rewrite Hp. now apply I.
    + apply add_edges_step_shape in E1. destruct E1 as (_ & Hs & _).
      rewrite (Hs w Hne). now apply I.
Qed.

(** X27 -- in a pedigree [add_edges_to_pedigree_graph] returns for, a member
    that is linked to its parents (not a founder, not a clone) has no father
    declared female and no mother declared male, as far as that parent is not
    a clone (a clone takes the sex of its own parent). *)
Theorem pedigree_graph_parents_have_matching_sex (pedigree : Pedigree) (g : Graph) :
  add_edges_to_pedigree_graph pedigree (member_vertices pedigree) = Ok g ->
  forall v, v < NumberOfMembers pedigree ->
    is_founder_member (GetMember pedigree v) = false ->
    get_ploidy (GetMember pedigree v) <> 0%Z ->
    (forall d, dad (GetMember pedigree v) = Some d ->
       get_ploidy (GetMember pedigree (LookupMemberPosition pedigree d)) <> 0%Z ->
       sex (GetMember pedigree (LookupMemberPosition pedigree d)) <> Female)
    /\ (forall m, mom (GetMember pedigree v) = Some m ->
          get_ploidy (GetMember pedigree (LookupMemberPosition pedigree m)) <> 0%Z ->
          sex (GetMember pedigree (LookupMemberPosition pedigree m)) <> Male).
Proof.
  unfold add_edges_to_pedigree_graph, vertices. rewrite member_vertices_length.
  intros H v Hv F P. rewrite (seq_split_at Hv) in H.
  apply foldM_split in H. destruct H as (ga & gb & H1 & H2 & _).
  assert (I : forall w, w < NumberOfMembers pedigree ->
                        get_ploidy (GetMember pedigree w) <> 0%Z ->
                        prop ga w = prop (member_vertices pedigree) w).
  { eapply add_edges_loop_keeps_non_clones; [| |exact H1]; [reflexivity|].
    intros a Ha. apply in_seq in Ha. lia. }
  assert (Pa : ploidies ga v <> 0%Z).
  { unfold ploidies. rewrite (I v Hv P), member_vertices_prop by exact Hv. exact P. }
  destruct (add_edges_step_sexes _ _ _ H2 F Pa) as (_ & Hd & Hm).
  assert (K : forall u (s : Sex),
             s <> Unknown ->
             get_ploidy (GetMember pedigree u) <> 0%Z ->
             sexes ga u <> s -> sex (GetMember pedigree u) <> s).
  { intros u s Hs Pu Hne.
    destruct (Nat.lt_ge_cases u (NumberOfMembers pedigree)) as [Hu|Hu].
    - unfold sexes in Hne. rewrite (I u Hu Pu), member_vertices_prop in Hne by exact Hu.
      exact Hne.
    - unfold GetMember. rewrite nth_overflow by exact Hu. simpl. congruence. }
  split.
  - intros d D Pd. apply K; [discriminate|exact Pd|]. now apply Hd.
  - intros m M Pm. apply K; [discriminate|exact Pm|]. now apply Hm.
Qed.

Lemma pedigree_graph_parents_have_matching_sex_witness :
  exists g,
    add_edges_to_pedigree_graph loop_pedigree (member_vertices loop_pedigree) = Ok g
    /\ 3 < NumberOfMembers loop_pedigree
    /\ is_founder_member (GetMember loop_pedigree 3) = false
    /\ get_ploidy (GetMember loop_pedigree 3) <> 0%Z
    /\ (forall d, dad (GetMember loop_pedigree 3) = Some d ->
          get_ploidy (GetMember loop_pedigree (LookupMemberPosition loop_pedigree d)) <> 0%Z ->
          sex (GetMember loop_pedigree (LookupMemberPosition loop_pedigree d)) <> Female)
    /\ (forall m, mom (GetMember loop_pedigree 3) = Some m ->
          get_ploidy (GetMember loop_pedigree (LookupMemberPosition loop_pedigree m)) <> 0%Z ->
          sex (GetMember loop_pedigree (LookupMemberPosition loop_pedigree m)) <> Male).
Proof.
  eexists. split; [vm_compute; reflexivity|]. split; [vm_compute; lia|].
  split; [reflexivity|]. split; [vm_compute; discriminate|].
  eapply (@pedigree_graph_parents_have_matching_sex loop_pedigree).
  - vm_compute. reflexivity.
  - vm_compute. lia.
  - reflexivity.
  - vm_compute. discriminate.
Defined.

(** X28 -- in the graph [add_edges_to_pedigree_graph] returns, a clone that
    is listed after its parent has the ploidy and the sex of its parent. *)
Theorem clone_listed_after_its_parent_takes_its_ploidy_and_sex
    (pedigree : Pedigree) (g : Graph) :
  add_edges_to_pedigree_graph pedigree (member_vertices pedigree) = Ok g ->
  forall v, v < NumberOfMembers pedigree ->
    is_founder_member (GetMember pedigree v) = false ->
    get_ploidy (GetMember pedigree v) = 0%Z ->
    exists d,
      (dad (GetMember pedigree v) = Some d \/ mom (GetMember pedigree v) = Some d)
      /\ (LookupMemberPosition pedigree d < v ->
          ploidies g v = ploidies g (LookupMemberPosition pedigree d)
          /\ sexes g v = sexes g (LookupMemberPosition pedigree d)).
Proof.
  unfold add_edges_to_pedigree_graph, vertices. rewrite member_vertices_length.
  intros H v Hv F P. rewrite (seq_split_at Hv) in H.
  apply foldM_split in H. destruct H as (ga & gb & H1 & H2 & H3).
  pose proof (@add_edges_loop_shape pedigree _ (seq_NoDup v 0) _ _ H1) as (_ & _ & Fa & _).
  pose proof (@add_edges_loop_shape pedigree _
                (seq_NoDup (NumberOfMembers pedigree - S v) (S v)) _ _ H3)
    as (_ & _ & Fb & _).
  assert (Pa : ploidies ga v = 0%Z).
  { unfold ploidies. rewrite Fa by (rewrite in_seq; lia).
    rewrite member_vertices_prop by exact Hv. exact P. }
  destruct (add_edges_step_clone _ _ _ H2 F Pa) as (d & Hd & K).
  exists d. split; [exact Hd|]. intros Hlt.
  set (u := LookupMemberPosition pedigree d) in *.
  destruct K as [Kp Ks]; [lia|].
  pose proof H2 as H2'. apply add_edges_step_shape in H2'. destruct H2' as (_ & Hs & _).
  assert (Eu : prop g u = prop ga u).
  { rewrite Fb by (rewrite in_seq; lia). apply Hs. lia. }
  assert (Ev : prop g v = prop gb v) by (apply Fb; rewrite in_seq; lia).
  unfold ploidies, sexes in *. rewrite Eu, Ev. auto.
Qed.

Lemma clone_listed_after_its_parent_takes_its_ploidy_and_sex_witness :
  exists g,
    add_edges_to_pedigree_graph clone_pedigree (member_vertices clone_pedigree) = Ok g
    /\ 1 < NumberOfMembers clone_pedigree
    /\ is_founder_member (GetMember clone_pedigree 1) = false
    /\ get_ploidy (GetMember clone_pedigree 1) = 0%Z
    /\ exists d,
         (dad (GetMember clone_pedigree 1) = Some d \/ mom (GetMember clone_pedigree 1) = Some d)
         /\ (LookupMemberPosition clone_pedigree d < 1 ->
             ploidies g 1 = ploidies g (LookupMemberPosition clone_pedigree d)
             /\ sexes g 1 = sexes g (LookupMemberPosition clone_pedigree d)).
Proof.
  eexists. split; [vm_compute; reflexivity|]. split; [vm_compute; lia|].
  split; [reflexivity|]. split; [reflexivity|].
  eapply (@clone_listed_after_its_parent_takes_its_ploidy_and_sex clone_pedigree).
  - vm_compute. reflexivity.
  - vm_compute. lia.
  - reflexivity.
  - reflexivity.
Defined.

(** ** What an elimination with a positive score leaves behind *)

(** X29 -- when a vertex is eliminated with a positive score and the round
    returns, every other neighbour of the vertex ends up listed in its own
    neighbour set: the clique update inserts the whole set [k] into the set
    of each member of [k], the member itself included. *)
Theorem positive_score_elimination_makes_neighbours_their_own_neighbours
    (score : Z) (v : vertex_t) (st st' : elim_state) (a : vertex_t) :
  (forall b, sorted (nb_get (st_neighbors st) b)) ->
  eliminate score v st = Ok st' ->
  (0 < score)%Z ->
  In a (nb_get (st_neighbors st) v) -> a < List.length (st_neighbors st) -> a <> v ->
  In a (nb_get (st_neighbors st') a).
Proof.
  intros Hs H Hpos Ha Hr Hne.
  destruct (@eliminate_Ok score v st st' (Hs v) H) as (_ & _ & Hnb & _).
  rewrite (Hnb a). rewrite set_contains_true by exact Ha.
  apply Nat.ltb_lt in Hr. rewrite Hr. simpl.
  apply clique_update_In; [apply Hs|]. split; [|exact Hne].
  right. split; [lia | exact Ha].
Qed.

Lemma positive_score_elimination_makes_neighbours_their_own_neighbours_witness :
  exists st',
    (forall b, sorted (nb_get (st_neighbors fork_state) b))
    /\ eliminate 1 0 fork_state = Ok st'
    /\ (0 < 1)%Z
    /\ In 1 (nb_get (st_neighbors fork_state) 0)
    /\ 1 < List.length (st_neighbors fork_state)
    /\ 1 <> 0
    /\ In 1 (nb_get (st_neighbors st') 1).
Proof.
  assert (S0 : forall b, sorted (nb_get (st_neighbors fork_state) b)).
  { intros b. do 3 (destruct b as [|b]; [repeat constructor|]).
    unfold nb_get. simpl. destruct b; constructor. }
  eexists. split; [exact S0|]. split; [vm_compute; reflexivity|].
  split; [lia|]. split; [left; reflexivity|]. split; [simpl; lia|]. split; [discriminate|].
  eapply (@positive_score_elimination_makes_neighbours_their_own_neighbours 1%Z 0 fork_state).
  - exact S0.
  - vm_compute. reflexivity.
  - lia.
  - left. reflexivity.
  - simpl. lia.
  - discriminate.
Defined.

(** ** The chain of scaled branch lengths behind an edge *)





(** What a bypass does to the edges, when it does anything: the vertex has
    exactly one out-edge and at least one in-edge, every in-edge is
    prolonged to the child, and the edges at the vertex go. *)
Lemma bypass_cases (g : Graph) (v : vertex_t) :
  bypass g v = g
  \/ exists out_edge,
       out_edges g v = [out_edge]
       /\ in_edges g v <> []
       /\ edge_list (bypass g v)
          = filter (fun e => negb ((source e =? v) || (target e =? v)))
              (edge_list g
               ++ map (fun e => mkEdge (source e) (target out_edge)
                                       (float_add (edge_length out_edge) (edge_length e))
                                       (N.lor (edge_type out_edge) (edge_type e)))
                      (in_edges g v)).
Proof.
  unfold bypass.
  destruct ((in_degree g v =? 0) || negb (out_degree g v =? 1)) eqn:C; [now left|].
  apply orb_false_iff in C. destruct C as [C1 C2].
  apply Nat.eqb_neq in C1. apply negb_false_iff in C2. apply Nat.eqb_eq in C2.
  destruct (out_edges g v) as [|out_edge r] eqn:Eout; [now left|].
  destruct (_ <? _); [now left|]. destruct (negb _); [now left|].
  right. exists out_edge. split; [|split].
  - unfold out_degree in C2. rewrite Eout in C2. destruct r; [reflexivity|discriminate].
  - intros E. apply C1. unfold in_degree. now rewrite E.
  - unfold clear_vertex, remove_edge_if; simpl. now rewrite bypass_new_edges.
Qed.








(** ** What the builder hands on *)

Lemma built_graph_inv (P : Graph -> Prop)
    (parse_newick : string -> Graph -> vertex_t -> bool -> bool * Graph)
    (pedigree : Pedigree) (known_samples : list string) (normalize : bool) (g0 : Graph) :
  (forall g1, add_edges_to_pedigree_graph pedigree (member_vertices pedigree) = Ok g1 -> P g1) ->
  (forall text g i, i < NumberOfMembers pedigree -> P g ->
                    P (snd (parse_newick text g i normalize))) ->
  (forall g, P g -> P (mark_known_samples known_samples g)) ->
  construct_pedigree_graph parse_newick pedigree known_samples normalize = Ok g0 ->
  P g0.
Proof.
  intros Hadd Hparse Hmark. unfold construct_pedigree_graph.
  fold (member_vertices pedigree). intros H.
  apply bind_Ok_inv in H. destruct H as (g1 & H1 & H).
  apply bind_Ok_inv in H. destruct H as (g2 & H2 & H).
  inversion H; subst g0; clear H.
  apply Hmark. apply Hadd in H1.
  assert (K : forall l s s',
             (forall i, In i l -> i < NumberOfMembers pedigree) -> P s ->
             foldM (fun g i =>
                      foldM (fun g sample =>
                               let '(ok, g') := parse_newick sample g i normalize in
                               if negb ok then
                                 Throw (SomaticParseError
                                          ("Unable to parse somatic data for individual '"
                                           ++ name (GetMember pedigree i) ++ "'.")%string)
                               else Ok g')
                            (samples (GetMember pedigree i)) g) l s = Ok s' -> P s').
  { induction l as [|i l IH]; simpl; intros s s' Hl Hs E.
    - inversion E; subst; assumption.
    - apply bind_Ok_inv in E. destruct E as (s1 & E1 & E2).
      apply (IH s1 s'); [intros j Hj; apply Hl; now right | | exact E2].
      revert E1. apply foldM_preserves; [|exact Hs].
      intros t text t' Ht E. specialize (Hparse text t i (Hl i (or_introl eq_refl)) Ht).
      destruct (parse_newick text t i normalize) as [ok t1]. simpl in Hparse.
      destruct (negb ok); [discriminate|]. inversion E; subst. assumption. }
  apply (K (seq 0 (NumberOfMembers pedigree)) g1 g2); [|exact H1|exact H2].
  intros i Hi. apply in_seq in Hi. lia.
Qed.

Lemma in_degree_out_of_range (g : Graph) (x : vertex_t) :
  graph_wf g -> num_vertices g <= x -> in_degree g x = 0.
Proof.
  intros W Hx. apply in_degree_zero. intros e He Ht. destruct (W e He). lia.
Qed.

Lemma built_inv_add_edges (pedigree : Pedigree) (g1 : Graph) :
  add_edges_to_pedigree_graph pedigree (member_vertices pedigree) = Ok g1 ->
  built_inv (NumberOfMembers pedigree) g1.
Proof.
  unfold add_edges_to_pedigree_graph. intros H.
  assert (N0 : num_vertices (member_vertices pedigree) = NumberOfMembers pedigree).
  { rewrite member_vertices_eq. unfold num_vertices; simpl.
    now rewrite length_map, length_seq. }
  assert (E0 : edge_list (member_vertices pedigree) = [])
    by (now rewrite member_vertices_eq).
  apply add_edges_loop_shape in H; [|apply seq_NoDup].
  destruct H as (Hn & Hlt & _ & new & He & Hf & Hc).
  rewrite E0 in He; simpl in He. rewrite N0 in Hn.
  assert (W : graph_wf g1).
  { intros e Hin. rewrite He in Hin. rewrite Forall_forall in Hf.
    destruct (Hf e Hin) as (T & _ & S & _).
    unfold vertices in T. rewrite N0 in T. apply in_seq in T. lia. }
  split; [exact W|]. split; [lia|]. split.
  - intros x. destruct (Nat.lt_ge_cases x (NumberOfMembers pedigree)) as [Hx|Hx].
    + unfold in_degree, in_edges. rewrite He.
      rewrite Hc by (unfold vertices; rewrite N0; apply in_seq; lia).
      destruct (is_founder_member _); [lia|]. destruct (_ || _); lia.
    + rewrite in_degree_out_of_range by (assumption || lia). lia.
  - intros x Hx Ht. exfalso. apply Ht. destruct (Hlt x) as [_ T]. rewrite T.
    unfold types. rewrite member_vertices_prop by lia. reflexivity.
Qed.

Lemma count_target_app (l : list Edge) (w : vertex_t) (new : list Edge) :
  List.length (filter (fun e => target e =? w) (l ++ new))
  = List.length (filter (fun e => target e =? w) l)
    + List.length (filter (fun e => target e =? w) new).
Proof. now rewrite filter_app, length_app. Qed.

Lemma built_inv_parse
    (parse_newick : string -> Graph -> vertex_t -> bool -> bool * Graph)
    (n : nat) (text : string) (g : Graph) (i : vertex_t) (normalize : bool) :
  appends_tree parse_newick -> i < n -> built_inv n g ->
  built_inv n (snd (parse_newick text g i normalize)).
Proof.
  intros Hp Hi (W & Hn & H2 & Hr).
  destruct (Hp text g i normalize) as (nv & ne & -> & Hv & He & Hc); [lia|].
  rewrite Forall_forall in He.
  assert (N : num_vertices (mkGraph (vertex_props g ++ nv) (edge_list g ++ ne))
              = num_vertices g + List.length nv).
  { unfold num_vertices; simpl. now rewrite length_app. }
  assert (D : forall x, in_degree (mkGraph (vertex_props g ++ nv) (edge_list g ++ ne)) x
                        = in_degree g x
                          + List.length (filter (fun e => target e =? x) ne)).
  { intros x. unfold in_degree, in_edges; simpl. apply count_target_app. }
  assert (Dold : forall x, x < num_vertices g ->
                   List.length (filter (fun e => target e =? x) ne) = 0).
  { intros x Hx. apply count_target_none. apply Forall_forall. intros e Hin.
    destruct (He e Hin) as (_ & T & _). lia. }
  split; [|split; [|split]].
  - intros e Hin. simpl in Hin. rewrite N. apply in_app_or in Hin.
    destruct Hin as [Hin|Hin].
    + destruct (W e Hin). lia.
    + destruct (He e Hin) as (S & T1 & T2). lia.
  - rewrite N. lia.
  - intros x. rewrite D.
    destruct (Nat.lt_ge_cases x (num_vertices g)) as [Hx|Hx].
    + rewrite (Dold x Hx). specialize (H2 x). lia.
    + rewrite (in_degree_out_of_range W Hx).
      destruct (Nat.lt_ge_cases x (num_vertices g + List.length nv)) as [Hx'|Hx'].
      * rewrite (Hc x Hx Hx'). lia.
      * rewrite count_target_none; [lia|]. apply Forall_forall. intros e Hin.
        destruct (He e Hin) as (_ & _ & T). lia.
  - intros x Hx Ht. rewrite N in Hx. rewrite D.
    destruct (Nat.lt_ge_cases x (num_vertices g)) as [Hx'|Hx'].
    + assert (1 <= in_degree g x); [|lia]. apply Hr; [exact Hx'|].
      intros E. apply Ht. unfold types, prop in *; simpl.
      rewrite app_nth1 by exact Hx'. exact E.
    + rewrite (Hc x Hx' Hx). lia.
Qed.

Lemma built_inv_mark (n : nat) (known : list string) (g : Graph) :
  built_inv n g -> built_inv n (mark_known_samples known g).
Proof.
  intros (W & Hn & H2 & Hr).
  destruct (@mark_loop known (vertices g) (seq_NoDup _ _) g) as (He & Hnum & Hp).
  fold (mark_known_samples known g) in He, Hnum, Hp.
  assert (D : forall x, in_degree (mark_known_samples known g) x = in_degree g x).
  { intros x. unfold in_degree, in_edges. now rewrite He. }
  split; [|split; [|split]].
  - intros e Hin. rewrite He in Hin. rewrite Hnum. exact (W e Hin).
  - now rewrite Hnum.
  - intros x. rewrite D. apply H2.
  - intros x Hx Ht. rewrite D. rewrite Hnum in Hx. apply Hr; [exact Hx|].
    intros E. apply Ht. unfold types. rewrite Hp.
    destruct (_ && _) eqn:C; [|exact E].
    apply andb_true_iff in C. destruct C as [C _]. apply andb_true_iff in C.
    destruct C as [_ C]. apply VertexType_eqb_eq in C. congruence.
Qed.

(** The graph of the builder, for a parser that appends trees. *)
Lemma built_graph_shape
    (parse_newick : string -> Graph -> vertex_t -> bool -> bool * Graph)
    (pedigree : Pedigree) (known_samples : list string) (normalize : bool) (g0 : Graph) :
  appends_tree parse_newick ->
  construct_pedigree_graph parse_newick pedigree known_samples normalize = Ok g0 ->
  built_inv (NumberOfMembers pedigree) g0.
Proof.
  intros Hp. apply built_graph_inv.
  - apply built_inv_add_edges.
  - intros text g i Hi. now apply built_inv_parse.
  - intros g. apply built_inv_mark.
Qed.

(** ** The degrees of a sample vertex *)

Lemma in_degree_pos_edge (g : Graph) (x : vertex_t) :
  0 < in_degree g x -> exists e, In e (edge_list g) /\ target e = x.
Proof.
  unfold in_degree, in_edges. intros H.
  destruct (filter (fun e => target e =? x) (edge_list g)) as [|e l] eqn:E;
    [simpl in H; lia|].
  assert (He : In e (filter (fun e => target e =? x) (edge_list g)))
    by (rewrite E; left; reflexivity).
  apply filter_In in He. destruct He as [He Ht]. apply Nat.eqb_eq in Ht. eauto.
Qed.

Lemma out_degree_pos_edge (g : Graph) (x : vertex_t) :
  0 < out_degree g x -> exists e, In e (edge_list g) /\ source e = x.
Proof.
  unfold out_degree, out_edges. intros H.
  destruct (filter (fun e => source e =? x) (edge_list g)) as [|e l] eqn:E;
    [simpl in H; lia|].
  assert (He : In e (filter (fun e => source e =? x) (edge_list g)))
    by (rewrite E; left; reflexivity).
  apply filter_In in He. destruct He as [He Ht]. apply Nat.eqb_eq in Ht. eauto.
Qed.

(** [hangs_below_parent], edge by edge: a vertex that is not a germline
    vertex and has an out-edge has an in-edge. *)
Lemma hangs_below_parent_edges (g : Graph) :
  hangs_below_parent g
  <-> forall x e', types g x <> Germline -> In e' (edge_list g) -> source e' = x ->
                   exists e, In e (edge_list g) /\ target e = x.
Proof.
  split.
  - intros H x e' Ht He' Hs. destruct (in_degree g x) as [|k] eqn:I.
    + exfalso. specialize (H x Ht I). rewrite out_degree_zero in H. exact (H e' He' Hs).
    + apply in_degree_pos_edge. lia.
  - intros H x Ht I. destruct (out_degree g x) as [|k] eqn:O; [reflexivity|]. exfalso.
    destruct (@out_degree_pos_edge g x) as (e' & He' & Hs); [lia|].
    destruct (H x e' Ht He' Hs) as (e & He & Te).
    rewrite in_degree_zero in I. exact (I e He Te).
Qed.

Lemma types_same_props (g g' : Graph) (x : vertex_t) :
  vertex_props g' = vertex_props g -> types g' x = types g x.
Proof. intros E. unfold types, prop. now rewrite E. Qed.

Lemma hangs_cull_leaf (g : Graph) (v : vertex_t) :
  hangs_below_parent g -> hangs_below_parent (cull_leaf g v).
Proof.
  rewrite !hangs_below_parent_edges. intros H. unfold cull_leaf.
  destruct ((out_degree g v =? 0) && _) eqn:C; [|exact H].
  apply andb_true_iff in C. destruct C as [C _]. apply Nat.eqb_eq in C.
  rewrite out_degree_zero in C.
  intros x e' Ht He' Hs. apply clear_vertex_In in He'. destruct He' as (He' & S' & T').
  destruct (H x e' Ht He' Hs) as (e & He & Te).
  exists e. split; [|exact Te]. apply clear_vertex_In.
  split; [exact He|]. split; [now apply C | congruence].
Qed.

Lemma hangs_unlink_founders (g : Graph) (v : vertex_t) :
  hangs_below_parent g -> hangs_below_parent (unlink_founders g v).
Proof.
  rewrite !hangs_below_parent_edges. intros H. unfold unlink_founders.
  destruct (negb (VertexType_eqb (types g v) Germline)) eqn:C; [exact H|].
  apply negb_false_iff in C. apply VertexType_eqb_eq in C.
  destruct (in_edges g v) as [|e0 r0]; [exact H|]. destruct (forallb _ _); [|exact H].
  intros x e' Ht He' Hs. apply clear_in_edges_In in He'. destruct He' as (He' & T').
  destruct (H x e' Ht He' Hs) as (e & He & Te).
  exists e. split; [|exact Te]. apply clear_in_edges_In. split; [exact He|].
  intros E. apply Ht. rewrite <- Te, E. exact C.
Qed.

Lemma hangs_bypass (g : Graph) (v : vertex_t) :
  hangs_below_parent g -> hangs_below_parent (bypass g v).
Proof.
  intros H. destruct (bypass_cases g v) as [->|(out_edge & Eout & Ein & El)]; [exact H|].
  revert H. rewrite !hangs_below_parent_edges. intros H x e' Ht He' Hs.
  rewrite (@types_same_props _ _ x (vertex_props_bypass g v)) in Ht.
  rewrite El in He' |- *. apply filter_In in He'. destruct He' as (He' & F').
  apply negb_true_iff in F'. apply orb_false_iff in F'. destruct F' as [S' T'].
  apply Nat.eqb_neq in S', T'.
  assert (Hxv : x <> v) by congruence.
  assert (Hout : exists e1, In e1 (edge_list g) /\ source e1 = x).
  { apply in_app_or in He'. destruct He' as [He'|He']; [eauto|].
    apply in_map_iff in He'. destruct He' as (e0 & <- & He0).
    unfold in_edges in He0. apply filter_In in He0. destruct He0 as [He0 _].
    exists e0. auto. }
  destruct Hout as (e1 & He1 & Hs1).
  destruct (H x e1 Ht He1 Hs1) as (e & He & Te).
  assert (Hone : forall a, In a (edge_list g) -> source a = v -> a = out_edge).
  { intros a Ha Sa.
    assert (Hin : In a (out_edges g v)).
    { unfold out_edges. apply filter_In. split; [exact Ha | now apply Nat.eqb_eq]. }
    rewrite Eout in Hin. destruct Hin as [<-|[]]. reflexivity. }
  destruct (Nat.eq_dec (source e) v) as [Sv|Sv].
  - pose proof (Hone e He Sv) as Eo. subst e.
    destruct (in_edges g v) as [|e0 r] eqn:Ei; [congruence|].
    assert (Hi0 : In e0 (in_edges g v)) by (rewrite Ei; now left).
    unfold in_edges in Hi0. apply filter_In in Hi0. destruct Hi0 as [He0 T0].
    apply Nat.eqb_eq in T0.
    assert (S0 : source e0 <> v).
    { intros S0. pose proof (Hone e0 He0 S0) as E0. subst e0. congruence. }
    exists (mkEdge (source e0) (target out_edge)
                   (float_add (edge_length out_edge) (edge_length e0))
                   (N.lor (edge_type out_edge) (edge_type e0))).
    split; [|exact Te]. apply filter_In. split.
    + apply in_or_app. right. simpl. now left.
    + simpl. apply negb_true_iff. apply orb_false_iff.
      split; apply Nat.eqb_neq; congruence.
  - exists e. split; [|exact Te]. apply filter_In. split; [apply in_or_app; now left|].
    apply negb_true_iff. apply orb_false_iff. split; apply Nat.eqb_neq; congruence.
Qed.

Lemma update_edge_lengths_In (g : Graph) (mu_germ mu_soma : double) (e' : Edge) :
  In e' (edge_list (update_edge_lengths g mu_germ mu_soma))
  <-> exists e, In e (edge_list g) /\ source e' = source e /\ target e' = target e
                /\ edge_type e' = edge_type e
                /\ edge_length e' = scaled mu_germ mu_soma e.
Proof.
  unfold update_edge_lengths; simpl. rewrite in_map_iff. split.
  - intros (e & <- & He). exists e. split; [exact He|].
    unfold scaled, mu_of. destruct (has_germ (edge_type e)); simpl; auto.
  - intros (e & He & S & T & Ty & L). exists e. split; [|exact He].
    unfold scaled, mu_of in L. destruct e' as [s t l ty]. simpl in *. subst.
    destruct (has_germ (edge_type e)); reflexivity.
Qed.

Lemma hangs_update_edge_lengths (g : Graph) (mu_germ mu_soma : double) :
  hangs_below_parent g -> hangs_below_parent (update_edge_lengths g mu_germ mu_soma).
Proof.
  rewrite !hangs_below_parent_edges. intros H x e' Ht He' Hs.
  apply update_edge_lengths_In in He'. destruct He' as (e1 & He1 & S1 & _).
  destruct (H x e1 Ht He1) as (e & He & Te); [congruence|].
  exists (mkEdge (source e) (target e) (scaled mu_germ mu_soma e) (edge_type e)).
  split; [|exact Te]. apply update_edge_lengths_In. exists e. simpl. auto.
Qed.

Lemma hangs_simplify_with (order : list vertex_t) (g : Graph) :
  hangs_below_parent g -> hangs_below_parent (simplify_with order g).
Proof.
  intros H. unfold simplify_with.
  apply fold_left_preserves; [intros; now apply hangs_bypass|].
  apply fold_left_preserves; [intros; now apply hangs_unlink_founders|].
  apply fold_left_preserves; [intros; now apply hangs_cull_leaf|]. exact H.
Qed.

(** The simplifier gives no vertex its first out-edge. *)
Lemma simplify_with_sources (order : list vertex_t) (g : Graph) (e' : Edge) :
  In e' (edge_list (simplify_with order g)) ->
  exists e, In e (edge_list g) /\ source e = source e'.
Proof.
  revert e'. unfold simplify_with.
  apply (fold_left_preserves
           (fun h => forall e', In e' (edge_list h) ->
                                exists e, In e (edge_list g) /\ source e = source e')).
  { intros h v Hh e' He'.
    destruct (bypass_cases h v) as [E|(out_edge & _ & _ & El)];
      [rewrite E in He'; auto|].
    rewrite El in He'. apply filter_In in He'. destruct He' as [He' _].
    apply in_app_or in He'. destruct He' as [He'|He']; [auto|].
    apply in_map_iff in He'. destruct He' as (e0 & <- & He0).
    unfold in_edges in He0. apply filter_In in He0. destruct He0 as [He0 _].
    simpl. auto. }
  apply (fold_left_preserves
           (fun h => forall e', In e' (edge_list h) ->
                                exists e, In e (edge_list g) /\ source e = source e')).
  { intros h v Hh e' He'. apply Hh. revert He'. unfold unlink_founders.
    destruct (negb _); [auto|]. destruct (in_edges h v) as [|e0 r0]; [auto|].
    destruct (forallb _ _); [|auto]. apply remove_edge_if_incl. }
  apply (fold_left_preserves
           (fun h => forall e', In e' (edge_list h) ->
                                exists e, In e (edge_list g) /\ source e = source e')).
  { intros h v Hh e' He'. apply Hh. revert He'. unfold cull_leaf.
    destruct (_ && _); [|auto]. apply remove_edge_if_incl. }
  eauto.
Qed.

Lemma built_inv_hangs (n : nat) (g : Graph) : built_inv n g -> hangs_below_parent g.
Proof.
  intros (W & _ & _ & Hr). apply hangs_below_parent_edges. intros x e' Ht He' Hs.
  apply in_degree_pos_edge.
  destruct (Nat.lt_ge_cases x (num_vertices g)) as [Hx|Hx]; [now apply Hr|].
  exfalso. apply Ht. unfold types, prop. now rewrite nth_overflow.
Qed.

Lemma single_node_parser_appends : appends_tree single_node_parser.
Proof.
  intros text g anchor normalize Ha.
  exists [mkVertex text (sexes g anchor) (ploidies g anchor) Somatic],
         [mkEdge anchor (num_vertices g) (float_of 1 0) SOMA_EDGE].
  split; [reflexivity|]. split; [repeat constructor|]. split.
  - constructor; [|constructor]. simpl. lia.
  - intros w H1 H2. simpl in *. assert (w = num_vertices g) by lia. subst w.
    now rewrite Nat.eqb_refl.
Qed.

Lemma cherry_parser_appends : appends_tree cherry_parser.
Proof.
  intros text g anchor normalize Ha. unfold cherry_parser.
  destruct (read_newick text) as [label|leaf1 leaf2 root|].
  - now apply single_node_parser_appends.
  - set (node := fun l => mkVertex l (sexes g anchor) (ploidies g anchor) Somatic).
    exists [node root; node leaf1; node leaf2],
           [mkEdge anchor (num_vertices g) (float_of 1 0) SOMA_EDGE;
            mkEdge (num_vertices g) (num_vertices g + 1) (float_of 1 0) SOMA_EDGE;
            mkEdge (num_vertices g) (num_vertices g + 2) (float_of 1 0) SOMA_EDGE].
    split; [|split; [|split]].
    + unfold add_edge, add_vertex; simpl. rewrite <- !app_assoc. reflexivity.
    + repeat constructor.
    + repeat constructor; simpl; lia.
    + intros w H1 H2. simpl in H2. simpl.
      destruct (Nat.eqb_spec (num_vertices g) w);
        destruct (Nat.eqb_spec (num_vertices g + 1) w);
        destruct (Nat.eqb_spec (num_vertices g + 2) w); simpl; lia.
  - exists [], []. split; [|split; [|split]].
    + simpl. rewrite !app_nil_r. now destruct g.
    + constructor.
    + constructor.
    + intros w H1 H2. simpl in H2. lia.
Qed.

(** C6, as the code has it -- a [Sample] vertex of the finalized graph has
    at most two in-edges and at least one edge; under the autosomal model it
    has an in-edge; and it stands for a [Sample] vertex of the built graph
    with the same label, without out-edge when that vertex has none.  The
    parser, which is external, is taken to append trees. *)
Theorem sample_vertices_degrees
    (parse_newick : string -> Graph -> vertex_t -> bool -> bool * Graph)
    (pedigree : Pedigree) (known_samples : list string) (model : InheritanceModel)
    (mu mu_somatic : double) (normalize : bool) (b : bool) (rg : RelationshipGraph)
    (g0 : Graph) (v : vertex_t) :
  appends_tree parse_newick ->
  construct_pedigree_graph parse_newick pedigree known_samples normalize = Ok g0 ->
  Construct parse_newick pedigree known_samples model mu mu_somatic normalize = Ok (b, rg) ->
  v < num_vertices (graph_ rg) ->
  types (graph_ rg) v = Sample ->
  in_degree (graph_ rg) v <= 2
  /\ 1 <= in_degree (graph_ rg) v + out_degree (graph_ rg) v
  /\ (model = ModelAutosomal -> 1 <= in_degree (graph_ rg) v)
  /\ exists u,
       u < num_vertices g0
       /\ types g0 u = Sample
       /\ labels g0 u = labels (graph_ rg) v
       /\ (out_degree g0 u = 0 -> out_degree (graph_ rg) v = 0).
Proof.
  intros Hparse Hb H Hv Ht. apply Construct_inv in H. destruct H as (g0' & p & Hb' & Hc & _).
  rewrite Hb in Hb'. inversion Hb'; subst g0'; clear Hb'.
  pose proof (built_graph_shape _ _ _ Hparse Hb) as B.
  pose proof B as (W0 & _ & H2 & _).
  apply compile_inv in Hc. destruct Hc as (rev_topo & pruned & topo & _ & Hp & Hts & Hf).
  destruct (@topological_sort_nodup _ _ Hts) as [ND Rng].
  destruct (finalized_vertex _ _ Hf Hv) as (u & Hu & Hprop).
  destruct (@finalize_degrees _ _ _ _ _ ND Hf Hu) as [Din Dout].
  pose proof (@sample_attached_finalize _ _ _ _ ND Hf Hv Ht) as Hdeg. unfold degree in Hdeg.
  set (gs := simplify_with rev_topo (update_edge_lengths g0 mu mu_somatic)) in *.
  assert (Hprops : forall (B : Type) (f : VertexProp -> B),
             (forall q x, f (set_ploidy q x) = f x) ->
             f (prop pruned u) = f (prop g0 u)).
  { intros B0 f Hf0. pose proof (prune_preserves f _ _ Hf0 Hp) as Hm.
    unfold gs in Hm. rewrite vertex_props_simplify_with in Hm. simpl in Hm.
    unfold prop.
    rewrite <- (map_nth f (vertex_props pruned)), <- (map_nth f (vertex_props g0)).
    rewrite Hm. reflexivity. }
  assert (Tu : types g0 u = Sample).
  { unfold types in *. rewrite <- (Hprops _ vertex_type (fun _ _ => eq_refl)).
    rewrite Hprop, vertex_type_add_suffix in Ht. exact Ht. }
  assert (Tp : types pruned u = Sample).
  { unfold types in *. rewrite (Hprops _ vertex_type (fun _ _ => eq_refl)). exact Tu. }
  split; [|split; [exact Hdeg|split]].
  - rewrite Din. destruct (prune_edges_filtered _ _ Hp) as (P & E).
    etransitivity; [exact (in_degree_filtered P _ _ u E)|].
    apply in_degree_simplify_with. intros y. now rewrite in_degree_update_edge_lengths.
  - intros ->. simpl in Hp. inversion Hp; subst pruned; clear Hp.
    assert (Hh : hangs_below_parent gs).
    { apply hangs_simplify_with, hangs_update_edge_lengths.
      exact (built_inv_hangs B). }
    destruct (in_degree gs u) as [|k] eqn:I; [|lia]. exfalso.
    assert (O : out_degree gs u = 0) by (apply Hh; [congruence | exact I]).
    lia.
  - exists u. split; [|split; [exact Tu|split]].
    + apply nth_error_In in Hu.
      assert (Hin : In u topo).
      { unfold vertex_order in Hu. apply in_rev.
        repeat (apply in_app_or in Hu; destruct Hu as [Hu|Hu]);
          apply filter_In in Hu; tauto. }
      apply Rng in Hin. unfold num_vertices in *.
      pose proof (prune_preserves vertex_type _ _ (fun _ _ => eq_refl) Hp) as Hm.
      unfold gs in Hm. rewrite vertex_props_simplify_with in Hm. simpl in Hm.
      apply (f_equal (@List.length _)) in Hm. rewrite !length_map in Hm. lia.
    + unfold labels. rewrite Hprop.
      rewrite <- (Hprops _ vertex_label (fun _ _ => eq_refl)).
      unfold add_suffix. unfold types in Tp. rewrite Tp. reflexivity.
    + intros O. rewrite Dout. apply out_degree_zero. intros e He Hs.
      pose proof (prune_incl _ _ Hp e He) as Hes.
      destruct (simplify_with_sources _ _ _ Hes) as (e1 & He1 & S1).
      apply update_edge_lengths_In in He1. destruct He1 as (e2 & He2 & S2 & _).
      rewrite out_degree_zero in O. apply (O e2 He2). congruence.
Qed.

Lemma sample_vertices_degrees_witness :
  exists rg g0,
    Construct cherry_parser cherry_pedigree ["trunk"; "leaf1"; "leaf2"] ModelAutosomal
              (double_of 1 (-1)) (double_of 1 (-2)) false = Ok (true, rg)
    /\ construct_pedigree_graph cherry_parser cherry_pedigree ["trunk"; "leaf1"; "leaf2"]
                                false = Ok g0
    /\ in_degree (graph_ rg) 2 <= 2
    /\ 1 <= in_degree (graph_ rg) 2 + out_degree (graph_ rg) 2
    /\ (ModelAutosomal = ModelAutosomal -> 1 <= in_degree (graph_ rg) 2)
    /\ exists u,
         u < num_vertices g0
         /\ types g0 u = Sample
         /\ labels g0 u = labels (graph_ rg) 2
         /\ (out_degree g0 u = 0 -> out_degree (graph_ rg) 2 = 0).
Proof.
  eexists. eexists. split; [vm_compute; reflexivity|]. split; [vm_compute; reflexivity|].
  eapply (@sample_vertices_degrees cherry_parser cherry_pedigree
            ["trunk"; "leaf1"; "leaf2"] ModelAutosomal (double_of 1 (-1)) (double_of 1 (-2))
            false true _ _ 2).
  - exact cherry_parser_appends.
  - vm_compute. reflexivity.
  - vm_compute. reflexivity.
  - vm_compute. lia.
  - reflexivity.
Defined.

(** C6 refuted as stated -- (1) two founders, their two children and one
    sequenced sample per child: each child is bypassed and its sample ends
    with both founders as parents, in-degree 2; (2) a founder whose sample is
    a cherry with a known sample at every node: the root of the cherry is a
    [Sample] vertex with out-degree 2; (3) a father and his haploid son with
    such a cherry, under the X-linked model: the son is bypassed, the pruner
    removes the edge from the father to the root of the cherry, and the root
    is a [Sample] vertex without in-edge. *)
Lemma sample_in_degree_and_out_degree_vary :
  (exists rg,
     Construct single_node_parser quartet_pedigree ["c1"; "d1"] ModelAutosomal
               (double_of 1 (-1)) (double_of 1 (-2)) false = Ok (true, rg)
     /\ types (graph_ rg) 2 = Sample
     /\ in_degree (graph_ rg) 2 = 2)
  /\ (exists rg,
        Construct cherry_parser cherry_pedigree ["trunk"; "leaf1"; "leaf2"] ModelAutosomal
                  (double_of 1 (-1)) (double_of 1 (-2)) false = Ok (true, rg)
        /\ types (graph_ rg) 1 = Sample
        /\ out_degree (graph_ rg) 1 = 2)
  /\ (exists rg,
        Construct cherry_parser father_son_pedigree ["a1"; "trunk"; "leaf1"; "leaf2"]
                  ModelXLinked (double_of 1 (-1)) (double_of 1 (-2)) false = Ok (true, rg)
        /\ types (graph_ rg) 1 = Sample
        /\ in_degree (graph_ rg) 1 = 0
        /\ out_degree (graph_ rg) 1 = 2).
Proof.
  split; [|split]; eexists; (split; [vm_compute; reflexivity|]); repeat split.
Qed.

(** C7 -- when [Construct] succeeds, the junction tree built from the reverse
    elimination order is a tree on its nodes: it has a node as soon as the
    graph has a vertex, one edge less than nodes, every edge goes from a node
    to a later one and all nodes are connected; every clique holds vertices
    of the graph only; every vertex of the graph has a node that carries its
    elimination clique, the vertex with the neighbours it was eliminated
    with; and for every vertex the nodes whose clique holds it are connected
    through nodes whose clique holds it. *)
Theorem junction_tree_connected_running_intersection
    (parse_newick : string -> Graph -> vertex_t -> bool -> bool * Graph)
    (pedigree : Pedigree) (known_samples : list string) (model : InheritanceModel)
    (mu mu_somatic : double) (normalize : bool) (b : bool) (rg : RelationshipGraph) :
  Construct parse_newick pedigree known_samples model mu mu_somatic normalize = Ok (b, rg) ->
  exists p,
    peeling_order (graph_ rg) = Ok p
    /\ List.length (cliques (peel_junction p)) = jt_nodes (peel_junction p)
    /\ (forall i j, In (i, j) (jt_edges (peel_junction p)) ->
                    i < j /\ j < jt_nodes (peel_junction p))
    /\ List.length (jt_edges (peel_junction p)) = jt_nodes (peel_junction p) - 1
    /\ (forall i j, i < jt_nodes (peel_junction p) -> j < jt_nodes (peel_junction p) ->
                    reach (jt_edges (peel_junction p)) (fun _ => True) i j)
    /\ (forall x i j,
          i < jt_nodes (peel_junction p) -> j < jt_nodes (peel_junction p) ->
          In x (nth i (cliques (peel_junction p)) []) ->
          In x (nth j (cliques (peel_junction p)) []) ->
          reach (jt_edges (peel_junction p))
                (fun m => In x (nth m (cliques (peel_junction p)) [])) i j)
    /\ (0 < num_vertices (graph_ rg) ->
          0 < jt_nodes (peel_junction p)
          /\ List.length (jt_edges (peel_junction p)) + 1 = jt_nodes (peel_junction p))
    /\ (num_vertices (graph_ rg) = 0 -> jt_nodes (peel_junction p) = 0)
    /\ (forall x, x < num_vertices (graph_ rg) ->
          exists i, i < jt_nodes (peel_junction p)
                    /\ nth i (cliques (peel_junction p)) []
                       = set_insert x (nb_get (peel_neighbors p) x)
                    /\ In x (nth i (cliques (peel_junction p)) []))
    /\ (forall i x, In x (nth i (cliques (peel_junction p)) []) ->
                    x < num_vertices (graph_ rg)).
Proof.
  intros H. apply Construct_inv in H. destruct H as (g0 & p & _ & Hc & Hp).
  exists p. split; [assumption|].
  apply compile_wf in Hc.
  destruct (peeling_order_done Hc Hp) as [D E].
  pose proof (junction_tree_inv D) as J. rewrite <- E in J.
  destruct (ji_tree J) as [T1 T2 T3 T4 T5].
  assert (Hcover : forall x, x < num_vertices (graph_ rg) ->
            exists i, i < jt_nodes (peel_junction p)
                      /\ nth i (cliques (peel_junction p)) []
                         = set_insert x (nb_get (peel_neighbors p) x)
                      /\ In x (nth i (cliques (peel_junction p)) [])).
  { intros x Hx. apply (done_all D) in Hx.
    destruct (ji_present J x Hx) as (i & Hi & Hn).
    exists i. split; [exact Hi|]. split; [exact Hn|].
    rewrite Hn. apply set_insert_In. now left. }
  split; [exact T1|]. split; [exact T2|]. split; [exact T3|].
  split; [exact T4|]. split; [exact T5|]. split; [|split; [|split]].
  - intros Hpos. destruct (Hcover 0 Hpos) as (i & Hi & _). lia.
  - intros Hz. apply (ji_empty J).
    pose proof (done_all D) as Hall.
    destruct (elim_order p) as [|v l]; [reflexivity|].
    assert (Hv : v < num_vertices (graph_ rg)) by (apply Hall; now left).
    lia.
  - exact Hcover.
  - intros i x Hx. apply (done_all D). exact (ji_members J i x Hx).
Qed.

Lemma junction_tree_connected_running_intersection_witness :
  exists p,
    peeling_order quartet_graph = Ok p
    /\ List.length (cliques (peel_junction p)) = jt_nodes (peel_junction p)
    /\ (forall i j, In (i, j) (jt_edges (peel_junction p)) ->
                    i < j /\ j < jt_nodes (peel_junction p))
    /\ List.length (jt_edges (peel_junction p)) = jt_nodes (peel_junction p) - 1
    /\ (forall i j, i < jt_nodes (peel_junction p) -> j < jt_nodes (peel_junction p) ->
                    reach (jt_edges (peel_junction p)) (fun _ => True) i j)
    /\ (forall x i j,
          i < jt_nodes (peel_junction p) -> j < jt_nodes (peel_junction p) ->
          In x (nth i (cliques (peel_junction p)) []) ->
          In x (nth j (cliques (peel_junction p)) []) ->
          reach (jt_edges (peel_junction p))
                (fun m => In x (nth m (cliques (peel_junction p)) [])) i j)
    /\ (0 < num_vertices quartet_graph ->
          0 < jt_nodes (peel_junction p)
          /\ List.length (jt_edges (peel_junction p)) + 1 = jt_nodes (peel_junction p))
    /\ (num_vertices quartet_graph = 0 -> jt_nodes (peel_junction p) = 0)
    /\ (forall x, x < num_vertices quartet_graph ->
          exists i, i < jt_nodes (peel_junction p)
                    /\ nth i (cliques (peel_junction p)) []
                       = set_insert x (nb_get (peel_neighbors p) x)
                    /\ In x (nth i (cliques (peel_junction p)) []))
    /\ (forall i x, In x (nth i (cliques (peel_junction p)) []) ->
                    x < num_vertices quartet_graph).
Proof.
  apply (@junction_tree_connected_running_intersection single_node_parser
           quartet_pedigree ["c1"; "d1"] ModelAutosomal (double_of 1 (-1)) (double_of 1 (-2))
           false true (mkRelationshipGraph ModelAutosomal quartet_graph)).
  vm_compute. reflexivity.
Defined.
